(** * Multi-screen sync: the screen-position detection pipeline

    A shallow embedding of [public/js/controller.js]: frame averaging, the
    aspect-aware geometry helpers, the difference / blur / threshold /
    morphology / flood-fill detection pipeline, bounding-box refinement,
    area colour sampling and the scan orchestrator.

    Conventions of the embedding.
    - JavaScript numbers that hold pixel values, coordinates, indices and
      counters are integers in the source and are modelled in [Z].
    - JavaScript numbers that hold luminances, weights and normalized
      coordinates are modelled as real numbers [R]: the model is the exact
      arithmetic that the double and [Float32Array] computations approximate.
    - A typed array is a [list]; a read outside its bounds is [undefined]
      ([None]), a write outside its bounds is ignored.
    - The flood fill's [while] loop runs on fuel; [OutOfFuel] is the outcome
      of a run that needs more iterations than the image has pixels. *)

From Stdlib Require Import String.
From Stdlib Require Import Reals ZArith QArith Qround List Bool FinFun Lia Lra Psatz.
From Stdlib Require PrimFloat.
Import ListNotations.

Local Close Scope Q_scope.
Local Open Scope Z_scope.

(** ** JavaScript runtime values *)

(** [a[i]]: [None] is [undefined]. *)
Definition get {A : Type} (a : list A) (i : Z) : option A :=
  if i <? 0 then None else nth_error a (Z.to_nat i).

Fixpoint update {A : Type} (n : nat) (v : A) (a : list A) : list A :=
  match a, n with
  | [], _ => []
  | _ :: t, O => v :: t
  | h :: t, S n' => h :: update n' v t
  end.

(** [a[i] = v] on a typed array: a write outside the array is dropped. *)
Definition put {A : Type} (a : list A) (i : Z) (v : A) : list A :=
  if i <? 0 then a else update (Z.to_nat i) v a.

(** A read of a [Float32Array] cell, in the real-number model.  The pipeline
    only reads cells inside the arrays it allocates; the default stands for
    the [NaN] an outside read would give. *)
Definition getR (a : list R) (i : Z) : R :=
  match get a i with Some v => v | None => 0%R end.

(** Integer-valued numbers that may be [NaN] ([None]): what [Math.max],
    [Math.min] and [+=] see when an operand is [undefined]. *)
Definition num : Type := option Z.

Definition Math_max (a b : num) : num :=
  match a, b with Some x, Some y => Some (Z.max x y) | _, _ => None end.

Definition Math_min (a b : num) : num :=
  match a, b with Some x, Some y => Some (Z.min x y) | _, _ => None end.

Definition num_add (a b : num) : num :=
  match a, b with Some x, Some y => Some (x + y) | _, _ => None end.

(** Storing into a [Uint8Array]: [NaN] becomes 0, integers wrap modulo 256. *)
Definition ToUint8 (v : num) : Z :=
  match v with Some z => z mod 256 | None => 0 end.

(** Storing into a [Uint8ClampedArray]: [NaN] becomes 0, integers clamp. *)
Definition ToUint8Clamp (v : num) : Z :=
  match v with Some z => Z.min (Z.max z 0) 255 | None => 0 end.

(** [v === 255] and the truthiness of a typed-array cell. *)
Definition is255 (v : option Z) : bool :=
  match v with Some z => z =? 255 | None => false end.

Definition truthy (v : option Z) : bool :=
  match v with Some z => negb (z =? 0) | None => false end.

(** [Math.round] and [Math.floor]. [Math.round] rounds half up. *)
Definition Math_round_Q (q : Q) : Z := Qfloor (q + (1 # 2))%Q.
Definition Math_round (r : R) : Z := Zfloor (r + / 2)%R.
Definition Math_floor (r : R) : Z := Zfloor r.

Definition Rgtb (x y : R) : bool := if Rgt_dec x y then true else false.
Definition Rgeb (x y : R) : bool := if Rge_dec x y then true else false.

(** ** Loops *)

(** The integers [lo, lo+1, ..., hi-1]. *)
Definition zrange (lo hi : Z) : list Z :=
  map (fun i => lo + Z.of_nat i) (seq 0 (Z.to_nat (hi - lo))).

(** [for (let i = lo; i < hi; i++) s = body(i, s)]. *)
Definition forZ {S : Type} (lo hi : Z) (body : Z -> S -> S) (s : S) : S :=
  fold_left (fun s i => body i s) (zrange lo hi) s.

(** The doubly nested pixel loop of the source,
    [for (y < height) for (x < width) result[y * width + x] = f(x, y)]. *)
Definition write_pixels {A : Type} (width height : Z) (f : Z -> Z -> A)
    (result : list A) : list A :=
  forZ 0 height (fun y result =>
    forZ 0 width (fun x result => put result (y * width + x) (f x y)) result)
    result.

(** Outcome of a computation that contains the fuelled [while] loop. *)
Inductive outcome (A : Type) : Type :=
| Returns (a : A)
| OutOfFuel.
Arguments Returns {A} a.
Arguments OutOfFuel {A}.

Definition bind {A B : Type} (m : outcome A) (k : A -> outcome B) : outcome B :=
  match m with Returns a => k a | OutOfFuel => OutOfFuel end.

Notation "x <- m ;; k" := (bind m (fun x => k))
  (at level 61, m at next level, right associativity).
Notation "' p <- m ;; k" := (bind m (fun p => k))
  (at level 61, p pattern, m at next level, right associativity).

(** ** Data model *)

Module Config.
Record t : Type := mk {
  scanFlashDuration : Z;
  scanCooldown : Z;
  brightnessThreshold : R;
  minBlobSize : Z;
  animationFPS : Z;
  canvasSize : Z;
  edgeDetectionPasses : Z;
  morphologyKernel : Z;
  gaussianBlurRadius : Z;
  minNormalizedArea : R;
  maxNormalizedArea : R
}.
End Config.

Definition CONFIG : Config.t := {|
  Config.scanFlashDuration := 400;
  Config.scanCooldown := 250;
  Config.brightnessThreshold := 40;
  Config.minBlobSize := 30;
  Config.animationFPS := 30;
  Config.canvasSize := 200;
  Config.edgeDetectionPasses := 2;
  Config.morphologyKernel := 3;
  Config.gaussianBlurRadius := 2;
  Config.minNormalizedArea := 0.02;
  Config.maxNormalizedArea := 0.65
|}.

Module ImageData.
Record t : Type := mk { width : Z; height : Z; data : list Z }.
End ImageData.

Module Rect.
Record t : Type := mk { x : R; y : R; width : R; height : R }.
End Rect.

Module Point.
Record t : Type := mk { x : R; y : R }.
End Point.

Module Box.
Record t : Type := mk { minX : Z; maxX : Z; minY : Z; maxY : Z }.
End Box.

Definition Pixel : Type := (Z * Z)%type.

Record Blob : Type := { pixels : list Pixel }.

Module Detection.
Record t : Type := mk { center : Point.t; area : Rect.t; pixelCount : Z }.
End Detection.

Module Color.
Record t : Type := mk { r : Z; g : Z; b : Z }.
End Color.

Module Screen.
Record t : Type := mk {
  socketId : string;
  name : string;
  position : option Point.t;
  area : option Rect.t
}.
End Screen.

(** ** Frame averaging *)

(** [new ImageData(width, height)]: throws ([None]) unless both are positive. *)
Definition new_ImageData (width height : Z) : option ImageData.t :=
  if (0 <? width) && (0 <? height)
  then Some (ImageData.mk width height (repeat 0 (Z.to_nat (4 * width * height))))
  else None.

(** [Math.round(sum / numFrames)] for an integer (or [NaN]) [sum]. *)
Definition round_ratio (sum : num) (numFrames : Z) : num :=
  match sum with
  | Some s => Some (Math_round_Q (inject_Z s / inject_Z numFrames)%Q)
  | None => None
  end.

(** [averageFrames]; [None] is a thrown exception ([frames[0]] of an empty
    list, or an [ImageData] of zero size). *)
Definition averageFrames (frames : list ImageData.t) : option ImageData.t :=
  match frames with
  | [] => None
  | first :: _ =>
    let width := ImageData.width first in
    let height := ImageData.height first in
    match new_ImageData width height with
    | None => None
    | Some result =>
      let numFrames := Z.of_nat (length frames) in
      let data :=
        forZ 0 (Z.of_nat (length (ImageData.data result))) (fun i data =>
          let sum :=
            fold_left (fun sum frame => num_add sum (get (ImageData.data frame) i))
                      frames (Some 0) in
          put data i (ToUint8Clamp (round_ratio sum numFrames)))
          (ImageData.data result) in
      Some (ImageData.mk width height data)
    end
  end.

(** ** Geometry helpers (aspect-ratio aware) *)

Section Geometry.
Local Open Scope R_scope.

Definition normalizeRectToSquare (rect : Rect.t) (width height : R) : Rect.t :=
  let landscape := Rgeb width height in
  if landscape then
    let scale := height / width in
    let padY := (1 - scale) / 2 in
    {| Rect.x := Rect.x rect / width;
       Rect.y := (Rect.y rect / height) * scale + padY;
       Rect.width := Rect.width rect / width;
       Rect.height := (Rect.height rect / height) * scale |}
  else
    let scale := width / height in
    let padX := (1 - scale) / 2 in
    {| Rect.x := (Rect.x rect / width) * scale + padX;
       Rect.y := Rect.y rect / height;
       Rect.width := (Rect.width rect / width) * scale;
       Rect.height := Rect.height rect / height |}.

Definition normalizePointToSquare (x y width height : R) : Point.t :=
  let landscape := Rgeb width height in
  if landscape then
    let scale := height / width in
    let padY := (1 - scale) / 2 in
    {| Point.x := x / width;
       Point.y := (y / height) * scale + padY |}
  else
    let scale := width / height in
    let padX := (1 - scale) / 2 in
    {| Point.x := (x / width) * scale + padX;
       Point.y := y / height |}.

Definition denormalizeRectFromSquare (rect : Rect.t) (width height : R) : Rect.t :=
  let landscape := Rgeb width height in
  if landscape then
    let scale := height / width in
    let padY := (1 - scale) / 2 in
    {| Rect.x := Rect.x rect * width;
       Rect.y := ((Rect.y rect - padY) / scale) * height;
       Rect.width := Rect.width rect * width;
       Rect.height := (Rect.height rect / scale) * height |}
  else
    let scale := width / height in
    let padX := (1 - scale) / 2 in
    {| Rect.x := ((Rect.x rect - padX) / scale) * width;
       Rect.y := Rect.y rect * height;
       Rect.width := (Rect.width rect / scale) * width;
       Rect.height := Rect.height rect * height |}.

Definition clampRect (cfg : Config.t) (rect : Rect.t) : Rect.t :=
  let x := Rmin (Rmax (Rect.x rect) 0) 1 in
  let y := Rmin (Rmax (Rect.y rect) 0) 1 in
  let width :=
    Rmin (Rmax (Rect.width rect) (Config.minNormalizedArea cfg))
         (Config.maxNormalizedArea cfg) in
  let height :=
    Rmin (Rmax (Rect.height rect) (Config.minNormalizedArea cfg))
         (Config.maxNormalizedArea cfg) in
  {| Rect.x := x; Rect.y := y; Rect.width := width; Rect.height := height |}.

End Geometry.

(** ** Difference map and Gaussian blur *)

Section Blur.
Local Open Scope R_scope.

(** Luminance of the pixel whose red channel is at index [i].  Frames of
    equal size are read inside their data; a channel read outside the data
    is [undefined] in the source and makes the luminance [NaN], for which
    the real-number model has no value and puts 0. *)
Definition luminance (data : list Z) (i : Z) : R :=
  let chan (k : Z) : R :=
    match get data (i + k)%Z with Some v => IZR v | None => 0 end in
  chan 0%Z * 0.299 + chan 1%Z * 0.587 + chan 2%Z * 0.114.

(** Step 1 of [detectScreenArea]. *)
Definition differenceMap (baseFrame activeFrame : ImageData.t) : list R :=
  let width := ImageData.width baseFrame in
  let height := ImageData.height baseFrame in
  let baseData := ImageData.data baseFrame in
  let activeData := ImageData.data activeFrame in
  write_pixels width height (fun x y =>
      let i := ((y * width + x) * 4)%Z in
      let baseLum := luminance baseData i in
      let activeLum := luminance activeData i in
      Rmax 0 (activeLum - baseLum))
    (repeat 0 (Z.to_nat (width * height))).

Definition createGaussianKernel (radius : Z) : list R :=
  let sigma := IZR radius / 2 in
  let kernel := repeat 0 (Z.to_nat (radius * 2 + 1)) in
  let '(kernel, sum) :=
    forZ (- radius) (radius + 1) (fun i '(kernel, sum) =>
        let kernel :=
          put kernel (i + radius)
              (exp (- (IZR i * IZR i) / (2 * sigma * sigma))) in
        (kernel, sum + getR kernel (i + radius)))
      (kernel, 0) in
  forZ 0 (Z.of_nat (length kernel)) (fun i kernel =>
      put kernel i (getR kernel i / sum))
    kernel.

(** One output cell of a blur pass: the kernel-weighted mean of the cells
    [cell k] for [k] from [-radius] to [radius]. *)
Definition blur_cell (kernel : list R) (radius : Z) (cell : Z -> R) : R :=
  let '(sum, weightSum) :=
    forZ (- radius) (radius + 1) (fun k '(sum, weightSum) =>
        let weight := getR kernel (k + radius) in
        (sum + cell k * weight, weightSum + weight))
      (0, 0) in
  sum / weightSum.

Definition gaussianBlur (data : list R) (width height radius : Z) : list R :=
  let kernel := createGaussianKernel radius in
  let result := repeat 0 (length data) in
  let temp := repeat 0 (length data) in
  let temp :=
    write_pixels width height (fun x y =>
        blur_cell kernel radius (fun k =>
          let px := Z.min (Z.max (x + k) 0) (width - 1) in
          getR data (y * width + px)))
      temp in
  write_pixels width height (fun x y =>
      blur_cell kernel radius (fun k =>
        let py := Z.min (Z.max (y + k) 0) (height - 1) in
        getR temp (py * width + x)))
    result.

(** ** Adaptive threshold *)

(** [calculateAdaptiveThreshold] in exact arithmetic; the same computation
    in double arithmetic is [Float64.calculateAdaptiveThreshold] below. *)
Definition calculateAdaptiveThreshold (cfg : Config.t) (data : list R)
    (width height : Z) : R :=
  let '(sum, sumSq, count) :=
    fold_left (fun '(sum, sumSq, count) d =>
        if Rgtb d 5 then (sum + d, sumSq + d * d, (count + 1)%Z)
        else (sum, sumSq, count))
      data (0, 0, 0%Z) in
  if (count =? 0)%Z then Config.brightnessThreshold cfg
  else
    let mean := sum / IZR count in
    let variance := sumSq / IZR count - mean * mean in
    let stdDev := sqrt variance in
    Rmax (Config.brightnessThreshold cfg) (mean + stdDev * 1.5).

(** Steps 2 to 4 of [detectScreenArea]. *)
Definition blurredDifference (cfg : Config.t) (baseFrame activeFrame : ImageData.t)
    : list R :=
  gaussianBlur (differenceMap baseFrame activeFrame)
    (ImageData.width baseFrame) (ImageData.height baseFrame)
    (Config.gaussianBlurRadius cfg).

Definition binaryMask (blurredDiff : list R) (threshold : R) (width height : Z)
    : list Z :=
  forZ 0 (Z.of_nat (length blurredDiff)) (fun i binaryMask =>
      put binaryMask i (if Rgtb (getR blurredDiff i) threshold then 255 else 0)%Z)
    (repeat 0%Z (Z.to_nat (width * height))).

End Blur.

(** ** Morphology *)

Definition dilate (mask : list Z) (width height kernelSize : Z) : list Z :=
  let half := kernelSize / 2 in
  write_pixels width height (fun x y =>
      let maxVal :=
        forZ (- half) (half + 1) (fun ky maxVal =>
          forZ (- half) (half + 1) (fun kx maxVal =>
            let ny := Z.min (Z.max (y + ky) 0) (height - 1) in
            let nx := Z.min (Z.max (x + kx) 0) (width - 1) in
            Math_max maxVal (get mask (ny * width + nx)))
            maxVal)
          (Some 0) in
      ToUint8 maxVal)
    (repeat 0 (length mask)).

Definition erode (mask : list Z) (width height kernelSize : Z) : list Z :=
  let half := kernelSize / 2 in
  write_pixels width height (fun x y =>
      let minVal :=
        forZ (- half) (half + 1) (fun ky minVal =>
          forZ (- half) (half + 1) (fun kx minVal =>
            let ny := Z.min (Z.max (y + ky) 0) (height - 1) in
            let nx := Z.min (Z.max (x + kx) 0) (width - 1) in
            Math_min minVal (get mask (ny * width + nx)))
            minVal)
          (Some 255) in
      ToUint8 minVal)
    (repeat 0 (length mask)).

(** Step 5 of [detectScreenArea]: dilate, then erode. *)
Definition closing (cfg : Config.t) (mask : list Z) (width height : Z) : list Z :=
  erode (dilate mask width height (Config.morphologyKernel cfg))
        width height (Config.morphologyKernel cfg).

(** ** Connected components *)

Definition directions : list (Z * Z) := [(-1, 0); (1, 0); (0, -1); (0, 1)].

(** The [for (const [dx, dy] of directions)] loop of [floodFill]. *)
Definition visit_neighbours (mask : list Z) (width height x y : Z)
    (state : list Z * list Pixel) : list Z * list Pixel :=
  fold_left (fun '(visited, queue) '(dx, dy) =>
      let nx := x + dx in
      let ny := y + dy in
      if (nx >=? 0) && (nx <? width) && (ny >=? 0) && (ny <? height) then
        let idx := ny * width + nx in
        if is255 (get mask idx) && negb (truthy (get visited idx)) then
          (put visited idx 1, queue ++ [(nx, ny)])
        else (visited, queue)
      else (visited, queue))
    directions state.

(** The [while (queue.length > 0)] loop of [floodFill]; one unit of fuel per
    iteration. *)
Fixpoint floodFill_loop (fuel : nat) (mask : list Z) (width height : Z)
    (visited : list Z) (queue pixels : list Pixel)
    : outcome (list Pixel * list Z) :=
  match queue with
  | [] => Returns (pixels, visited)
  | (x, y) :: queue =>
    match fuel with
    | O => OutOfFuel
    | S fuel =>
      let pixels := pixels ++ [(x, y)] in
      let '(visited, queue) :=
        visit_neighbours mask width height x y (visited, queue) in
      floodFill_loop fuel mask width height visited queue pixels
    end
  end.

(** [floodFill] returns the pixels and the updated [visited] array, which the
    source mutates in place.  Every iteration moves one new cell to [pixels],
    so one unit of fuel per cell of the image is enough. *)
Definition floodFill (mask visited : list Z) (width height startX startY : Z)
    : outcome (list Pixel * list Z) :=
  let visited := put visited (startY * width + startX) 1 in
  floodFill_loop (Z.to_nat (width * height)) mask width height
    visited [(startX, startY)] [].

Definition findLargestBlob (mask : list Z) (width height : Z)
    : outcome (option Blob) :=
  let visited := repeat 0 (Z.to_nat (width * height)) in
  '(_, largestBlob, _) <-
    forZ 0 height (fun y state =>
      forZ 0 width (fun x state =>
        '(visited, largestBlob, largestSize) <- state ;;
        let idx := y * width + x in
        if is255 (get mask idx) && negb (truthy (get visited idx)) then
          '(blob, visited) <- floodFill mask visited width height x y ;;
          if Z.of_nat (length blob) >? largestSize
          then Returns (visited, Some {| pixels := blob |}, Z.of_nat (length blob))
          else Returns (visited, largestBlob, largestSize)
        else Returns (visited, largestBlob, largestSize))
        state)
      (Returns (visited, None, 0)) ;;
  Returns largestBlob.

(** ** Bounding box, centroid and refinement *)

Section Refinement.

Definition refineBoundingBox (diffMap : list R) (width height : Z)
    (minX minY maxX maxY : Z) : Box.t :=
  let padding := 5 in
  let searchMinX := Z.max 0 (minX - padding) in
  let searchMaxX := Z.min (width - 1) (maxX + padding) in
  let searchMinY := Z.max 0 (minY - padding) in
  let searchMaxY := Z.min (height - 1) (maxY + padding) in
  let edgeThreshold := 20%R in
  forZ searchMinY (searchMaxY + 1) (fun y box =>
    forZ searchMinX (searchMaxX + 1) (fun x box =>
      let val := getR diffMap (y * width + x) in
      if Rgtb val edgeThreshold then
        {| Box.minX := Z.min (Box.minX box) x;
           Box.maxX := Z.max (Box.maxX box) x;
           Box.minY := Z.min (Box.minY box) y;
           Box.maxY := Z.max (Box.maxY box) y |}
      else box)
      box)
    {| Box.minX := maxX; Box.maxX := minX; Box.minY := maxY; Box.maxY := minY |}.

(** The accumulators of step 7 of [detectScreenArea]. *)
Record Extent : Type := {
  minX : Z; maxX : Z; minY : Z; maxY : Z;
  totalX : R; totalY : R; totalWeight : R
}.

(** The [blob.pixels.forEach] loop of step 7. *)
Definition blobExtent (blurredDiff : list R) (width height : Z)
    (blobPixels : list Pixel) : Extent :=
  fold_left (fun e '(x, y) =>
      let weight := getR blurredDiff (y * width + x) in
      {| minX := Z.min (minX e) x;
         maxX := Z.max (maxX e) x;
         minY := Z.min (minY e) y;
         maxY := Z.max (maxY e) y;
         totalX := (totalX e + IZR x * weight)%R;
         totalY := (totalY e + IZR y * weight)%R;
         totalWeight := (totalWeight e + weight)%R |})
    blobPixels
    {| minX := width; maxX := 0; minY := height; maxY := 0;
       totalX := 0; totalY := 0; totalWeight := 0 |}.

End Refinement.

(** ** Screen detection *)

(** Steps 1 to 5: the mask handed to [findLargestBlob]. *)
Definition processedMask (cfg : Config.t) (baseFrame activeFrame : ImageData.t)
    : list Z :=
  let width := ImageData.width baseFrame in
  let height := ImageData.height baseFrame in
  let blurredDiff := blurredDifference cfg baseFrame activeFrame in
  let threshold := calculateAdaptiveThreshold cfg blurredDiff width height in
  closing cfg (binaryMask blurredDiff threshold width height) width height.

(** Steps 7 and 8 and the normalization: the detection reported for the
    chosen blob. *)
Definition blobDetection (cfg : Config.t) (blurredDiff : list R)
    (width height : Z) (blob : Blob) : Detection.t :=
  let e := blobExtent blurredDiff width height (pixels blob) in
  let refinedBox :=
    refineBoundingBox blurredDiff width height
      (minX e) (minY e) (maxX e) (maxY e) in
  let centerX :=
    if Rgtb (totalWeight e) 0 then (totalX e / totalWeight e)%R
    else (IZR (minX e + maxX e) / 2)%R in
  let centerY :=
    if Rgtb (totalWeight e) 0 then (totalY e / totalWeight e)%R
    else (IZR (minY e + maxY e) / 2)%R in
  let normalizedArea :=
    clampRect cfg (normalizeRectToSquare
      {| Rect.x := IZR (Box.minX refinedBox);
         Rect.y := IZR (Box.minY refinedBox);
         Rect.width := IZR (Box.maxX refinedBox - Box.minX refinedBox);
         Rect.height := IZR (Box.maxY refinedBox - Box.minY refinedBox) |}
      (IZR width) (IZR height)) in
  let normalizedCenter :=
    normalizePointToSquare centerX centerY (IZR width) (IZR height) in
  {| Detection.center :=
       {| Point.x := Point.x normalizedCenter;
          Point.y := Point.y normalizedCenter |};
     Detection.area :=
       {| Rect.x := Rect.x normalizedArea;
          Rect.y := Rect.y normalizedArea;
          Rect.width := Rect.width normalizedArea;
          Rect.height := Rect.height normalizedArea |};
     Detection.pixelCount := Z.of_nat (length (pixels blob)) |}.

Definition detectScreenArea (cfg : Config.t) (baseFrame activeFrame : ImageData.t)
    : outcome (option Detection.t) :=
  let width := ImageData.width baseFrame in
  let height := ImageData.height baseFrame in
  let blurredDiff := blurredDifference cfg baseFrame activeFrame in
  let processedMask := processedMask cfg baseFrame activeFrame in
  blob <- findLargestBlob processedMask width height ;;
  match blob with
  | None => Returns None
  | Some blob =>
    if Z.of_nat (length (pixels blob)) <? Config.minBlobSize cfg then Returns None
    else Returns (Some (blobDetection cfg blurredDiff width height blob))
  end.

(** A read of a [Uint8ClampedArray] cell in a numeric context. *)
Definition getZ (a : list Z) (i : Z) : Z :=
  match get a i with Some v => v | None => 0 end.

(** The virtual animation canvas is an RGBA image of [canvasSize] x
    [canvasSize] pixels.  [getImageData] is the 2D context's method of that
    name: the RGBA bytes of the [sw] x [sh] rectangle at ([sx], [sy]), row by
    row, four per pixel; a pixel of the rectangle that lies outside the
    canvas reads as transparent black, [0, 0, 0, 0]. *)
Definition canvas_channel (canvas : ImageData.t) (x y k : Z) : Z :=
  if (0 <=? x) && (x <? ImageData.width canvas)
     && (0 <=? y) && (y <? ImageData.height canvas)
  then getZ (ImageData.data canvas) ((y * ImageData.width canvas + x) * 4 + k)
  else 0.

Definition getImageData (canvas : ImageData.t) (sx sy sw sh : Z) : list Z :=
  map (fun i =>
         let p := i / 4 in
         canvas_channel canvas (sx + p mod sw) (sy + p / sw) (i mod 4))
      (zrange 0 (4 * sw * sh)).

Record Totals : Type := {
  totalR : R; totalG : R; totalB : R; totalW : R
}.

Section Sampler.
Local Open Scope R_scope.

(** The weight of the sampled pixel ([x], [y]) of an [areaW] x [areaH] area. *)
Definition sampleWeight (areaW areaH x y : Z) : R :=
  let centerX := IZR areaW / 2 in
  let centerY := IZR areaH / 2 in
  let dx := (IZR x - centerX) / (IZR areaW / 2) in
  let dy := (IZR y - centerY) / (IZR areaH / 2) in
  let dist := sqrt (dx * dx + dy * dy) in
  exp (- dist * dist).

(** The weighted sums of [sampleAreaColor]'s two loops over the sampled
    bytes [data] of an [areaW] x [areaH] area. *)
Definition sampleTotals (data : list Z) (areaW areaH : Z) : Totals :=
  forZ 0 areaH (fun y t =>
    forZ 0 areaW (fun x t =>
      let i := ((y * areaW + x) * 4)%Z in
      let weight := sampleWeight areaW areaH x y in
      {| totalR := totalR t + IZR (getZ data i) * weight;
         totalG := totalG t + IZR (getZ data (i + 1)) * weight;
         totalB := totalB t + IZR (getZ data (i + 2)) * weight;
         totalW := totalW t + weight |})
      t)
    {| totalR := 0; totalG := 0; totalB := 0; totalW := 0 |}.

(** [sampleAreaColor]; [None] is the exception thrown when a screen has
    neither an area nor a position. *)
Definition sampleAreaColor (cfg : Config.t) (virtualCanvas : ImageData.t)
    (screen : Screen.t) : option Color.t :=
  let canvasSize := Config.canvasSize cfg in
  match Screen.area screen with
  | Some area =>
    let normalized := clampRect cfg area in
    let areaX := Math_floor (Rect.x normalized * IZR canvasSize) in
    let areaY := Math_floor (Rect.y normalized * IZR canvasSize) in
    let areaW := Z.max 1 (Math_floor (Rect.width normalized * IZR canvasSize)) in
    let areaH := Z.max 1 (Math_floor (Rect.height normalized * IZR canvasSize)) in
    let data := getImageData virtualCanvas areaX areaY areaW areaH in
    let t := sampleTotals data areaW areaH in
    Some {| Color.r := Math_round (totalR t / totalW t);
            Color.g := Math_round (totalG t / totalW t);
            Color.b := Math_round (totalB t / totalW t) |}
  | None =>
    match Screen.position screen with
    | None => None
    | Some position =>
      let pixelX := Math_floor (Point.x position * IZR canvasSize) in
      let pixelY := Math_floor (Point.y position * IZR canvasSize) in
      let pixel := getImageData virtualCanvas pixelX pixelY 1 1 in
      Some {| Color.r := getZ pixel 0; Color.g := getZ pixel 1;
              Color.b := getZ pixel 2 |}
    end
  end.

End Sampler.

(** ** Scan orchestrator *)

Inductive Message : Type :=
| clearPositions
| broadcastColor (color : Color.t)
| sendColor (screenId : string) (color : Color.t)
| reportPosition (screenId : string) (x y : R) (area : Rect.t).

(** What a scan does to the outside world, in order. *)
Inductive Effect : Type :=
| Emit (m : Message)
| Sleep (ms : Z)
| Capture
| ConsoleLog (line : string)
| ConsoleWarn (line : string).

Inductive ProgressText : Type :=
| TextIdle
| TextReference
| TextScanning (name : string) (index total : Z).

(** The controller's globals and the DOM state that [startScan] touches. *)
Record Controller : Type := {
  webcamStream : bool;
  screens : list Screen.t;
  isScanning : bool;
  isAnimating : bool;
  audioBeatEnabled : bool;
  scanBtn_disabled : bool;
  playBtn_disabled : bool;
  stopBtn_disabled : bool;
  has_scanProgress : bool;
  scanProgress_active : bool;
  has_progressFill : bool;
  progressFill_width : Q;
  progressText : ProgressText
}.

Record Run : Type := { ctl : Controller; trace : list Effect; shots : nat }.

Definition effect (e : Effect) (r : Run) : Run :=
  {| ctl := ctl r; trace := trace r ++ [e]; shots := shots r |}.

Definition modify (f : Controller -> Controller) (r : Run) : Run :=
  {| ctl := f (ctl r); trace := trace r; shots := shots r |}.

Definition set_isScanning (v : bool) (c : Controller) : Controller :=
  {| webcamStream := webcamStream c; screens := screens c; isScanning := v;
     isAnimating := isAnimating c; audioBeatEnabled := audioBeatEnabled c;
     scanBtn_disabled := scanBtn_disabled c;
     playBtn_disabled := playBtn_disabled c;
     stopBtn_disabled := stopBtn_disabled c;
     has_scanProgress := has_scanProgress c;
     scanProgress_active := scanProgress_active c;
     has_progressFill := has_progressFill c;
     progressFill_width := progressFill_width c;
     progressText := progressText c |}.

Definition set_buttons (scan play stop : bool) (c : Controller) : Controller :=
  {| webcamStream := webcamStream c; screens := screens c;
     isScanning := isScanning c;
     isAnimating := isAnimating c; audioBeatEnabled := audioBeatEnabled c;
     scanBtn_disabled := scan;
     playBtn_disabled := play;
     stopBtn_disabled := stop;
     has_scanProgress := has_scanProgress c;
     scanProgress_active := scanProgress_active c;
     has_progressFill := has_progressFill c;
     progressFill_width := progressFill_width c;
     progressText := progressText c |}.

Definition set_progress (active : bool) (fill : Q) (text : ProgressText)
    (c : Controller) : Controller :=
  {| webcamStream := webcamStream c; screens := screens c;
     isScanning := isScanning c;
     isAnimating := isAnimating c; audioBeatEnabled := audioBeatEnabled c;
     scanBtn_disabled := scanBtn_disabled c;
     playBtn_disabled := playBtn_disabled c;
     stopBtn_disabled := stopBtn_disabled c;
     has_scanProgress := has_scanProgress c;
     scanProgress_active := active;
     has_progressFill := has_progressFill c;
     progressFill_width := fill;
     progressText := text |}.

Definition updateControls (c : Controller) : Controller :=
  let hasWebcam := webcamStream c in
  let hasScreens := 0 <? Z.of_nat (length (screens c)) in
  let hasDetectedScreens :=
    existsb (fun s => match Screen.position s with Some _ => true | None => false end)
            (screens c) in
  let scan := negb hasWebcam || negb hasScreens || isScanning c in
  if audioBeatEnabled c then set_buttons scan true true c
  else set_buttons scan (negb hasDetectedScreens || isAnimating c)
                   (negb (isAnimating c)) c.

(** [captureFrame]: the camera hands out its frames in order. *)
Definition captureFrame (camera : nat -> ImageData.t) (r : Run)
    : ImageData.t * Run :=
  (camera (shots r),
   {| ctl := ctl r; trace := trace r ++ [Capture]; shots := S (shots r) |}).

(** Three captures, [gap] milliseconds apart. *)
Definition captureBurst (camera : nat -> ImageData.t) (gap : Z) (r : Run)
    : list ImageData.t * Run :=
  forZ 0 3 (fun _ '(frames, r) =>
      let '(frame, r) := captureFrame camera r in
      (frames ++ [frame], effect (Sleep gap) r))
    ([], r).

Definition white : Color.t := {| Color.r := 255; Color.g := 255; Color.b := 255 |}.
Definition black : Color.t := {| Color.r := 0; Color.g := 0; Color.b := 0 |}.

(** How a scan ended: [completed] is false when [averageFrames] threw. *)
Record ScanResult : Type := {
  final : Controller;
  effects : list Effect;
  completed : bool
}.

Section Scan.
Local Open Scope string_scope.

(** Step 3 of [startScan]: the per-screen loop, from screen number [i]. *)
Fixpoint scanScreens (cfg : Config.t) (camera : nat -> ImageData.t)
    (baseFrame : ImageData.t) (total i : Z) (todo : list Screen.t) (r : Run)
    : outcome (Run * bool) :=
  match todo with
  | [] => Returns (r, true)
  | screen :: todo =>
    let fill :=
      if has_progressFill (ctl r)
      then (((inject_Z (i + 1) / inject_Z total) * 100)%Q)
      else progressFill_width (ctl r) in
    let r :=
      modify (fun c => set_progress (scanProgress_active c) fill
                         (TextScanning (Screen.name screen) (i + 1) total) c) r in
    let r := effect (Emit (sendColor (Screen.socketId screen) white)) r in
    let r := effect (Sleep (Config.scanFlashDuration cfg)) r in
    let '(activeFrames, r) := captureBurst camera 30 r in
    match averageFrames activeFrames with
    | None => Returns (r, false)
    | Some activeFrame =>
      detection <- detectScreenArea cfg baseFrame activeFrame ;;
      let r :=
        match detection with
        | Some d =>
          let r := effect (ConsoleLog "[SCAN] detected") r in
          effect (Emit (reportPosition (Screen.socketId screen)
                          (Point.x (Detection.center d))
                          (Point.y (Detection.center d))
                          (Detection.area d))) r
        | None => effect (ConsoleWarn "[SCAN] not detected") r
        end in
      let r := effect (Emit (sendColor (Screen.socketId screen) black)) r in
      let r := effect (Sleep (Config.scanCooldown cfg)) r in
      scanScreens cfg camera baseFrame total (i + 1) todo r
    end
  end.

(** [startScan], run to completion with no other event handler interleaved.
    [Async.startScan] below is the scan with the [screenList] messages that
    arrive while it awaits. *)
Definition startScan (cfg : Config.t) (camera : nat -> ImageData.t)
    (c : Controller) : outcome ScanResult :=
  if negb (webcamStream c) || (Z.of_nat (length (screens c)) =? 0)%Z then
    Returns {| final := c; effects := []; completed := true |}
  else
    let r := {| ctl := c; trace := []; shots := O |} in
    let r := modify (set_isScanning true) r in
    let r := modify (fun c => set_buttons true true (stopBtn_disabled c) c) r in
    let r :=
      modify (fun c =>
        set_progress
          (if has_scanProgress c then true else scanProgress_active c)
          (if has_progressFill c then 0%Q else progressFill_width c)
          (progressText c) c) r in
    let r := effect (Emit clearPositions) r in
    let r := effect (ConsoleLog "[SCAN] Starting advanced scan...") r in
    let r := effect (Emit (broadcastColor black)) r in
    let r := effect (Sleep 600) r in
    let r :=
      modify (fun c => set_progress (scanProgress_active c)
                         (progressFill_width c) TextReference c) r in
    let '(baseFrames, r) := captureBurst camera 50 r in
    match averageFrames baseFrames with
    | None =>
      Returns {| final := ctl r; effects := trace r; completed := false |}
    | Some baseFrame =>
      let r :=
        effect (ConsoleLog "[SCAN] Base frame captured (averaged from 3 frames)") r in
      '(r, ok) <-
        scanScreens cfg camera baseFrame (Z.of_nat (length (screens c))) 0
          (screens c) r ;;
      if ok then
        let r := effect (ConsoleLog "[SCAN] Scan complete") r in
        let r := modify (set_isScanning false) r in
        let r :=
          modify (fun c =>
            set_progress
              (if has_scanProgress c then false else scanProgress_active c)
              (progressFill_width c) (progressText c) c) r in
        let r := modify updateControls r in
        Returns {| final := ctl r; effects := trace r; completed := true |}
      else
        Returns {| final := ctl r; effects := trace r; completed := false |}
    end.

End Scan.


(** ** Animation: delta-encoded colour frames *)

Definition Rltb (x y : R) : bool := if Rlt_dec x y then true else false.
Definition Reqb (x y : R) : bool := if Req_dec_T x y then true else false.

(** [colorDiff]: the sum of the absolute channel differences. *)
Definition colorDiff (c1 c2 : Color.t) : Z :=
  Z.abs (Color.r c1 - Color.r c2) + Z.abs (Color.g c1 - Color.g c2)
  + Z.abs (Color.b c1 - Color.b c2).

(** [lastColors], a [Map] from socket id to the colour last sent: [get],
    [set] (an existing key keeps its place) and [clear]. *)
Definition ColorMap : Type := list (string * Color.t).

Fixpoint Map_get (m : ColorMap) (key : string) : option Color.t :=
  match m with
  | [] => None
  | (k, v) :: m => if String.eqb k key then Some v else Map_get m key
  end.

Fixpoint Map_set (m : ColorMap) (key : string) (value : Color.t) : ColorMap :=
  match m with
  | [] => [(key, value)]
  | (k, v) :: m =>
    if String.eqb k key then (k, value) :: m else (k, v) :: Map_set m key value
  end.

(** [screens.filter(s => s.position)]. *)
Definition getDetectedScreens (screens : list Screen.t) : list Screen.t :=
  filter (fun s => match Screen.position s with Some _ => true | None => false end)
         screens.

(** The colour after the brightness slider is applied. *)
Definition applyBrightness (animationBrightness : R) (color : Color.t) : Color.t :=
  {| Color.r := Math_round (IZR (Color.r color) * animationBrightness);
     Color.g := Math_round (IZR (Color.g color) * animationBrightness);
     Color.b := Math_round (IZR (Color.b color) * animationBrightness) |}.

(** The [forEach] of [sampleAndSendFrame] (and of [animate], which repeats
    it): the colours to send, in order, and the updated [lastColors].  The
    colours are [None] when [sampleAreaColor] threw; the entries of
    [lastColors] set before the exception stay. *)
Fixpoint sampleScreens (cfg : Config.t) (virtualCanvas : ImageData.t)
    (animationBrightness : R) (detectedScreens : list Screen.t)
    (colors : list (string * Color.t)) (lastColors : ColorMap)
    : option (list (string * Color.t)) * ColorMap :=
  match detectedScreens with
  | [] => (Some colors, lastColors)
  | screen :: detectedScreens =>
    match sampleAreaColor cfg virtualCanvas screen with
    | None => (None, lastColors)
    | Some color =>
      let finalColor := applyBrightness animationBrightness color in
      let changed :=
        match Map_get lastColors (Screen.socketId screen) with
        | None => true
        | Some lastColor => colorDiff lastColor finalColor >? 3
        end in
      if changed then
        sampleScreens cfg virtualCanvas animationBrightness detectedScreens
          (colors ++ [(Screen.socketId screen, finalColor)])
          (Map_set lastColors (Screen.socketId screen) finalColor)
      else
        sampleScreens cfg virtualCanvas animationBrightness detectedScreens
          colors lastColors
    end
  end.

(** What the animation sends over the socket. *)
Inductive Sent : Type :=
| sendColors (colors : list (string * Color.t))
| broadcast (color : Color.t).

(** [sampleAndSendFrame]: the messages sent (none when no colour changed,
    and none when [sampleAreaColor] threw) and the updated [lastColors]. *)
Definition sampleAndSendFrame (cfg : Config.t) (virtualCanvas : ImageData.t)
    (animationBrightness : R) (detectedScreens : list Screen.t)
    (lastColors : ColorMap) : list Sent * ColorMap :=
  let '(colors, lastColors) :=
    sampleScreens cfg virtualCanvas animationBrightness detectedScreens []
      lastColors in
  match colors with
  | Some colors =>
    if 0 <? Z.of_nat (length colors) then ([sendColors colors], lastColors)
    else ([], lastColors)
  | None => ([], lastColors)
  end.
(** ** Colour helpers of the bang buttons *)

Section Show.
Local Open Scope R_scope.

(** [hue2rgb], the helper inside [hslToRgb]. *)
Definition hue2rgb (p q t : R) : R :=
  let t := if Rltb t 0 then t + 1 else t in
  let t := if Rltb 1 t then t - 1 else t in
  if Rltb t (1 / 6) then p + (q - p) * 6 * t
  else if Rltb t (1 / 2) then q
  else if Rltb t (2 / 3) then p + (q - p) * (2 / 3 - t) * 6
  else p.

(** [hslToRgb] of animations.js, which the random bang button calls. *)
Definition hslToRgb (h s l : R) : Color.t :=
  let '(r, g, b) :=
    if Reqb s 0 then (l, l, l)
    else
      let q := if Rltb l 0.5 then l * (1 + s) else l + s - l * s in
      let p := 2 * l - q in
      (hue2rgb p q (h + 1 / 3), hue2rgb p q h, hue2rgb p q (h - 1 / 3)) in
  {| Color.r := Math_round (r * 255);
     Color.g := Math_round (g * 255);
     Color.b := Math_round (b * 255) |}.

(** [Math.pow] for a base that is not negative and a positive exponent, the
    only way [triggerBang] calls it: 0 for base 0. *)
Definition Math_pow (base exponent : R) : R :=
  if Reqb base 0 then 0 else Rpower base exponent.

(** ** The animation loop *)

(** What the animation functions do to the outside world, in order. *)
Inductive Output : Type :=
| SocketEmit (m : Sent)
| SetTimeout (delay : Z) (m : Sent)
| RenderAnimation (animationType : string) (time : R)
| Log (line : string)
| Warn (line : string).

(** The variables that the [animate] closure of one [startAnimation] call
    holds. *)
Record Loop : Type := {
  detectedScreens : list Screen.t;
  startTime : R;
  lastFrameTime : R
}.

(** The globals of the animation.  [animationFrame] tells whether the
    variable of that name holds a handle (is not [null]); [pending] is the
    [animate] callback that the browser has been asked to run and has not
    run or cancelled yet. *)
Record Animator : Type := {
  controls : Controller;
  currentAnimation : string;
  animationSpeed : R;
  animationBrightness : R;
  lastColors : ColorMap;
  animationFrame : bool;
  pending : option Loop;
  output : list Output
}.

Definition set_isAnimating (v : bool) (c : Controller) : Controller :=
  {| webcamStream := webcamStream c; screens := screens c;
     isScanning := isScanning c;
     isAnimating := v; audioBeatEnabled := audioBeatEnabled c;
     scanBtn_disabled := scanBtn_disabled c;
     playBtn_disabled := playBtn_disabled c;
     stopBtn_disabled := stopBtn_disabled c;
     has_scanProgress := has_scanProgress c;
     scanProgress_active := scanProgress_active c;
     has_progressFill := has_progressFill c;
     progressFill_width := progressFill_width c;
     progressText := progressText c |}.

(** [startAnimation], called when [performance.now()] is [now]. *)
Definition startAnimation (now : R) (a : Animator) : Animator :=
  if isAnimating (controls a) then a
  else
    let c := set_isAnimating true (controls a) in
    let c := set_buttons (scanBtn_disabled c) true false c in
    let detected := getDetectedScreens (screens c) in
    if (Z.of_nat (length detected) =? 0)%Z then
      {| controls := c;
         currentAnimation := currentAnimation a;
         animationSpeed := animationSpeed a;
         animationBrightness := animationBrightness a;
         lastColors := lastColors a;
         animationFrame := animationFrame a;
         pending := pending a;
         output := output a ++ [Warn "[ANIMATION] No screens with positions"%string] |}
    else
      {| controls := c;
         currentAnimation := currentAnimation a;
         animationSpeed := animationSpeed a;
         animationBrightness := animationBrightness a;
         lastColors := [];
         animationFrame := true;
         pending := Some {| detectedScreens := detected; startTime := now;
                            lastFrameTime := 0 |};
         output := output a
                   ++ [Log ("[ANIMATION] Starting: " ++ currentAnimation a)%string] |}.

(** The browser runs the pending [animate] callback with time stamp
    [currentTime]; [rendered] is what [renderAnimation] leaves on the
    virtual canvas when this call reaches it.  Nothing happens when no
    callback is pending.  When [sampleAreaColor] throws, the callback ends
    without asking for another frame. *)
Definition animate (cfg : Config.t) (currentTime : R) (rendered : ImageData.t)
    (a : Animator) : Animator :=
  match pending a with
  | None => a
  | Some loop =>
    if negb (isAnimating (controls a)) then
      {| controls := controls a;
         currentAnimation := currentAnimation a;
         animationSpeed := animationSpeed a;
         animationBrightness := animationBrightness a;
         lastColors := lastColors a;
         animationFrame := animationFrame a;
         pending := None;
         output := output a |}
    else
      let frameInterval := 1000 / IZR (Config.animationFPS cfg) in
      if Rltb (currentTime - lastFrameTime loop) frameInterval then
        {| controls := controls a;
           currentAnimation := currentAnimation a;
           animationSpeed := animationSpeed a;
           animationBrightness := animationBrightness a;
           lastColors := lastColors a;
           animationFrame := true;
           pending := Some loop;
           output := output a |}
      else
        let elapsed := (currentTime - startTime loop) / 1000 * animationSpeed a in
        let drawn := [RenderAnimation (currentAnimation a) elapsed] in
        match sampleScreens cfg rendered (animationBrightness a)
                (detectedScreens loop) [] (lastColors a) with
        | (None, lastColors') =>
          {| controls := controls a;
             currentAnimation := currentAnimation a;
             animationSpeed := animationSpeed a;
             animationBrightness := animationBrightness a;
             lastColors := lastColors';
             animationFrame := animationFrame a;
             pending := None;
             output := output a ++ drawn |}
        | (Some colors, lastColors') =>
          {| controls := controls a;
             currentAnimation := currentAnimation a;
             animationSpeed := animationSpeed a;
             animationBrightness := animationBrightness a;
             lastColors := lastColors';
             animationFrame := true;
             pending := Some {| detectedScreens := detectedScreens loop;
                                startTime := startTime loop;
                                lastFrameTime := currentTime |};
             output := output a ++ drawn
                       ++ (if (0 <? Z.of_nat (length colors))%Z
                           then [SocketEmit (sendColors colors)] else []) |}
        end
  end.

(** [stopAnimation].  The handle in [animationFrame] is that of the last
    frame asked for, so [cancelAnimationFrame] removes the pending callback
    if there is one. *)
Definition stopAnimation (a : Animator) : Animator :=
  let c := set_isAnimating false (controls a) in
  let c := set_buttons (scanBtn_disabled c) false true c in
  {| controls := c;
     currentAnimation := currentAnimation a;
     animationSpeed := animationSpeed a;
     animationBrightness := animationBrightness a;
     lastColors := [];
     animationFrame := false;
     pending := if animationFrame a then None else pending a;
     output := output a ++ [Log "[ANIMATION] Stopped"%string] |}.

Definition emit (o : list Output) (a : Animator) : Animator :=
  {| controls := controls a;
     currentAnimation := currentAnimation a;
     animationSpeed := animationSpeed a;
     animationBrightness := animationBrightness a;
     lastColors := lastColors a;
     animationFrame := animationFrame a;
     pending := pending a;
     output := output a ++ o |}.

(** [blackout]. *)
Definition blackout (a : Animator) : Animator :=
  emit [SocketEmit (broadcast black)] (stopAnimation a).

(** One turn of the loop of [triggerBang]: the delay and the colour of the
    [i]th broadcast. *)
Definition bangStep (color : Color.t) (i : Z) : Z * Color.t :=
  let steps := 18%Z in
  let hold := 120%Z in
  let duration := 900%Z in
  let fadeDuration := (duration - hold)%Z in
  let t := IZR i / IZR steps in
  let factor := if (i =? 0)%Z then 1 else Math_pow (1 - t) 1.6 in
  let payload :=
    {| Color.r := Math_round (IZR (Color.r color) * factor);
       Color.g := Math_round (IZR (Color.g color) * factor);
       Color.b := Math_round (IZR (Color.b color) * factor) |} in
  let delay := (hold + Math_round (IZR fadeDuration * t))%Z in
  (delay, payload).

(** [triggerBang]: the animation is stopped and the broadcasts are handed
    to [setTimeout], in the order of the loop. *)
Definition triggerBang (color : Color.t) (a : Animator) : Animator :=
  let steps := 18%Z in
  forZ 0 (steps + 1)%Z
    (fun i a =>
       let '(delay, payload) := bangStep color i in
       emit [SetTimeout delay (broadcast payload)] a)
    (stopAnimation a).

(** ** The events of the animation panel *)

Definition set_screens (data : list Screen.t) (c : Controller) : Controller :=
  {| webcamStream := webcamStream c; screens := data;
     isScanning := isScanning c;
     isAnimating := isAnimating c; audioBeatEnabled := audioBeatEnabled c;
     scanBtn_disabled := scanBtn_disabled c;
     playBtn_disabled := playBtn_disabled c;
     stopBtn_disabled := stopBtn_disabled c;
     has_scanProgress := has_scanProgress c;
     scanProgress_active := scanProgress_active c;
     has_progressFill := has_progressFill c;
     progressFill_width := progressFill_width c;
     progressText := progressText c |}.

(** The listeners that drive the animation loop: the play, stop, blackout
    and bang buttons, the two sliders, the [screenList] message of the
    server, and the browser running the pending [animate] callback.  The
    audio beat mode is not among them: its [tick] is modelled apart, below,
    and the frame loop of [runOneShot], which neither [stopAnimation] nor
    [blackout] cancels, is not modelled. *)
Inductive Event : Type :=
| PlayClicked (now : R)
| StopClicked
| BlackoutClicked
| BangClicked (color : Color.t)
| SpeedInput (value : R)
| BrightnessInput (value : R)
| ScreenList (data : list Screen.t)
| FrameCallback (currentTime : R) (rendered : ImageData.t).

(** What each listener does.  [renderScreenList], which the [screenList]
    listener calls, only redraws the page; its console line is recorded
    without the data. *)
Definition handle (cfg : Config.t) (e : Event) (a : Animator) : Animator :=
  match e with
  | PlayClicked now => startAnimation now a
  | StopClicked => stopAnimation a
  | BlackoutClicked => blackout a
  | BangClicked color => triggerBang color a
  | SpeedInput value =>
    {| controls := controls a;
       currentAnimation := currentAnimation a;
       animationSpeed := value;
       animationBrightness := animationBrightness a;
       lastColors := lastColors a;
       animationFrame := animationFrame a;
       pending := pending a;
       output := output a |}
  | BrightnessInput value =>
    {| controls := controls a;
       currentAnimation := currentAnimation a;
       animationSpeed := animationSpeed a;
       animationBrightness := value;
       lastColors := lastColors a;
       animationFrame := animationFrame a;
       pending := pending a;
       output := output a |}
  | ScreenList data =>
    {| controls := updateControls (set_screens data (controls a));
       currentAnimation := currentAnimation a;
       animationSpeed := animationSpeed a;
       animationBrightness := animationBrightness a;
       lastColors := lastColors a;
       animationFrame := animationFrame a;
       pending := pending a;
       output := output a ++ [Log "[CONTROLLER] Screen list updated:"%string] |}
  | FrameCallback currentTime rendered => animate cfg currentTime rendered a
  end.

(** The events handled one after the other. *)
Definition run (cfg : Config.t) (events : list Event) (a : Animator) : Animator :=
  fold_left (fun a e => handle cfg e a) events a.

(** ** Audio beat detection *)

Definition Math_ceil (r : R) : Z := Zceil r.

(** The variables that [tick] keeps between calls. *)
Record Beat : Type := { audioBaseline : R; lastBeatAt : R }.

(** The first part of [tick]: the mean of the frequency bins between 40 Hz
    and 140 Hz, 0 when there is no such bin.  [audioData] is what
    [getByteFrequencyData] wrote; the sample rate of an audio context is
    positive. *)
Definition bassEnergy (sampleRate : R) (audioData : list Z) : R :=
  let minHz := 40 in
  let maxHz := 140 in
  let len := Z.of_nat (length audioData) in
  let nyquist := sampleRate / 2 in
  let minBin := Z.max 0 (Math_floor (minHz / nyquist * IZR len)) in
  let maxBin := Z.min (len - 1) (Math_ceil (maxHz / nyquist * IZR len)) in
  let '(sum, count) :=
    forZ minBin (maxBin + 1)%Z
      (fun i '(sum, count) => (sum + getZ audioData i, count + 1)%Z)
      (0, 0)%Z in
  if (count =? 0)%Z then 0 else IZR sum / IZR count.

(** The rest of [tick], run when [performance.now()] is [now]: the new
    baseline and time of the last beat, and whether [runOneShot] is
    called. *)
Definition tick (sampleRate : R) (audioData : list Z) (now : R) (s : Beat)
    : Beat * bool :=
  let cooldownMs := 280 in
  let thresholdFactor := 1.75 in
  let minEnergy := 28 in
  let energy := bassEnergy sampleRate audioData in
  let baseline :=
    if Reqb (audioBaseline s) 0 then energy
    else audioBaseline s * 0.92 + energy * 0.08 in
  let boom := Rgtb energy (Rmax minEnergy (baseline * thresholdFactor)) in
  if boom && Rgtb (now - lastBeatAt s) cooldownMs then
    ({| audioBaseline := baseline; lastBeatAt := now |}, true)
  else
    ({| audioBaseline := baseline; lastBeatAt := lastBeatAt s |}, false).

(** The loop that [requestAnimationFrame] drives while the audio mode is
    on: one [tick] per frame, each on the [audioData] the analyser delivers
    and the time [now] of that frame.  The result is the state after the
    last tick and the times at which [runOneShot] was called. *)
Fixpoint listen (sampleRate : R) (frames : list (list Z * R)) (s : Beat)
    : Beat * list R :=
  match frames with
  | [] => (s, [])
  | (audioData, now) :: frames =>
    let '(s, boom) := tick sampleRate audioData now s in
    let '(s, beats) := listen sampleRate frames s in
    (s, if boom then now :: beats else beats)
  end.

End Show.
(** ** A scan among the server's replies *)

(** [startScan] is an [async] function: at each [await] it is suspended, and
    the listeners of the socket run on what has arrived meanwhile.  The
    server answers [clearPositions] and every [reportPosition] with a
    [screenList] message, whose listener replaces the global [screens]; the
    loop of the scan reads that global anew in every turn.  This module is
    [startScan] with those arrivals: [inbox n] holds the screen lists whose
    messages are handled during the [n]th [await] of the scan, in order.
    The loop runs on fuel, since the list it counts along can grow; no
    other listener (a button, say) is taken to run during the scan. *)
Module Async.
Section Scan.
Variable cfg : Config.t.
Variable camera : nat -> ImageData.t.
Variable inbox : nat -> list (list Screen.t).

(** The number of [await]s that a run has been through. *)
Definition awaits (trace : list Effect) : nat :=
  length (filter (fun e => match e with Sleep _ => true | _ => false end) trace).

(** The [screenList] listener of [connectSocket]; [renderScreenList] only
    redraws the page. *)
Definition onScreenList (r : Run) (data : list Screen.t) : Run :=
  let r := effect (ConsoleLog "[CONTROLLER] Screen list updated:"%string) r in
  let r := modify (set_screens data) r in
  modify updateControls r.

(** [await sleep(ms)]. *)
Definition sleep (ms : Z) (r : Run) : Run :=
  fold_left onScreenList (inbox (awaits (trace r))) (effect (Sleep ms) r).

(** Three captures, each followed by [await sleep(gap)]. *)
Definition captureBurst (gap : Z) (r : Run) : list ImageData.t * Run :=
  forZ 0 3 (fun _ '(frames, r) =>
      let '(frame, r) := captureFrame camera r in
      (frames ++ [frame], sleep gap r))
    ([], r).

(** Step 3 of [startScan]: the loop over [screens], from index [i].  The
    second component is false when the loop ended by an exception. *)
Fixpoint scanScreens (fuel : nat) (baseFrame : ImageData.t) (i : Z) (r : Run)
    : outcome (Run * bool) :=
  match fuel with
  | O => OutOfFuel
  | S fuel =>
    let total := Z.of_nat (length (screens (ctl r))) in
    if (i <? total)%Z then
      match get (screens (ctl r)) i with
      | None => Returns (r, false)
      | Some screen =>
        let fill :=
          if has_progressFill (ctl r)
          then (((inject_Z (i + 1) / inject_Z total) * 100)%Q)
          else progressFill_width (ctl r) in
        let r :=
          modify (fun c => set_progress (scanProgress_active c) fill
                             (TextScanning (Screen.name screen) (i + 1) total) c)
                 r in
        let r := effect (Emit (sendColor (Screen.socketId screen) white)) r in
        let r := sleep (Config.scanFlashDuration cfg) r in
        let '(activeFrames, r) := captureBurst 30 r in
        match averageFrames activeFrames with
        | None => Returns (r, false)
        | Some activeFrame =>
          detection <- detectScreenArea cfg baseFrame activeFrame ;;
          let r :=
            match detection with
            | Some d =>
              let r := effect (ConsoleLog "[SCAN] detected"%string) r in
              effect (Emit (reportPosition (Screen.socketId screen)
                              (Point.x (Detection.center d))
                              (Point.y (Detection.center d))
                              (Detection.area d))) r
            | None => effect (ConsoleWarn "[SCAN] not detected"%string) r
            end in
          let r := effect (Emit (sendColor (Screen.socketId screen) black)) r in
          let r := sleep (Config.scanCooldown cfg) r in
          scanScreens fuel baseFrame (i + 1) r
        end
      end
    else Returns (r, true)
  end.

(** [startScan]. *)
Definition startScan (fuel : nat) (c : Controller) : outcome ScanResult :=
  if negb (webcamStream c) || (Z.of_nat (length (screens c)) =? 0)%Z then
    Returns {| final := c; effects := []; completed := true |}
  else
    let r := {| ctl := c; trace := []; shots := O |} in
    let r := modify (set_isScanning true) r in
    let r := modify (fun c => set_buttons true true (stopBtn_disabled c) c) r in
    let r :=
      modify (fun c =>
        set_progress
          (if has_scanProgress c then true else scanProgress_active c)
          (if has_progressFill c then 0%Q else progressFill_width c)
          (progressText c) c) r in
    let r := effect (Emit clearPositions) r in
    let r := effect (ConsoleLog "[SCAN] Starting advanced scan..."%string) r in
    let r := effect (Emit (broadcastColor black)) r in
    let r := sleep 600 r in
    let r :=
      modify (fun c => set_progress (scanProgress_active c)
                         (progressFill_width c) TextReference c) r in
    let '(baseFrames, r) := captureBurst 50 r in
    match averageFrames baseFrames with
    | None =>
      Returns {| final := ctl r; effects := trace r; completed := false |}
    | Some baseFrame =>
      let r :=
        effect (ConsoleLog "[SCAN] Base frame captured (averaged from 3 frames)"%string) r in
      '(r, ok) <- scanScreens fuel baseFrame 0 r ;;
      if ok then
        let r := effect (ConsoleLog "[SCAN] Scan complete"%string) r in
        let r := modify (set_isScanning false) r in
        let r :=
          modify (fun c =>
            set_progress
              (if has_scanProgress c then false else scanProgress_active c)
              (progressFill_width c) (progressText c) c) r in
        let r := modify updateControls r in
        Returns {| final := ctl r; effects := trace r; completed := true |}
      else
        Returns {| final := ctl r; effects := trace r; completed := false |}
    end.

End Scan.
End Async.
(** ** The adaptive threshold in double arithmetic *)

(** The computations of the detection pipeline are modelled in exact
    arithmetic.  [calculateAdaptiveThreshold] is the place where rounding
    changes more than the last digits of a result: the variance is the
    difference of two nearly equal numbers, and a rounding error can make it
    negative.  This module is the same function over IEEE 754 doubles, as
    the JavaScript engine computes it.  [data] holds the values of the
    [Float32Array], read as doubles. *)
Module Float64.
Import PrimFloat.
Local Open Scope float_scope.

(** [Math.max] of two numbers: [NaN] when one of them is [NaN]. *)
Definition Math_max (a b : float) : float :=
  if orb (is_nan a) (is_nan b) then nan else if ltb a b then b else a.

Definition Math_sqrt (a : float) : float := sqrt a.

Definition calculateAdaptiveThreshold (brightnessThreshold : float)
    (data : list float) : float :=
  let '(sum, sumSq, count) :=
    fold_left (fun '(sum, sumSq, count) d =>
        if ltb 5 d then (sum + d, sumSq + d * d, count + 1)
        else (sum, sumSq, count))
      data (0, 0, 0) in
  if eqb count 0 then brightnessThreshold
  else
    let mean := sum / count in
    let variance := sumSq / count - mean * mean in
    let stdDev := Math_sqrt variance in
    Math_max brightnessThreshold (mean + stdDev * 1.5).

(** [CONFIG.brightnessThreshold]. *)
Definition brightnessThreshold : float := 40.

(** The [Float32Array] value nearest to 29.9, which is 15676211 / 524288,
    and a 10 x 10 map that holds it in every cell. *)
Definition level : float := 0x1.de6666p+4.

Definition levelRatio : float := 15676211 / 524288.

Definition constantMap : list float := repeat level 100.

End Float64.
(** ** Notions of the specification *)

Section Statistics.
Local Open Scope R_scope.

(** The statistics of the specification: the entries above the noise floor,
    their arithmetic mean and their (population) standard deviation. *)
Definition aboveNoiseFloor (data : list R) : list R :=
  filter (fun d => Rgtb d 5) data.

Definition Rsum (l : list R) : R := fold_right Rplus 0 l.

Definition mean (l : list R) : R := Rsum l / INR (length l).

Definition stdDev (l : list R) : R :=
  sqrt (Rsum (map (fun d => (d - mean l) * (d - mean l)) l) / INR (length l)).

End Statistics.

(** A mask value is binary when it is 0 or 255. *)
Definition binary (v : Z) : Prop := v = 0 \/ v = 255.

(** The same for a value read from a mask, which may be [undefined]. *)
Definition binary_num (v : num) : Prop := v = None \/ v = Some 0 \/ v = Some 255.

(** A well-formed frame: positive dimensions, four channels per pixel, every
    channel a byte. *)
Definition wf_frame (f : ImageData.t) : Prop :=
  0 < ImageData.width f /\ 0 < ImageData.height f /\
  Z.of_nat (length (ImageData.data f))
    = 4 * ImageData.width f * ImageData.height f /\
  Forall (fun v => 0 <= v <= 255) (ImageData.data f).

Definition same_size (f g : ImageData.t) : Prop :=
  ImageData.width f = ImageData.width g /\
  ImageData.height f = ImageData.height g.

(** The arithmetic mean of channel [i] across a list of frames. *)
Definition channelSum (frames : list ImageData.t) (i : Z) : Z :=
  fold_right Z.add 0 (map (fun f => getZ (ImageData.data f) i) frames).

Definition channelMean (frames : list ImageData.t) (i : Z) : Q :=
  (inject_Z (channelSum frames i) / inject_Z (Z.of_nat (length frames)))%Q.

(** [v] is [q] rounded to the nearest integer, halves rounded up. *)
Definition nearest_integer (q : Q) (v : Z) : Prop :=
  (inject_Z v - (1 # 2) <= q /\ q < inject_Z v + (1 # 2))%Q.

(** The search window of [refineBoundingBox]: the input box padded by 5
    pixels and cut to the image. *)
Definition inWindow (width height minX minY maxX maxY x y : Z) : Prop :=
  Z.max 0 (minX - 5) <= x <= Z.min (width - 1) (maxX + 5) /\
  Z.max 0 (minY - 5) <= y <= Z.min (height - 1) (maxY + 5).

(** The difference at pixel ([x], [y]) exceeds the edge threshold. *)
Definition exceedsEdgeThreshold (diffMap : list R) (width x y : Z) : Prop :=
  (getR diffMap (y * width + x) > 20)%R.

(** The colour of pixel ([x], [y]) of a canvas. *)
Definition canvasColor (canvas : ImageData.t) (x y : Z) : Color.t :=
  let i := (y * ImageData.width canvas + x) * 4 in
  {| Color.r := getZ (ImageData.data canvas) i;
     Color.g := getZ (ImageData.data canvas) (i + 1);
     Color.b := getZ (ImageData.data canvas) (i + 2) |}.

(** The rectangle of canvas pixels that [sampleAreaColor] reads for an area:
    its left column, top row, width and height. *)
Definition samplingRect (cfg : Config.t) (area : Rect.t) : Z * Z * Z * Z :=
  let normalized := clampRect cfg area in
  let canvasSize := IZR (Config.canvasSize cfg) in
  (Math_floor (Rect.x normalized * canvasSize),
   Math_floor (Rect.y normalized * canvasSize),
   Z.max 1 (Math_floor (Rect.width normalized * canvasSize)),
   Z.max 1 (Math_floor (Rect.height normalized * canvasSize))).

Section SamplerNotions.
Local Open Scope R_scope.

(** One step of the inner sampling loop. *)
Definition sampleStep (data : list Z) (areaW areaH y x : Z) (t : Totals) : Totals :=
  {| totalR := totalR t + IZR (getZ data ((y * areaW + x) * 4)) * sampleWeight areaW areaH x y;
     totalG := totalG t + IZR (getZ data ((y * areaW + x) * 4 + 1)) * sampleWeight areaW areaH x y;
     totalB := totalB t + IZR (getZ data ((y * areaW + x) * 4 + 2)) * sampleWeight areaW areaH x y;
     totalW := totalW t + sampleWeight areaW areaH x y |}.

End SamplerNotions.

(** Inputs used in the examples: a canvas of [canvasSize] x [canvasSize]
    white pixels, and a screen record that only has an area. *)
Definition whiteCanvas : ImageData.t :=
  ImageData.mk 200 200 (repeat 255 (Z.to_nat (4 * 200 * 200))).

Definition screenWithArea (area : Rect.t) : Screen.t :=
  {| Screen.socketId := EmptyString; Screen.name := EmptyString;
     Screen.position := None; Screen.area := Some area |}.

(** A controller with a running webcam and no registered screen, and a
    camera that always delivers the same one-pixel frame. *)
Definition idleController : Controller :=
  {| webcamStream := true; screens := []; isScanning := false;
     isAnimating := false; audioBeatEnabled := false;
     scanBtn_disabled := true; playBtn_disabled := true;
     stopBtn_disabled := true;
     has_scanProgress := true; scanProgress_active := false;
     has_progressFill := true; progressFill_width := 0%Q;
     progressText := TextIdle |}.

Definition stillCamera : nat -> ImageData.t :=
  fun _ => ImageData.mk 1 1 [0; 0; 0; 255].

(** ** Connected components of a mask *)

Definition inImage (width height : Z) (p : Pixel) : Prop :=
  0 <= fst p < width /\ 0 <= snd p < height.

Definition pixelIndex (width : Z) (p : Pixel) : Z := snd p * width + fst p.

(** A pixel of the image whose mask value is 255. *)
Definition lit (mask : list Z) (width height : Z) (p : Pixel) : Prop :=
  inImage width height p /\ get mask (pixelIndex width p) = Some 255.

(** 4-adjacency: [q] is [p] moved by one of the four directions. *)
Definition adjacent (p q : Pixel) : Prop :=
  exists d, In d directions /\ q = (fst p + fst d, snd p + snd d).

(** [q] is reachable from [p] through lit pixels, 4-adjacent step by step. *)
Inductive connected (mask : list Z) (width height : Z) (p : Pixel)
    : Pixel -> Prop :=
| connected_refl : lit mask width height p -> connected mask width height p p
| connected_step q r :
    connected mask width height p q -> adjacent q r -> lit mask width height r ->
    connected mask width height p r.

(** [ps] lists, without repetition, exactly the pixels connected to [p]. *)
Definition component (mask : list Z) (width height : Z) (p : Pixel)
    (ps : list Pixel) : Prop :=
  NoDup ps /\ forall q, In q ps <-> connected mask width height p q.

(** [ps] is a 4-connected component of the mask with the most pixels. *)
Definition largestComponent (mask : list Z) (width height : Z)
    (ps : list Pixel) : Prop :=
  exists p, lit mask width height p /\ component mask width height p ps /\
    forall q qs, lit mask width height q -> component mask width height q qs ->
      (length qs <= length ps)%nat.

(** The [visited] array marks pixel [p]. *)
Definition marked (visited : list Z) (width : Z) (p : Pixel) : Prop :=
  truthy (get visited (pixelIndex width p)) = true.

(** The pixels of the image in scan order: row by row, left to right. *)
Definition cells (width height : Z) : list Pixel :=
  flat_map (fun y => map (fun x => (x, y)) (zrange 0 width)) (zrange 0 height).

(** The body of the direction loop of [floodFill], as a function. *)
Definition visit_step (mask : list Z) (width height x y : Z)
    : list Z * list Pixel -> Z * Z -> list Z * list Pixel :=
  fun '(visited, queue) '(dx, dy) =>
    let nx := x + dx in
    let ny := y + dy in
    if (nx >=? 0) && (nx <? width) && (ny >=? 0) && (ny <? height) then
      let idx := ny * width + nx in
      if is255 (get mask idx) && negb (truthy (get visited idx)) then
        (put visited idx 1, queue ++ [(nx, ny)])
      else (visited, queue)
    else (visited, queue).

(** The body of the pixel scan of [findLargestBlob], as a function of the
    pixel and of the state [(visited, largestBlob, largestSize)]. *)
Definition scan_step (mask : list Z) (width height x y : Z)
    (state : outcome (list Z * option Blob * Z))
    : outcome (list Z * option Blob * Z) :=
  '(visited, largestBlob, largestSize) <- state ;;
  let idx := y * width + x in
  if is255 (get mask idx) && negb (truthy (get visited idx)) then
    '(blob, visited) <- floodFill mask visited width height x y ;;
    if Z.of_nat (length blob) >? largestSize
    then Returns (visited, Some {| pixels := blob |}, Z.of_nat (length blob))
    else Returns (visited, largestBlob, largestSize)
  else Returns (visited, largestBlob, largestSize).


(** ** The 3 x 3 neighbourhood of the morphology *)

(** The offsets [(ky, kx)] in the order the loops of [dilate] and [erode]
    visit them for a kernel of size 3. *)
Definition offsets3 : list (Z * Z) :=
  [(-1, -1); (-1, 0); (-1, 1); (0, -1); (0, 0); (0, 1); (1, -1); (1, 0); (1, 1)].

(** The mask value that [dilate] and [erode] read at offset [(ky, kx)] from
    pixel ([x], [y]): coordinates are clamped to the image. *)
Definition neighbour (mask : list Z) (width height x y : Z) (k : Z * Z) : num :=
  let ny := Z.min (Z.max (y + fst k) 0) (height - 1) in
  let nx := Z.min (Z.max (x + snd k) 0) (width - 1) in
  get mask (ny * width + nx).

Definition neighbours3 (mask : list Z) (width height x y : Z) : list num :=
  map (neighbour mask width height x y) offsets3.

(** ** Frames with a lit row at the bottom edge *)

(** Two camera frames of [canvasSize] x [canvasSize] pixels: a black one,
    and one that is dark gray (level 6) except for its last row, which is
    white.  Alpha is 255 in the second frame. *)
Definition darkFrame : ImageData.t :=
  ImageData.mk 200 200 (repeat 0 (Z.to_nat (4 * 200 * 200))).

Definition bottomRowChannel (i : Z) : Z :=
  if i mod 4 =? 3 then 255 else if i / (4 * 200) =? 199 then 255 else 6.

Definition bottomRowFrame : ImageData.t :=
  ImageData.mk 200 200 (map bottomRowChannel (zrange 0 (4 * 200 * 200))).

(** ** The Gaussian of the blur *)

(** The weight of offset [k] for a blur of the given radius, before the
    kernel is normalized: [exp (- k^2 / (2 sigma^2))] with [sigma] half the
    radius. *)
Definition gaussWeight (radius k : Z) : R :=
  exp (- (IZR k * IZR k) / (2 * (IZR radius / 2) * (IZR radius / 2))).

(** ** Luminance changes between two frames *)

(** By how much the luminance of pixel ([x], [y]) rises from the base frame
    to the active frame (negative when it falls). *)
Definition luminanceRise (baseFrame activeFrame : ImageData.t) (x y : Z) : R :=
  let i := (y * ImageData.width baseFrame + x) * 4 in
  (luminance (ImageData.data activeFrame) i
   - luminance (ImageData.data baseFrame) i)%R.

(** A one-pixel frame. *)
Definition pixelFrame (r g b : Z) : ImageData.t :=
  ImageData.mk 1 1 [r; g; b; 255].

(** ** Byte masks *)

(** A number that is a byte (not [NaN]), and the value of a number. *)
Definition is_byte (v : num) : Prop := exists m, v = Some m /\ 0 <= m <= 255.

Definition num_value (v : num) : Z :=
  match v with Some m => m | None => 0 end.

(** A mask of [width] x [height] bytes. *)
Definition byteMask (mask : list Z) (width height : Z) : Prop :=
  Z.of_nat (length mask) = width * height /\
  Forall (fun v => 0 <= v <= 255) mask.

(** ** Reading a scan's effects *)

(** The messages sent over the socket, in order, and the number of frames
    captured. *)
Definition messages (trace : list Effect) : list Message :=
  flat_map (fun e => match e with Emit m => [m] | _ => [] end) trace.

Definition captures (trace : list Effect) : nat :=
  length (filter (fun e => match e with Capture => true | _ => false end) trace).

(** The frame that the burst of three captures starting with frame [n] of
    the camera averages to. *)
Definition burstFrame (camera : nat -> ImageData.t) (n : nat)
    : option ImageData.t :=
  averageFrames [camera n; camera (S n); camera (S (S n))].

(** What a scan sends for its [k]th screen (counting from 0), the screen
    with socket id [screenId]: the white flash, the position that
    [detectScreenArea] finds between the reference burst (frames 0 to 2) and
    the burst taken during the flash (frames [3 + 3 k] onwards), when it
    finds one, and the return to black. *)
Definition scanMessages (cfg : Config.t) (camera : nat -> ImageData.t)
    (k : nat) (screenId : string) : list Message :=
  match burstFrame camera 0, burstFrame camera (3 + 3 * k) with
  | Some baseFrame, Some activeFrame =>
    match detectScreenArea cfg baseFrame activeFrame with
    | Returns (Some d) =>
      [sendColor screenId white;
       reportPosition screenId (Point.x (Detection.center d))
         (Point.y (Detection.center d)) (Detection.area d);
       sendColor screenId black]
    | _ => [sendColor screenId white; sendColor screenId black]
    end
  | _, _ => []
  end.

(** The same for the screens with ids [screenIds], the first of which is
    the [k]th screen of the scan. *)
Fixpoint scanReports (cfg : Config.t) (camera : nat -> ImageData.t)
    (k : nat) (screenIds : list string) : list Message :=
  match screenIds with
  | [] => []
  | screenId :: screenIds =>
    scanMessages cfg camera k screenId ++ scanReports cfg camera (S k) screenIds
  end.

(** Every screen list that arrives during the scan lists the screens that
    the scan started with, in the same order: no screen connects or
    disconnects meanwhile. *)
Definition sameScreens (screens0 : list Screen.t)
    (inbox : nat -> list (list Screen.t)) : Prop :=
  forall n data, In data (inbox n) ->
    map Screen.socketId data = map Screen.socketId screens0.

(** The last screen list that arrived during the first [n] awaits;
    [screens0] when none did. *)
Definition lastScreenList (inbox : nat -> list (list Screen.t)) (n : nat)
    (screens0 : list Screen.t) : list Screen.t :=
  last (concat (map inbox (seq 0 n))) screens0.

(** The bounds that hold of a detection: centre and corner in the unit
    square, sides between the configured minimum and maximum. *)
Definition normalizedReport (cfg : Config.t) (x y : R) (area : Rect.t) : Prop :=
  ((0 <= x <= 1 /\ 0 <= y <= 1) /\
   (0 <= Rect.x area <= 1 /\ 0 <= Rect.y area <= 1) /\
   (Config.minNormalizedArea cfg <= Rect.width area
      <= Config.maxNormalizedArea cfg) /\
   (Config.minNormalizedArea cfg <= Rect.height area
      <= Config.maxNormalizedArea cfg))%R.

(** A camera that delivers well-formed frames of one size. *)
Definition steadyCamera (camera : nat -> ImageData.t) : Prop :=
  forall n, wf_frame (camera n) /\ same_size (camera O) (camera n).

(** A controller with a running webcam and two registered screens. *)
Definition twoScreens : list Screen.t :=
  [ {| Screen.socketId := "a"; Screen.name := "A";
       Screen.position := None; Screen.area := None |};
    {| Screen.socketId := "b"; Screen.name := "B";
       Screen.position := None; Screen.area := None |} ]%string.

Definition readyController : Controller :=
  {| webcamStream := true; screens := twoScreens; isScanning := false;
     isAnimating := false; audioBeatEnabled := false;
     scanBtn_disabled := false; playBtn_disabled := true;
     stopBtn_disabled := true;
     has_scanProgress := true; scanProgress_active := false;
     has_progressFill := true; progressFill_width := 0%Q;
     progressText := TextIdle |}.

(** ** Delta encoding *)

(** The colour a frame computes for a screen (black stands in when
    [sampleAreaColor] throws), and whether it differs enough from the colour
    last sent to be sent again. *)
Definition screenColor (cfg : Config.t) (virtualCanvas : ImageData.t)
    (animationBrightness : R) (screen : Screen.t) : Color.t :=
  match sampleAreaColor cfg virtualCanvas screen with
  | Some color => applyBrightness animationBrightness color
  | None => black
  end.

Definition colorChanged (cfg : Config.t) (virtualCanvas : ImageData.t)
    (animationBrightness : R) (lastColors : ColorMap) (screen : Screen.t) : bool :=
  match Map_get lastColors (Screen.socketId screen) with
  | None => true
  | Some lastColor =>
    colorDiff lastColor (screenColor cfg virtualCanvas animationBrightness screen) >? 3
  end.

(** Screens that can be sampled: each has an area or a position. *)
Definition sampleable (screens : list Screen.t) : Prop :=
  Forall (fun s => Screen.area s <> None \/ Screen.position s <> None) screens.

(** Two detected screens, with ids, positions and areas. *)
Definition detectedPair : list Screen.t :=
  [ {| Screen.socketId := "a"; Screen.name := "A";
       Screen.position := Some (Point.mk 0.25 0.25);
       Screen.area := Some (Rect.mk 0.25 0.25 0.125 0.125) |};
    {| Screen.socketId := "b"; Screen.name := "B";
       Screen.position := Some (Point.mk 0.75 0.75);
       Screen.area := None |} ]%string.

(** ** Colours and canvas pixels *)

(** A colour whose channels are bytes. *)
Definition byteColor (c : Color.t) : Prop :=
  0 <= Color.r c <= 255 /\ 0 <= Color.g c <= 255 /\ 0 <= Color.b c <= 255.

(** Pixel ([x], [y]) lies on the canvas. *)
Definition onCanvas (canvas : ImageData.t) (x y : Z) : bool :=
  (0 <=? x) && (x <? ImageData.width canvas)
  && (0 <=? y) && (y <? ImageData.height canvas).

(** A screen record that only has a centre. *)
Definition screenWithPosition (position : Point.t) : Screen.t :=
  {| Screen.socketId := EmptyString; Screen.name := EmptyString;
     Screen.position := Some position; Screen.area := None |}.

(** ** The animation and the bangs *)

(** Colour [c1] is in no channel brighter than [c2]. *)
Definition dimmer (c1 c2 : Color.t) : Prop :=
  Color.r c1 <= Color.r c2 /\ Color.g c1 <= Color.g c2 /\ Color.b c1 <= Color.b c2.

(** The animation globals when the page has loaded, for a given state of
    the controls. *)
Definition initialAnimator (c : Controller) : Animator :=
  {| controls := c; currentAnimation := "gradient"%string;
     animationSpeed := 1; animationBrightness := 1; lastColors := [];
     animationFrame := false; pending := None; output := [] |}.

(** ** Audio beats *)

(** The beat variables as [startAudioBeatMode] sets them. *)
Definition silentBeat : Beat := {| audioBaseline := 0; lastBeatAt := 0 |}.

(** Each time of the list is more than [gap] after the one before it, and
    the first more than [gap] after [start]. *)
Fixpoint spaced (gap start : R) (times : list R) : Prop :=
  match times with
  | [] => True
  | t :: times => (t - start > gap)%R /\ spaced gap t times
  end.

(** ** Runs of the animation *)

(** The events that leave a running animation running: all but the stop,
    blackout and bang buttons. *)
Definition keepsRunning (e : Event) : bool :=
  match e with
  | StopClicked | BlackoutClicked | BangClicked _ => false
  | _ => true
  end.

(** What of an output goes to the canvas, to the socket or to a timer:
    all but the console lines. *)
Definition shown (o : list Output) : list Output :=
  filter (fun e => match e with Log _ | Warn _ => false | _ => true end) o.

(** The animation times of the frames rendered, in order. *)
Definition renderTimes (o : list Output) : list R :=
  flat_map (fun e => match e with RenderAnimation _ time => [time] | _ => [] end) o.

(** The colours sent to screens by [sendColors] messages, in order. *)
Definition sentColors (o : list Output) : list (string * Color.t) :=
  flat_map (fun e => match e with
                     | SocketEmit (sendColors colors) => colors
                     | _ => []
                     end) o.

(** Each time of the list is at least [gap] after the one before it. *)
Fixpoint apart (gap : R) (times : list R) : Prop :=
  match times with
  | [] => True
  | t :: rest =>
    match rest with [] => True | t' :: _ => (t' - t >= gap)%R end
    /\ apart gap rest
  end.

(** The colours that the screens show after [sends], when they showed
    [shownColors] before. *)
Definition replay (shownColors : ColorMap) (sends : list (string * Color.t))
    : ColorMap :=
  fold_left (fun m send => Map_set m (fst send) (snd send)) sends shownColors.

(** Every colour of [sends] differs by more than 3, in [colorDiff], from
    the colour that its screen showed before, if it showed one. *)
Fixpoint deltaEncoded (shownColors : ColorMap) (sends : list (string * Color.t))
    : Prop :=
  match sends with
  | [] => True
  | (screenId, color) :: sends =>
    match Map_get shownColors screenId with
    | None => True
    | Some before => colorDiff before color > 3
    end
    /\ deltaEncoded (Map_set shownColors screenId color) sends
  end.

(** The events that neither start an animation nor flash: all but the
    play, blackout and bang buttons. *)
Definition quiet (e : Event) : bool :=
  match e with
  | PlayClicked _ | BlackoutClicked | BangClicked _ => false
  | _ => true
  end.

(** ** A constant difference map *)

(** The real number that [Float64.level] stands for, and the map that holds
    it in every cell. *)
Definition constantLevel : R := (15676211 / 524288)%R.

Definition constantMap : list R := repeat constantLevel 100.

(** ** The weighted centroid of a blob *)

(** The bounding box of a list of pixels: every pixel lies between the
    bounds, and each bound is the coordinate of one of the pixels. *)
Definition boundingBox (ps : list Pixel) (x0 x1 y0 y1 : Z) : Prop :=
  (forall p, In p ps -> x0 <= fst p <= x1 /\ y0 <= snd p <= y1) /\
  (exists p, In p ps /\ fst p = x0) /\ (exists p, In p ps /\ fst p = x1) /\
  (exists p, In p ps /\ snd p = y0) /\ (exists p, In p ps /\ snd p = y1).

(** The centroid of the pixels [ps], each weighted by its value in
    [weights]: the weighted sums of the coordinates over the total weight,
    and the middle of the box ([x0], [x1], [y0], [y1]) when the total weight
    is not positive. *)
Definition weightedCentroid (weights : list R) (width : Z) (ps : list Pixel)
    (x0 x1 y0 y1 : Z) : R * R :=
  let weight p := getR weights (pixelIndex width p) in
  let total := Rsum (map weight ps) in
  if Rgtb total 0 then
    ((Rsum (map (fun p => IZR (fst p) * weight p) ps) / total)%R,
     (Rsum (map (fun p => IZR (snd p) * weight p) ps) / total)%R)
  else ((IZR (x0 + x1) / 2)%R, (IZR (y0 + y1) / 2)%R).

(** ** A scan that detects *)

(** A camera that sees the dark frame during the reference burst and the
    frame with the white bottom row from then on. *)
Definition flashCamera : nat -> ImageData.t :=
  fun n => if (n <? 3)%nat then darkFrame else bottomRowFrame.

(** The replies of a server to a scan of [twoScreens]: the cleared list
    during the first await, and the list with positions during the ninth. *)
Definition serverReplies : nat -> list (list Screen.t) :=
  fun n => if (n =? 0)%nat then [twoScreens]
           else if (n =? 8)%nat then [detectedPair] else [].
(** * Properties *)

(** ** Arrays and loops *)

Section Arrays.
Context {A : Type}.
Implicit Types (a : list A) (v : A) (i j : Z) (n m : nat).

Lemma length_update n v a : length (update n v a) = length a.
Proof.
  revert n; induction a as [|h t IH]; intros [|n]; simpl; auto.
Qed.

Lemma nth_error_update_eq n v a :
  (n < length a)%nat -> nth_error (update n v a) n = Some v.
Proof.
  revert n; induction a as [|h t IH]; intros [|n]; simpl; intros H;
    try lia; auto.
  apply IH; lia.
Qed.

Lemma nth_error_update_neq n m v a :
  n <> m -> nth_error (update n v a) m = nth_error a m.
Proof.
  revert n m; induction a as [|h t IH]; intros [|n] [|m]; simpl; intros H;
    try congruence; auto.
Qed.

Lemma length_put a i v : length (put a i v) = length a.
Proof.
  unfold put; destruct (i <? 0); auto using length_update.
Qed.

Lemma get_put_eq a i v :
  0 <= i < Z.of_nat (length a) -> get (put a i v) i = Some v.
Proof.
  intros H; unfold get, put.
  destruct (Z.ltb_spec i 0); try lia.
  apply nth_error_update_eq; lia.
Qed.

Lemma get_put_neq a i j v : i <> j -> get (put a i v) j = get a j.
Proof.
  intros H; unfold get, put.
  destruct (Z.ltb_spec j 0); auto.
  destruct (Z.ltb_spec i 0); auto.
  apply nth_error_update_neq; lia.
Qed.

Lemma get_Some_range a i v : get a i = Some v -> 0 <= i < Z.of_nat (length a).
Proof.
  unfold get; destruct (Z.ltb_spec i 0) as [Hi|Hi]; try discriminate.
  intros Hg; assert (nth_error a (Z.to_nat i) <> None) as Hn by congruence.
  apply nth_error_Some in Hn; lia.
Qed.

Lemma get_None_range a i : get a i = None -> i < 0 \/ Z.of_nat (length a) <= i.
Proof.
  unfold get; destruct (Z.ltb_spec i 0) as [Hi|Hi]; auto.
  intros Hg; apply nth_error_None in Hg; lia.
Qed.

Lemma get_in_range a i :
  0 <= i < Z.of_nat (length a) -> exists v, get a i = Some v.
Proof.
  intros H; destruct (get a i) eqn:E; eauto.
  apply get_None_range in E; lia.
Qed.

Lemma get_put a i j v :
  get (put a i v) j =
  if (i =? j) && (0 <=? i) && (i <? Z.of_nat (length a)) then Some v
  else get a j.
Proof.
  destruct (Z.eqb_spec i j) as [->|Hne]; simpl.
  - destruct (Z.leb_spec 0 j), (Z.ltb_spec j (Z.of_nat (length a))); simpl.
    + apply get_put_eq; lia.
    + unfold put. destruct (Z.ltb_spec j 0); auto.
      destruct (get a j) eqn:E.
      * apply get_Some_range in E; lia.
      * destruct (get (update (Z.to_nat j) v a) j) eqn:E'; auto.
        apply get_Some_range in E'; rewrite length_update in E'; lia.
    + unfold put; destruct (Z.ltb_spec j 0); auto; lia.
    + unfold put; destruct (Z.ltb_spec j 0); auto; lia.
  - apply get_put_neq; auto.
Qed.

Lemma get_In a i v : get a i = Some v -> In v a.
Proof.
  unfold get; destruct (i <? 0); try discriminate. apply nth_error_In.
Qed.

Lemma In_get a v : In v a -> exists i, get a i = Some v.
Proof.
  intros H; apply In_nth_error in H as [n Hn].
  exists (Z.of_nat n); unfold get.
  destruct (Z.ltb_spec (Z.of_nat n) 0); try lia.
  now rewrite Nat2Z.id.
Qed.

Lemma get_repeat v n i :
  0 <= i < Z.of_nat n -> get (repeat v n) i = Some v.
Proof.
  intros H. destruct (get_in_range (repeat v n) i) as [u Hu].
  - rewrite repeat_length; lia.
  - rewrite Hu; f_equal. apply get_In in Hu. now apply repeat_spec in Hu.
Qed.

Lemma Forall_put (P : A -> Prop) a i v :
  Forall P a -> P v -> Forall P (put a i v).
Proof.
  intros Ha Hv; apply Forall_forall; intros u Hu.
  apply In_get in Hu as [j Hj]; rewrite get_put in Hj.
  destruct ((i =? j) && (0 <=? i) && (i <? Z.of_nat (length a))).
  - now inversion Hj; subst.
  - apply get_In in Hj. rewrite Forall_forall in Ha; auto.
Qed.

Lemma get_ext a1 a2 :
  length a1 = length a2 -> (forall i, get a1 i = get a2 i) -> a1 = a2.
Proof.
  intros Hl H; apply nth_error_ext; intros n.
  specialize (H (Z.of_nat n)); unfold get in H.
  destruct (Z.ltb_spec (Z.of_nat n) 0); try lia.
  now rewrite Nat2Z.id in H.
Qed.

End Arrays.

Lemma zrange_nil lo hi : hi <= lo -> zrange lo hi = [].
Proof.
  intros H; unfold zrange. replace (Z.to_nat (hi - lo)) with O by lia. reflexivity.
Qed.

Lemma zrange_snoc lo hi : lo <= hi -> zrange lo (hi + 1) = zrange lo hi ++ [hi].
Proof.
  intros H; unfold zrange.
  replace (Z.to_nat (hi + 1 - lo)) with (S (Z.to_nat (hi - lo))) by lia.
  rewrite seq_S, map_app; simpl. do 2 f_equal; lia.
Qed.

Lemma zrange_cons lo hi : lo < hi -> zrange lo hi = lo :: zrange (lo + 1) hi.
Proof.
  intros H; unfold zrange.
  replace (Z.to_nat (hi - lo)) with (S (Z.to_nat (hi - (lo + 1)))) by lia.
  simpl. f_equal; [lia|].
  rewrite <- seq_shift, map_map. apply map_ext; intros; lia.
Qed.

Lemma In_zrange lo hi i : In i (zrange lo hi) <-> lo <= i < hi.
Proof.
  unfold zrange; rewrite in_map_iff; split.
  - intros [k [<- Hk]]. apply in_seq in Hk. lia.
  - intros H; exists (Z.to_nat (i - lo)); split; [lia|]. apply in_seq; lia.
Qed.

Lemma length_zrange lo hi : length (zrange lo hi) = Z.to_nat (hi - lo).
Proof.
  unfold zrange; now rewrite length_map, length_seq.
Qed.

Lemma NoDup_zrange lo hi : NoDup (zrange lo hi).
Proof.
  unfold zrange. apply Injective_map_NoDup; [|apply seq_NoDup].
  intros a b H; lia.
Qed.

Lemma zrange_app lo mid hi :
  lo <= mid <= hi -> zrange lo hi = zrange lo mid ++ zrange mid hi.
Proof.
  intros [H1 H2].
  replace hi with (mid + Z.of_nat (Z.to_nat (hi - mid))) by lia.
  generalize (Z.to_nat (hi - mid)) as n; induction n as [|n IH].
  - rewrite (zrange_nil mid) by lia. rewrite app_nil_r. f_equal; lia.
  - replace (mid + Z.of_nat (S n)) with (mid + Z.of_nat n + 1) by lia.
    rewrite !zrange_snoc by lia. now rewrite IH, app_assoc.
Qed.

Section Loops.
Context {S : Type}.
Implicit Types (body : Z -> S -> S) (s : S).

Lemma forZ_nil lo hi body s : hi <= lo -> forZ lo hi body s = s.
Proof.
  intros H; unfold forZ; now rewrite zrange_nil.
Qed.

Lemma forZ_snoc lo hi body s :
  lo <= hi -> forZ lo (hi + 1) body s = body hi (forZ lo hi body s).
Proof.
  intros H; unfold forZ; rewrite zrange_snoc, fold_left_app; auto.
Qed.

Lemma forZ_cons lo hi body s :
  lo < hi -> forZ lo hi body s = forZ (lo + 1) hi body (body lo s).
Proof.
  intros H; unfold forZ; rewrite zrange_cons; auto.
Qed.

(** The loop rule: an invariant indexed by the loop counter. *)
Lemma forZ_ind (P : Z -> S -> Prop) lo hi body s :
  lo <= hi ->
  P lo s ->
  (forall i t, lo <= i < hi -> P i t -> P (i + 1) (body i t)) ->
  P hi (forZ lo hi body s).
Proof.
  intros Hle H0 Hstep.
  assert (forall n : nat, lo + Z.of_nat n <= hi ->
            P (lo + Z.of_nat n) (forZ lo (lo + Z.of_nat n) body s)) as Hn.
  { induction n as [|n IH]; intros Hb.
    - rewrite forZ_nil by lia. now replace (lo + Z.of_nat 0) with lo by lia.
    - replace (lo + Z.of_nat (Datatypes.S n)) with (lo + Z.of_nat n + 1) by lia.
      rewrite forZ_snoc by lia. apply Hstep; [lia|]. apply IH; lia. }
  specialize (Hn (Z.to_nat (hi - lo))).
  replace (lo + Z.of_nat (Z.to_nat (hi - lo))) with hi in Hn by lia.
  apply Hn; lia.
Qed.

(** The loop rule for an invariant that does not mention the counter. *)
Lemma forZ_inv (P : S -> Prop) lo hi body s :
  P s ->
  (forall i t, lo <= i < hi -> P t -> P (body i t)) ->
  P (forZ lo hi body s).
Proof.
  intros H0 Hstep.
  destruct (Z_le_gt_dec lo hi).
  - apply (forZ_ind (fun _ => P)); auto.
  - rewrite forZ_nil by lia; auto.
Qed.

Lemma forZ_ext lo hi body body' s :
  (forall i t, lo <= i < hi -> body i t = body' i t) ->
  forZ lo hi body s = forZ lo hi body' s.
Proof.
  intros H; unfold forZ.
  assert (forall i, In i (zrange lo hi) -> lo <= i < hi) as Hin
      by (intros; now apply In_zrange).
  revert s; induction (zrange lo hi) as [|k l IH]; intros s; simpl; auto.
  rewrite H by (apply Hin; now left). apply IH. intros; apply Hin; now right.
Qed.

End Loops.

(** ** Loops that fill an array *)

Section Fill.
Context {A : Type}.

Lemma forZ_put_spec (g : Z -> A) (n : Z) (init : list A) :
  0 <= n ->
  length (forZ 0 n (fun i d => put d i (g i)) init) = length init /\
  forall j,
    get (forZ 0 n (fun i d => put d i (g i)) init) j =
    if (0 <=? j) && (j <? n) && (j <? Z.of_nat (length init)) then Some (g j)
    else get init j.
Proof.
  intros Hn.
  apply (forZ_ind (fun k d =>
    length d = length init /\
    forall j, get d j =
      if (0 <=? j) && (j <? k) && (j <? Z.of_nat (length init)) then Some (g j)
      else get init j)); auto.
  - split; auto. intros j.
    destruct (Z.leb_spec 0 j), (Z.ltb_spec j 0); simpl; auto; lia.
  - intros i d Hi [Hlen Hget]. split; [now rewrite length_put|].
    intros j. rewrite get_put, Hlen, Hget.
    destruct (Z.eqb_spec i j), (Z.leb_spec 0 i), (Z.leb_spec 0 j),
      (Z.ltb_spec i (Z.of_nat (length init))),
      (Z.ltb_spec j (Z.of_nat (length init))),
      (Z.ltb_spec j i), (Z.ltb_spec j (i + 1)); simpl; subst; auto; lia.
Qed.

Lemma get_forZ_put (g : Z -> A) (n : Z) (init : list A) (j : Z) :
  0 <= j < n -> j < Z.of_nat (length init) ->
  get (forZ 0 n (fun i d => put d i (g i)) init) j = Some (g j).
Proof.
  intros Hj Hl. destruct (forZ_put_spec g n init) as [_ H]; [lia|].
  rewrite H.
  destruct (Z.leb_spec 0 j), (Z.ltb_spec j n),
    (Z.ltb_spec j (Z.of_nat (length init))); simpl; auto; lia.
Qed.

Lemma length_forZ_put (g : Z -> A) (n : Z) (init : list A) :
  length (forZ 0 n (fun i d => put d i (g i)) init) = length init.
Proof.
  destruct (Z_le_gt_dec 0 n).
  - now apply forZ_put_spec.
  - now rewrite forZ_nil by lia.
Qed.

Lemma pixel_index_mod (width x y : Z) :
  0 <= x < width -> (y * width + x) mod width = x.
Proof.
  intros H. rewrite Z.add_comm, Z_mod_plus_full. apply Z.mod_small; lia.
Qed.

Lemma pixel_index_div (width x y : Z) :
  0 <= x < width -> (y * width + x) / width = y.
Proof.
  intros H. rewrite Z.add_comm, Z_div_plus_full by lia.
  rewrite Z.div_small; lia.
Qed.

Lemma pixel_index_inj (width x y x' y' : Z) :
  0 <= x < width -> 0 <= x' < width ->
  y * width + x = y' * width + x' -> x = x' /\ y = y'.
Proof.
  intros H H' E. split.
  - rewrite <- (pixel_index_mod width x y), <- (pixel_index_mod width x' y'); auto.
    now rewrite E.
  - rewrite <- (pixel_index_div width x y), <- (pixel_index_div width x' y'); auto.
    now rewrite E.
Qed.

Lemma pixel_index_range (width height x y : Z) :
  0 <= x < width -> 0 <= y < height -> 0 <= y * width + x < width * height.
Proof. intros; nia. Qed.

(** What the nested pixel loop leaves in the array: cell [i] of the image
    holds [f] of its column and row; cells beyond the image are untouched. *)
Lemma get_write_pixels (width height : Z) (f : Z -> Z -> A) (result : list A)
    (i : Z) :
  0 <= width -> 0 <= height ->
  get (write_pixels width height f result) i =
  if (0 <=? i) && (i <? width * height) && (i <? Z.of_nat (length result))
  then Some (f (i mod width) (i / width))
  else get result i.
Proof.
  intros Hw Hh. revert i. unfold write_pixels.
  pose (P := fun (k : Z) (d : list A) =>
    length d = length result /\
    forall i, get d i =
      if (0 <=? i) && (i <? k) && (i <? Z.of_nat (length result))
      then Some (f (i mod width) (i / width))
      else get result i).
  assert (P (width * height)
            (forZ 0 height (fun y result0 =>
               forZ 0 width (fun x result1 =>
                 put result1 (y * width + x) (f x y)) result0) result)) as [_ H];
    [|exact H].
  apply (forZ_ind (fun y d => P (width * y) d)); auto.
  - split; auto. intros i. rewrite Z.mul_0_r.
    destruct (Z.leb_spec 0 i), (Z.ltb_spec i 0); simpl; auto; lia.
  - intros y d Hy Hd.
    replace (width * (y + 1)) with (width * y + width) by lia.
    apply (forZ_ind (fun x d' => P (width * y + x) d')); auto.
    + now rewrite Z.add_0_r.
    + intros x d' Hx [Hlen Hget]. split; [now rewrite length_put|].
      intros i. rewrite get_put, Hlen, Hget.
      destruct (Z.eqb_spec (y * width + x) i) as [<-|Hne]; simpl.
      * rewrite pixel_index_mod, pixel_index_div by lia.
        destruct (Z.leb_spec 0 (y * width + x)),
          (Z.ltb_spec (y * width + x) (Z.of_nat (length result))),
          (Z.ltb_spec (y * width + x) (width * y + (x + 1))),
          (Z.ltb_spec (y * width + x) (width * y + x)); simpl; auto; nia.
      * destruct (Z.leb_spec 0 i),
          (Z.ltb_spec i (Z.of_nat (length result))),
          (Z.ltb_spec i (width * y + (x + 1))),
          (Z.ltb_spec i (width * y + x)); simpl; auto; lia.
Qed.

Lemma get_write_pixels_at (width height : Z) (f : Z -> Z -> A)
    (result : list A) (x y : Z) :
  0 <= x < width -> 0 <= y < height ->
  width * height <= Z.of_nat (length result) ->
  get (write_pixels width height f result) (y * width + x) = Some (f x y).
Proof.
  intros Hx Hy Hl. rewrite get_write_pixels by lia.
  pose proof (pixel_index_range width height x y Hx Hy).
  rewrite pixel_index_mod, pixel_index_div by lia.
  destruct (Z.leb_spec 0 (y * width + x)),
    (Z.ltb_spec (y * width + x) (width * height)),
    (Z.ltb_spec (y * width + x) (Z.of_nat (length result)));
    simpl; auto; lia.
Qed.

End Fill.

(** ** Real comparisons *)

Lemma Rgtb_true x y : (x > y)%R -> Rgtb x y = true.
Proof. intros H; unfold Rgtb; destruct (Rgt_dec x y); auto; contradiction. Qed.

Lemma Rgtb_false x y : (x <= y)%R -> Rgtb x y = false.
Proof. intros H; unfold Rgtb; destruct (Rgt_dec x y); auto; lra. Qed.

Lemma Rgtb_spec x y : reflect (x > y)%R (Rgtb x y).
Proof. unfold Rgtb; destruct (Rgt_dec x y); constructor; auto. Qed.

Lemma Rgeb_spec x y : reflect (x >= y)%R (Rgeb x y).
Proof. unfold Rgeb; destruct (Rge_dec x y); constructor; auto. Qed.

(** ** Geometry *)

Section GeometryFacts.
Local Open Scope R_scope.

Lemma denormalize_normalize (rect : Rect.t) (w h : R) :
  0 < w -> 0 < h ->
  denormalizeRectFromSquare (normalizeRectToSquare rect w h) w h = rect.
Proof.
  intros Hw Hh. destruct rect as [x y rw rh].
  unfold denormalizeRectFromSquare, normalizeRectToSquare.
  destruct (Rgeb w h); simpl; f_equal; field; lra.
Qed.

(** C2. Round trip: for every rectangle and every positive integer width
    and height, denormalizing the normalized rectangle gives the rectangle
    back, exactly, in exact arithmetic. *)
Theorem denormalize_normalize_roundtrip (rect : Rect.t) (w h : Z) :
  (0 < w)%Z -> (0 < h)%Z ->
  denormalizeRectFromSquare (normalizeRectToSquare rect (IZR w) (IZR h))
    (IZR w) (IZR h) = rect.
Proof.
  intros Hw Hh. apply denormalize_normalize; now apply IZR_lt.
Qed.

Lemma denormalize_normalize_roundtrip_witness :
  ((0 < 1280)%Z /\ (0 < 720)%Z) /\
  denormalizeRectFromSquare
    (normalizeRectToSquare (Rect.mk 100 50 320 180) (IZR 1280) (IZR 720))
    (IZR 1280) (IZR 720) = Rect.mk 100 50 320 180.
Proof.
  split; [split; reflexivity|].
  apply (denormalize_normalize_roundtrip (Rect.mk 100 50 320 180) 1280 720);
    reflexivity.
Defined.

Lemma clamp_between lo hi v : lo <= hi -> lo <= Rmin (Rmax v lo) hi <= hi.
Proof.
  intros H; unfold Rmin, Rmax.
  destruct (Rle_dec v lo); destruct (Rle_dec _ hi); lra.
Qed.

Lemma clamp_id lo hi v : lo <= v <= hi -> Rmin (Rmax v lo) hi = v.
Proof.
  intros H; unfold Rmin, Rmax.
  destruct (Rle_dec v lo); destruct (Rle_dec _ hi); lra.
Qed.

Lemma clampRect_within (cfg : Config.t) (rect : Rect.t) :
  Config.minNormalizedArea cfg <= Config.maxNormalizedArea cfg ->
  (Config.minNormalizedArea cfg <= Rect.width (clampRect cfg rect)
     <= Config.maxNormalizedArea cfg) /\
  (Config.minNormalizedArea cfg <= Rect.height (clampRect cfg rect)
     <= Config.maxNormalizedArea cfg) /\
  0 <= Rect.x (clampRect cfg rect) <= 1 /\
  0 <= Rect.y (clampRect cfg rect) <= 1.
Proof.
  intros H; unfold clampRect; simpl.
  repeat split; try apply clamp_between; try lra.
  all: apply (clamp_between 0 1); lra.
Qed.

(** C6. [clampRect] puts the width and height between the configured
    minimum and maximum and the corner between 0 and 1, whatever the input
    rectangle, provided the configured minimum is at most the maximum. *)
Theorem clampRect_bounds (cfg : Config.t) (rect : Rect.t) :
  Config.minNormalizedArea cfg <= Config.maxNormalizedArea cfg ->
  (Config.minNormalizedArea cfg <= Rect.width (clampRect cfg rect)
     <= Config.maxNormalizedArea cfg) /\
  (Config.minNormalizedArea cfg <= Rect.height (clampRect cfg rect)
     <= Config.maxNormalizedArea cfg) /\
  0 <= Rect.x (clampRect cfg rect) <= 1 /\
  0 <= Rect.y (clampRect cfg rect) <= 1.
Proof.
  intros H. destruct (clampRect_within cfg rect H) as (Hw & Hh & Hx & Hy).
  repeat split; lra.
Qed.

Lemma CONFIG_area_range :
  Config.minNormalizedArea CONFIG <= Config.maxNormalizedArea CONFIG.
Proof. simpl; lra. Qed.

Lemma clampRect_bounds_witness :
  Config.minNormalizedArea CONFIG <= Config.maxNormalizedArea CONFIG /\
  (Config.minNormalizedArea CONFIG
     <= Rect.width (clampRect CONFIG (Rect.mk (-3) 7 0 25))
     <= Config.maxNormalizedArea CONFIG) /\
  (Config.minNormalizedArea CONFIG
     <= Rect.height (clampRect CONFIG (Rect.mk (-3) 7 0 25))
     <= Config.maxNormalizedArea CONFIG) /\
  0 <= Rect.x (clampRect CONFIG (Rect.mk (-3) 7 0 25)) <= 1 /\
  0 <= Rect.y (clampRect CONFIG (Rect.mk (-3) 7 0 25)) <= 1.
Proof.
  split; [simpl; lra|].
  apply (clampRect_bounds CONFIG (Rect.mk (-3) 7 0 25)); simpl; lra.
Defined.

End GeometryFacts.

(** ** Adaptive threshold *)

Section ThresholdFacts.
Local Open Scope R_scope.

(** The running sums of [calculateAdaptiveThreshold]'s loop. *)
Lemma threshold_sums (data : list R) (sum sumSq : R) (count : Z) :
  fold_left (fun '(sum, sumSq, count) d =>
      if Rgtb d 5 then (sum + d, sumSq + d * d, (count + 1)%Z)
      else (sum, sumSq, count))
    data (sum, sumSq, count)
  = (sum + Rsum (aboveNoiseFloor data),
     sumSq + Rsum (map (fun d => d * d) (aboveNoiseFloor data)),
     (count + Z.of_nat (length (aboveNoiseFloor data)))%Z).
Proof.
  revert sum sumSq count; induction data as [|d data IH]; intros; simpl.
  - f_equal; [f_equal; lra | lia].
  - destruct (Rgtb d 5); rewrite IH; simpl.
    + f_equal; [f_equal; lra | lia].
    + reflexivity.
Qed.

Lemma Rsum_square_deviation (l : list R) (m : R) :
  Rsum (map (fun d => (d - m) * (d - m)) l)
  = Rsum (map (fun d => d * d) l) - 2 * m * Rsum l + INR (length l) * (m * m).
Proof.
  induction l as [|d l IH].
  - simpl; lra.
  - change (length (d :: l)) with (S (length l)). rewrite S_INR.
    simpl. rewrite IH. lra.
Qed.

(** The variance as the loop computes it is the mean squared deviation. *)
Lemma variance_formula (l : list R) :
  l <> [] ->
  Rsum (map (fun d => d * d) l) / INR (length l) - mean l * mean l
  = Rsum (map (fun d => (d - mean l) * (d - mean l)) l) / INR (length l).
Proof.
  intros Hl. rewrite Rsum_square_deviation. unfold mean.
  assert (INR (length l) <> 0) as Hn.
  { apply not_0_INR. destruct l; simpl; congruence. }
  field; auto.
Qed.

Lemma threshold_formula (cfg : Config.t) (data : list R) (width height : Z) :
  calculateAdaptiveThreshold cfg data width height =
  match aboveNoiseFloor data with
  | [] => Config.brightnessThreshold cfg
  | _ :: _ =>
    Rmax (Config.brightnessThreshold cfg)
         (mean (aboveNoiseFloor data) + 1.5 * stdDev (aboveNoiseFloor data))
  end.
Proof.
  unfold calculateAdaptiveThreshold. rewrite threshold_sums.
  destruct (aboveNoiseFloor data) as [|d l] eqn:E.
  - reflexivity.
  - set (n := length (d :: l)).
    assert (Z.of_nat n <> 0%Z) as Hn by (unfold n; simpl; lia).
    replace (0 + Z.of_nat n)%Z with (Z.of_nat n) by lia.
    destruct (Z.eqb_spec (Z.of_nat n) 0) as [|_]; [contradiction|].
    rewrite <- INR_IZR_INZ, !Rplus_0_l.
    fold (mean (d :: l)). unfold stdDev. fold n.
    rewrite variance_formula by discriminate. fold n.
    f_equal. unfold mean; fold n. ring.
Qed.


(** In exact arithmetic [calculateAdaptiveThreshold] returns the larger of
    the configured minimum threshold and mean + 1.5 stdDev, the statistics
    being taken over the entries strictly greater than 5 only; with no such
    entry it returns the configured minimum threshold. *)
Theorem calculateAdaptiveThreshold_spec (cfg : Config.t) (data : list R)
    (width height : Z) :
  calculateAdaptiveThreshold cfg data width height =
  match aboveNoiseFloor data with
  | [] => Config.brightnessThreshold cfg
  | _ :: _ =>
    Rmax (Config.brightnessThreshold cfg)
         (mean (aboveNoiseFloor data) + 1.5 * stdDev (aboveNoiseFloor data))
  end.
Proof.
  rewrite threshold_formula. destruct (aboveNoiseFloor data); reflexivity.
Qed.

End ThresholdFacts.

(** ** Morphology keeps masks binary *)

Lemma Forall_write_pixels {A : Type} (P : A -> Prop) width height f
    (result : list A) :
  Forall P result ->
  (forall x y, 0 <= x < width -> 0 <= y < height -> P (f x y)) ->
  Forall P (write_pixels width height f result).
Proof.
  intros Hres Hf; unfold write_pixels.
  apply forZ_inv; auto. intros y res Hy Hr.
  apply forZ_inv; auto. intros x res' Hx Hr'.
  apply Forall_put; auto.
Qed.

Lemma length_write_pixels {A : Type} width height f (result : list A) :
  length (write_pixels width height f result) = length result.
Proof.
  unfold write_pixels.
  apply (forZ_inv (fun r => length r = length result)); auto.
  intros y res Hy Hr.
  apply (forZ_inv (fun r => length r = length result)); auto.
  intros x res' Hx Hr'. now rewrite length_put.
Qed.

Lemma binary_get (mask : list Z) (i : Z) :
  Forall binary mask -> binary_num (get mask i).
Proof.
  intros H. destruct (get mask i) as [v|] eqn:E; [|now left].
  apply get_In in E. rewrite Forall_forall in H.
  destruct (H v E) as [-> | ->]; [right; left | right; right]; reflexivity.
Qed.

Lemma binary_Math_max (a b : num) :
  binary_num a -> binary_num b -> binary_num (Math_max a b).
Proof.
  unfold binary_num; intros [-> | [-> | ->]] [-> | [-> | ->]]; simpl; auto.
Qed.

Lemma binary_Math_min (a b : num) :
  binary_num a -> binary_num b -> binary_num (Math_min a b).
Proof.
  unfold binary_num; intros [-> | [-> | ->]] [-> | [-> | ->]]; simpl; auto.
Qed.

Lemma binary_ToUint8 (v : num) : binary_num v -> binary (ToUint8 v).
Proof.
  unfold binary_num, binary; intros [-> | [-> | ->]]; simpl; auto.
Qed.

Lemma binary_repeat_0 (n : nat) : Forall binary (repeat 0 n).
Proof.
  apply Forall_forall; intros v Hv. apply repeat_spec in Hv. now left.
Qed.

Lemma binary_dilate (mask : list Z) (width height kernelSize : Z) :
  Forall binary mask -> Forall binary (dilate mask width height kernelSize).
Proof.
  intros Hm; unfold dilate.
  apply Forall_write_pixels; [apply binary_repeat_0|].
  intros x y _ _. apply binary_ToUint8.
  apply forZ_inv; [right; now left|]. intros ky v _ Hv.
  apply forZ_inv; auto. intros kx v' _ Hv'.
  apply binary_Math_max; auto using binary_get.
Qed.

Lemma binary_erode (mask : list Z) (width height kernelSize : Z) :
  Forall binary mask -> Forall binary (erode mask width height kernelSize).
Proof.
  intros Hm; unfold erode.
  apply Forall_write_pixels; [apply binary_repeat_0|].
  intros x y _ _. apply binary_ToUint8.
  apply forZ_inv; [right; now right|]. intros ky v _ Hv.
  apply forZ_inv; auto. intros kx v' _ Hv'.
  apply binary_Math_min; auto using binary_get.
Qed.

(** C10. Morphology keeps a binary mask binary: when every value of the
    mask is 0 or 255, so is every value of its dilation, of its erosion, and
    of the closing (dilate, then erode) that the detection applies.  This
    holds for every kernel size, in particular for the odd sizes from 1 on. *)
Theorem morphology_keeps_masks_binary (cfg : Config.t) (mask : list Z)
    (width height kernelSize : Z) :
  Forall binary mask ->
  Forall binary (dilate mask width height kernelSize) /\
  Forall binary (erode mask width height kernelSize) /\
  Forall binary (closing cfg mask width height).
Proof.
  intros Hm; repeat split.
  - now apply binary_dilate.
  - now apply binary_erode.
  - unfold closing. now apply binary_erode, binary_dilate.
Qed.

Lemma morphology_keeps_masks_binary_witness :
  Forall binary [0; 255; 255; 0; 0; 0] /\
  Forall binary (dilate [0; 255; 255; 0; 0; 0] 3 2 3) /\
  Forall binary (erode [0; 255; 255; 0; 0; 0] 3 2 3) /\
  Forall binary (closing CONFIG [0; 255; 255; 0; 0; 0] 3 2).
Proof.
  assert (Forall binary [0; 255; 255; 0; 0; 0]) as H.
  { repeat constructor; (now left) || (now right). }
  split; [exact H|].
  exact (morphology_keeps_masks_binary CONFIG [0; 255; 255; 0; 0; 0] 3 2 3 H).
Defined.

Example dilate_example :
  dilate [0; 0; 0; 0; 255; 0; 0; 0; 0; 0; 0; 0] 4 3 3
  = [255; 255; 0; 0; 255; 255; 0; 0; 255; 255; 0; 0].
Proof. vm_compute. reflexivity. Qed.

Example erode_example :
  erode [255; 255; 0; 0; 255; 255; 0; 0; 255; 255; 0; 0] 4 3 3
  = [255; 0; 0; 0; 255; 0; 0; 0; 255; 0; 0; 0].
Proof. vm_compute. reflexivity. Qed.

(** ** Frame averaging *)

Lemma Math_round_Q_nearest (q : Q) : nearest_integer q (Math_round_Q q).
Proof.
  unfold nearest_integer, Math_round_Q.
  pose proof (Qfloor_le (q + (1 # 2))) as H1.
  pose proof (Qlt_floor (q + (1 # 2))) as H2.
  rewrite inject_Z_plus in H2. change (inject_Z 1) with 1%Q in H2.
  split; lra.
Qed.

Lemma Math_round_Q_byte (q : Q) :
  (0 <= q)%Q -> (q <= 255)%Q -> 0 <= Math_round_Q q <= 255.
Proof.
  intros H0 H1; unfold Math_round_Q; split.
  - change 0 with (Qfloor 0). apply Qfloor_resp_le. lra.
  - change 255 with (Qfloor (511 # 2)). apply Qfloor_resp_le. lra.
Qed.

Lemma Math_round_Q_integer (z : Z) : Math_round_Q (inject_Z z / inject_Z 1) = z.
Proof.
  unfold Math_round_Q.
  assert (inject_Z z / inject_Z 1 + (1 # 2) == (2 * z + 1) # 2)%Q as ->.
  { change (inject_Z 1) with 1%Q. unfold Qeq, Qplus, Qdiv, Qmult, Qinv, inject_Z.
    cbn [Qnum Qden]. lia. }
  unfold Qfloor. change (Z.pos 2) with 2.
  symmetry; apply (Z.div_unique _ _ _ 1); lia.
Qed.

Lemma byte_ratio_range (s n : Z) :
  0 < n -> 0 <= s <= 255 * n ->
  (0 <= inject_Z s / inject_Z n)%Q /\ (inject_Z s / inject_Z n <= 255)%Q.
Proof.
  intros Hn Hs.
  assert (0 < inject_Z n)%Q as Hn' by (change 0%Q with (inject_Z 0); now rewrite <- Zlt_Qlt).
  split.
  - apply Qle_shift_div_l; auto. rewrite Qmult_0_l.
    change 0%Q with (inject_Z 0). rewrite <- Zle_Qle. lia.
  - apply Qle_shift_div_r; auto.
    change 255%Q with (inject_Z 255). rewrite <- inject_Z_mult, <- Zle_Qle. lia.
Qed.

Lemma ImageData_eq (a b : ImageData.t) :
  ImageData.width a = ImageData.width b ->
  ImageData.height a = ImageData.height b ->
  ImageData.data a = ImageData.data b -> a = b.
Proof.
  destruct a, b; simpl; intros; subst; reflexivity.
Qed.

Section Averaging.
Variable first : ImageData.t.
Variable rest : list ImageData.t.
Let frames := first :: rest.
Hypothesis frames_wf : Forall wf_frame frames.
Hypothesis frames_same_size : Forall (same_size first) frames.

Let size : Z := 4 * ImageData.width first * ImageData.height first.

Lemma frame_channel (f : ImageData.t) (i : Z) :
  In f frames -> 0 <= i < size ->
  exists v, get (ImageData.data f) i = Some v /\ 0 <= v <= 255
            /\ getZ (ImageData.data f) i = v.
Proof.
  intros Hf Hi.
  pose proof (proj1 (Forall_forall _ _) frames_wf f Hf) as (_ & _ & Hlen & Hbytes).
  pose proof (proj1 (Forall_forall _ _) frames_same_size f Hf) as [Hw Hh].
  destruct (get_in_range (ImageData.data f) i) as [v Hv].
  - rewrite Hlen, <- Hw, <- Hh. exact Hi.
  - exists v; repeat split; auto.
    + apply get_In in Hv. rewrite Forall_forall in Hbytes. now apply Hbytes.
    + apply get_In in Hv. rewrite Forall_forall in Hbytes. now apply Hbytes.
    + unfold getZ; now rewrite Hv.
Qed.

(** The inner loop of [averageFrames] adds up channel [i] of every frame. *)
Lemma channel_sum_loop (i : Z) (l : list ImageData.t) (s : Z) :
  incl l frames -> 0 <= i < size ->
  fold_left (fun sum frame => num_add sum (get (ImageData.data frame) i))
            l (Some s)
  = Some (s + channelSum l i).
Proof.
  intros Hl Hi. revert s. induction l as [|f l IH]; intros s.
  - simpl. now rewrite Z.add_0_r.
  - simpl. destruct (frame_channel f i) as (v & Hv & _ & Hz); auto.
    { apply Hl; now left. }
    rewrite Hv; simpl. rewrite IH.
    + unfold channelSum; simpl. rewrite Hz. f_equal; lia.
    + intros g Hg; apply Hl; now right.
Qed.

Lemma channelSum_range (i : Z) (l : list ImageData.t) :
  incl l frames -> 0 <= i < size ->
  0 <= channelSum l i <= 255 * Z.of_nat (length l).
Proof.
  intros Hl Hi. induction l as [|f l IH].
  - simpl; unfold channelSum; simpl; lia.
  - destruct (frame_channel f i) as (v & _ & Hv & Hz); auto.
    { apply Hl; now left. }
    assert (incl l frames) as Hl' by (intros g Hg; apply Hl; now right).
    specialize (IH Hl'). unfold channelSum in *; simpl length; simpl map; simpl fold_right.
    rewrite Hz. lia.
Qed.

(** C7. For a non-empty list of well-formed frames of identical dimensions,
    [averageFrames] returns a frame of the same dimensions whose every
    channel is the arithmetic mean of that channel across the inputs,
    rounded to the nearest integer, and lies between 0 and 255; for a single
    frame the result is that frame. *)
Theorem averageFrames_mean :
  exists result,
    averageFrames frames = Some result /\
    same_size first result /\
    Z.of_nat (length (ImageData.data result)) = size /\
    (forall i, 0 <= i < size ->
       exists v, get (ImageData.data result) i = Some v /\
                 nearest_integer (channelMean frames i) v /\
                 0 <= v <= 255) /\
    (rest = [] -> result = first).
Proof.
  pose proof (Forall_inv frames_wf) as (Hw & Hh & Hlen & Hbytes).
  assert (0 <= size) as Hsize by (unfold size; nia).
  set (cell := fun i : Z =>
    ToUint8Clamp (round_ratio
      (fold_left (fun sum frame => num_add sum (get (ImageData.data frame) i))
         frames (Some 0)) (Z.of_nat (length frames)))).
  exists (ImageData.mk (ImageData.width first) (ImageData.height first)
            (forZ 0 size (fun i data => put data i (cell i))
               (repeat 0 (Z.to_nat size)))).
  split.
  { unfold averageFrames, frames, new_ImageData.
    rewrite (proj2 (Z.ltb_lt 0 _) Hw), (proj2 (Z.ltb_lt 0 _) Hh).
    cbn [andb ImageData.data]. fold size.
    rewrite repeat_length, Z2Nat.id by lia. reflexivity. }
  cbn [ImageData.data ImageData.width ImageData.height].
  assert (forall i, 0 <= i < size ->
            get (forZ 0 size (fun i data => put data i (cell i))
                   (repeat 0 (Z.to_nat size))) i = Some (cell i)) as Hget.
  { intros i Hi. apply get_forZ_put; auto. rewrite repeat_length; lia. }
  assert (forall i, 0 <= i < size ->
            cell i = Math_round_Q (channelMean frames i) /\
            0 <= cell i <= 255) as Hcell.
  { intros i Hi. unfold cell.
    rewrite channel_sum_loop by (auto using incl_refl). unfold round_ratio.
    rewrite ?Z.add_0_l. fold (channelMean frames i).
    pose proof (channelSum_range i frames (incl_refl _) Hi) as Hs.
    destruct (byte_ratio_range (channelSum frames i) (Z.of_nat (length frames)))
      as [H0 H1]; auto.
    { unfold frames; simpl length; lia. }
    pose proof (Math_round_Q_byte _ H0 H1) as Hb. fold (channelMean frames i) in Hb.
    unfold ToUint8Clamp. lia. }
  repeat split.
  - rewrite length_forZ_put, repeat_length; lia.
  - intros i Hi. exists (cell i). destruct (Hcell i Hi) as [Hc Hb].
    repeat split; auto; try lia.
    + rewrite Hc. apply Math_round_Q_nearest.
    + rewrite Hc. apply Math_round_Q_nearest.
  - intros Hrest. apply ImageData_eq; auto.
    cbn [ImageData.data ImageData.width ImageData.height] in *.
    apply get_ext.
    + rewrite length_forZ_put, repeat_length. lia.
    + intros i. destruct (Z_lt_dec i 0) as [Hneg|Hpos].
      { unfold get. destruct (Z.ltb_spec i 0); auto; lia. }
      destruct (Z_lt_dec i size) as [Hi|Hi].
      * rewrite Hget by lia. destruct (Hcell i) as [Hc _]; [lia|].
        rewrite Hc. unfold channelMean, channelSum, frames. rewrite Hrest.
        simpl map; simpl fold_right; simpl length. rewrite Z.add_0_r.
        change (Z.of_nat 1) with 1. rewrite Math_round_Q_integer.
        destruct (frame_channel first i) as (v & Hv & _ & Hz);
          [now left | lia |].
        now rewrite Hz, Hv.
      * transitivity (@None Z).
        -- destruct (get (forZ 0 size _ _) i) eqn:E; auto.
           apply get_Some_range in E.
           rewrite length_forZ_put, repeat_length in E. lia.
        -- destruct (get (ImageData.data first) i) eqn:E; auto.
           apply get_Some_range in E. unfold size in Hi. lia.
Qed.

End Averaging.

Lemma averageFrames_mean_witness :
  let f1 := ImageData.mk 1 1 [10; 20; 30; 255] in
  let f2 := ImageData.mk 1 1 [11; 20; 33; 255] in
  let f3 := ImageData.mk 1 1 [11; 21; 40; 255] in
  Forall wf_frame [f1; f2; f3] /\
  Forall (same_size f1) [f1; f2; f3] /\
  exists result,
    averageFrames [f1; f2; f3] = Some result /\
    same_size f1 result /\
    Z.of_nat (length (ImageData.data result)) = 4 /\
    (forall i, 0 <= i < 4 ->
       exists v, get (ImageData.data result) i = Some v /\
                 nearest_integer (channelMean [f1; f2; f3] i) v /\
                 0 <= v <= 255) /\
    ([f2; f3] = [] -> result = f1).
Proof.
  intros f1 f2 f3.
  assert (Forall wf_frame [f1; f2; f3]) as Hwf.
  { repeat constructor; simpl; lia. }
  assert (Forall (same_size f1) [f1; f2; f3]) as Hsame.
  { repeat constructor. }
  split; [exact Hwf|]. split; [exact Hsame|].
  exact (averageFrames_mean f1 [f2; f3] Hwf Hsame).
Defined.

Example averageFrames_example :
  averageFrames [ImageData.mk 1 1 [10; 20; 30; 255];
                 ImageData.mk 1 1 [11; 20; 33; 255];
                 ImageData.mk 1 1 [11; 21; 40; 255]]
  = Some (ImageData.mk 1 1 [11; 20; 34; 255]).
Proof. vm_compute. reflexivity. Qed.

(** ** Bounding-box refinement *)

Section RefineFacts.
Variable diffMap : list R.
Variables width height minX minY maxX maxY : Z.
Hypothesis box_x : 0 <= minX <= maxX /\ maxX < width.
Hypothesis box_y : 0 <= minY <= maxY /\ maxY < height.

Let window := inWindow width height minX minY maxX maxY.
Let bright := exceedsEdgeThreshold diffMap width.
Let refined := refineBoundingBox diffMap width height minX minY maxX maxY.

(** What holds of the box throughout the two loops. *)
Let box_ok (b : Box.t) : Prop :=
  (Z.max 0 (minX - 5) <= Box.minX b <= maxX /\
   minX <= Box.maxX b <= Z.min (width - 1) (maxX + 5) /\
   Z.max 0 (minY - 5) <= Box.minY b <= maxY /\
   minY <= Box.maxY b <= Z.min (height - 1) (maxY + 5)) /\
  (Box.minX b = maxX \/ exists y, window (Box.minX b) y /\ bright (Box.minX b) y) /\
  (Box.maxX b = minX \/ exists y, window (Box.maxX b) y /\ bright (Box.maxX b) y) /\
  (Box.minY b = maxY \/ exists x, window x (Box.minY b) /\ bright x (Box.minY b)) /\
  (Box.maxY b = minY \/ exists x, window x (Box.maxY b) /\ bright x (Box.maxY b)).

(** The box covers every bright window pixel scanned before ([x], [y]). *)
Let covers (y x : Z) (b : Box.t) : Prop :=
  forall x' y', window x' y' -> bright x' y' ->
    y' < y \/ (y' = y /\ x' < x) ->
    Box.minX b <= x' <= Box.maxX b /\ Box.minY b <= y' <= Box.maxY b.

Lemma refine_step_ok (b : Box.t) (x y : Z) :
  window x y -> bright x y -> box_ok b ->
  box_ok {| Box.minX := Z.min (Box.minX b) x; Box.maxX := Z.max (Box.maxX b) x;
            Box.minY := Z.min (Box.minY b) y; Box.maxY := Z.max (Box.maxY b) y |}.
Proof.
  intros Hw Hb (Hr & H1 & H2 & H3 & H4).
  pose proof Hw as [Hwx Hwy].
  destruct b as [bx0 bx1 by0 by1]; cbn [Box.minX Box.maxX Box.minY Box.maxY] in *.
  unfold box_ok; cbn [Box.minX Box.maxX Box.minY Box.maxY].
  split; [lia|]. repeat split.
  - destruct (Z.min_spec bx0 x) as [[_ ->]|[_ ->]]; auto. right; eauto.
  - destruct (Z.max_spec bx1 x) as [[_ ->]|[_ ->]]; auto. right; eauto.
  - destruct (Z.min_spec by0 y) as [[_ ->]|[_ ->]]; auto. right; eauto.
  - destruct (Z.max_spec by1 y) as [[_ ->]|[_ ->]]; auto. right; eauto.
Qed.

Lemma refine_invariant : box_ok refined /\
  forall x y, window x y -> bright x y ->
    Box.minX refined <= x <= Box.maxX refined /\
    Box.minY refined <= y <= Box.maxY refined.
Proof.
  unfold refined, refineBoundingBox.
  match goal with |- box_ok ?b /\ _ =>
    assert (box_ok b /\
            covers (Z.min (height - 1) (maxY + 5) + 1) (Z.max 0 (minX - 5)) b)
      as [Hok Hcov] end.
  { apply (forZ_ind (fun y b => box_ok b /\ covers y (Z.max 0 (minX - 5)) b)).
    - lia.
    - split.
      + unfold box_ok; cbn [Box.minX Box.maxX Box.minY Box.maxY].
        split; [lia|]. repeat split; now left.
      + intros x' y' [Hx' Hy'] _ Hlt. lia.
    - intros y b Hy [Hok Hcov].
      match goal with |- box_ok ?b' /\ _ =>
        assert (box_ok b' /\ covers y (Z.min (width - 1) (maxX + 5) + 1) b')
          as [Hok' Hcov'] end.
      { apply (forZ_ind (fun x b => box_ok b /\ covers y x b)).
        - lia.
        - split; auto.
        - intros x b' Hx [Hb' Hc'].
          destruct (Rgtb_spec (getR diffMap (y * width + x)) 20) as [Hbr|Hdark].
          + split.
            * apply refine_step_ok; auto. split; lia.
            * intros x' y' Hw' Hb'' Hlt.
              cbn [Box.minX Box.maxX Box.minY Box.maxY].
              destruct (Z.eq_dec y' y) as [->|Hny];
                [destruct (Z.eq_dec x' x) as [->|Hnx]|].
              -- lia.
              -- assert (y < y \/ y = y /\ x' < x) as Hprev by lia.
                 specialize (Hc' x' y Hw' Hb'' Hprev). lia.
              -- assert (y' < y \/ y' = y /\ x' < x) as Hprev by lia.
                 specialize (Hc' x' y' Hw' Hb'' Hprev). lia.
          + split; auto.
            intros x' y' Hw' Hb'' Hlt.
            destruct (Z.eq_dec y' y) as [->|Hny];
              [destruct (Z.eq_dec x' x) as [->|Hnx]|].
            * exfalso. apply Hdark. exact Hb''.
            * apply Hc'; auto. lia.
            * apply Hc'; auto. lia. }
      split; auto.
      intros x' y' Hw' Hb' Hlt. apply Hcov'; auto.
      destruct Hw' as [Hwx _]. lia. }
  split; auto.
  intros x y Hw Hb. apply Hcov; auto.
  destruct Hw as [_ Hwy]. lia.
Qed.


End RefineFacts.




(** ** Area colour sampling *)

Lemma get_map_zrange {A : Type} (f : Z -> A) (n i : Z) :
  0 <= i < n -> get (map f (zrange 0 n)) i = Some (f i).
Proof.
  intros H. unfold get, zrange.
  destruct (Z.ltb_spec i 0); try lia.
  rewrite !nth_error_map, nth_error_seq.
  destruct (Nat.ltb_spec (Z.to_nat i) (Z.to_nat (n - 0))); try lia.
  simpl. f_equal. f_equal. lia.
Qed.

Lemma getImageData_channel (canvas : ImageData.t) (sx sy sw sh x y k : Z) :
  0 <= x < sw -> 0 <= y < sh -> 0 <= k < 4 ->
  getZ (getImageData canvas sx sy sw sh) ((y * sw + x) * 4 + k)
  = canvas_channel canvas (sx + x) (sy + y) k.
Proof.
  intros Hx Hy Hk. unfold getZ, getImageData.
  rewrite get_map_zrange by nia.
  cbv zeta.
  replace (((y * sw + x) * 4 + k) / 4) with (y * sw + x)
    by (apply (Z.div_unique _ _ _ k); lia).
  replace (((y * sw + x) * 4 + k) mod 4) with k
    by (apply (Z.mod_unique _ _ (y * sw + x)); lia).
  now rewrite pixel_index_mod, pixel_index_div by lia.
Qed.

Lemma canvas_channel_inside (canvas : ImageData.t) (x y k : Z) :
  0 <= x < ImageData.width canvas -> 0 <= y < ImageData.height canvas ->
  canvas_channel canvas x y k
  = getZ (ImageData.data canvas) ((y * ImageData.width canvas + x) * 4 + k).
Proof.
  intros Hx Hy. unfold canvas_channel.
  destruct (Z.leb_spec 0 x), (Z.ltb_spec x (ImageData.width canvas)),
    (Z.leb_spec 0 y), (Z.ltb_spec y (ImageData.height canvas)); simpl; auto; lia.
Qed.

Lemma canvas_channel_outside (canvas : ImageData.t) (x y k : Z) :
  ImageData.width canvas <= x -> canvas_channel canvas x y k = 0.
Proof.
  intros Hx. unfold canvas_channel.
  destruct (Z.leb_spec 0 x), (Z.ltb_spec x (ImageData.width canvas));
    simpl; auto; lia.
Qed.

Section SamplerFacts.
Local Open Scope R_scope.

Lemma Math_round_IZR (z : Z) : Math_round (IZR z) = z.
Proof.
  unfold Math_round. apply Zfloor_eq. lra.
Qed.

Lemma Math_round_lt (r : R) (z : Z) : r + / 2 < IZR z -> (Math_round r < z)%Z.
Proof.
  intros H. unfold Math_round. apply lt_IZR.
  pose proof (Zfloor_bound (r + / 2)). lra.
Qed.

Lemma sampleWeight_exp (areaW areaH x y : Z) :
  sampleWeight areaW areaH x y =
  exp (- (((IZR x - IZR areaW / 2) / (IZR areaW / 2))
          * ((IZR x - IZR areaW / 2) / (IZR areaW / 2))
          + ((IZR y - IZR areaH / 2) / (IZR areaH / 2))
            * ((IZR y - IZR areaH / 2) / (IZR areaH / 2)))).
Proof.
  unfold sampleWeight. cbv zeta. f_equal.
  set (dx := (IZR x - IZR areaW / 2) / (IZR areaW / 2)).
  set (dy := (IZR y - IZR areaH / 2) / (IZR areaH / 2)).
  rewrite <- Ropp_mult_distr_l. f_equal.
  apply sqrt_sqrt. nra.
Qed.

Lemma sampleWeight_pos (areaW areaH x y : Z) : 0 < sampleWeight areaW areaH x y.
Proof. unfold sampleWeight. apply exp_pos. Qed.

Lemma sampleTotals_steps (data : list Z) (areaW areaH : Z) :
  sampleTotals data areaW areaH =
  forZ 0 areaH (fun y t => forZ 0 areaW (sampleStep data areaW areaH y) t)
    {| totalR := 0; totalG := 0; totalB := 0; totalW := 0 |}.
Proof. reflexivity. Qed.

(** On uniformly coloured data the weighted sums are the colour times the
    total weight, and the total weight is positive. *)
Lemma sampleTotals_uniform (data : list Z) (areaW areaH : Z) (c : Color.t) :
  (1 <= areaW)%Z -> (1 <= areaH)%Z ->
  (forall x y, (0 <= x < areaW)%Z -> (0 <= y < areaH)%Z ->
     getZ data ((y * areaW + x) * 4) = Color.r c /\
     getZ data ((y * areaW + x) * 4 + 1) = Color.g c /\
     getZ data ((y * areaW + x) * 4 + 2) = Color.b c) ->
  let t := sampleTotals data areaW areaH in
  totalR t = IZR (Color.r c) * totalW t /\
  totalG t = IZR (Color.g c) * totalW t /\
  totalB t = IZR (Color.b c) * totalW t /\
  0 < totalW t.
Proof.
  intros Hw Hh Hdata t. unfold t; rewrite sampleTotals_steps.
  pose (inv := fun (k : Z) (t : Totals) =>
    totalR t = IZR (Color.r c) * totalW t /\
    totalG t = IZR (Color.g c) * totalW t /\
    totalB t = IZR (Color.b c) * totalW t /\
    0 <= totalW t /\ ((0 < k)%Z -> 0 < totalW t)).
  assert (inv areaH (forZ 0 areaH (fun y t =>
            forZ 0 areaW (sampleStep data areaW areaH y) t)
            {| totalR := 0; totalG := 0; totalB := 0; totalW := 0 |}))
    as (HR & HG & HB & _ & Hpos).
  { apply (forZ_ind inv); [lia | |].
    - unfold inv; simpl. repeat split; try lra. lia.
    - intros y t0 Hy (HR & HG & HB & H0 & _).
      assert (inv areaW (forZ 0 areaW (sampleStep data areaW areaH y) t0))
        as (HR' & HG' & HB' & H0' & Hpos').
      { apply (forZ_ind inv); [lia | |].
        - unfold inv. repeat split; auto. lia.
        - intros x t1 Hx (HR1 & HG1 & HB1 & H1 & _).
          destruct (Hdata x y Hx Hy) as (Er & Eg & Eb).
          pose proof (sampleWeight_pos areaW areaH x y) as Hwt.
          unfold inv, sampleStep; cbn [totalR totalG totalB totalW].
          rewrite Er, Eg, Eb, HR1, HG1, HB1.
          repeat split; try lra. }
      unfold inv. repeat split; auto. intros _. apply Hpos'. lia. }
  repeat split; auto. apply Hpos. lia.
Qed.

Lemma sampleAreaColor_area (cfg : Config.t) (canvas : ImageData.t)
    (screen : Screen.t) (area : Rect.t) (areaX areaY areaW areaH : Z) :
  Screen.area screen = Some area ->
  samplingRect cfg area = (areaX, areaY, areaW, areaH) ->
  sampleAreaColor cfg canvas screen =
  Some (let t := sampleTotals (getImageData canvas areaX areaY areaW areaH)
                   areaW areaH in
        {| Color.r := Math_round (totalR t / totalW t);
           Color.g := Math_round (totalG t / totalW t);
           Color.b := Math_round (totalB t / totalW t) |}).
Proof.
  intros Harea Hrect. unfold sampleAreaColor. rewrite Harea.
  unfold samplingRect in Hrect. cbv zeta in Hrect.
  injection Hrect as <- <- <- <-. reflexivity.
Qed.

Lemma samplingRect_size (cfg : Config.t) (area : Rect.t)
    (areaX areaY areaW areaH : Z) :
  samplingRect cfg area = (areaX, areaY, areaW, areaH) ->
  (1 <= areaW)%Z /\ (1 <= areaH)%Z.
Proof.
  unfold samplingRect. cbv zeta. intros H.
  injection H as _ _ <- <-. lia.
Qed.

(** C8, amended. When the sampling rectangle of a screen's area lies inside
    the virtual canvas and every canvas pixel in it has the same colour,
    [sampleAreaColor] returns exactly that colour. *)
Theorem sampleAreaColor_uniform (cfg : Config.t) (canvas : ImageData.t)
    (screen : Screen.t) (area : Rect.t) (areaX areaY areaW areaH : Z)
    (c : Color.t) :
  Screen.area screen = Some area ->
  samplingRect cfg area = (areaX, areaY, areaW, areaH) ->
  (0 <= areaX /\ areaX + areaW <= ImageData.width canvas)%Z ->
  (0 <= areaY /\ areaY + areaH <= ImageData.height canvas)%Z ->
  (forall x y, (areaX <= x < areaX + areaW)%Z -> (areaY <= y < areaY + areaH)%Z ->
     canvasColor canvas x y = c) ->
  sampleAreaColor cfg canvas screen = Some c.
Proof.
  intros Harea Hrect Hx Hy Hcol.
  rewrite (sampleAreaColor_area _ _ _ _ _ _ _ _ Harea Hrect). cbv zeta.
  destruct (samplingRect_size _ _ _ _ _ _ Hrect) as [Hw Hh].
  destruct (sampleTotals_uniform
              (getImageData canvas areaX areaY areaW areaH) areaW areaH c Hw Hh)
    as (HR & HG & HB & Hpos).
  { intros x y Hx' Hy'.
    specialize (Hcol (areaX + x)%Z (areaY + y)%Z).
    rewrite <- Hcol by lia. unfold canvasColor. cbn [Color.r Color.g Color.b].
    rewrite <- (Z.add_0_r ((y * areaW + x) * 4)) at 1.
    rewrite !getImageData_channel, !canvas_channel_inside by lia.
    rewrite Z.add_0_r. auto. }
  rewrite HR, HG, HB. f_equal.
  replace (IZR (Color.r c) * _ / _) with (IZR (Color.r c)) by (field; lra).
  replace (IZR (Color.g c) * _ / _) with (IZR (Color.g c)) by (field; lra).
  replace (IZR (Color.b c) * _ / _) with (IZR (Color.b c)) by (field; lra).
  rewrite !Math_round_IZR. now destruct c.
Qed.

End SamplerFacts.

Section SamplerExamples.
Local Open Scope R_scope.

Lemma whiteCanvas_color (x y : Z) :
  (0 <= x < 200)%Z -> (0 <= y < 200)%Z -> canvasColor whiteCanvas x y = white.
Proof.
  intros Hx Hy. unfold canvasColor, whiteCanvas, white, getZ.
  cbn [ImageData.width ImageData.data].
  rewrite !get_repeat by lia. reflexivity.
Qed.

Lemma samplingRect_inside :
  samplingRect CONFIG (Rect.mk 0.25 0.25 0.125 0.125) = (50, 50, 25, 25)%Z.
Proof.
  unfold samplingRect, clampRect, Math_floor. cbv zeta.
  cbn [Rect.x Rect.y Rect.width Rect.height Config.canvasSize
       Config.minNormalizedArea Config.maxNormalizedArea CONFIG].
  rewrite !clamp_id by lra.
  rewrite (Zfloor_eq 50) by lra. rewrite (Zfloor_eq 25) by lra. reflexivity.
Qed.

Lemma sampleAreaColor_uniform_witness :
  Screen.area (screenWithArea (Rect.mk 0.25 0.25 0.125 0.125))
    = Some (Rect.mk 0.25 0.25 0.125 0.125) /\
  samplingRect CONFIG (Rect.mk 0.25 0.25 0.125 0.125) = (50, 50, 25, 25)%Z /\
  (0 <= 50 /\ 50 + 25 <= ImageData.width whiteCanvas)%Z /\
  (0 <= 50 /\ 50 + 25 <= ImageData.height whiteCanvas)%Z /\
  (forall x y, (50 <= x < 50 + 25)%Z -> (50 <= y < 50 + 25)%Z ->
     canvasColor whiteCanvas x y = white) /\
  sampleAreaColor CONFIG whiteCanvas
    (screenWithArea (Rect.mk 0.25 0.25 0.125 0.125)) = Some white.
Proof.
  assert (forall x y, (50 <= x < 50 + 25)%Z -> (50 <= y < 50 + 25)%Z ->
            canvasColor whiteCanvas x y = white) as Hcol.
  { intros x y Hx Hy. apply whiteCanvas_color; lia. }
  assert ((0 <= 50 /\ 50 + 25 <= ImageData.width whiteCanvas)%Z) as Hx
    by (unfold whiteCanvas; cbn [ImageData.width]; lia).
  assert ((0 <= 50 /\ 50 + 25 <= ImageData.height whiteCanvas)%Z) as Hy
    by (unfold whiteCanvas; cbn [ImageData.height]; lia).
  split; [reflexivity|]. split; [exact samplingRect_inside|].
  split; [exact Hx|]. split; [exact Hy|]. split; [exact Hcol|].
  exact (sampleAreaColor_uniform CONFIG whiteCanvas
           (screenWithArea (Rect.mk 0.25 0.25 0.125 0.125))
           (Rect.mk 0.25 0.25 0.125 0.125) 50 50 25 25 white
           eq_refl samplingRect_inside Hx Hy Hcol).
Defined.

Lemma samplingRect_at_edge :
  samplingRect CONFIG (Rect.mk (127 / 128) 0 0.02 0.02) = (198, 0, 4, 4)%Z.
Proof.
  unfold samplingRect, clampRect, Math_floor. cbv zeta.
  cbn [Rect.x Rect.y Rect.width Rect.height Config.canvasSize
       Config.minNormalizedArea Config.maxNormalizedArea CONFIG].
  rewrite !clamp_id by lra.
  rewrite (Zfloor_eq 198), (Zfloor_eq 0), (Zfloor_eq 4) by lra. reflexivity.
Qed.

Lemma edge_weight_lt (y : Z) : sampleWeight 4 4 0 y < sampleWeight 4 4 2 y.
Proof.
  rewrite !sampleWeight_exp. apply exp_increasing. lra.
Qed.

Lemma edge_weight_eq (y : Z) : sampleWeight 4 4 1 y = sampleWeight 4 4 3 y.
Proof.
  rewrite !sampleWeight_exp. f_equal. lra.
Qed.

Lemma forZ_0_4 {S : Type} (body : Z -> S -> S) (s : S) :
  forZ 0 4 body s = body 3%Z (body 2%Z (body 1%Z (body 0%Z s))).
Proof. reflexivity. Qed.

Lemma totalR_sampleStep (data : list Z) (areaW areaH y x : Z) (t : Totals) :
  totalR (sampleStep data areaW areaH y x t)
  = totalR t + IZR (getZ data ((y * areaW + x) * 4)) * sampleWeight areaW areaH x y.
Proof. reflexivity. Qed.

Lemma totalW_sampleStep (data : list Z) (areaW areaH y x : Z) (t : Totals) :
  totalW (sampleStep data areaW areaH y x t)
  = totalW t + sampleWeight areaW areaH x y.
Proof. reflexivity. Qed.

Lemma edge_data_inside (x y : Z) :
  (0 <= x < 2)%Z -> (0 <= y < 4)%Z ->
  getZ (getImageData whiteCanvas 198 0 4 4) ((y * 4 + x) * 4) = 255%Z.
Proof.
  intros Hx Hy.
  rewrite <- (Z.add_0_r ((y * 4 + x) * 4)).
  rewrite getImageData_channel, canvas_channel_inside
    by (unfold whiteCanvas; cbn [ImageData.width ImageData.height]; lia).
  unfold whiteCanvas, getZ. cbn [ImageData.width ImageData.data].
  rewrite get_repeat by lia. reflexivity.
Qed.

Lemma edge_data_outside (x y : Z) :
  (2 <= x < 4)%Z -> (0 <= y < 4)%Z ->
  getZ (getImageData whiteCanvas 198 0 4 4) ((y * 4 + x) * 4) = 0%Z.
Proof.
  intros Hx Hy.
  rewrite <- (Z.add_0_r ((y * 4 + x) * 4)).
  rewrite getImageData_channel by lia.
  apply canvas_channel_outside.
  unfold whiteCanvas; cbn [ImageData.width]; lia.
Qed.

(** C8, counterexample. On an entirely white canvas, a screen whose area
    sits at the right edge (x = 127/128, clamped width 0.02) is sampled over
    columns 198 to 201; columns 200 and 201 lie outside the canvas and read
    as transparent black, so the sampled red channel is below 255 although
    every canvas pixel is white. *)
Lemma sampleAreaColor_beyond_canvas :
  (forall x y, (0 <= x < 200)%Z -> (0 <= y < 200)%Z ->
     canvasColor whiteCanvas x y = white) /\
  exists c,
    sampleAreaColor CONFIG whiteCanvas
      (screenWithArea (Rect.mk (127 / 128) 0 0.02 0.02)) = Some c /\
    (Color.r c < 255)%Z.
Proof.
  split; [exact whiteCanvas_color|].
  rewrite (sampleAreaColor_area CONFIG whiteCanvas
             (screenWithArea (Rect.mk (127 / 128) 0 0.02 0.02))
             (Rect.mk (127 / 128) 0 0.02 0.02) 198 0 4 4
             eq_refl samplingRect_at_edge).
  eexists; split; [reflexivity|]. cbv zeta. cbn [Color.r].
  rewrite sampleTotals_steps, forZ_0_4, !forZ_0_4.
  rewrite !totalR_sampleStep, !totalW_sampleStep. cbn [totalR totalW].
  repeat first [rewrite edge_data_inside by lia
               | rewrite edge_data_outside by lia].
  pose proof (edge_weight_lt 0). pose proof (edge_weight_lt 1).
  pose proof (edge_weight_lt 2). pose proof (edge_weight_lt 3).
  pose proof (edge_weight_eq 0). pose proof (edge_weight_eq 1).
  pose proof (edge_weight_eq 2). pose proof (edge_weight_eq 3).
  pose proof (sampleWeight_pos 4 4 0 0). pose proof (sampleWeight_pos 4 4 0 1).
  pose proof (sampleWeight_pos 4 4 0 2). pose proof (sampleWeight_pos 4 4 0 3).
  pose proof (sampleWeight_pos 4 4 1 0). pose proof (sampleWeight_pos 4 4 1 1).
  pose proof (sampleWeight_pos 4 4 1 2). pose proof (sampleWeight_pos 4 4 1 3).
  apply Math_round_lt.
  match goal with |- ?num / ?den + / 2 < 255 =>
    assert (0 < den) as Hden by lra;
    assert (num < 254 * den) as Hnum by lra;
    assert (num / den < 254) as Hq
  end.
  { apply (Rmult_lt_reg_r _ _ _ Hden). unfold Rdiv.
    rewrite Rmult_assoc, Rinv_l by lra. lra. }
  lra.
Qed.

End SamplerExamples.

(** ** Scan orchestrator *)

(** C9, amended. Started with no webcam stream or with no registered
    screen, [startScan] returns at once: it captures no frame, emits no
    message, logs nothing and leaves the controller state as it was.  The
    halt is silent: nothing reports the violated precondition. *)
Theorem startScan_halts_silently (cfg : Config.t) (camera : nat -> ImageData.t)
    (c : Controller) :
  webcamStream c = false \/ screens c = [] ->
  startScan cfg camera c
  = Returns {| final := c; effects := []; completed := true |}.
Proof.
  intros [H | H]; unfold startScan; rewrite H; simpl.
  - reflexivity.
  - now rewrite orb_true_r.
Qed.

Lemma startScan_halts_silently_witness :
  (webcamStream idleController = false \/ screens idleController = []) /\
  startScan CONFIG stillCamera idleController
  = Returns {| final := idleController; effects := []; completed := true |}.
Proof.
  split; [right; reflexivity|].
  apply (startScan_halts_silently CONFIG stillCamera idleController).
  right; reflexivity.
Defined.

(** C9, counterexample. A scan started with a running webcam and zero
    screens ends with an empty effect trace and an unchanged controller:
    no console line, no message and no change of the progress text reports
    the violation. *)
Lemma startScan_reports_nothing :
  startScan CONFIG stillCamera idleController
  = Returns {| final := idleController; effects := []; completed := true |}.
Proof. reflexivity. Qed.

(** ** Connected components: the flood fill *)

Section Connectivity.
Variable mask : list Z.
Variables width height : Z.

Let lit := lit mask width height.
Let connected := connected mask width height.

Lemma adjacent_sym (p q : Pixel) : adjacent p q -> adjacent q p.
Proof.
  intros [[dx dy] [Hd ->]]. exists (- dx, - dy). split.
  - simpl in Hd. simpl.
    destruct Hd as [E|[E|[E|[E|[]]]]]; inversion E; subst; simpl; auto.
  - destruct p as [x y]; simpl. f_equal; lia.
Qed.

Lemma connected_lit_l (p q : Pixel) : connected p q -> lit p.
Proof. unfold connected; induction 1; auto. Qed.

Lemma connected_lit_r (p q : Pixel) : connected p q -> lit q.
Proof. unfold connected; induction 1; auto. Qed.

Lemma connected_trans (p q r : Pixel) :
  connected p q -> connected q r -> connected p r.
Proof.
  intros Hpq Hqr. unfold connected in *.
  induction Hqr as [Hq | r t Hqr IH Hadj Ht]; auto.
  apply connected_step with r; auto.
Qed.

Lemma connected_sym (p q : Pixel) : connected p q -> connected q p.
Proof.
  intros H. unfold connected in *.
  induction H as [Hp | q r Hpq IH Hadj Hr].
  - now apply connected_refl.
  - apply connected_trans with q; auto.
    apply connected_step with r.
    + now apply connected_refl.
    + now apply adjacent_sym.
    + now apply connected_lit_r with p.
Qed.

Lemma lit_inImage (p : Pixel) : lit p -> inImage width height p.
Proof. now intros [H _]. Qed.

(** Two listings of the same component have the same length. *)
Lemma component_length (p q : Pixel) (ps qs : list Pixel) :
  component mask width height p ps -> component mask width height q qs ->
  connected p q -> length ps = length qs.
Proof.
  intros [Np Hp] [Nq Hq] Hpq.
  apply Nat.le_antisymm; apply NoDup_incl_length; auto; intros r Hr.
  - apply Hq. apply connected_trans with p; [now apply connected_sym|].
    now apply Hp.
  - apply Hp. apply connected_trans with q; auto. now apply Hq.
Qed.

Lemma component_of_connected (p q : Pixel) (ps : list Pixel) :
  component mask width height p ps -> connected p q ->
  component mask width height q ps.
Proof.
  intros [Np Hp] Hpq. split; auto. intros r. rewrite Hp. split; intros H.
  - apply connected_trans with p; auto. now apply connected_sym.
  - apply connected_trans with q; auto.
Qed.

End Connectivity.

(** ** Pixel indices and the visited array *)

Section Visited.
Variables width height : Z.
Hypothesis width_nonneg : 0 <= width.
Hypothesis height_nonneg : 0 <= height.

Lemma pixelIndex_range (p : Pixel) :
  inImage width height p -> 0 <= pixelIndex width p < width * height.
Proof.
  intros [Hx Hy]. unfold pixelIndex. nia.
Qed.

Lemma pixelIndex_inj (p q : Pixel) :
  inImage width height p -> inImage width height q ->
  pixelIndex width p = pixelIndex width q -> p = q.
Proof.
  intros [Hx _] [Hx' _] E. unfold pixelIndex in E.
  destruct (pixel_index_inj width (fst p) (snd p) (fst q) (snd q) Hx Hx' E).
  destruct p, q; simpl in *; congruence.
Qed.

Lemma marked_put (visited : list Z) (p r : Pixel) :
  Z.of_nat (length visited) = width * height ->
  inImage width height p -> inImage width height r ->
  marked (put visited (pixelIndex width p) 1) width r
  <-> marked visited width r \/ r = p.
Proof.
  intros Hlen Hp Hr. unfold marked. rewrite get_put.
  pose proof (pixelIndex_range p Hp) as Hi.
  destruct (Z.eqb_spec (pixelIndex width p) (pixelIndex width r)) as [E|E].
  - destruct (Z.leb_spec 0 (pixelIndex width p)); try lia.
    destruct (Z.ltb_spec (pixelIndex width p) (Z.of_nat (length visited)));
      try lia.
    simpl. split; auto. intros _. right. symmetry. now apply pixelIndex_inj.
  - simpl. split; auto. intros [H | ->]; auto; congruence.
Qed.

(** A duplicate-free list of pixels of the image is no longer than the
    image has pixels. *)
Lemma NoDup_inImage_length (ps : list Pixel) :
  NoDup ps -> (forall p, In p ps -> inImage width height p) ->
  Z.of_nat (length ps) <= width * height.
Proof.
  intros Hnd Hin.
  assert (NoDup (map (pixelIndex width) ps)) as Hnd'.
  { clear - Hnd Hin width_nonneg height_nonneg.
    induction ps as [|p ps IH]; simpl; constructor.
    - inversion Hnd; subst. intros Hmem. apply in_map_iff in Hmem as [q [E Hq]].
      assert (q = p) as -> by (apply pixelIndex_inj; auto using in_eq, in_cons).
      contradiction.
    - inversion Hnd; subst. apply IH; auto using in_cons. }
  assert (incl (map (pixelIndex width) ps) (zrange 0 (width * height))) as Hincl.
  { intros i Hi. apply in_map_iff in Hi as [p [<- Hp]].
    apply In_zrange. apply pixelIndex_range; auto. }
  pose proof (NoDup_incl_length Hnd' Hincl) as Hle.
  rewrite length_map, length_zrange in Hle. nia.
Qed.

End Visited.

(** ** One iteration of the flood fill *)

Lemma is255_true (v : option Z) : is255 v = true <-> v = Some 255.
Proof.
  destruct v as [z|]; simpl; split; try discriminate.
  - intros H; apply Z.eqb_eq in H; now subst.
  - intros H; inversion H; reflexivity.
Qed.

Lemma inImage_test (width height nx ny : Z) :
  (nx >=? 0) && (nx <? width) && (ny >=? 0) && (ny <? height) = true
  <-> inImage width height (nx, ny).
Proof.
  unfold inImage; simpl.
  rewrite !andb_true_iff, !Z.geb_le, !Z.ltb_lt. lia.
Qed.

Section Neighbours.
Variable mask : list Z.
Variables width height : Z.
Hypothesis width_nonneg : 0 <= width.
Hypothesis height_nonneg : 0 <= height.

Lemma visit_neighbours_fold (x y : Z) (state : list Z * list Pixel) :
  visit_neighbours mask width height x y state
  = fold_left (visit_step mask width height x y) directions state.
Proof. reflexivity. Qed.

Lemma visit_step_eq (x y dx dy : Z) (visited : list Z) (queue : list Pixel) :
  visit_step mask width height x y (visited, queue) (dx, dy) =
  if (x + dx >=? 0) && (x + dx <? width) && (y + dy >=? 0) && (y + dy <? height)
  then
    if is255 (get mask (pixelIndex width (x + dx, y + dy)))
       && negb (truthy (get visited (pixelIndex width (x + dx, y + dy))))
    then (put visited (pixelIndex width (x + dx, y + dy)) 1,
          queue ++ [(x + dx, y + dy)])
    else (visited, queue)
  else (visited, queue).
Proof. reflexivity. Qed.

(** What the direction loop does, for any duplicate-free list of
    directions: it appends to the queue, once each, the lit and still
    unmarked pixels of the image reached by one of the directions, and marks
    exactly those. *)
Lemma visit_steps (x y : Z) (ds : list (Z * Z)) :
  NoDup ds ->
  forall (visited : list Z) (queue : list Pixel),
  Z.of_nat (length visited) = width * height ->
  exists visited' new,
    fold_left (visit_step mask width height x y) ds (visited, queue)
      = (visited', queue ++ new) /\
    length visited' = length visited /\
    NoDup new /\
    (forall r, In r new <->
       (exists d, In d ds /\ r = (x + fst d, y + snd d)) /\
       lit mask width height r /\ ~ marked visited width r) /\
    (forall r, inImage width height r ->
       (marked visited' width r <-> marked visited width r \/ In r new)).
Proof.
  induction ds as [|[dx dy] ds IH]; intros Hnd visited queue Hlen.
  - exists visited, []. simpl. rewrite app_nil_r.
    split; [reflexivity | split; [reflexivity | split; [constructor | split]]].
    + intros r; split; [intros [] | intros [[d [[] _]] _]].
    + intros r _; simpl; tauto.
  - inversion Hnd as [|d0 ds0 Hnotin Hnd']; subst.
    cbn [fold_left]. rewrite visit_step_eq.
    set (r0 := (x + dx, y + dy)).
    assert (forall new : list Pixel,
      (forall r, In r new <->
         (exists d, In d ds /\ r = (x + fst d, y + snd d)) /\
         lit mask width height r /\ ~ marked visited width r) ->
      ~ (lit mask width height r0 /\ ~ marked visited width r0) ->
      (forall r, In r new <->
         (exists d, In d ((dx, dy) :: ds) /\ r = (x + fst d, y + snd d)) /\
         lit mask width height r /\ ~ marked visited width r)) as Hskip.
    { intros new Hin Hno r. rewrite Hin. split.
      - intros [[d [Hd ->]] H]. split; auto. exists d; auto using in_cons.
      - intros [[d [[<- | Hd] ->]] H]; [contradiction|]. split; eauto. }
    destruct ((x + dx >=? 0) && (x + dx <? width) && (y + dy >=? 0)
              && (y + dy <? height)) eqn:Hrange.
    + apply inImage_test in Hrange. fold r0 in Hrange.
      destruct (is255 (get mask (pixelIndex width r0))) eqn:Hlit;
        [destruct (truthy (get visited (pixelIndex width r0))) eqn:Hmark|];
        cbn [andb negb].
      * (* lit but already marked *)
        destruct (IH Hnd' visited queue Hlen)
          as (v' & new & Hfold & Hlen' & Hnew & Hin & Hmk).
        exists v', new.
        split; [|split; [|split; [|split]]]; auto.
        apply Hskip; auto. intros [_ Hm]. apply Hm. exact Hmark.
      * (* lit and not yet marked: marked and enqueued *)
        assert (Z.of_nat (length (put visited (pixelIndex width r0) 1))
                = width * height) as Hlen1 by now rewrite length_put.
        destruct (IH Hnd' (put visited (pixelIndex width r0) 1)
                    (queue ++ [r0]) Hlen1)
          as (v' & new & Hfold & Hlen' & Hnew & Hin & Hmk).
        assert (forall r, inImage width height r ->
                  (marked (put visited (pixelIndex width r0) 1) width r
                   <-> marked visited width r \/ r = r0)) as Hput.
        { intros r Hr. now apply (marked_put width height). }
        assert (lit mask width height r0) as Hr0lit.
        { split; auto. now apply is255_true. }
        assert (~ marked visited width r0) as Hr0new.
        { unfold marked. rewrite Hmark. discriminate. }
        exists v', (r0 :: new).
        split; [|split; [|split; [|split]]].
        -- rewrite Hfold, <- app_assoc. reflexivity.
        -- now rewrite Hlen', length_put.
        -- constructor; auto. intros Hmem. apply Hin in Hmem.
           destruct Hmem as (_ & _ & Hm). apply Hm. apply Hput; auto.
        -- intros r; split.
           ++ intros [<- | H].
              ** split; auto. exists (dx, dy). split; [now left | reflexivity].
              ** apply Hin in H. destruct H as ([d [Hd ->]] & Hl & Hm).
                 split; [exists d; auto using in_cons|]. split; auto.
                 intros Hv. apply Hm. apply Hput; auto. now destruct Hl.
           ++ intros [[d [[<- | Hd] ->]] [Hl Hm]]; [now left|].
              destruct (Z.eq_dec (pixelIndex width (x + fst d, y + snd d))
                                 (pixelIndex width r0)) as [E|E].
              ** left. symmetry.
                 apply (pixelIndex_inj width height); auto. now destruct Hl.
              ** right. apply Hin. split; eauto. split; auto.
                 intros Hv. apply Hput in Hv; [|now destruct Hl].
                 destruct Hv as [Hv | Hv]; auto. apply E. now rewrite Hv.
        -- intros r Hr; split.
           ++ intros Hv. apply Hmk in Hv; auto. destruct Hv as [Hv | Hv].
              ** apply Hput in Hv; auto. destruct Hv as [Hv | ->]; auto.
                 right; now left.
              ** right; now right.
           ++ intros [Hv | [<- | Hv]]; apply Hmk; auto.
              ** left. apply Hput; auto.
              ** left. apply Hput; auto.
      * (* not lit *)
        destruct (IH Hnd' visited queue Hlen)
          as (v' & new & Hfold & Hlen' & Hnew & Hin & Hmk).
        exists v', new.
        split; [|split; [|split; [|split]]]; auto.
        apply Hskip; auto. intros [[_ Hl] _]. apply is255_true in Hl.
        congruence.
    + (* outside the image *)
      destruct (IH Hnd' visited queue Hlen)
        as (v' & new & Hfold & Hlen' & Hnew & Hin & Hmk).
      exists v', new.
      split; [|split; [|split; [|split]]]; auto.
      apply Hskip; auto. intros [[Hl _] _]. apply inImage_test in Hl.
      congruence.
Qed.

Lemma NoDup_directions : NoDup directions.
Proof.
  unfold directions. repeat constructor; simpl; intuition congruence.
Qed.

(** The direction loop at pixel ([x], [y]). *)
Lemma visit_neighbours_spec (x y : Z) (visited : list Z) (queue : list Pixel) :
  Z.of_nat (length visited) = width * height ->
  exists visited' new,
    visit_neighbours mask width height x y (visited, queue)
      = (visited', queue ++ new) /\
    length visited' = length visited /\
    NoDup new /\
    (forall r, In r new <->
       adjacent (x, y) r /\ lit mask width height r /\ ~ marked visited width r) /\
    (forall r, inImage width height r ->
       (marked visited' width r <-> marked visited width r \/ In r new)).
Proof.
  intros Hlen. rewrite visit_neighbours_fold.
  apply (visit_steps x y directions NoDup_directions visited queue Hlen).
Qed.

End Neighbours.

(** ** The flood fill returns the component of its start pixel *)

Section FloodFill.
Variable mask : list Z.
Variables width height : Z.
Hypothesis width_nonneg : 0 <= width.
Hypothesis height_nonneg : 0 <= height.

(** The start pixel and the [visited] array before the fill marks it. *)
Variable start : Pixel.
Variable visited0 : list Z.
Hypothesis start_lit : lit mask width height start.
Hypothesis visited0_length : Z.of_nat (length visited0) = width * height.
Hypothesis visited0_fresh :
  forall q, connected mask width height start q -> ~ marked visited0 width q.

(** The invariant of the [while] loop. *)
Let fill_inv (visited : list Z) (queue pixels : list Pixel) : Prop :=
  Z.of_nat (length visited) = width * height /\
  NoDup (pixels ++ queue) /\
  (forall q, In q (pixels ++ queue) -> connected mask width height start q) /\
  (forall r, inImage width height r ->
     (marked visited width r <-> marked visited0 width r \/ In r (pixels ++ queue))) /\
  (forall p r, In p pixels -> adjacent p r -> lit mask width height r ->
     marked visited width r) /\
  In start (pixels ++ queue).

Lemma fill_inv_step (visited : list Z) (x y : Z) (queue pixels : list Pixel) :
  fill_inv visited ((x, y) :: queue) pixels ->
  exists visited' queue',
    visit_neighbours mask width height x y (visited, queue) = (visited', queue') /\
    fill_inv visited' queue' (pixels ++ [(x, y)]).
Proof.
  intros (Hlen & Hnd & Hconn & Hmk & Hclosed & Hstart).
  destruct (visit_neighbours_spec mask width height width_nonneg
              x y visited queue Hlen)
    as (v' & new & Hvisit & Hlen' & Hnew & Hin & Hmk').
  exists v', (queue ++ new). split; auto.
  assert (forall r, In r ((pixels ++ [(x, y)]) ++ queue ++ new)
                    <-> In r (pixels ++ (x, y) :: queue) \/ In r new) as Hmem.
  { intros r. rewrite !in_app_iff. simpl. tauto. }
  assert (connected mask width height start (x, y)) as Hxy.
  { apply Hconn. apply in_or_app. right; now left. }
  split; [lia|]. split; [|split; [|split; [|split]]].
  - (* no duplicates *)
    rewrite <- app_assoc. simpl.
    assert (NoDup ((pixels ++ (x, y) :: queue) ++ new)) as Hnd'.
    { apply NoDup_app; auto. intros r Hr Hr'.
      apply Hin in Hr'. destruct Hr' as (_ & Hl & Hm). apply Hm.
      apply Hmk; [now destruct Hl | now right]. }
    now rewrite <- app_assoc in Hnd'.
  - (* every pixel is connected to the start *)
    intros q Hq. apply Hmem in Hq. destruct Hq as [Hq | Hq]; auto.
    apply Hin in Hq. destruct Hq as (Hadj & Hl & _).
    now apply connected_step with (x, y).
  - (* the marks *)
    intros r Hr. rewrite Hmk', Hmk, Hmem by auto. tauto.
  - (* the neighbours of processed pixels are marked *)
    intros p r Hp Hadj Hl. apply Hmk'; [now destruct Hl|].
    apply in_app_iff in Hp. destruct Hp as [Hp | [<- | []]].
    + left. now apply (Hclosed p).
    + destruct (truthy (get visited (pixelIndex width r))) eqn:E.
      * now left.
      * right. apply Hin. split; [exact Hadj|]. split; [exact Hl|].
        unfold marked. rewrite E. discriminate.
  - apply Hmem. now left.
Qed.

Lemma fill_inv_inImage (visited : list Z) (queue pixels : list Pixel) (p : Pixel) :
  fill_inv visited queue pixels -> In p (pixels ++ queue) ->
  inImage width height p.
Proof.
  intros (_ & _ & Hconn & _) Hp.
  apply (lit_inImage mask). apply connected_lit_r with start. now apply Hconn.
Qed.

(** With one unit of fuel per pixel not yet in [pixels], the loop returns,
    and its invariant holds of what it returns. *)
Lemma floodFill_loop_returns (fuel : nat) :
  forall (visited : list Z) (queue pixels : list Pixel),
  fill_inv visited queue pixels ->
  Z.of_nat (length pixels) + Z.of_nat fuel = width * height ->
  exists pixels' visited',
    floodFill_loop fuel mask width height visited queue pixels
      = Returns (pixels', visited') /\
    fill_inv visited' [] pixels'.
Proof.
  induction fuel as [|fuel IH]; intros visited queue pixels Hinv Hfuel.
  - destruct queue as [|[x y] queue].
    + exists pixels, visited. split; auto.
    + exfalso.
      pose proof Hinv as (_ & Hnd & _).
      pose proof (NoDup_inImage_length width height width_nonneg height_nonneg
                    (pixels ++ (x, y) :: queue) Hnd
                    (fun p => fill_inv_inImage _ _ _ p Hinv)) as Hle.
      rewrite length_app in Hle. simpl in Hle. lia.
  - destruct queue as [|[x y] queue].
    + exists pixels, visited. split; auto.
    + destruct (fill_inv_step visited x y queue pixels Hinv)
        as (v' & q' & Hvisit & Hinv').
      simpl. rewrite Hvisit. apply IH; auto.
      rewrite length_app. simpl. lia.
Qed.

(** [floodFill] returns, without repetition, exactly the pixels connected
    to the start pixel, and marks exactly those. *)
Lemma floodFill_component :
  exists pixels visited,
    floodFill mask visited0 width height (fst start) (snd start)
      = Returns (pixels, visited) /\
    component mask width height start pixels /\
    Z.of_nat (length visited) = width * height /\
    (forall r, inImage width height r ->
       (marked visited width r
        <-> marked visited0 width r \/ connected mask width height start r)).
Proof.
  unfold floodFill.
  assert (inImage width height start) as Hstart by now destruct start_lit.
  assert (fill_inv (put visited0 (pixelIndex width start) 1) [start] []) as Hinv.
  { split; [now rewrite length_put|].
    split; [repeat constructor; auto|].
    split; [intros q [<- | []]; now apply connected_refl|].
    split; [|split; [intros p r []|now left]].
    intros r Hr. rewrite (marked_put width height) by auto. simpl. intuition. }
  destruct (floodFill_loop_returns (Z.to_nat (width * height)) _ _ _ Hinv)
    as (ps & v' & Hrun & Hlen & Hnd & Hconn & Hmk & Hclosed & Hin).
  { simpl. pose proof (pixelIndex_range width height width_nonneg
                         start Hstart). lia. }
  rewrite app_nil_r in *.
  assert (forall q, connected mask width height start q -> In q ps) as Hall.
  { intros q Hq. induction Hq as [Hp | q r Hpq IH Hadj Hr]; auto.
    assert (marked v' width r) as Hm by (apply (Hclosed q); auto).
    apply Hmk in Hm; [|now destruct Hr]. destruct Hm as [Hm | Hm]; auto.
    exfalso. apply (visited0_fresh r); auto.
    apply connected_step with q; auto. }
  exists ps, v'. destruct start as [sx sy]. simpl fst; simpl snd.
  split; [exact Hrun|]. split; [|split]; auto.
  - split; auto. intros q; split; auto.
  - intros r Hr. rewrite Hmk by auto. split; intros [H | H]; auto.
Qed.

End FloodFill.

(** ** The largest blob *)

Lemma nested_forZ_cells {S : Type} (width height : Z) (body : Z -> Z -> S -> S)
    (s : S) :
  forZ 0 height (fun y st => forZ 0 width (fun x st => body x y st) st) s
  = fold_left (fun st p => body (fst p) (snd p) st) (cells width height) s.
Proof.
  unfold forZ, cells. revert s.
  induction (zrange 0 height) as [|y ys IH]; intros s; simpl; auto.
  rewrite fold_left_app, <- IH. f_equal.
  clear. revert s. induction (zrange 0 width) as [|x xs IH]; intros s; simpl; auto.
Qed.

Lemma In_cells (width height : Z) (p : Pixel) :
  In p (cells width height) <-> inImage width height p.
Proof.
  unfold cells, inImage. rewrite in_flat_map. split.
  - intros [y [Hy Hp]]. apply in_map_iff in Hp as [x [<- Hx]].
    apply In_zrange in Hx, Hy. simpl; lia.
  - intros [Hx Hy]. exists (snd p). split; [apply In_zrange; lia|].
    apply in_map_iff. exists (fst p). split; [now destruct p|].
    apply In_zrange; lia.
Qed.

Lemma findLargestBlob_scan (mask : list Z) (width height : Z) :
  findLargestBlob mask width height =
  ('(_, largestBlob, _) <-
     fold_left (fun st p => scan_step mask width height (fst p) (snd p) st)
       (cells width height)
       (Returns (repeat 0 (Z.to_nat (width * height)), None, 0)) ;;
   Returns largestBlob).
Proof.
  unfold findLargestBlob.
  rewrite <- (nested_forZ_cells width height (scan_step mask width height)).
  reflexivity.
Qed.

Lemma unmarked_repeat_0 (n : nat) (width : Z) (p : Pixel) :
  ~ marked (repeat 0 n) width p.
Proof.
  unfold marked. destruct (get (repeat 0 n) (pixelIndex width p)) as [v|] eqn:E.
  - apply get_In, repeat_spec in E. subst. simpl. discriminate.
  - simpl. discriminate.
Qed.

Section LargestBlob.
Variable mask : list Z.
Variables width height : Z.
Hypothesis width_nonneg : 0 <= width.
Hypothesis height_nonneg : 0 <= height.

Let lit := lit mask width height.
Let connected := connected mask width height.
Let component := component mask width height.

(** The invariant of the scan, after the pixels [done]. *)
Let scan_inv (done : list Pixel) (st : list Z * option Blob * Z) : Prop :=
  let '(visited, blob, size) := st in
  Z.of_nat (length visited) = width * height /\
  (forall r, inImage width height r ->
     (marked visited width r <-> exists p, In p done /\ connected p r)) /\
  match blob with
  | None => size = 0 /\ forall p, In p done -> ~ lit p
  | Some b =>
    size = Z.of_nat (length (pixels b)) /\
    (exists p, lit p /\ component p (pixels b)) /\
    forall p qs, In p done -> lit p -> component p qs ->
      (length qs <= length (pixels b))%nat
  end.

Lemma scan_inv_step (done : list Pixel) (st : list Z * option Blob * Z)
    (p : Pixel) :
  scan_inv done st -> inImage width height p ->
  exists st',
    scan_step mask width height (fst p) (snd p) (Returns st) = Returns st' /\
    scan_inv (done ++ [p]) st'.
Proof.
  destruct st as [[visited blob] size]. intros (Hlen & Hmk & Hblob) Hp.
  unfold scan_step. cbn [bind]. cbv zeta.
  change (snd p * width + fst p) with (pixelIndex width p).
  assert (forall r, (exists q, In q (done ++ [p]) /\ connected q r)
                    <-> (exists q, In q done /\ connected q r) \/ connected p r)
    as Hdone.
  { intros r. split.
    - intros [q [Hq Hc]]. apply in_app_iff in Hq.
      destruct Hq as [Hq | [<- | []]]; eauto.
    - intros [[q [Hq Hc]] | Hc]; [exists q | exists p]; split; auto;
        apply in_app_iff; simpl; auto. }
  destruct (is255 (get mask (pixelIndex width p))) eqn:Hlit;
    [destruct (truthy (get visited (pixelIndex width p))) eqn:Hmark|];
    cbn [andb negb].
  - (* lit, already marked: part of a component found earlier *)
    assert (marked visited width p) as Hm by exact Hmark.
    apply Hmk in Hm; auto. destruct Hm as [q [Hq Hqp]].
    exists (visited, blob, size). split; auto.
    split; auto. split.
    + intros r Hr. rewrite Hmk, Hdone by auto. split; auto.
      intros [H | H]; auto. exists q. split; auto.
      now apply (connected_trans mask width height q p r).
    + destruct blob as [b|].
      * destruct Hblob as (Hsize & Hcomp & Hmax). split; auto. split; auto.
        intros p' qs Hp' Hl Hc. apply in_app_iff in Hp'.
        destruct Hp' as [Hp' | [<- | []]]; eauto.
        apply (Hmax q); auto.
        -- now apply (connected_lit_l mask width height q p).
        -- apply (component_of_connected mask width height p q); auto.
           now apply connected_sym.
      * destruct Hblob as [_ Hnone]. exfalso. apply (Hnone q); auto.
        now apply (connected_lit_l mask width height q p).
  - (* lit and not marked: a new component *)
    assert (lit p) as Hl by (split; auto; now apply is255_true).
    assert (forall r, connected p r -> ~ marked visited width r) as Hfresh.
    { intros r Hr Hm. apply Hmk in Hm.
      - destruct Hm as [q [Hq Hqr]].
        assert (marked visited width p) as Hm'.
        { apply Hmk; auto. exists q. split; auto.
          apply (connected_trans mask width height q r p); auto.
          now apply connected_sym. }
        unfold marked in Hm'. congruence.
      - apply (lit_inImage mask).
        now apply (connected_lit_r mask width height p r). }
    destruct (floodFill_component mask width height width_nonneg height_nonneg
                p visited Hl Hlen Hfresh)
      as (ps & v' & Hfill & Hcomp & Hlen' & Hmk').
    rewrite Hfill. cbn [bind].
    assert (forall r, inImage width height r ->
              (marked v' width r
               <-> exists q, In q (done ++ [p]) /\ connected q r)) as Hmarks.
    { intros r Hr. rewrite Hmk', Hmk, Hdone by auto. tauto. }
    assert (In p ps) as Hpin by (apply Hcomp; now apply connected_refl).
    assert (forall qs, component p qs -> length qs = length ps) as Hsame.
    { intros qs Hqs.
      apply (component_length mask width height p p); auto.
      now apply connected_refl. }
    destruct (Z.gtb_spec (Z.of_nat (length ps)) size) as [Hgt | Hle].
    + exists (v', Some {| pixels := ps |}, Z.of_nat (length ps)).
      split; auto. split; auto. split; auto. cbn [pixels].
      split; auto. split; [now exists p|].
      intros p' qs Hp' Hl' Hc. apply in_app_iff in Hp'.
      destruct Hp' as [Hp' | [<- | []]].
      * destruct blob as [b|].
        -- destruct Hblob as (Hsize & _ & Hmax).
           specialize (Hmax p' qs Hp' Hl' Hc). lia.
        -- destruct Hblob as [_ Hnone]. exfalso. now apply (Hnone p').
      * rewrite (Hsame qs Hc). lia.
    + exists (v', blob, size). split; auto. split; auto. split; auto.
      destruct blob as [b|].
      * destruct Hblob as (Hsize & Hcomp' & Hmax). split; auto. split; auto.
        intros p' qs Hp' Hl' Hc. apply in_app_iff in Hp'.
        destruct Hp' as [Hp' | [<- | []]]; eauto.
        rewrite (Hsame qs Hc). lia.
      * destruct Hblob as [Hsize _]. exfalso.
        destruct ps; [contradiction | simpl in Hle; lia].
  - (* not lit *)
    assert (~ lit p) as Hdark.
    { intros [_ Hl]. apply is255_true in Hl. congruence. }
    exists (visited, blob, size). split; auto.
    split; auto. split.
    + intros r Hr. rewrite Hmk, Hdone by auto. split; auto.
      intros [H | H]; auto. exfalso. apply Hdark.
      now apply (connected_lit_l mask width height p r).
    + destruct blob as [b|].
      * destruct Hblob as (Hsize & Hcomp & Hmax). split; auto. split; auto.
        intros p' qs Hp' Hl Hc. apply in_app_iff in Hp'.
        destruct Hp' as [Hp' | [<- | []]]; eauto. contradiction.
      * destruct Hblob as [Hsize Hnone]. split; auto.
        intros p' Hp'. apply in_app_iff in Hp'.
        destruct Hp' as [Hp' | [<- | []]]; auto.
Qed.

Lemma scan_inv_fold (todo : list Pixel) :
  forall (done : list Pixel) (st : list Z * option Blob * Z),
  scan_inv done st ->
  (forall p, In p todo -> inImage width height p) ->
  exists st',
    fold_left (fun st p => scan_step mask width height (fst p) (snd p) st)
      todo (Returns st) = Returns st' /\
    scan_inv (done ++ todo) st'.
Proof.
  induction todo as [|p todo IH]; intros done st Hinv Hin.
  - exists st. rewrite app_nil_r. auto.
  - destruct (scan_inv_step done st p Hinv) as (st1 & Hstep & Hinv1).
    { apply Hin; now left. }
    destruct (IH (done ++ [p]) st1 Hinv1) as (st' & Hfold & Hinv').
    { intros q Hq; apply Hin; now right. }
    exists st'. cbn [fold_left]. rewrite Hstep. split; auto.
    now rewrite <- app_assoc in Hinv'.
Qed.

(** [findLargestBlob] returns; it returns [null] when no pixel of the image
    is lit, and otherwise a 4-connected component with the most pixels. *)
Lemma findLargestBlob_largest :
  exists blob,
    findLargestBlob mask width height = Returns blob /\
    match blob with
    | None => forall p, ~ lit p
    | Some b => largestComponent mask width height (pixels b)
    end.
Proof.
  rewrite findLargestBlob_scan.
  destruct (scan_inv_fold (cells width height) []
              (repeat 0 (Z.to_nat (width * height)), None, 0))
    as ([[visited blob] size] & Hfold & Hlen & Hmk & Hblob).
  - split; [rewrite repeat_length; nia|]. split.
    + intros r Hr. split.
      * intros Hm. exfalso. now apply unmarked_repeat_0 in Hm.
      * intros [p [[] _]].
    + split; auto.
  - intros p Hp. now apply In_cells.
  - rewrite Hfold. cbn [bind]. exists blob. split; auto.
    simpl app in Hblob. destruct blob as [b|].
    + destruct Hblob as (_ & [p [Hp Hc]] & Hmax).
      exists p. split; auto. split; auto.
      intros q qs Hq Hqs. apply (Hmax q); auto.
      apply In_cells. now destruct Hq.
    + destruct Hblob as [_ Hnone]. intros p Hp.
      apply (Hnone p); auto. apply In_cells. now destruct Hp.
Qed.

End LargestBlob.

Lemma cells_empty (width height : Z) :
  width <= 0 \/ height <= 0 -> cells width height = [].
Proof.
  intros H. destruct (cells width height) as [|p ps] eqn:E; auto.
  assert (In p (cells width height)) as Hp by (rewrite E; now left).
  apply In_cells in Hp. destruct Hp; lia.
Qed.

(** [findLargestBlob] on any mask and any dimensions. *)
Lemma findLargestBlob_returns (mask : list Z) (width height : Z) :
  exists blob,
    findLargestBlob mask width height = Returns blob /\
    match blob with
    | None => forall p, ~ lit mask width height p
    | Some b => largestComponent mask width height (pixels b)
    end.
Proof.
  destruct (Z_le_gt_dec 0 width) as [Hw|Hw];
    [destruct (Z_le_gt_dec 0 height) as [Hh|Hh]|].
  - now apply findLargestBlob_largest.
  - exists None. rewrite findLargestBlob_scan, cells_empty by lia.
    split; auto. intros p [[_ Hy] _]. lia.
  - exists None. rewrite findLargestBlob_scan, cells_empty by lia.
    split; auto. intros p [[Hx _] _]. lia.
Qed.

(** Any two largest components have the same number of pixels. *)
Lemma largestComponent_length (mask : list Z) (width height : Z)
    (ps qs : list Pixel) :
  largestComponent mask width height ps ->
  largestComponent mask width height qs ->
  length ps = length qs.
Proof.
  intros (p & Hp & Hpc & Hpmax) (q & Hq & Hqc & Hqmax).
  apply Nat.le_antisymm; eauto.
Qed.

(** How [detectScreenArea] ends, given what [findLargestBlob] returns on the
    processed mask. *)
Lemma detectScreenArea_blob (cfg : Config.t) (baseFrame activeFrame : ImageData.t)
    (blob : option Blob) :
  findLargestBlob (processedMask cfg baseFrame activeFrame)
    (ImageData.width baseFrame) (ImageData.height baseFrame) = Returns blob ->
  exists result,
    detectScreenArea cfg baseFrame activeFrame = Returns result /\
    match blob, result with
    | None, None => True
    | Some b, None => Z.of_nat (length (pixels b)) < Config.minBlobSize cfg
    | Some b, Some d =>
      Config.minBlobSize cfg <= Z.of_nat (length (pixels b)) /\
      d = blobDetection cfg (blurredDifference cfg baseFrame activeFrame)
            (ImageData.width baseFrame) (ImageData.height baseFrame) b
    | None, Some _ => False
    end.
Proof.
  intros Hblob. unfold detectScreenArea. cbv zeta. rewrite Hblob. cbn [bind].
  destruct blob as [b|].
  - destruct (Z.ltb_spec (Z.of_nat (length (pixels b))) (Config.minBlobSize cfg)).
    + exists None. split; auto.
    + eexists (Some _). split; [reflexivity|]. split; auto.
  - exists None. split; auto.
Qed.

(** C3. [findLargestBlob] returns [null] when no pixel of the mask is 255
    and otherwise a 4-connected component of 255-pixels with the most
    pixels.  [detectScreenArea] returns [null] exactly when the processed
    mask has no such component or its largest component has fewer than
    [minBlobSize] pixels; otherwise the detection's [pixelCount] is the size
    of the largest component.  A mask with several disjoint lit regions thus
    gives one detection, for a region with the most pixels. *)
Theorem largest_blob_detection (cfg : Config.t) (mask : list Z)
    (width height : Z) (baseFrame activeFrame : ImageData.t) :
  (exists blob,
     findLargestBlob mask width height = Returns blob /\
     match blob with
     | None => forall p, ~ lit mask width height p
     | Some b => largestComponent mask width height (pixels b)
     end) /\
  (exists result,
     detectScreenArea cfg baseFrame activeFrame = Returns result /\
     match result with
     | None =>
       (forall p, ~ lit (processedMask cfg baseFrame activeFrame)
                        (ImageData.width baseFrame) (ImageData.height baseFrame) p)
       \/ (exists ps,
             largestComponent (processedMask cfg baseFrame activeFrame)
               (ImageData.width baseFrame) (ImageData.height baseFrame) ps /\
             Z.of_nat (length ps) < Config.minBlobSize cfg)
     | Some d =>
       exists ps,
         largestComponent (processedMask cfg baseFrame activeFrame)
           (ImageData.width baseFrame) (ImageData.height baseFrame) ps /\
         Config.minBlobSize cfg <= Z.of_nat (length ps) /\
         Detection.pixelCount d = Z.of_nat (length ps)
     end).
Proof.
  split; [apply findLargestBlob_returns|].
  destruct (findLargestBlob_returns (processedMask cfg baseFrame activeFrame)
              (ImageData.width baseFrame) (ImageData.height baseFrame))
    as (blob & Hblob & Hspec).
  destruct (detectScreenArea_blob cfg baseFrame activeFrame blob Hblob)
    as (result & Hres & Hcase).
  exists result. split; auto.
  destruct blob as [b|], result as [d|]; try contradiction.
  - exists (pixels b). destruct Hcase as [Hmin ->]. auto.
  - right. exists (pixels b). tauto.
  - now left.
Qed.

Example findLargestBlob_two_regions :
  findLargestBlob [255; 255; 0; 0; 255;
                   0;   255; 0; 0; 0;
                   0;   0;   0; 255; 255] 5 3
  = Returns (Some {| pixels := [(0, 0); (1, 0); (1, 1)] |}).
Proof. vm_compute. reflexivity. Qed.

Example findLargestBlob_empty :
  findLargestBlob [0; 0; 0; 0] 2 2 = Returns None.
Proof. vm_compute. reflexivity. Qed.

(** ** The blur keeps values within the range of its input *)

Section BlurFacts.
Local Open Scope R_scope.

Lemma getR_Forall (P : R -> Prop) (a : list R) (i : Z) :
  P 0 -> Forall P a -> P (getR a i).
Proof.
  intros H0 Ha. unfold getR. destruct (get a i) as [v|] eqn:E; auto.
  apply get_In in E. rewrite Forall_forall in Ha. auto.
Qed.

Lemma getR_get (a : list R) (i : Z) (v : R) : get a i = Some v -> getR a i = v.
Proof. intros H. unfold getR. now rewrite H. Qed.

Lemma Forall_repeat {A : Type} (P : A -> Prop) (v : A) (n : nat) :
  P v -> Forall P (repeat v n).
Proof.
  intros H. apply Forall_forall. intros u Hu. apply repeat_spec in Hu. now subst.
Qed.

Lemma Rdiv_nonneg (a b : R) : 0 <= a -> 0 <= b -> 0 <= a / b.
Proof.
  intros Ha Hb. destruct (Req_dec b 0) as [-> | Hne].
  - unfold Rdiv. rewrite Rinv_0. lra.
  - apply Rmult_le_pos; auto. left. apply Rinv_0_lt_compat. lra.
Qed.

(** The running sums of one blur cell. *)
Lemma blur_cell_sums (kernel : list R) (radius : Z) (cell : Z -> R) (lo hi : R) :
  (0 <= radius)%Z ->
  (forall k, (- radius <= k <= radius)%Z -> lo <= cell k <= hi) ->
  (forall k, (- radius <= k <= radius)%Z -> 0 < getR kernel (k + radius)) ->
  lo <= blur_cell kernel radius cell <= hi.
Proof.
  intros Hr Hcell Hk. unfold blur_cell.
  pose (inv := fun (k : Z) (st : R * R) =>
    lo * snd st <= fst st <= hi * snd st /\ 0 <= snd st /\
    ((- radius < k)%Z -> 0 < snd st)).
  assert (inv (radius + 1)%Z
            (forZ (- radius) (radius + 1) (fun k '(sum, weightSum) =>
               let weight := getR kernel (k + radius) in
               (sum + cell k * weight, weightSum + weight)) (0, 0)))
    as Hinv.
  { apply (forZ_ind inv); [lia | |].
    - unfold inv; simpl. split; [lra | split; [lra | lia]].
    - intros k [s w] Hki (Hs & Hw & _). unfold inv; cbn [fst snd] in *.
      cbv zeta. cbn [fst snd].
      assert (- radius <= k <= radius)%Z as Hk' by lia.
      specialize (Hcell k Hk'). specialize (Hk k Hk').
      split; [split; nra | split; [lra | intros _; lra]]. }
  destruct (forZ (- radius) (radius + 1) _ (0, 0)) as [s w].
  destruct Hinv as (Hs & _ & Hpos). cbn [fst snd] in *.
  assert (0 < w) as Hw by (apply Hpos; lia).
  split.
  - apply (Rmult_le_reg_r w); auto. unfold Rdiv.
    rewrite Rmult_assoc, Rinv_l by lra. lra.
  - apply (Rmult_le_reg_r w); auto. unfold Rdiv.
    rewrite Rmult_assoc, Rinv_l by lra. lra.
Qed.

Lemma blur_cell_nonneg (kernel : list R) (radius : Z) (cell : Z -> R) :
  (forall k, 0 <= cell k) -> Forall (fun w => 0 <= w) kernel ->
  0 <= blur_cell kernel radius cell.
Proof.
  intros Hcell Hk. unfold blur_cell.
  assert (0 <= fst (forZ (- radius) (radius + 1) (fun k '(sum, weightSum) =>
                 let weight := getR kernel (k + radius) in
                 (sum + cell k * weight, weightSum + weight)) (0, 0))
          /\ 0 <= snd (forZ (- radius) (radius + 1) (fun k '(sum, weightSum) =>
                 let weight := getR kernel (k + radius) in
                 (sum + cell k * weight, weightSum + weight)) (0, 0))) as Hinv.
  { apply (forZ_inv (fun st => 0 <= fst st /\ 0 <= snd st)).
    - simpl; lra.
    - intros k [s w] _ [Hs Hw]. cbn [fst snd] in *. cbv zeta. cbn [fst snd].
      assert (0 <= getR kernel (k + radius)) as Hwk
        by (apply getR_Forall; auto; lra).
      specialize (Hcell k). split; nra. }
  destruct (forZ (- radius) (radius + 1) _ (0, 0)) as [s w].
  cbn [fst snd] in Hinv. now apply Rdiv_nonneg.
Qed.

(** The kernel: every weight is non-negative, and for a non-negative radius
    every weight of the kernel is positive. *)
Lemma createGaussianKernel_nonneg (radius : Z) :
  Forall (fun w => 0 <= w) (createGaussianKernel radius).
Proof.
  unfold createGaussianKernel.
  assert (Forall (fun w => 0 <= w)
            (fst (forZ (- radius) (radius + 1) (fun i '(kernel, sum) =>
               let kernel := put kernel (i + radius)
                 (exp (- (IZR i * IZR i) / (2 * (IZR radius / 2) * (IZR radius / 2)))) in
               (kernel, sum + getR kernel (i + radius)))
               (repeat 0 (Z.to_nat (radius * 2 + 1)), 0)))
          /\ 0 <= snd (forZ (- radius) (radius + 1) (fun i '(kernel, sum) =>
               let kernel := put kernel (i + radius)
                 (exp (- (IZR i * IZR i) / (2 * (IZR radius / 2) * (IZR radius / 2)))) in
               (kernel, sum + getR kernel (i + radius)))
               (repeat 0 (Z.to_nat (radius * 2 + 1)), 0))) as Hinv.
  { apply (forZ_inv (fun st => Forall (fun w => 0 <= w) (fst st) /\ 0 <= snd st)).
    - simpl. split; [apply Forall_repeat|]; lra.
    - intros i [k s] _ [Hk Hs]. cbn [fst snd] in *. cbv zeta. cbn [fst snd].
      assert (Forall (fun w => 0 <= w)
                (put k (i + radius)
                   (exp (- (IZR i * IZR i) / (2 * (IZR radius / 2) * (IZR radius / 2))))))
        as Hk' by (apply Forall_put; auto; left; apply exp_pos).
      split; auto.
      pose proof (getR_Forall (fun w => 0 <= w) _ (i + radius)
                    (Rle_refl 0) Hk'). simpl in H. lra. }
  cbv zeta.
  destruct (forZ (- radius) (radius + 1) _ _) as [k s].
  cbn [fst snd] in Hinv. destruct Hinv as [Hk Hs].
  apply forZ_inv; auto.
  intros i k' _ Hk'. apply Forall_put; auto.
  apply Rdiv_nonneg; auto. apply getR_Forall; auto; lra.
Qed.

Lemma gaussianBlur_nonneg (data : list R) (width height radius : Z) :
  Forall (fun v => 0 <= v) data ->
  Forall (fun v => 0 <= v) (gaussianBlur data width height radius).
Proof.
  intros Hd. unfold gaussianBlur. cbv zeta.
  pose proof (createGaussianKernel_nonneg radius) as Hk.
  apply Forall_write_pixels; [apply Forall_repeat; lra|].
  intros x y _ _. apply blur_cell_nonneg; auto.
  intros k. apply getR_Forall; [lra|].
  apply Forall_write_pixels; [apply Forall_repeat; lra|].
  intros x' y' _ _. apply blur_cell_nonneg; auto.
  intros k'. apply getR_Forall; auto; lra.
Qed.

Lemma differenceMap_nonneg (baseFrame activeFrame : ImageData.t) :
  Forall (fun v => 0 <= v) (differenceMap baseFrame activeFrame).
Proof.
  unfold differenceMap. cbv zeta.
  apply Forall_write_pixels; [apply Forall_repeat; lra|].
  intros x y _ _. apply Rmax_l.
Qed.

Lemma blurredDifference_nonneg (cfg : Config.t) (baseFrame activeFrame : ImageData.t)
    (i : Z) :
  0 <= getR (blurredDifference cfg baseFrame activeFrame) i.
Proof.
  apply getR_Forall; [lra|]. unfold blurredDifference.
  apply gaussianBlur_nonneg, differenceMap_nonneg.
Qed.

End BlurFacts.

(** ** Detections in normalized space *)

Section NormalizedSpace.
Local Open Scope R_scope.

Lemma ratio_unit (a b : R) : 0 < b -> 0 <= a <= b -> 0 <= a / b <= 1.
Proof.
  intros Hb Ha. split.
  - apply Rdiv_nonneg; lra.
  - apply (Rmult_le_reg_r b); auto. unfold Rdiv.
    rewrite Rmult_assoc, Rinv_l by lra. lra.
Qed.

Lemma ratio_le (a b c : R) : 0 < c -> a <= b -> a / c <= b / c.
Proof.
  intros Hc Hab. unfold Rdiv. apply Rmult_le_compat_r; auto.
  left. now apply Rinv_0_lt_compat.
Qed.

(** A point of the image is normalized into the unit square. *)
Lemma normalizePointToSquare_unit (x y w h : R) :
  0 < w -> 0 < h -> 0 <= x <= w -> 0 <= y <= h ->
  0 <= Point.x (normalizePointToSquare x y w h) <= 1 /\
  0 <= Point.y (normalizePointToSquare x y w h) <= 1.
Proof.
  intros Hw Hh Hx Hy. unfold normalizePointToSquare.
  pose proof (ratio_unit x w Hw Hx) as Hxw.
  pose proof (ratio_unit y h Hh Hy) as Hyh.
  destruct (Rgeb_spec w h) as [Hge | Hlt]; cbn [Point.x Point.y].
  - assert (0 <= h / w <= 1) as Hs by (apply ratio_unit; lra).
    split; auto. nra.
  - assert (0 <= w / h <= 1) as Hs by (apply ratio_unit; lra).
    split; auto. nra.
Qed.

(** A rectangle whose left and right edges ([x] and [x + width]) and top and
    bottom edges lie in the image is normalized into the unit square. *)
Lemma normalizeRectToSquare_unit (rect : Rect.t) (w h : R) :
  0 < w -> 0 < h ->
  0 <= Rect.x rect <= w -> 0 <= Rect.x rect + Rect.width rect <= w ->
  0 <= Rect.y rect <= h -> 0 <= Rect.y rect + Rect.height rect <= h ->
  let n := normalizeRectToSquare rect w h in
  0 <= Rect.x n <= 1 /\ 0 <= Rect.y n <= 1 /\
  Rect.x n + Rect.width n <= 1 /\ Rect.y n + Rect.height n <= 1.
Proof.
  intros Hw Hh Hx Hx' Hy Hy'. destruct rect as [rx ry rw rh].
  cbn [Rect.x Rect.y Rect.width Rect.height] in *.
  pose proof (normalizePointToSquare_unit rx ry w h Hw Hh Hx Hy) as [Px Py].
  pose proof (normalizePointToSquare_unit (rx + rw) (ry + rh) w h Hw Hh Hx' Hy')
    as [Qx Qy].
  unfold normalizePointToSquare in *. unfold normalizeRectToSquare.
  destruct (Rgeb w h); cbn [Point.x Point.y Rect.x Rect.y Rect.width Rect.height] in *.
  - repeat split; lra.
  - repeat split; lra.
Qed.

(** Clamping a rectangle of the unit square: the corner stays, and a side
    that ends above the minimum has not grown. *)
Lemma clampRect_far_edge (cfg : Config.t) (n : Rect.t) :
  Config.minNormalizedArea cfg <= Config.maxNormalizedArea cfg ->
  0 <= Rect.x n <= 1 -> 0 <= Rect.y n <= 1 ->
  Rect.x n + Rect.width n <= 1 -> Rect.y n + Rect.height n <= 1 ->
  let c := clampRect cfg n in
  (Config.minNormalizedArea cfg < Rect.width c -> Rect.x c + Rect.width c <= 1) /\
  (Config.minNormalizedArea cfg < Rect.height c -> Rect.y c + Rect.height c <= 1).
Proof.
  intros Hcfg Hx Hy Hxw Hyh. unfold clampRect.
  cbn [Rect.x Rect.y Rect.width Rect.height].
  rewrite !(clamp_id 0 1) by lra.
  unfold Rmin, Rmax.
  split; intros H;
    repeat match goal with
           | H : context [Rle_dec ?a ?b] |- _ => destruct (Rle_dec a b)
           | |- context [Rle_dec ?a ?b] => destruct (Rle_dec a b)
           end; lra.
Qed.

End NormalizedSpace.

(** ** The extent of a blob *)

Section BlobExtent.
Local Open Scope R_scope.
Variable blurredDiff : list R.
Variables width height : Z.
Hypothesis weights_nonneg : forall i, 0 <= getR blurredDiff i.
Hypothesis width_pos : (1 <= width)%Z.
Hypothesis height_pos : (1 <= height)%Z.

Lemma blobExtent_snoc (ps : list Pixel) (x y : Z) :
  blobExtent blurredDiff width height (ps ++ [(x, y)]) =
  let e := blobExtent blurredDiff width height ps in
  let weight := getR blurredDiff (y * width + x) in
  {| minX := Z.min (minX e) x; maxX := Z.max (maxX e) x;
     minY := Z.min (minY e) y; maxY := Z.max (maxY e) y;
     totalX := totalX e + IZR x * weight;
     totalY := totalY e + IZR y * weight;
     totalWeight := totalWeight e + weight |}.
Proof.
  unfold blobExtent. now rewrite fold_left_app.
Qed.

Lemma blobExtent_bounds (ps : list Pixel) :
  (forall p, In p ps -> inImage width height p) ->
  let e := blobExtent blurredDiff width height ps in
  ((0 <= minX e <= width)%Z /\ (0 <= maxX e <= width - 1)%Z /\
   (0 <= minY e <= height)%Z /\ (0 <= maxY e <= height - 1)%Z) /\
  (0 <= totalWeight e /\
   0 <= totalX e <= IZR (width - 1) * totalWeight e /\
   0 <= totalY e <= IZR (height - 1) * totalWeight e) /\
  (forall p, In p ps ->
     (minX e <= fst p <= maxX e)%Z /\ (minY e <= snd p <= maxY e)%Z).
Proof.
  induction ps as [|[x y] ps IH] using rev_ind; intros Hin.
  - cbn. repeat split; try lia; try lra; try contradiction.
  - assert (forall p, In p ps -> inImage width height p) as Hin'
      by (intros p Hp; apply Hin, in_or_app; now left).
    specialize (IH Hin'). cbv zeta in IH.
    destruct IH as ((Hx0 & Hx1 & Hy0 & Hy1) & (Hw & Htx & Hty) & Hcover).
    assert (inImage width height (x, y)) as [Hx Hy]
      by (apply Hin, in_or_app; right; now left).
    cbn [fst snd] in Hx, Hy.
    rewrite blobExtent_snoc. cbv zeta.
    cbn [minX maxX minY maxY totalX totalY totalWeight].
    pose proof (weights_nonneg (y * width + x)) as Hwt.
    set (wt := getR blurredDiff (y * width + x)) in *.
    assert (0 <= IZR x <= IZR (width - 1)) as Hxr
      by (split; apply IZR_le; lia).
    assert (0 <= IZR y <= IZR (height - 1)) as Hyr
      by (split; apply IZR_le; lia).
    split; [lia|]. split; [repeat split; nra|].
    intros p Hp. apply in_app_iff in Hp. destruct Hp as [Hp | [<- | []]].
    + specialize (Hcover p Hp). lia.
    + cbn [fst snd]. lia.
Qed.

End BlobExtent.

Section DetectionBounds.
Local Open Scope R_scope.

Lemma largestComponent_pixels (mask : list Z) (width height : Z)
    (ps : list Pixel) :
  largestComponent mask width height ps ->
  ps <> [] /\ forall p, In p ps -> lit mask width height p.
Proof.
  intros (p & Hp & [Hnd Hc] & _). split.
  - assert (In p ps) as Hin by (apply Hc; now apply connected_refl).
    intros ->. contradiction.
  - intros q Hq. apply Hc in Hq.
    now apply (connected_lit_r mask width height p q).
Qed.

Lemma detectScreenArea_Some (cfg : Config.t) (baseFrame activeFrame : ImageData.t)
    (d : Detection.t) :
  detectScreenArea cfg baseFrame activeFrame = Returns (Some d) ->
  exists b,
    largestComponent (processedMask cfg baseFrame activeFrame)
      (ImageData.width baseFrame) (ImageData.height baseFrame) (pixels b) /\
    (Config.minBlobSize cfg <= Z.of_nat (length (pixels b)))%Z /\
    d = blobDetection cfg (blurredDifference cfg baseFrame activeFrame)
          (ImageData.width baseFrame) (ImageData.height baseFrame) b.
Proof.
  intros Hd.
  destruct (findLargestBlob_returns (processedMask cfg baseFrame activeFrame)
              (ImageData.width baseFrame) (ImageData.height baseFrame))
    as (blob & Hblob & Hspec).
  destruct (detectScreenArea_blob cfg baseFrame activeFrame blob Hblob)
    as (result & Hres & Hcase).
  rewrite Hd in Hres. injection Hres as <-.
  destruct blob as [b|]; [|contradiction].
  exists b. destruct Hcase as [Hmin ->]. auto.
Qed.

(** The detection computed for a non-empty blob of image pixels, with
    non-negative weights. *)
Lemma blobDetection_normalized (cfg : Config.t) (blurredDiff : list R)
    (width height : Z) (b : Blob) :
  Config.minNormalizedArea cfg <= Config.maxNormalizedArea cfg ->
  (forall i, 0 <= getR blurredDiff i) ->
  pixels b <> [] ->
  (forall p, In p (pixels b) -> inImage width height p) ->
  let d := blobDetection cfg blurredDiff width height b in
  (0 <= Point.x (Detection.center d) <= 1 /\
   0 <= Point.y (Detection.center d) <= 1) /\
  (0 <= Rect.x (Detection.area d) <= 1 /\
   0 <= Rect.y (Detection.area d) <= 1) /\
  (Config.minNormalizedArea cfg <= Rect.width (Detection.area d)
     <= Config.maxNormalizedArea cfg /\
   Config.minNormalizedArea cfg <= Rect.height (Detection.area d)
     <= Config.maxNormalizedArea cfg) /\
  (Config.minNormalizedArea cfg < Rect.width (Detection.area d) ->
   Rect.x (Detection.area d) + Rect.width (Detection.area d) <= 1) /\
  (Config.minNormalizedArea cfg < Rect.height (Detection.area d) ->
   Rect.y (Detection.area d) + Rect.height (Detection.area d) <= 1).
Proof.
  intros Hcfg Hwt Hne Hin.
  destruct (pixels b) as [|p0 ps0] eqn:Eps; [congruence|]. rewrite <- Eps in *.
  assert (In p0 (pixels b)) as Hp0 by (rewrite Eps; now left).
  pose proof (Hin p0 Hp0) as [Hp0x Hp0y].
  assert (1 <= width)%Z as Hw by lia. assert (1 <= height)%Z as Hh by lia.
  destruct (blobExtent_bounds blurredDiff width height Hwt Hw Hh (pixels b) Hin)
    as ((Hx0 & Hx1 & Hy0 & Hy1) & (Htw & Htx & Hty) & Hcover).
  destruct (Hcover p0 Hp0) as [Hcx Hcy].
  unfold blobDetection. cbv zeta.
  set (e := blobExtent blurredDiff width height (pixels b)) in *.
  assert ((0 <= minX e <= maxX e)%Z /\ (maxX e < width)%Z) as Hbx by lia.
  assert ((0 <= minY e <= maxY e)%Z /\ (maxY e < height)%Z) as Hby by lia.
  destruct (refine_invariant blurredDiff width height
              (minX e) (minY e) (maxX e) (maxY e) Hbx Hby)
    as [((Hr1 & Hr2 & Hr3 & Hr4) & _) _].
  set (box := refineBoundingBox blurredDiff width height
                (minX e) (minY e) (maxX e) (maxY e)) in *.
  cbn [Detection.center Detection.area Point.x Point.y
       Rect.x Rect.y Rect.width Rect.height].
  assert (0 < IZR width) as HW by (apply IZR_lt; lia).
  assert (0 < IZR height) as HH by (apply IZR_lt; lia).
  (* the centre *)
  assert (0 <= (if Rgtb (totalWeight e) 0 then totalX e / totalWeight e
                else IZR (minX e + maxX e) / 2) <= IZR width) as Hcx'.
  { assert (IZR (width - 1) <= IZR width) as Hle by (apply IZR_le; lia).
    destruct (Rgtb_spec (totalWeight e) 0) as [Hpos | Hzero].
    - split.
      + apply Rdiv_nonneg; lra.
      + apply (Rmult_le_reg_r (totalWeight e)); [lra|]. unfold Rdiv.
        rewrite Rmult_assoc, Rinv_l by lra. nra.
    - rewrite plus_IZR.
      assert (0 <= IZR (minX e) <= IZR (width - 1)) by (split; apply IZR_le; lia).
      assert (0 <= IZR (maxX e) <= IZR (width - 1)) by (split; apply IZR_le; lia).
      lra. }
  assert (0 <= (if Rgtb (totalWeight e) 0 then totalY e / totalWeight e
                else IZR (minY e + maxY e) / 2) <= IZR height) as Hcy'.
  { assert (IZR (height - 1) <= IZR height) as Hle by (apply IZR_le; lia).
    destruct (Rgtb_spec (totalWeight e) 0) as [Hpos | Hzero].
    - split.
      + apply Rdiv_nonneg; lra.
      + apply (Rmult_le_reg_r (totalWeight e)); [lra|]. unfold Rdiv.
        rewrite Rmult_assoc, Rinv_l by lra. nra.
    - rewrite plus_IZR.
      assert (0 <= IZR (minY e) <= IZR (height - 1)) by (split; apply IZR_le; lia).
      assert (0 <= IZR (maxY e) <= IZR (height - 1)) by (split; apply IZR_le; lia).
      lra. }
  split; [now apply normalizePointToSquare_unit|].
  (* the area *)
  set (rect := {| Rect.x := IZR (Box.minX box); Rect.y := IZR (Box.minY box);
                  Rect.width := IZR (Box.maxX box - Box.minX box);
                  Rect.height := IZR (Box.maxY box - Box.minY box) |}).
  assert (0 <= Rect.x rect <= IZR width) as Hrx
    by (cbn; split; apply IZR_le; lia).
  assert (0 <= Rect.y rect <= IZR height) as Hry
    by (cbn; split; apply IZR_le; lia).
  assert (0 <= Rect.x rect + Rect.width rect <= IZR width) as Hrxw.
  { cbn. rewrite minus_IZR.
    replace (IZR (Box.minX box) + (IZR (Box.maxX box) - IZR (Box.minX box)))
      with (IZR (Box.maxX box)) by lra.
    split; apply IZR_le; lia. }
  assert (0 <= Rect.y rect + Rect.height rect <= IZR height) as Hryh.
  { cbn. rewrite minus_IZR.
    replace (IZR (Box.minY box) + (IZR (Box.maxY box) - IZR (Box.minY box)))
      with (IZR (Box.maxY box)) by lra.
    split; apply IZR_le; lia. }
  destruct (normalizeRectToSquare_unit rect (IZR width) (IZR height)
              HW HH Hrx Hrxw Hry Hryh) as (Hnx & Hny & Hnxw & Hnyh).
  destruct (clampRect_within cfg
              (normalizeRectToSquare rect (IZR width) (IZR height)) Hcfg)
    as (Hcw & Hch & Hcx2 & Hcy2).
  destruct (clampRect_far_edge cfg
              (normalizeRectToSquare rect (IZR width) (IZR height))
              Hcfg Hnx Hny Hnxw Hnyh) as [Hfx Hfy].
  repeat split; auto; lra.
Qed.

(** C1, amended. For well-formed frames of equal size and a configuration
    whose minimum area is at most its maximum, every detection that
    [detectScreenArea] returns has its centre in the unit square, the corner
    of its area in the unit square, and the width and height of its area
    between the configured minimum and maximum; the far edge [x + width]
    (and [y + height]) is at most 1 whenever the width (height) is above the
    configured minimum. *)
Theorem detection_in_normalized_space (cfg : Config.t)
    (baseFrame activeFrame : ImageData.t) (d : Detection.t) :
  wf_frame baseFrame -> wf_frame activeFrame ->
  same_size baseFrame activeFrame ->
  Config.minNormalizedArea cfg <= Config.maxNormalizedArea cfg ->
  detectScreenArea cfg baseFrame activeFrame = Returns (Some d) ->
  (0 <= Point.x (Detection.center d) <= 1 /\
   0 <= Point.y (Detection.center d) <= 1) /\
  (0 <= Rect.x (Detection.area d) <= 1 /\
   0 <= Rect.y (Detection.area d) <= 1) /\
  (Config.minNormalizedArea cfg <= Rect.width (Detection.area d)
     <= Config.maxNormalizedArea cfg /\
   Config.minNormalizedArea cfg <= Rect.height (Detection.area d)
     <= Config.maxNormalizedArea cfg) /\
  (Config.minNormalizedArea cfg < Rect.width (Detection.area d) ->
   Rect.x (Detection.area d) + Rect.width (Detection.area d) <= 1) /\
  (Config.minNormalizedArea cfg < Rect.height (Detection.area d) ->
   Rect.y (Detection.area d) + Rect.height (Detection.area d) <= 1).
Proof.
  intros _ _ _ Hcfg Hd.
  destruct (detectScreenArea_Some cfg baseFrame activeFrame d Hd)
    as (b & Hlargest & _ & ->).
  destruct (largestComponent_pixels _ _ _ _ Hlargest) as [Hne Hlit].
  apply blobDetection_normalized; auto.
  - apply blurredDifference_nonneg.
  - intros p Hp. now destruct (Hlit p Hp).
Qed.

End DetectionBounds.

(** ** The weights of the blur *)

Section KernelFacts.
Local Open Scope R_scope.

(** The Gaussian weight at offset [k], before normalization. *)
Let gauss (radius k : Z) : R :=
  exp (- (IZR k * IZR k) / (2 * (IZR radius / 2) * (IZR radius / 2))).

(** Cell [k + radius] of the kernel holds the Gaussian weight of offset [k]
    divided by the positive total of all the weights. *)
Lemma createGaussianKernel_weights (radius : Z) :
  (0 <= radius)%Z ->
  exists total, 0 < total /\
    forall k, (- radius <= k <= radius)%Z ->
      get (createGaussianKernel radius) (k + radius) = Some (gauss radius k / total).
Proof.
  intros Hr. unfold createGaussianKernel. cbv zeta.
  fold (gauss radius).
  set (n := (radius * 2 + 1)%Z).
  pose (P := fun (i : Z) (st : list R * R) =>
    Z.of_nat (length (fst st)) = n /\
    (forall j, (- radius <= j < i)%Z ->
       get (fst st) (j + radius) = Some (gauss radius j)) /\
    0 <= snd st /\ ((- radius < i)%Z -> 0 < snd st)).
  assert (P (radius + 1)%Z
            (forZ (- radius) (radius + 1) (fun i '(kernel, sum) =>
               let kernel := put kernel (i + radius)
                 (exp (- (IZR i * IZR i) / (2 * (IZR radius / 2) * (IZR radius / 2)))) in
               (kernel, sum + getR kernel (i + radius)))
               (repeat 0 (Z.to_nat n), 0))) as HP.
  { apply (forZ_ind P); [lia | |].
    - unfold P; cbn [fst snd]. rewrite repeat_length.
      split; [unfold n; lia|]. split; [intros j Hj; lia|]. split; [lra|lia].
    - intros i [kern s] Hi (Hlen & Hget & Hs & _). unfold P in *.
      cbn [fst snd] in *. cbv zeta. cbn [fst snd].
      fold (gauss radius i).
      assert (get (put kern (i + radius) (gauss radius i)) (i + radius)
              = Some (gauss radius i)) as Hnew
        by (apply get_put_eq; unfold n in Hlen; lia).
      split; [now rewrite length_put|].
      split; [|split].
      + intros j Hj. destruct (Z.eq_dec j i) as [-> | Hne]; auto.
        rewrite get_put_neq by lia. apply Hget; lia.
      + rewrite (getR_get _ _ _ Hnew). pose proof (exp_pos
          (- (IZR i * IZR i) / (2 * (IZR radius / 2) * (IZR radius / 2)))).
        unfold gauss. lra.
      + intros _. rewrite (getR_get _ _ _ Hnew). pose proof (exp_pos
          (- (IZR i * IZR i) / (2 * (IZR radius / 2) * (IZR radius / 2)))).
        unfold gauss. lra. }
  destruct (forZ (- radius) (radius + 1) _ (repeat 0 (Z.to_nat n), 0))
    as [kern total].
  destruct HP as (Hlen & Hget & _ & Hpos). cbn [fst snd] in *.
  exists total. split; [apply Hpos; lia|].
  pose (Q := fun (i : Z) (k' : list R) =>
    length k' = length kern /\
    (forall j, (0 <= j < i)%Z -> get k' j = Some (getR kern j / total)) /\
    (forall j, (i <= j)%Z -> get k' j = get kern j)).
  assert (Q (Z.of_nat (length kern))
            (forZ 0 (Z.of_nat (length kern))
               (fun i kernel => put kernel i (getR kernel i / total)) kern)) as HQ.
  { apply (forZ_ind Q); [lia | |].
    - unfold Q. split; auto. split; [intros j Hj; lia | auto].
    - intros i k' Hi (Hl & Hdone & Hrest). unfold Q.
      split; [now rewrite length_put|].
      assert (getR k' i = getR kern i) as Hi'
        by (unfold getR; rewrite Hrest by lia; reflexivity).
      split.
      + intros j Hj. destruct (Z.eq_dec j i) as [-> | Hne].
        * rewrite get_put_eq by lia. now rewrite Hi'.
        * rewrite get_put_neq by lia. apply Hdone; lia.
      + intros j Hj. rewrite get_put_neq by lia. apply Hrest; lia. }
  destruct HQ as (_ & Hdone & _).
  intros k Hk. rewrite Hdone by (unfold n in Hlen; lia).
  now rewrite (getR_get _ _ _ (Hget k ltac:(lia))).
Qed.

(** The kernel of radius 2: five positive weights, symmetric around the
    middle one. *)
Lemma createGaussianKernel_radius_2 :
  exists a b c, 0 < a /\ 0 < b /\ 0 < c /\
    getR (createGaussianKernel 2) 0 = a /\
    getR (createGaussianKernel 2) 1 = b /\
    getR (createGaussianKernel 2) 2 = c /\
    getR (createGaussianKernel 2) 3 = b /\
    getR (createGaussianKernel 2) 4 = a.
Proof.
  destruct (createGaussianKernel_weights 2) as (total & Htotal & Hget); [lia|].
  assert (forall k, 0 < gauss 2 k / total) as Hpos.
  { intros k. apply Rdiv_lt_0_compat; auto. apply exp_pos. }
  exists (gauss 2 2 / total), (gauss 2 1 / total), (gauss 2 0 / total).
  split; [apply Hpos|]. split; [apply Hpos|]. split; [apply Hpos|].
  assert (forall k i, (- 2 <= k <= 2)%Z -> (k + 2)%Z = i ->
            getR (createGaussianKernel 2) i = gauss 2 k / total) as Hcell.
  { intros k i Hk <-. apply getR_get. now apply Hget. }
  split; [|split; [|split; [|split]]].
  - rewrite (Hcell (-2)%Z 0%Z) by lia. unfold gauss. do 3 f_equal. lra.
  - rewrite (Hcell (-1)%Z 1%Z) by lia. unfold gauss. do 3 f_equal. lra.
  - now rewrite (Hcell 0%Z 2%Z) by lia.
  - now rewrite (Hcell 1%Z 3%Z) by lia.
  - now rewrite (Hcell 2%Z 4%Z) by lia.
Qed.

(** A blur cell of radius 2, written out. *)
Lemma blur_cell_radius_2 (kernel : list R) (cell : Z -> R) :
  blur_cell kernel 2 cell =
  (0 + cell (-2)%Z * getR kernel 0 + cell (-1)%Z * getR kernel 1
     + cell 0%Z * getR kernel 2 + cell 1%Z * getR kernel 3
     + cell 2%Z * getR kernel 4)
  / (0 + getR kernel 0 + getR kernel 1 + getR kernel 2
       + getR kernel 3 + getR kernel 4).
Proof. reflexivity. Qed.

(** With positive weights, a blur cell lies between the least and the
    greatest of the cells it reads; this instance is for the kernel the
    blur builds. *)
Lemma blur_cell_between (radius : Z) (cell : Z -> R) (lo hi : R) :
  (0 <= radius)%Z ->
  (forall k, (- radius <= k <= radius)%Z -> lo <= cell k <= hi) ->
  lo <= blur_cell (createGaussianKernel radius) radius cell <= hi.
Proof.
  intros Hr Hcell. apply blur_cell_sums; auto.
  intros k Hk.
  destruct (createGaussianKernel_weights radius Hr) as (total & Htotal & Hget).
  rewrite (getR_get _ _ _ (Hget k Hk)).
  apply Rdiv_lt_0_compat; auto. apply exp_pos.
Qed.

End KernelFacts.

(** ** A bound on the adaptive threshold *)

Section ThresholdBound.
Local Open Scope R_scope.

Lemma aboveNoiseFloor_all (data : list R) :
  Forall (fun d => 5 < d) data -> aboveNoiseFloor data = data.
Proof.
  unfold aboveNoiseFloor. induction 1 as [|d l Hd Hl IH]; simpl; auto.
  rewrite Rgtb_true by lra. now rewrite IH.
Qed.

Lemma Rsum_app (l l' : list R) : Rsum (l ++ l') = Rsum l + Rsum l'.
Proof. induction l as [|d l IH]; simpl; [|rewrite IH]; lra. Qed.

Lemma Rsum_excess (l : list R) (c : R) :
  Rsum (map (fun d => d - c) l) = Rsum l - INR (length l) * c.
Proof.
  induction l as [|d l IH].
  - simpl; lra.
  - change (length (d :: l)) with (S (length l)). rewrite S_INR.
    simpl. rewrite IH. lra.
Qed.

Lemma Rsum_excess_bound (l : list R) (lo hi : R) :
  Forall (fun d => lo <= d <= hi) l ->
  0 <= Rsum (map (fun d => d - lo) l) <= INR (length l) * (hi - lo).
Proof.
  induction 1 as [|d l Hd Hl IH].
  - simpl; lra.
  - change (length (d :: l)) with (S (length l)). rewrite S_INR.
    simpl. lra.
Qed.

Lemma Rsum_excess_0 (l : list R) (c : R) :
  Forall (fun d => d = c) l -> Rsum (map (fun d => d - c) l) = 0.
Proof.
  induction 1 as [|d l Hd Hl IH]; simpl; [|rewrite IH]; lra.
Qed.

Lemma Rsum_square_excess (l : list R) (lo hi : R) :
  Forall (fun d => lo <= d <= hi) l ->
  Rsum (map (fun d => (d - lo) * (d - lo)) l)
  <= (hi - lo) * Rsum (map (fun d => d - lo) l).
Proof.
  induction 1 as [|d l Hd Hl IH]; simpl; [lra|]. nra.
Qed.

(** The squared deviations from the mean sum to at most the squared
    deviations from any other point. *)
Lemma Rsum_deviation_least (l : list R) (c : R) :
  l <> [] ->
  Rsum (map (fun d => (d - mean l) * (d - mean l)) l)
  <= Rsum (map (fun d => (d - c) * (d - c)) l).
Proof.
  intros Hl. rewrite !Rsum_square_deviation.
  assert (0 < INR (length l)) as Hn.
  { apply lt_0_INR. destruct l; simpl; [congruence | lia]. }
  assert (Rsum l = INR (length l) * mean l) as Hs by (unfold mean; field; lra).
  rewrite Hs.
  assert (0 <= INR (length l) * ((mean l - c) * (mean l - c))) as Hsq
    by (apply Rmult_le_pos; [lra | apply Rle_0_sqr]).
  lra.
Qed.

(** When every entry lies between 6 and 255 and the entries exceed 6 by at
    most 4 on average, the threshold is the configured minimum or at most
    58. *)
Lemma calculateAdaptiveThreshold_low (cfg : Config.t) (data : list R)
    (width height : Z) :
  Forall (fun d => 6 <= d <= 255) data ->
  Rsum (map (fun d => d - 6) data) <= 4 * INR (length data) ->
  Config.brightnessThreshold cfg
    <= calculateAdaptiveThreshold cfg data width height
    <= Rmax (Config.brightnessThreshold cfg) 58.
Proof.
  intros Hrange Hsum. rewrite threshold_formula.
  rewrite aboveNoiseFloor_all
    by (eapply Forall_impl; [|exact Hrange]; simpl; intros; lra).
  destruct data as [|d0 l0] eqn:E; [split; [lra | apply Rmax_l]|].
  rewrite <- E in *. assert (data <> []) as Hne by (subst; discriminate).
  clear E d0 l0.
  split; [apply Rmax_l|]. apply Rle_max_compat_l.
  assert (0 < INR (length data)) as Hn.
  { apply lt_0_INR. destruct data; simpl; [congruence | lia]. }
  pose proof (Rsum_excess data 6) as Hex.
  pose proof (Rsum_excess_bound data 6 255 Hrange) as [Hex0 _].
  pose proof (Rsum_square_excess data 6 255 Hrange) as Hsq.
  pose proof (Rsum_deviation_least data 6 Hne) as Hdev.
  assert (mean data <= 10) as Hmean.
  { unfold mean. apply (Rmult_le_reg_r (INR (length data))); auto.
    unfold Rdiv. rewrite Rmult_assoc, Rinv_l by lra. lra. }
  assert (stdDev data <= 32) as Hstd.
  { unfold stdDev. rewrite <- (sqrt_square 32) by lra.
    apply sqrt_le_1_alt.
    apply (Rmult_le_reg_r (INR (length data))); auto.
    unfold Rdiv. rewrite Rmult_assoc, Rinv_l by lra. lra. }
  lra.
Qed.

(** Reading a list through its front and its back. *)
Lemma Forall_firstn_get {A : Type} (P : A -> Prop) (l : list A) (k : nat) :
  (forall i v, (0 <= i < Z.of_nat k)%Z -> get l i = Some v -> P v) ->
  Forall P (firstn k l).
Proof.
  intros H. apply Forall_forall. intros v Hv.
  apply In_nth_error in Hv as [j Hj].
  rewrite nth_error_firstn in Hj.
  destruct (Nat.ltb_spec j k) as [Hlt|]; [|discriminate].
  apply (H (Z.of_nat j)); [lia|]. unfold get.
  destruct (Z.ltb_spec (Z.of_nat j) 0); [lia|]. now rewrite Nat2Z.id.
Qed.

Lemma Forall_skipn_get {A : Type} (P : A -> Prop) (l : list A) (k : nat) :
  (forall i v, (Z.of_nat k <= i)%Z -> get l i = Some v -> P v) ->
  Forall P (skipn k l).
Proof.
  intros H. apply Forall_forall. intros v Hv.
  apply In_nth_error in Hv as [j Hj].
  rewrite nth_error_skipn in Hj.
  apply (H (Z.of_nat (k + j))); [lia|]. unfold get.
  destruct (Z.ltb_spec (Z.of_nat (k + j)) 0); [lia|]. now rewrite Nat2Z.id.
Qed.

(** The same bound, for data that is 6 up to index [k] and between 6 and
    255 from there on, when the part from [k] on is short enough. *)
Lemma calculateAdaptiveThreshold_tail (cfg : Config.t) (data : list R)
    (width height : Z) (k : nat) :
  (k <= length data)%nat ->
  (forall i v, (0 <= i < Z.of_nat k)%Z -> get data i = Some v -> v = 6) ->
  (forall i v, get data i = Some v -> 6 <= v <= 255) ->
  (249 * (Z.of_nat (length data) - Z.of_nat k) <= 4 * Z.of_nat (length data))%Z ->
  Config.brightnessThreshold cfg
    <= calculateAdaptiveThreshold cfg data width height
    <= Rmax (Config.brightnessThreshold cfg) 58.
Proof.
  intros Hk Hfront Hall Hshort.
  assert (Forall (fun d => 6 <= d <= 255) data) as Hrange.
  { apply Forall_forall. intros v Hv. apply In_get in Hv as [i Hi]. eauto. }
  apply calculateAdaptiveThreshold_low; auto.
  rewrite <- (firstn_skipn k data) at 1. rewrite map_app, Rsum_app.
  rewrite Rsum_excess_0 by (apply Forall_firstn_get; eauto).
  assert (Forall (fun d => 6 <= d <= 255) (skipn k data)) as Hback
    by (apply Forall_skipn_get; eauto).
  pose proof (Rsum_excess_bound _ 6 255 Hback) as [_ Hb].
  rewrite length_skipn in Hb.
  rewrite minus_INR in Hb by auto.
  apply IZR_le in Hshort.
  rewrite !mult_IZR, minus_IZR, <- !INR_IZR_INZ in Hshort. lra.
Qed.

End ThresholdBound.

(** ** Dilation and erosion with the 3 x 3 kernel *)

Section Morphology3.
Variable mask : list Z.
Variables width height : Z.
Hypothesis mask_binary : Forall binary mask.
Hypothesis mask_length : Z.of_nat (length mask) = width * height.

(** A value read inside a binary mask: 0 or 255. *)
Let bit (v : num) : Prop := v = Some 0 \/ v = Some 255.

Lemma fold_max_lit (vs : list num) (acc : num) :
  bit acc -> Forall bit vs -> acc = Some 255 \/ In (Some 255) vs ->
  fold_left Math_max vs acc = Some 255.
Proof.
  revert acc. induction vs as [|v vs IH]; intros acc Hacc Hvs Hlit.
  - destruct Hlit as [-> | []]. reflexivity.
  - inversion Hvs as [|v' vs' Hv Hvs']; subst. simpl. apply IH; auto.
    + destruct Hacc as [-> | ->], Hv as [-> | ->]; simpl; unfold bit; auto.
    + destruct Hlit as [-> | [-> | Hin]].
      * left. destruct Hv as [-> | ->]; reflexivity.
      * left. destruct Hacc as [-> | ->]; reflexivity.
      * now right.
Qed.

Lemma fold_max_dark (vs : list num) :
  Forall (fun v => v = Some 0) vs -> fold_left Math_max vs (Some 0) = Some 0.
Proof.
  induction 1 as [|v vs Hv Hvs IH]; simpl; auto. now rewrite Hv.
Qed.

Lemma fold_min_dark (vs : list num) (acc : num) :
  bit acc -> Forall bit vs -> acc = Some 0 \/ In (Some 0) vs ->
  fold_left Math_min vs acc = Some 0.
Proof.
  revert acc. induction vs as [|v vs IH]; intros acc Hacc Hvs Hdark.
  - destruct Hdark as [-> | []]. reflexivity.
  - inversion Hvs as [|v' vs' Hv Hvs']; subst. simpl. apply IH; auto.
    + destruct Hacc as [-> | ->], Hv as [-> | ->]; simpl; unfold bit; auto.
    + destruct Hdark as [-> | [-> | Hin]].
      * left. destruct Hv as [-> | ->]; reflexivity.
      * left. destruct Hacc as [-> | ->]; reflexivity.
      * now right.
Qed.

Lemma fold_min_lit (vs : list num) :
  Forall (fun v => v = Some 255) vs ->
  fold_left Math_min vs (Some 255) = Some 255.
Proof.
  induction 1 as [|v vs Hv Hvs IH]; simpl; auto. now rewrite Hv.
Qed.

Lemma In_offsets3 (ky kx : Z) :
  In (ky, kx) offsets3 <-> -1 <= ky <= 1 /\ -1 <= kx <= 1.
Proof.
  unfold offsets3. simpl. split.
  - intros H. repeat (destruct H as [H | H]; [inversion H; lia|]). contradiction.
  - intros [Hy Hx].
    assert (ky = -1 \/ ky = 0 \/ ky = 1) as [-> | [-> | ->]] by lia;
      assert (kx = -1 \/ kx = 0 \/ kx = 1) as [-> | [-> | ->]] by lia; tauto.
Qed.

Lemma neighbour_bit (x y : Z) (k : Z * Z) :
  0 <= x < width -> 0 <= y < height ->
  bit (neighbour mask width height x y k).
Proof.
  intros Hx Hy. unfold neighbour. cbv zeta.
  set (ny := Z.min (Z.max (y + fst k) 0) (height - 1)).
  set (nx := Z.min (Z.max (x + snd k) 0) (width - 1)).
  destruct (get_in_range mask (ny * width + nx)) as [v Hv].
  { rewrite mask_length. apply pixel_index_range; unfold nx, ny; lia. }
  rewrite Hv. apply get_In in Hv. rewrite Forall_forall in mask_binary.
  destruct (mask_binary v Hv) as [-> | ->]; unfold bit; auto.
Qed.

Lemma neighbours3_bit (x y : Z) :
  0 <= x < width -> 0 <= y < height ->
  Forall bit (neighbours3 mask width height x y).
Proof.
  intros Hx Hy. unfold neighbours3. apply Forall_forall. intros v Hv.
  apply in_map_iff in Hv as [k [<- _]]. now apply neighbour_bit.
Qed.

Lemma dilate_cell (x y : Z) :
  0 <= x < width -> 0 <= y < height ->
  get (dilate mask width height 3) (y * width + x)
  = Some (ToUint8 (fold_left Math_max (neighbours3 mask width height x y) (Some 0))).
Proof.
  intros Hx Hy. unfold dilate. cbv zeta.
  rewrite get_write_pixels_at by (rewrite ?repeat_length; lia).
  reflexivity.
Qed.

Lemma erode_cell (x y : Z) :
  0 <= x < width -> 0 <= y < height ->
  get (erode mask width height 3) (y * width + x)
  = Some (ToUint8 (fold_left Math_min (neighbours3 mask width height x y) (Some 255))).
Proof.
  intros Hx Hy. unfold erode. cbv zeta.
  rewrite get_write_pixels_at by (rewrite ?repeat_length; lia).
  reflexivity.
Qed.

(** A pixel is lit in the dilation when one of its neighbours is lit, and
    dark when all of them are dark. *)
Lemma dilate_lit (x y ky kx : Z) :
  0 <= x < width -> 0 <= y < height ->
  -1 <= ky <= 1 -> -1 <= kx <= 1 ->
  neighbour mask width height x y (ky, kx) = Some 255 ->
  get (dilate mask width height 3) (y * width + x) = Some 255.
Proof.
  intros Hx Hy Hky Hkx Hn. rewrite dilate_cell by auto.
  rewrite fold_max_lit; auto.
  - unfold bit; auto.
  - now apply neighbours3_bit.
  - right. rewrite <- Hn. unfold neighbours3. apply in_map.
    apply In_offsets3; auto.
Qed.

Lemma dilate_dark (x y : Z) :
  0 <= x < width -> 0 <= y < height ->
  (forall ky kx, -1 <= ky <= 1 -> -1 <= kx <= 1 ->
     neighbour mask width height x y (ky, kx) = Some 0) ->
  get (dilate mask width height 3) (y * width + x) = Some 0.
Proof.
  intros Hx Hy Hn. rewrite dilate_cell by auto.
  rewrite fold_max_dark; auto.
  unfold neighbours3. apply Forall_forall. intros v Hv.
  apply in_map_iff in Hv as [[ky kx] [<- Hk]].
  apply In_offsets3 in Hk. now apply Hn.
Qed.

(** A pixel is lit in the erosion when all of its neighbours are lit, and
    dark when one of them is dark. *)
Lemma erode_lit (x y : Z) :
  0 <= x < width -> 0 <= y < height ->
  (forall ky kx, -1 <= ky <= 1 -> -1 <= kx <= 1 ->
     neighbour mask width height x y (ky, kx) = Some 255) ->
  get (erode mask width height 3) (y * width + x) = Some 255.
Proof.
  intros Hx Hy Hn. rewrite erode_cell by auto.
  rewrite fold_min_lit; auto.
  unfold neighbours3. apply Forall_forall. intros v Hv.
  apply in_map_iff in Hv as [[ky kx] [<- Hk]].
  apply In_offsets3 in Hk. now apply Hn.
Qed.

Lemma erode_dark (x y ky kx : Z) :
  0 <= x < width -> 0 <= y < height ->
  -1 <= ky <= 1 -> -1 <= kx <= 1 ->
  neighbour mask width height x y (ky, kx) = Some 0 ->
  get (erode mask width height 3) (y * width + x) = Some 0.
Proof.
  intros Hx Hy Hky Hkx Hn. rewrite erode_cell by auto.
  rewrite fold_min_dark; auto.
  - unfold bit; auto.
  - now apply neighbours3_bit.
  - right. rewrite <- Hn. unfold neighbours3. apply in_map.
    apply In_offsets3; auto.
Qed.

End Morphology3.

(** ** Blurring an image whose rows are uniform *)

Section UniformRows.
Local Open Scope R_scope.

Lemma blur_cell_ext (kernel : list R) (radius : Z) (cell cell' : Z -> R) :
  (forall k, (- radius <= k <= radius)%Z -> cell k = cell' k) ->
  blur_cell kernel radius cell = blur_cell kernel radius cell'.
Proof.
  intros H. unfold blur_cell.
  rewrite (forZ_ext (- radius) (radius + 1) _
             (fun k '(sum, weightSum) =>
                let weight := getR kernel (k + radius) in
                (sum + cell' k * weight, weightSum + weight))); auto.
  intros k [s w] Hk. cbv zeta. rewrite H by lia. reflexivity.
Qed.

(** A blur cell over equal cells is that value. *)
Lemma blur_cell_const (radius : Z) (cell : Z -> R) (v : R) :
  (0 <= radius)%Z ->
  (forall k, (- radius <= k <= radius)%Z -> cell k = v) ->
  blur_cell (createGaussianKernel radius) radius cell = v.
Proof.
  intros Hr H.
  destruct (blur_cell_between radius cell v v Hr) as [Hlo Hhi].
  - intros k Hk. rewrite H by auto. lra.
  - lra.
Qed.

Variable data : list R.
Variables width height radius : Z.
Variable row : Z -> R.
Hypothesis radius_nonneg : (0 <= radius)%Z.
Hypothesis data_length : Z.of_nat (length data) = (width * height)%Z.
Hypothesis data_rows :
  forall x y, (0 <= x < width)%Z -> (0 <= y < height)%Z ->
    get data (y * width + x) = Some (row y).

(** When the value of a pixel depends on its row only, the horizontal pass
    changes nothing and the blur is the vertical pass alone. *)
Lemma gaussianBlur_rows (x y : Z) :
  (0 <= x < width)%Z -> (0 <= y < height)%Z ->
  get (gaussianBlur data width height radius) (y * width + x)
  = Some (blur_cell (createGaussianKernel radius) radius
            (fun k => row (Z.min (Z.max (y + k) 0) (height - 1)))).
Proof.
  intros Hx Hy. unfold gaussianBlur. cbv zeta.
  rewrite get_write_pixels_at by (rewrite ?repeat_length; lia).
  f_equal. apply blur_cell_ext. intros k Hk.
  apply getR_get.
  rewrite get_write_pixels_at by (rewrite ?repeat_length; lia).
  f_equal. apply blur_cell_const; auto.
  intros k' Hk'. apply getR_get. apply data_rows; lia.
Qed.

Lemma length_gaussianBlur :
  length (gaussianBlur data width height radius) = length data.
Proof.
  unfold gaussianBlur. cbv zeta.
  now rewrite length_write_pixels, repeat_length.
Qed.

End UniformRows.

(** ** A mask with a fully lit row *)

Section LitRow.
Variable mask : list Z.
Variables width height : Z.
Variable y : Z.
Hypothesis width_nonneg : 0 <= width.
Hypothesis row_in_image : 0 <= y < height.
Hypothesis row_lit : forall x, 0 <= x < width -> lit mask width height (x, y).

Lemma row_connected (n : nat) :
  Z.of_nat n < width -> connected mask width height (0, y) (Z.of_nat n, y).
Proof.
  induction n as [|n IH]; intros Hn.
  - apply connected_refl. apply row_lit. simpl; lia.
  - apply connected_step with (Z.of_nat n, y).
    + apply IH. lia.
    + exists (1, 0). split; [simpl; auto|]. simpl fst; simpl snd.
      f_equal; lia.
    + apply row_lit. lia.
Qed.

(** Every largest component has at least as many pixels as the row. *)
Lemma largestComponent_row (ps : list Pixel) :
  largestComponent mask width height ps -> width <= Z.of_nat (length ps).
Proof.
  intros (p & Hp & Hcomp & Hmax).
  destruct (Z.eq_dec width 0) as [-> | Hw]; [lia|].
  assert (lit mask width height (0, y)) as Hstart by (apply row_lit; lia).
  destruct (floodFill_component mask width height width_nonneg
              ltac:(lia) (0, y) (repeat 0 (Z.to_nat (width * height))) Hstart)
    as (qs & visited & _ & [Hnd Hqs] & _).
  { rewrite repeat_length. nia. }
  { intros q _. apply unmarked_repeat_0. }
  specialize (Hmax (0, y) qs Hstart (conj Hnd Hqs)).
  assert (length (map (fun x => (x, y)) (zrange 0 width)) <= length qs)%nat
    as Hrow.
  { apply NoDup_incl_length.
    - apply Injective_map_NoDup; [|apply NoDup_zrange].
      intros a b E. now inversion E.
    - intros q Hq. apply in_map_iff in Hq as [x [<- Hx]].
      apply In_zrange in Hx. apply Hqs.
      replace x with (Z.of_nat (Z.to_nat x)) by lia.
      apply row_connected. lia. }
  rewrite length_map, length_zrange in Hrow. lia.
Qed.

End LitRow.

(** ** A screen seen at the bottom edge of the camera image *)

Lemma normalizeRectToSquare_square_y (rect : Rect.t) (s : R) :
  (0 < s)%R ->
  Rect.y (normalizeRectToSquare rect s s) = (Rect.y rect / s)%R.
Proof.
  intros Hs. unfold normalizeRectToSquare.
  destruct (Rgeb_spec s s) as [_ | Hn]; [|lra].
  cbn [Rect.y]. field. lra.
Qed.

Section BottomRow.
Local Open Scope R_scope.
Variables baseFrame activeFrame : ImageData.t.
Variables W H : Z.
Hypothesis W_200 : W = 200%Z.
Hypothesis H_200 : H = 200%Z.
Hypothesis base_width : ImageData.width baseFrame = W.
Hypothesis base_height : ImageData.height baseFrame = H.
Hypothesis base_dark :
  forall x y k, (0 <= x < W)%Z -> (0 <= y < H)%Z -> (0 <= k < 3)%Z ->
    get (ImageData.data baseFrame) ((y * W + x) * 4 + k) = Some 0%Z.
Hypothesis active_rows :
  forall x y k, (0 <= x < W)%Z -> (0 <= y < H)%Z -> (0 <= k < 3)%Z ->
    get (ImageData.data activeFrame) ((y * W + x) * 4 + k)
    = Some (if (y =? H - 1)%Z then 255 else 6)%Z.

(** The difference in row [y], and its blurred value. *)
Let level (y : Z) : R := if (y =? H - 1)%Z then 255 else 6.

Let blurRow (y : Z) : R :=
  blur_cell (createGaussianKernel 2) 2
    (fun k => level (Z.min (Z.max (y + k) 0) (H - 1))).

Let blurred := blurredDifference CONFIG baseFrame activeFrame.
Let threshold := calculateAdaptiveThreshold CONFIG blurred W H.
Let mask0 := binaryMask blurred threshold W H.
Let dilated := dilate mask0 W H 3.
Let processed := erode dilated W H 3.

Lemma difference_rows (x y : Z) :
  (0 <= x < W)%Z -> (0 <= y < H)%Z ->
  get (differenceMap baseFrame activeFrame) (y * W + x) = Some (level y).
Proof.
  intros Hx Hy. unfold differenceMap. cbv zeta.
  rewrite base_width, base_height.
  rewrite get_write_pixels_at by (rewrite ?repeat_length; lia).
  f_equal. unfold luminance. cbv zeta.
  rewrite !base_dark, !active_rows by lia.
  unfold level. destruct (y =? H - 1)%Z; unfold Rmax;
    match goal with |- context [Rle_dec ?a ?b] => destruct (Rle_dec a b) end;
    lra.
Qed.

Lemma difference_length :
  Z.of_nat (length (differenceMap baseFrame activeFrame)) = (W * H)%Z.
Proof.
  unfold differenceMap. cbv zeta. rewrite base_width, base_height.
  rewrite length_write_pixels, repeat_length. nia.
Qed.

Lemma blurred_get (x y : Z) :
  (0 <= x < W)%Z -> (0 <= y < H)%Z ->
  get blurred (y * W + x) = Some (blurRow y).
Proof.
  intros Hx Hy. unfold blurred, blurredDifference.
  rewrite base_width, base_height.
  change (Config.gaussianBlurRadius CONFIG) with 2%Z.
  apply gaussianBlur_rows; auto; try lia.
  - apply difference_length.
  - apply difference_rows.
Qed.

Lemma blurred_length : Z.of_nat (length blurred) = (W * H)%Z.
Proof.
  unfold blurred, blurredDifference.
  rewrite length_gaussianBlur. apply difference_length.
Qed.

Lemma blurred_at (i : Z) (v : R) :
  get blurred i = Some v -> v = blurRow (i / W).
Proof.
  intros Hi. pose proof (get_Some_range _ _ _ Hi) as Hr.
  rewrite blurred_length in Hr.
  assert (0 <= i mod W < W)%Z as Hx by (apply Z.mod_pos_bound; lia).
  assert (0 <= i / W < H)%Z as Hy.
  { split; [apply Z.div_pos; lia|]. apply Z.div_lt_upper_bound; lia. }
  pose proof (blurred_get (i mod W) (i / W) Hx Hy) as Hg.
  replace (i / W * W + i mod W)%Z with i in Hg
    by (rewrite (Z.div_mod i W) at 1 by lia; ring).
  congruence.
Qed.

Lemma level_range (y : Z) : 6 <= level y <= 255.
Proof. unfold level. destruct (y =? H - 1)%Z; lra. Qed.

Lemma blurRow_range (y : Z) : 6 <= blurRow y <= 255.
Proof.
  unfold blurRow. apply blur_cell_between; [lia|].
  intros k _. apply level_range.
Qed.

(** Three rows or more above the lit row the blur sees only the gray. *)
Lemma blurRow_far (y : Z) : (y <= H - 4)%Z -> blurRow y = 6.
Proof.
  intros Hy. unfold blurRow. apply blur_cell_const; [lia|].
  intros k Hk. unfold level.
  destruct (Z.eqb_spec (Z.min (Z.max (y + k) 0) (H - 1)) (H - 1)); [lia | auto].
Qed.

(** In the lit row itself more than half of the weight falls on white. *)
Lemma blurRow_edge : 130 < blurRow (H - 1).
Proof.
  unfold blurRow. rewrite blur_cell_radius_2.
  destruct createGaussianKernel_radius_2
    as (a & b & c & Ha & Hb & Hc & -> & -> & -> & -> & ->).
  assert (forall k, (k < 0)%Z ->
            level (Z.min (Z.max (H - 1 + k) 0) (H - 1)) = 6) as Hlow.
  { intros k Hk. unfold level.
    destruct (Z.eqb_spec (Z.min (Z.max (H - 1 + k) 0) (H - 1)) (H - 1));
      [lia | auto]. }
  assert (forall k, (0 <= k)%Z ->
            level (Z.min (Z.max (H - 1 + k) 0) (H - 1)) = 255) as Hhigh.
  { intros k Hk. unfold level.
    destruct (Z.eqb_spec (Z.min (Z.max (H - 1 + k) 0) (H - 1)) (H - 1));
      [auto | lia]. }
  rewrite !Hlow, !Hhigh by lia.
  apply (Rmult_lt_reg_r (0 + a + b + c + b + a)); [lra|].
  unfold Rdiv. rewrite Rmult_assoc, Rinv_l by lra. lra.
Qed.

(** The adaptive threshold stays at the configured minimum or close to it:
    the gray rows dominate the statistics. *)
Lemma threshold_range : 40 <= threshold <= 58.
Proof.
  unfold threshold.
  destruct (calculateAdaptiveThreshold_tail CONFIG blurred W H
              (Z.to_nat ((H - 3) * W))) as [Hlo Hhi].
  - pose proof blurred_length. nia.
  - intros i v Hi Hv. rewrite (blurred_at i v Hv). apply blurRow_far.
    assert (i / W < H - 3)%Z by (apply Z.div_lt_upper_bound; lia). lia.
  - intros i v Hv. rewrite (blurred_at i v Hv). apply blurRow_range.
  - pose proof blurred_length. nia.
  - change (Config.brightnessThreshold CONFIG) with 40 in Hlo, Hhi.
    split; auto. unfold Rmax in Hhi. destruct (Rle_dec 40 58); lra.
Qed.

(** The binary mask: the bottom row is lit, and everything three rows or
    more above it is dark. *)
Lemma mask0_get (x y : Z) :
  (0 <= x < W)%Z -> (0 <= y < H)%Z ->
  get mask0 (y * W + x)
  = Some (if Rgtb (blurRow y) threshold then 255 else 0)%Z.
Proof.
  intros Hx Hy. unfold mask0, binaryMask.
  rewrite get_forZ_put
    by (rewrite ?repeat_length, ?blurred_length; nia).
  now rewrite (getR_get _ _ _ (blurred_get x y Hx Hy)).
Qed.

Lemma mask0_binary : Forall binary mask0.
Proof.
  unfold mask0, binaryMask. apply forZ_inv; [apply binary_repeat_0|].
  intros i m _ Hm. apply Forall_put; auto.
  destruct (Rgtb (getR blurred i) threshold); [now right | now left].
Qed.

Lemma mask0_length : Z.of_nat (length mask0) = (W * H)%Z.
Proof.
  unfold mask0, binaryMask. rewrite length_forZ_put, repeat_length. nia.
Qed.

Lemma mask0_edge (x : Z) :
  (0 <= x < W)%Z -> get mask0 ((H - 1) * W + x) = Some 255%Z.
Proof.
  intros Hx. rewrite mask0_get by lia.
  pose proof blurRow_edge. pose proof threshold_range.
  now rewrite Rgtb_true by lra.
Qed.

Lemma mask0_far (x y : Z) :
  (0 <= x < W)%Z -> (0 <= y <= H - 4)%Z -> get mask0 (y * W + x) = Some 0%Z.
Proof.
  intros Hx Hy. rewrite mask0_get by lia.
  rewrite blurRow_far by lia. pose proof threshold_range.
  now rewrite Rgtb_false by lra.
Qed.

(** The dilation: lit in the last two rows, dark four rows or more above
    the lit row. *)
Lemma dilated_near (x y : Z) :
  (0 <= x < W)%Z -> (H - 2 <= y < H)%Z ->
  get dilated (y * W + x) = Some 255%Z.
Proof.
  intros Hx Hy. unfold dilated.
  apply (dilate_lit mask0 W H mask0_binary mask0_length x y (H - 1 - y) 0);
    try lia.
  unfold neighbour. cbn [fst snd].
  replace (Z.min (Z.max (y + (H - 1 - y)) 0) (H - 1)) with (H - 1)%Z by lia.
  replace (Z.min (Z.max (x + 0) 0) (W - 1)) with x by lia.
  now apply mask0_edge.
Qed.

Lemma dilated_far (x y : Z) :
  (0 <= x < W)%Z -> (0 <= y <= H - 5)%Z ->
  get dilated (y * W + x) = Some 0%Z.
Proof.
  intros Hx Hy. unfold dilated.
  apply (dilate_dark mask0 W H mask0_length x y); try lia.
  intros ky kx Hky Hkx. unfold neighbour. cbn [fst snd].
  apply mask0_far; lia.
Qed.

Lemma dilated_binary : Forall binary dilated.
Proof. apply binary_dilate, mask0_binary. Qed.

Lemma dilated_length : Z.of_nat (length dilated) = (W * H)%Z.
Proof.
  unfold dilated, dilate. cbv zeta.
  rewrite length_write_pixels, repeat_length. apply mask0_length.
Qed.

(** The closed mask: the bottom row stays lit, and no pixel more than two
    rows above it is lit. *)
Lemma processed_eq : processedMask CONFIG baseFrame activeFrame = processed.
Proof.
  unfold processedMask. cbv zeta. rewrite base_width, base_height.
  reflexivity.
Qed.

Lemma processed_edge (x : Z) :
  (0 <= x < W)%Z -> get processed ((H - 1) * W + x) = Some 255%Z.
Proof.
  intros Hx. unfold processed.
  apply (erode_lit dilated W H dilated_length x (H - 1));
    try lia.
  intros ky kx Hky Hkx. unfold neighbour. cbn [fst snd].
  apply dilated_near; lia.
Qed.

Lemma processed_far (x y : Z) :
  (0 <= x < W)%Z -> (0 <= y <= H - 4)%Z ->
  get processed (y * W + x) = Some 0%Z.
Proof.
  intros Hx Hy. unfold processed.
  apply (erode_dark dilated W H dilated_binary dilated_length x y (-1) 0);
    try lia.
  unfold neighbour. cbn [fst snd].
  replace (Z.min (Z.max (x + 0) 0) (W - 1)) with x by lia.
  apply dilated_far; lia.
Qed.

Lemma processed_row (x : Z) :
  (0 <= x < W)%Z -> lit processed W H (x, (H - 1)%Z).
Proof.
  intros Hx. split; [unfold inImage; simpl; lia|].
  unfold pixelIndex. cbn [fst snd]. now apply processed_edge.
Qed.

Lemma processed_lit (p : Pixel) :
  lit processed W H p -> (H - 3 <= snd p)%Z.
Proof.
  intros [[Hx Hy] Hp]. unfold pixelIndex in Hp.
  destruct (Z_le_gt_dec (snd p) (H - 4)) as [Hfar|]; [|lia].
  rewrite processed_far in Hp by lia. discriminate.
Qed.

(** The detection computed for a blob of the closed mask: its area starts
    at row [H - 3] or below, and its height is at least the configured
    minimum, so the area ends below the unit square. *)
Lemma bottom_row_area (b : Blob) :
  pixels b <> [] ->
  (forall p, In p (pixels b) -> lit processed W H p) ->
  let d := blobDetection CONFIG blurred W H b in
  1 < Rect.y (Detection.area d) + Rect.height (Detection.area d).
Proof.
  intros Hne Hlit.
  destruct (pixels b) as [|p0 ps0] eqn:Eps; [congruence|]. rewrite <- Eps in *.
  assert (In p0 (pixels b)) as Hp0 by (rewrite Eps; now left).
  assert (forall p, In p (pixels b) -> inImage W H p) as Hin
    by (intros p Hp; now destruct (Hlit p Hp)).
  pose proof (processed_lit p0 (Hlit p0 Hp0)) as Hrow0.
  destruct (blobExtent_bounds blurred W H
              (blurredDifference_nonneg CONFIG baseFrame activeFrame)
              ltac:(lia) ltac:(lia) (pixels b) Hin)
    as ((Hx0 & Hx1 & Hy0 & Hy1) & _ & Hcover).
  destruct (Hcover p0 Hp0) as [Hcx Hcy].
  unfold blobDetection. cbv zeta.
  set (e := blobExtent blurred W H (pixels b)) in *.
  assert ((0 <= minX e <= maxX e)%Z /\ (maxX e < W)%Z) as Hbx by lia.
  assert ((0 <= minY e <= maxY e)%Z /\ (maxY e < H)%Z) as Hby by lia.
  destruct (refine_invariant blurred W H
              (minX e) (minY e) (maxX e) (maxY e) Hbx Hby)
    as [((_ & _ & Hr3 & _) & _ & _ & Hseed & _) _].
  set (box := refineBoundingBox blurred W H
                (minX e) (minY e) (maxX e) (maxY e)) in *.
  assert (H - 3 <= Box.minY box <= H - 1)%Z as Hbox.
  { split; [|lia].
    destruct Hseed as [-> | (x & [Hwx Hwy] & Hbright)]; [lia|].
    unfold exceedsEdgeThreshold in Hbright.
    destruct (Z_le_gt_dec (Box.minY box) (H - 4)) as [Hfar|]; [|lia].
    rewrite (getR_get _ _ _ (blurred_get x (Box.minY box)
               ltac:(lia) ltac:(lia))) in Hbright.
    rewrite blurRow_far in Hbright by lia. lra. }
  cbn [Detection.area Rect.y Rect.height].
  set (rect := {| Rect.x := IZR (Box.minX box); Rect.y := IZR (Box.minY box);
                  Rect.width := IZR (Box.maxX box - Box.minX box);
                  Rect.height := IZR (Box.maxY box - Box.minY box) |}).
  destruct (clampRect_within CONFIG
              (normalizeRectToSquare rect (IZR W) (IZR H)) CONFIG_area_range)
    as (_ & [Hheight _] & _).
  change (Config.minNormalizedArea CONFIG) with 0.02 in Hheight.
  assert (Rect.y (clampRect CONFIG (normalizeRectToSquare rect (IZR W) (IZR H)))
          = IZR (Box.minY box) / 200) as ->.
  { unfold clampRect. cbn [Rect.y].
    rewrite H_200, W_200, normalizeRectToSquare_square_y by lra.
    cbn [Rect.y rect].
    assert (IZR (200 - 3) <= IZR (Box.minY box) <= IZR (200 - 1)) as Hy
      by (split; apply IZR_le; lia).
    rewrite minus_IZR in Hy. rewrite minus_IZR in Hy.
    apply clamp_id. lra. }
  assert (IZR (200 - 3) <= IZR (Box.minY box)) as Hy by (apply IZR_le; lia).
  rewrite minus_IZR in Hy. lra.
Qed.

(** [detectScreenArea] on these frames returns a detection whose area ends
    below the unit square. *)
Lemma bottom_row_detection :
  exists d,
    detectScreenArea CONFIG baseFrame activeFrame = Returns (Some d) /\
    1 < Rect.y (Detection.area d) + Rect.height (Detection.area d).
Proof.
  destruct (findLargestBlob_returns processed W H) as (blob & Hblob & Hspec).
  destruct blob as [b|];
    [|exfalso; apply (Hspec (0, H - 1)%Z); apply processed_row; lia].
  pose proof (largestComponent_row processed W H (H - 1)
                ltac:(lia) ltac:(lia) processed_row (pixels b) Hspec) as Hsize.
  destruct (largestComponent_pixels _ _ _ _ Hspec) as [Hne Hlit].
  pose proof (detectScreenArea_blob CONFIG baseFrame activeFrame (Some b))
    as Hdetect.
  rewrite processed_eq, base_width, base_height in Hdetect.
  destruct (Hdetect Hblob) as (result & Hresult & Hcase).
  destruct result as [d|].
  - exists d. split; auto. destruct Hcase as [_ ->].
    now apply bottom_row_area.
  - change (Config.minBlobSize CONFIG) with 30%Z in Hcase. lia.
Qed.

End BottomRow.

(** ** The frames [darkFrame] and [bottomRowFrame] *)

Lemma darkFrame_channel (x y k : Z) :
  0 <= x < 200 -> 0 <= y < 200 -> 0 <= k < 3 ->
  get (ImageData.data darkFrame) ((y * 200 + x) * 4 + k) = Some 0.
Proof.
  intros Hx Hy Hk. unfold darkFrame. cbn [ImageData.data].
  apply get_repeat. lia.
Qed.

Lemma bottomRowFrame_channel (x y k : Z) :
  0 <= x < 200 -> 0 <= y < 200 -> 0 <= k < 3 ->
  get (ImageData.data bottomRowFrame) ((y * 200 + x) * 4 + k)
  = Some (if y =? 200 - 1 then 255 else 6).
Proof.
  intros Hx Hy Hk. unfold bottomRowFrame. cbn [ImageData.data].
  rewrite get_map_zrange by lia. f_equal. unfold bottomRowChannel.
  replace (((y * 200 + x) * 4 + k) mod 4) with k
    by (apply (Z.mod_unique _ _ (y * 200 + x)); lia).
  replace (((y * 200 + x) * 4 + k) / (4 * 200)) with y
    by (apply (Z.div_unique _ _ _ (4 * x + k)); lia).
  destruct (Z.eqb_spec k 3); [lia|].
  destruct (Z.eqb_spec y 199), (Z.eqb_spec y (200 - 1)); auto; lia.
Qed.

Lemma darkFrame_wf : wf_frame darkFrame.
Proof.
  unfold wf_frame, darkFrame.
  cbn [ImageData.width ImageData.height ImageData.data].
  split; [lia|]. split; [lia|]. split.
  - rewrite repeat_length. lia.
  - apply Forall_repeat. lia.
Qed.

Lemma bottomRowFrame_wf : wf_frame bottomRowFrame.
Proof.
  unfold wf_frame, bottomRowFrame.
  cbn [ImageData.width ImageData.height ImageData.data].
  split; [lia|]. split; [lia|]. split.
  - rewrite length_map, length_zrange. lia.
  - apply Forall_forall. intros v Hv. apply in_map_iff in Hv as [i [<- _]].
    unfold bottomRowChannel.
    destruct (i mod 4 =? 3); [lia|]. destruct (i / (4 * 200) =? 199); lia.
Qed.

Lemma frames_same_size : same_size darkFrame bottomRowFrame.
Proof.
  unfold same_size, darkFrame, bottomRowFrame.
  cbn [ImageData.width ImageData.height]. split; reflexivity.
Qed.

(** The detection for a screen flashing white in the last row of the camera
    image, on a scene that brightens slightly everywhere: the area starts at
    row 197 of 200 or below and is given the minimum height 0.02. *)
Lemma bottomRowFrame_detection :
  exists d,
    detectScreenArea CONFIG darkFrame bottomRowFrame = Returns (Some d) /\
    (1 < Rect.y (Detection.area d) + Rect.height (Detection.area d))%R.
Proof.
  apply (bottom_row_detection darkFrame bottomRowFrame 200 200); auto.
  - apply darkFrame_channel.
  - apply bottomRowFrame_channel.
Qed.

Lemma detection_in_normalized_space_witness :
  exists d,
    wf_frame darkFrame /\ wf_frame bottomRowFrame /\
    same_size darkFrame bottomRowFrame /\
    (Config.minNormalizedArea CONFIG <= Config.maxNormalizedArea CONFIG)%R /\
    detectScreenArea CONFIG darkFrame bottomRowFrame = Returns (Some d) /\
    ((0 <= Point.x (Detection.center d) <= 1 /\
      0 <= Point.y (Detection.center d) <= 1) /\
     (0 <= Rect.x (Detection.area d) <= 1 /\
      0 <= Rect.y (Detection.area d) <= 1) /\
     (Config.minNormalizedArea CONFIG <= Rect.width (Detection.area d)
        <= Config.maxNormalizedArea CONFIG /\
      Config.minNormalizedArea CONFIG <= Rect.height (Detection.area d)
        <= Config.maxNormalizedArea CONFIG) /\
     (Config.minNormalizedArea CONFIG < Rect.width (Detection.area d) ->
      Rect.x (Detection.area d) + Rect.width (Detection.area d) <= 1) /\
     (Config.minNormalizedArea CONFIG < Rect.height (Detection.area d) ->
      Rect.y (Detection.area d) + Rect.height (Detection.area d) <= 1))%R.
Proof.
  destruct bottomRowFrame_detection as (d & Hd & _).
  exists d.
  split; [apply darkFrame_wf|]. split; [apply bottomRowFrame_wf|].
  split; [apply frames_same_size|]. split; [apply CONFIG_area_range|].
  split; [exact Hd|].
  apply (detection_in_normalized_space CONFIG darkFrame bottomRowFrame d).
  - apply darkFrame_wf.
  - apply bottomRowFrame_wf.
  - apply frames_same_size.
  - apply CONFIG_area_range.
  - exact Hd.
Defined.

(** C1, counterexample. The frames [darkFrame] and [bottomRowFrame] are well
    formed and of equal size, [detectScreenArea] returns a detection for
    them, and its [area.y + area.height] exceeds 1: [clampRect] raises the
    height to the minimum 0.02 while [area.y] stays at 0.985 or more. *)
Lemma detection_beyond_unit_square :
  wf_frame darkFrame /\ wf_frame bottomRowFrame /\
  same_size darkFrame bottomRowFrame /\
  exists d,
    detectScreenArea CONFIG darkFrame bottomRowFrame = Returns (Some d) /\
    (1 < Rect.y (Detection.area d) + Rect.height (Detection.area d))%R.
Proof.
  split; [apply darkFrame_wf|]. split; [apply bottomRowFrame_wf|].
  split; [apply frames_same_size|]. apply bottomRowFrame_detection.
Qed.

(** * Further properties of the controller *)

(** ** Geometry helpers *)

Section GeometryLaws.
Local Open Scope R_scope.

(** X1. The other round trip: for positive image dimensions, normalizing
    the denormalized rectangle gives the rectangle back, so
    [normalizeRectToSquare] and [denormalizeRectFromSquare] are inverse
    bijections. *)
Theorem normalize_denormalize_roundtrip (rect : Rect.t) (w h : R) :
  0 < w -> 0 < h ->
  normalizeRectToSquare (denormalizeRectFromSquare rect w h) w h = rect.
Proof.
  intros Hw Hh. destruct rect as [x y rw rh].
  unfold denormalizeRectFromSquare, normalizeRectToSquare.
  destruct (Rgeb w h); cbn [Rect.x Rect.y Rect.width Rect.height];
    f_equal; field; lra.
Qed.

Lemma normalize_denormalize_roundtrip_witness :
  (0 < 1280 /\ 0 < 720) /\
  normalizeRectToSquare
    (denormalizeRectFromSquare (Rect.mk 0.25 0.5 0.1 0.2) 1280 720) 1280 720
  = Rect.mk 0.25 0.5 0.1 0.2.
Proof.
  split; [split; lra|].
  apply (normalize_denormalize_roundtrip (Rect.mk 0.25 0.5 0.1 0.2) 1280 720);
    lra.
Defined.

(** X2. [normalizeRectToSquare] letterboxes the image into the unit square:
    with [m] the larger of the two image dimensions, the width and height
    of the rectangle are both divided by [m] (so its aspect ratio is kept),
    and its corner is shifted by half of the unused margin, [(m - w) / 2]
    and [(m - h) / 2], before being divided by [m]. *)
Theorem normalizeRectToSquare_letterbox (rect : Rect.t) (w h : R) :
  0 < w -> 0 < h ->
  let m := Rmax w h in
  let n := normalizeRectToSquare rect w h in
  Rect.width n = Rect.width rect / m /\
  Rect.height n = Rect.height rect / m /\
  Rect.x n = (Rect.x rect + (m - w) / 2) / m /\
  Rect.y n = (Rect.y rect + (m - h) / 2) / m.
Proof.
  intros Hw Hh. cbv zeta. unfold normalizeRectToSquare, Rmax.
  destruct (Rgeb_spec w h) as [Hge | Hlt]; destruct (Rle_dec w h) as [Hle | Hgt];
    cbn [Rect.x Rect.y Rect.width Rect.height].
  - assert (w = h) as -> by lra. repeat split; field; lra.
  - repeat split; field; lra.
  - repeat split; field; lra.
  - lra.
Qed.

Lemma normalizeRectToSquare_letterbox_witness :
  (0 < 1280 /\ 0 < 720) /\
  let m := Rmax 1280 720 in
  let n := normalizeRectToSquare (Rect.mk 100 50 320 180) 1280 720 in
  Rect.width n = 320 / m /\
  Rect.height n = 180 / m /\
  Rect.x n = (100 + (m - 1280) / 2) / m /\
  Rect.y n = (50 + (m - 720) / 2) / m.
Proof.
  split; [split; lra|].
  apply (normalizeRectToSquare_letterbox (Rect.mk 100 50 320 180) 1280 720);
    lra.
Defined.

(** X3. A rectangle that lies inside the image (its left, right, top and
    bottom edges between 0 and the image width and height) is normalized to
    a rectangle inside the unit square: corner and far edges are in [0, 1]
    and the sides are at most 1. *)
Theorem normalizeRectToSquare_in_unit_square (rect : Rect.t) (w h : R) :
  0 < w -> 0 < h ->
  0 <= Rect.x rect -> 0 <= Rect.width rect ->
  Rect.x rect + Rect.width rect <= w ->
  0 <= Rect.y rect -> 0 <= Rect.height rect ->
  Rect.y rect + Rect.height rect <= h ->
  let n := normalizeRectToSquare rect w h in
  (0 <= Rect.x n /\ Rect.x n + Rect.width n <= 1 /\ 0 <= Rect.width n) /\
  (0 <= Rect.y n /\ Rect.y n + Rect.height n <= 1 /\ 0 <= Rect.height n).
Proof.
  intros Hw Hh Hx Hrw Hxw Hy Hrh Hyh.
  destruct (normalizeRectToSquare_unit rect w h Hw Hh)
    as (Hnx & Hny & Hnxw & Hnyh); try lra.
  cbv zeta. split; (split; [lra|split; [lra|]]).
  - unfold normalizeRectToSquare.
    destruct (Rgeb w h); cbn [Rect.width].
    + apply Rdiv_nonneg; lra.
    + apply Rmult_le_pos; apply Rdiv_nonneg; lra.
  - unfold normalizeRectToSquare.
    destruct (Rgeb w h); cbn [Rect.height].
    + apply Rmult_le_pos; apply Rdiv_nonneg; lra.
    + apply Rdiv_nonneg; lra.
Qed.

Lemma normalizeRectToSquare_in_unit_square_witness :
  (0 < 1280 /\ 0 < 720) /\
  (0 <= 100 /\ 0 <= 320 /\ 100 + 320 <= 1280) /\
  (0 <= 50 /\ 0 <= 180 /\ 50 + 180 <= 720) /\
  let n := normalizeRectToSquare (Rect.mk 100 50 320 180) 1280 720 in
  (0 <= Rect.x n /\ Rect.x n + Rect.width n <= 1 /\ 0 <= Rect.width n) /\
  (0 <= Rect.y n /\ Rect.y n + Rect.height n <= 1 /\ 0 <= Rect.height n).
Proof.
  split; [split; lra|]. split; [repeat split; lra|].
  split; [repeat split; lra|].
  apply (normalizeRectToSquare_in_unit_square (Rect.mk 100 50 320 180) 1280 720);
    cbn [Rect.x Rect.y Rect.width Rect.height]; lra.
Defined.

(** X4. [clampRect] is idempotent: clamping an already clamped rectangle
    changes nothing, so the second clamp that [sampleAreaColor] applies to a
    detected area is the identity. *)
Theorem clampRect_idempotent (cfg : Config.t) (rect : Rect.t) :
  Config.minNormalizedArea cfg <= Config.maxNormalizedArea cfg ->
  clampRect cfg (clampRect cfg rect) = clampRect cfg rect.
Proof.
  intros Hcfg.
  destruct (clampRect_within cfg rect Hcfg) as (Hw & Hh & Hx & Hy).
  unfold clampRect at 1.
  rewrite !clamp_id by lra.
  now destruct (clampRect cfg rect).
Qed.

Lemma clampRect_idempotent_witness :
  Config.minNormalizedArea CONFIG <= Config.maxNormalizedArea CONFIG /\
  clampRect CONFIG (clampRect CONFIG (Rect.mk (-3) 7 0 25))
  = clampRect CONFIG (Rect.mk (-3) 7 0 25).
Proof.
  split; [apply CONFIG_area_range|].
  apply (clampRect_idempotent CONFIG (Rect.mk (-3) 7 0 25)).
  apply CONFIG_area_range.
Defined.

(** X5. [drawOverlay] places a screen's marker by denormalizing the
    rectangle of size zero at the stored centre; for a centre that came from
    [normalizePointToSquare] this is the image point it was computed from. *)
Theorem overlay_marker_position (x y w h : R) :
  0 < w -> 0 < h ->
  let position := normalizePointToSquare x y w h in
  denormalizeRectFromSquare
    {| Rect.x := Point.x position; Rect.y := Point.y position;
       Rect.width := 0; Rect.height := 0 |} w h
  = {| Rect.x := x; Rect.y := y; Rect.width := 0; Rect.height := 0 |}.
Proof.
  intros Hw Hh. cbv zeta.
  unfold denormalizeRectFromSquare, normalizePointToSquare.
  destruct (Rgeb w h);
    cbn [Rect.x Rect.y Rect.width Rect.height Point.x Point.y];
    f_equal; field; lra.
Qed.

Lemma overlay_marker_position_witness :
  (0 < 1280 /\ 0 < 720) /\
  let position := normalizePointToSquare 640 100 1280 720 in
  denormalizeRectFromSquare
    {| Rect.x := Point.x position; Rect.y := Point.y position;
       Rect.width := 0; Rect.height := 0 |} 1280 720
  = {| Rect.x := 640; Rect.y := 100; Rect.width := 0; Rect.height := 0 |}.
Proof.
  split; [split; lra|].
  apply (overlay_marker_position 640 100 1280 720); lra.
Defined.

End GeometryLaws.

(** ** The blur kernel *)

Section KernelLaws.
Local Open Scope R_scope.

Lemma Rsum_snoc (l : list R) (v : R) : Rsum (l ++ [v]) = Rsum l + v.
Proof. rewrite Rsum_app. simpl. lra. Qed.

Lemma Rsum_map_div {A : Type} (g : A -> R) (t : R) (l : list A) :
  Rsum (map (fun j => g j / t) l) = Rsum (map g l) / t.
Proof.
  induction l as [|a l IH]; simpl.
  - unfold Rdiv. now rewrite Rmult_0_l.
  - rewrite IH. unfold Rdiv. ring.
Qed.

Lemma Rsum_map_pos {A : Type} (g : A -> R) (l : list A) :
  l <> [] -> (forall a, 0 < g a) -> 0 < Rsum (map g l).
Proof.
  intros Hl Hg. destruct l as [|a l]; [congruence|]. simpl.
  assert (0 <= Rsum (map g l)) as H.
  { clear Hl. induction l as [|b l IH]; simpl; [lra|].
    specialize (Hg b). lra. }
  specialize (Hg a). lra.
Qed.

(** The kernel in closed form: cell [j] holds the Gaussian weight of offset
    [j - radius] divided by the sum of all the weights. *)
Lemma createGaussianKernel_closed_form (radius : Z) :
  (0 <= radius)%Z ->
  createGaussianKernel radius =
  map (fun j =>
         gaussWeight radius (j - radius)
         / Rsum (map (fun j => gaussWeight radius (j - radius))
                     (zrange 0 (radius * 2 + 1))))
      (zrange 0 (radius * 2 + 1)).
Proof.
  intros Hr. unfold createGaussianKernel. cbv zeta.
  set (n := (radius * 2 + 1)%Z).
  set (g := fun j : Z => gaussWeight radius (j - radius)).
  pose (P := fun (i : Z) (st : list R * R) =>
    Z.of_nat (length (fst st)) = n /\
    (forall j, (0 <= j < i + radius)%Z -> get (fst st) j = Some (g j)) /\
    snd st = Rsum (map g (zrange 0 (i + radius)))).
  assert (P (radius + 1)%Z
            (forZ (- radius) (radius + 1) (fun i '(kernel, sum) =>
               let kernel := put kernel (i + radius)
                 (exp (- (IZR i * IZR i) / (2 * (IZR radius / 2) * (IZR radius / 2)))) in
               (kernel, sum + getR kernel (i + radius)))
               (repeat 0 (Z.to_nat n), 0))) as HP.
  { apply (forZ_ind P); [lia | |].
    - unfold P; cbn [fst snd]. rewrite repeat_length.
      split; [unfold n; lia|]. split; [intros j Hj; lia|].
      replace (- radius + radius)%Z with 0%Z by lia. reflexivity.
    - intros i [kern s] Hi (Hlen & Hget & Hs). unfold P in *.
      cbn [fst snd] in *. cbv zeta. cbn [fst snd].
      fold (gaussWeight radius i).
      assert (gaussWeight radius i = g (i + radius)%Z) as Hgi
        by (unfold g; f_equal; lia).
      assert (get (put kern (i + radius) (gaussWeight radius i)) (i + radius)
              = Some (gaussWeight radius i)) as Hnew
        by (apply get_put_eq; unfold n in Hlen; lia).
      split; [now rewrite length_put|]. split.
      + intros j Hj. destruct (Z.eq_dec j (i + radius)) as [-> | Hne].
        * now rewrite Hnew, Hgi.
        * rewrite get_put_neq by lia. apply Hget; lia.
      + rewrite (getR_get _ _ _ Hnew), Hs.
        replace (i + 1 + radius)%Z with (i + radius + 1)%Z by lia.
        rewrite zrange_snoc by lia. rewrite map_app. cbn [map].
        rewrite Rsum_snoc. now rewrite Hgi. }
  destruct (forZ (- radius) (radius + 1) _ (repeat 0 (Z.to_nat n), 0))
    as [kern total].
  destruct HP as (Hlen & Hget & Htotal). cbn [fst snd] in *.
  replace (radius + 1 + radius)%Z with n in * by (unfold n; lia).
  rewrite <- Htotal.
  pose (Q := fun (i : Z) (k' : list R) =>
    length k' = length kern /\
    (forall j, (0 <= j < i)%Z -> get k' j = Some (g j / total)) /\
    (forall j, (i <= j)%Z -> get k' j = get kern j)).
  assert (Q (Z.of_nat (length kern))
            (forZ 0 (Z.of_nat (length kern))
               (fun i kernel => put kernel i (getR kernel i / total)) kern)) as HQ.
  { apply (forZ_ind Q); [lia | |].
    - unfold Q. split; auto. split; [intros j Hj; lia | auto].
    - intros i k' Hi (Hl & Hdone & Hrest). unfold Q.
      split; [now rewrite length_put|].
      assert (getR k' i = g i) as Hi'.
      { unfold getR. rewrite Hrest by lia. rewrite Hget by lia. reflexivity. }
      split.
      + intros j Hj. destruct (Z.eq_dec j i) as [-> | Hne].
        * rewrite get_put_eq by lia. now rewrite Hi'.
        * rewrite get_put_neq by lia. apply Hdone; lia.
      + intros j Hj. rewrite get_put_neq by lia. apply Hrest; lia. }
  destruct HQ as (Hl & Hdone & Hrest).
  apply get_ext.
  - rewrite Hl, length_map, length_zrange. lia.
  - intros j. destruct (Z_lt_ge_dec j 0) as [Hneg | Hpos].
    + unfold get. destruct (Z.ltb_spec j 0); [reflexivity | lia].
    + destruct (Z_lt_ge_dec j n) as [Hin | Hout].
      * rewrite Hdone by lia. now rewrite get_map_zrange by lia.
      * rewrite Hrest by lia.
        destruct (get kern j) as [v|] eqn:E1;
          [apply get_Some_range in E1; lia|].
        destruct (get (map _ (zrange 0 n)) j) as [v|] eqn:E2; auto.
        apply get_Some_range in E2.
        rewrite length_map, length_zrange in E2. lia.
Qed.

Lemma exp_le (x y : R) : x <= y -> exp x <= exp y.
Proof.
  intros [Hlt | ->]; [left; now apply exp_increasing | right; reflexivity].
Qed.

Lemma gaussWeight_even (radius k : Z) :
  gaussWeight radius (- k) = gaussWeight radius k.
Proof.
  unfold gaussWeight. rewrite opp_IZR.
  replace (- IZR k * - IZR k) with (IZR k * IZR k) by ring. reflexivity.
Qed.

Lemma gaussWeight_peak (radius k : Z) :
  (1 <= radius)%Z -> gaussWeight radius k <= gaussWeight radius 0.
Proof.
  intros Hr. unfold gaussWeight. apply exp_le.
  assert (1 <= IZR radius) as Hr' by now apply IZR_le.
  assert (0 < 2 * (IZR radius / 2) * (IZR radius / 2)) as Hd by nra.
  replace (- (0 * 0) / (2 * (IZR radius / 2) * (IZR radius / 2))) with 0
    by (unfold Rdiv; ring).
  apply (Rmult_le_reg_r (2 * (IZR radius / 2) * (IZR radius / 2))); auto.
  unfold Rdiv. rewrite Rmult_assoc, Rinv_l by lra. nra.
Qed.

(** X6. For a radius of at least 1, [createGaussianKernel] returns
    [2 * radius + 1] weights that sum to 1; every weight is positive, the
    weights are symmetric around the middle cell, and the middle weight is
    the largest. *)
Theorem createGaussianKernel_normalized (radius : Z) :
  (1 <= radius)%Z ->
  let kernel := createGaussianKernel radius in
  Z.of_nat (length kernel) = (2 * radius + 1)%Z /\
  Rsum kernel = 1 /\
  forall i, (0 <= i <= radius)%Z ->
    0 < getR kernel (radius - i) /\
    getR kernel (radius - i) = getR kernel (radius + i) /\
    getR kernel (radius + i) <= getR kernel radius.
Proof.
  intros Hr. cbv zeta.
  rewrite createGaussianKernel_closed_form by lia.
  set (g := fun j : Z => gaussWeight radius (j - radius)).
  set (total := Rsum (map g (zrange 0 (radius * 2 + 1)))).
  assert (0 < total) as Htotal.
  { apply Rsum_map_pos; [|intros j; apply exp_pos].
    rewrite zrange_cons by lia. discriminate. }
  assert (forall j, (0 <= j < radius * 2 + 1)%Z ->
            getR (map (fun j => g j / total) (zrange 0 (radius * 2 + 1))) j
            = g j / total) as Hcell.
  { intros j Hj. apply (getR_get _ j (g j / total)).
    now rewrite get_map_zrange by lia. }
  split; [rewrite length_map, length_zrange; lia|].
  split.
  - rewrite (Rsum_map_div g total). fold total. field. lra.
  - intros i Hi. rewrite !Hcell by lia. unfold g.
    replace (radius - i - radius)%Z with (- i)%Z by lia.
    replace (radius + i - radius)%Z with i by lia.
    replace (radius - radius)%Z with 0%Z by lia.
    rewrite gaussWeight_even.
    pose proof (exp_pos (- (IZR i * IZR i)
                         / (2 * (IZR radius / 2) * (IZR radius / 2)))) as Hpos.
    fold (gaussWeight radius i) in Hpos.
    pose proof (gaussWeight_peak radius i Hr) as Hpeak.
    split; [now apply Rdiv_lt_0_compat|]. split; [reflexivity|].
    unfold Rdiv. apply Rmult_le_compat_r; auto.
    left. now apply Rinv_0_lt_compat.
Qed.

Lemma createGaussianKernel_normalized_witness :
  (1 <= 2)%Z /\
  let kernel := createGaussianKernel 2 in
  Z.of_nat (length kernel) = (2 * 2 + 1)%Z /\
  Rsum kernel = 1 /\
  forall i, (0 <= i <= 2)%Z ->
    0 < getR kernel (2 - i) /\
    getR kernel (2 - i) = getR kernel (2 + i) /\
    getR kernel (2 + i) <= getR kernel 2.
Proof.
  split; [lia|]. apply (createGaussianKernel_normalized 2). lia.
Defined.

End KernelLaws.

(** ** The blur *)

Section BlurLaws.
Local Open Scope R_scope.

Lemma gaussianBlur_between (data : list R) (width height radius : Z)
    (lo hi : R) :
  (1 <= radius)%Z -> (0 < width)%Z -> (0 < height)%Z ->
  Z.of_nat (length data) = (width * height)%Z ->
  Forall (fun v => lo <= v <= hi) data ->
  Forall (fun v => lo <= v <= hi) (gaussianBlur data width height radius).
Proof.
  intros Hr Hw Hh Hlen Hdata.
  assert (forall x y, (0 <= x < width)%Z -> (0 <= y < height)%Z ->
            lo <= getR data (y * width + x) <= hi) as Hcell.
  { intros x y Hx Hy.
    destruct (get_in_range data (y * width + x)) as [v Hv].
    { rewrite Hlen. now apply pixel_index_range. }
    rewrite (getR_get _ _ _ Hv). apply get_In in Hv.
    rewrite Forall_forall in Hdata. auto. }
  unfold gaussianBlur. cbv zeta.
  apply Forall_forall. intros v Hv. apply In_get in Hv as [i Hi].
  pose proof (get_Some_range _ _ _ Hi) as Hrange.
  rewrite length_write_pixels, repeat_length, Hlen in Hrange.
  rewrite get_write_pixels in Hi by lia.
  rewrite repeat_length, Hlen in Hi.
  destruct (Z.leb_spec 0 i); [|lia].
  destruct (Z.ltb_spec i (width * height)); [|lia].
  cbn [andb] in Hi. injection Hi as <-.
  assert (0 <= i mod width < width)%Z as Hx by (apply Z.mod_pos_bound; lia).
  assert (0 <= i / width < height)%Z as Hy.
  { split; [apply Z.div_pos; lia|]. apply Z.div_lt_upper_bound; lia. }
  apply blur_cell_between; [lia|]. intros k Hk.
  rewrite (getR_get _ _ (blur_cell (createGaussianKernel radius) radius
             (fun k' => getR data
                (Z.min (Z.max (i / width + k) 0) (height - 1) * width
                 + Z.min (Z.max (i mod width + k') 0) (width - 1))))).
  - apply blur_cell_between; [lia|]. intros k' Hk'. apply Hcell; lia.
  - rewrite get_write_pixels_at by (rewrite ?repeat_length; lia).
    reflexivity.
Qed.

(** X7. [gaussianBlur] keeps the length of its input and never leaves the
    range of its input: when the data of a [width] x [height] image lies
    between [lo] and [hi], so does every blurred value.  In particular a
    constant image is left unchanged. *)
Theorem gaussianBlur_within_range (data : list R) (width height radius : Z)
    (lo hi : R) :
  (1 <= radius)%Z -> (0 < width)%Z -> (0 < height)%Z ->
  Z.of_nat (length data) = (width * height)%Z ->
  Forall (fun v => lo <= v <= hi) data ->
  length (gaussianBlur data width height radius) = length data /\
  Forall (fun v => lo <= v <= hi) (gaussianBlur data width height radius).
Proof.
  intros Hr Hw Hh Hlen Hdata.
  split; [apply length_gaussianBlur | now apply gaussianBlur_between].
Qed.

Lemma gaussianBlur_within_range_witness :
  ((1 <= 2)%Z /\ (0 < 2)%Z /\ (0 < 2)%Z) /\
  Z.of_nat (length [0; 10; 20; 255]) = (2 * 2)%Z /\
  Forall (fun v => 0 <= v <= 255) [0; 10; 20; 255] /\
  length (gaussianBlur [0; 10; 20; 255] 2 2 2) = length [0; 10; 20; 255] /\
  Forall (fun v => 0 <= v <= 255) (gaussianBlur [0; 10; 20; 255] 2 2 2).
Proof.
  assert (Forall (fun v => 0 <= v <= 255) [0; 10; 20; 255]) as Hdata
    by (repeat constructor; lra).
  split; [lia|]. split; [reflexivity|]. split; [exact Hdata|].
  apply (gaussianBlur_within_range [0; 10; 20; 255] 2 2 2 0 255);
    [lia | lia | lia | reflexivity | exact Hdata].
Defined.

End BlurLaws.

(** ** When nothing rises above the threshold *)

Section DarkMask.

(** A value read from a mask whose cells are all 0: 0, or [undefined]. *)
Let dark (v : num) : Prop := v = Some 0 \/ v = None.

Lemma get_dark (mask : list Z) (i : Z) :
  Forall (fun v => v = 0) mask -> dark (get mask i).
Proof.
  intros Hm. destruct (get mask i) as [v|] eqn:E; [|now right].
  apply get_In in E. rewrite Forall_forall in Hm. left. f_equal. auto.
Qed.

Lemma ToUint8_dark (v : num) : dark v -> ToUint8 v = 0.
Proof. intros [-> | ->]; reflexivity. Qed.

Lemma binaryMask_dark (blurredDiff : list R) (threshold : R) (width height : Z) :
  (forall i, (getR blurredDiff i <= threshold)%R) ->
  Forall (fun v => v = 0) (binaryMask blurredDiff threshold width height).
Proof.
  intros Hb. unfold binaryMask. apply forZ_inv.
  - apply Forall_repeat. reflexivity.
  - intros i m _ Hm. apply Forall_put; auto.
    now rewrite Rgtb_false by apply Hb.
Qed.

Lemma dilate_dark_mask (mask : list Z) (width height kernelSize : Z) :
  Forall (fun v => v = 0) mask ->
  Forall (fun v => v = 0) (dilate mask width height kernelSize).
Proof.
  intros Hm. unfold dilate. cbv zeta.
  apply Forall_write_pixels; [apply Forall_repeat; reflexivity|].
  intros x y _ _.
  assert (dark (forZ (- (kernelSize / 2)) (kernelSize / 2 + 1) (fun ky maxVal =>
            forZ (- (kernelSize / 2)) (kernelSize / 2 + 1) (fun kx maxVal =>
              Math_max maxVal
                (get mask (Z.min (Z.max (y + ky) 0) (height - 1) * width
                           + Z.min (Z.max (x + kx) 0) (width - 1))))
              maxVal)
            (Some 0))) as [-> | ->]; [|reflexivity|reflexivity].
  apply forZ_inv; [now left|]. intros ky acc _ Hacc.
  apply forZ_inv; auto. intros kx acc' _ Hacc'.
  destruct (get_dark mask (Z.min (Z.max (y + ky) 0) (height - 1) * width
                           + Z.min (Z.max (x + kx) 0) (width - 1)) Hm)
    as [-> | ->], Hacc' as [-> | ->]; unfold dark; simpl; auto.
Qed.

Lemma erode_dark_mask (mask : list Z) (width height kernelSize : Z) :
  0 <= kernelSize ->
  Forall (fun v => v = 0) mask ->
  Forall (fun v => v = 0) (erode mask width height kernelSize).
Proof.
  intros Hk Hm. unfold erode. cbv zeta.
  assert (0 <= kernelSize / 2) as Hhalf by (apply Z.div_pos; lia).
  apply Forall_write_pixels; [apply Forall_repeat; reflexivity|].
  intros x y _ _.
  set (cell := fun ky kx =>
    get mask (Z.min (Z.max (y + ky) 0) (height - 1) * width
              + Z.min (Z.max (x + kx) 0) (width - 1))).
  assert (forall acc ky kx, acc = Some 255 \/ dark acc ->
            dark (Math_min acc (cell ky kx))) as Hstep.
  { intros acc ky kx Hacc. unfold cell.
    destruct (get_dark mask (Z.min (Z.max (y + ky) 0) (height - 1) * width
                             + Z.min (Z.max (x + kx) 0) (width - 1)) Hm)
      as [-> | ->], Hacc as [-> | [-> | ->]]; unfold dark; simpl; auto. }
  assert (forall acc ky, acc = Some 255 \/ dark acc ->
            dark (forZ (- (kernelSize / 2)) (kernelSize / 2 + 1)
                    (fun kx minVal => Math_min minVal (cell ky kx)) acc))
    as Hrow.
  { intros acc ky Hacc. rewrite forZ_snoc by lia. apply Hstep.
    apply forZ_inv; [exact Hacc|]. intros kx acc' _ Hacc'.
    right. now apply Hstep. }
  apply ToUint8_dark. rewrite forZ_snoc by lia.
  apply (Hrow _ (kernelSize / 2)).
  apply forZ_inv; [now left|]. intros ky acc _ Hacc.
  right. exact (Hrow acc ky Hacc).
Qed.

(** With no lit pixel in the processed mask there is no detection. *)
Lemma detectScreenArea_dark (cfg : Config.t) (baseFrame activeFrame : ImageData.t) :
  Forall (fun v => v = 0) (processedMask cfg baseFrame activeFrame) ->
  detectScreenArea cfg baseFrame activeFrame = Returns None.
Proof.
  intros Hdark.
  destruct (findLargestBlob_returns (processedMask cfg baseFrame activeFrame)
              (ImageData.width baseFrame) (ImageData.height baseFrame))
    as (blob & Hblob & Hspec).
  destruct (detectScreenArea_blob cfg baseFrame activeFrame blob Hblob)
    as (result & Hres & Hcase).
  destruct blob as [b|].
  - exfalso. destruct (largestComponent_pixels _ _ _ _ Hspec) as [Hne Hlit].
    destruct (pixels b) as [|p ps]; [congruence|].
    destruct (Hlit p (or_introl eq_refl)) as [_ Hp].
    apply get_In in Hp. rewrite Forall_forall in Hdark.
    specialize (Hdark 255 Hp). discriminate.
  - destruct result as [d|]; [contradiction | exact Hres].
Qed.

(** The same, stated on the blurred difference: no value above the
    threshold. *)
Lemma detectScreenArea_below_threshold (cfg : Config.t)
    (baseFrame activeFrame : ImageData.t) :
  0 <= Config.morphologyKernel cfg ->
  (forall i,
     (getR (blurredDifference cfg baseFrame activeFrame) i
      <= calculateAdaptiveThreshold cfg
           (blurredDifference cfg baseFrame activeFrame)
           (ImageData.width baseFrame) (ImageData.height baseFrame))%R) ->
  detectScreenArea cfg baseFrame activeFrame = Returns None.
Proof.
  intros Hk Hb. apply detectScreenArea_dark.
  unfold processedMask, closing. cbv zeta.
  apply erode_dark_mask; auto. apply dilate_dark_mask.
  now apply binaryMask_dark.
Qed.

End DarkMask.

(** ** Frame pairs that give no detection *)

Section NoDetection.
Local Open Scope R_scope.
Variable cfg : Config.t.
Variables baseFrame activeFrame : ImageData.t.
Hypothesis base_wf : wf_frame baseFrame.
Hypothesis radius_pos : (1 <= Config.gaussianBlurRadius cfg)%Z.
Hypothesis kernel_nonneg : (0 <= Config.morphologyKernel cfg)%Z.

Let width := ImageData.width baseFrame.
Let height := ImageData.height baseFrame.

Lemma differenceMap_length :
  Z.of_nat (length (differenceMap baseFrame activeFrame)) = (width * height)%Z.
Proof.
  destruct base_wf as (Hw & Hh & _).
  unfold differenceMap. cbv zeta.
  rewrite length_write_pixels, repeat_length. fold width height.
  unfold width, height. nia.
Qed.

(** Every cell of the difference map holds the luminance rise of its pixel,
    or 0 where the luminance falls. *)
Lemma differenceMap_cells (P : R -> Prop) :
  (forall x y, (0 <= x < width)%Z -> (0 <= y < height)%Z ->
     P (Rmax 0 (luminanceRise baseFrame activeFrame x y))) ->
  Forall P (differenceMap baseFrame activeFrame).
Proof.
  intros Hcell. destruct base_wf as (Hw & Hh & _).
  apply Forall_forall. intros v Hv. apply In_get in Hv as [i Hi].
  pose proof (get_Some_range _ _ _ Hi) as Hrange.
  rewrite differenceMap_length in Hrange.
  unfold differenceMap in Hi. cbv zeta in Hi. fold width height in Hi.
  rewrite get_write_pixels in Hi by (unfold width, height; lia).
  rewrite repeat_length in Hi.
  destruct (Z.leb_spec 0 i); [|lia].
  destruct (Z.ltb_spec i (width * height)); [|lia].
  destruct (Z.ltb_spec i (Z.of_nat (Z.to_nat (width * height)))); [|lia].
  cbn [andb] in Hi. injection Hi as <-.
  assert (0 <= i mod width < width)%Z as Hx
    by (apply Z.mod_pos_bound; unfold width; lia).
  assert (0 <= i / width < height)%Z as Hy.
  { split; [apply Z.div_pos; unfold width; lia|].
    apply Z.div_lt_upper_bound; unfold width; lia. }
  exact (Hcell _ _ Hx Hy).
Qed.

(** The blurred difference stays in the range of the luminance rises. *)
Lemma blurredDifference_between (lo hi : R) :
  lo <= 0 <= hi ->
  (forall x y, (0 <= x < width)%Z -> (0 <= y < height)%Z ->
     lo <= Rmax 0 (luminanceRise baseFrame activeFrame x y) <= hi) ->
  forall i, lo <= getR (blurredDifference cfg baseFrame activeFrame) i <= hi.
Proof.
  intros H0 Hcell i. apply getR_Forall; [lra|].
  destruct base_wf as (Hw & Hh & _).
  unfold blurredDifference. apply gaussianBlur_between; auto.
  - apply differenceMap_length.
  - now apply differenceMap_cells.
Qed.

Lemma threshold_at_least (data : list R) (w h : Z) :
  Config.brightnessThreshold cfg <= calculateAdaptiveThreshold cfg data w h.
Proof.
  rewrite threshold_formula. destruct (aboveNoiseFloor data); [lra|].
  apply Rmax_l.
Qed.

Lemma no_detection_small_rise :
  0 <= Config.brightnessThreshold cfg ->
  (forall x y, (0 <= x < width)%Z -> (0 <= y < height)%Z ->
     luminanceRise baseFrame activeFrame x y <= Config.brightnessThreshold cfg) ->
  detectScreenArea cfg baseFrame activeFrame = Returns None.
Proof.
  intros Ht Hrise. apply detectScreenArea_below_threshold; auto.
  intros i.
  pose proof (threshold_at_least (blurredDifference cfg baseFrame activeFrame)
                (ImageData.width baseFrame) (ImageData.height baseFrame)) as Hlow.
  destruct (blurredDifference_between 0 (Config.brightnessThreshold cfg))
    with (i := i) as [_ Hhi]; [lra | | lra].
  intros x y Hx Hy. specialize (Hrise x y Hx Hy).
  unfold Rmax. destruct (Rle_dec 0 (luminanceRise baseFrame activeFrame x y)); lra.
Qed.

Lemma mean_constant (l : list R) (c : R) :
  l <> [] -> Forall (fun d => d = c) l -> mean l = c.
Proof.
  intros Hl Hc. unfold mean.
  assert (0 < INR (length l)) as Hn.
  { apply lt_0_INR. destruct l; simpl; [congruence | lia]. }
  pose proof (Rsum_excess l c) as Hex.
  rewrite Rsum_excess_0 in Hex by auto.
  replace (Rsum l) with (INR (length l) * c) by lra. field. lra.
Qed.

(** The threshold is at least every value of a constant map. *)
Lemma threshold_constant (data : list R) (w h : Z) (c : R) :
  5 <= Config.brightnessThreshold cfg ->
  Forall (fun d => d = c) data ->
  c <= calculateAdaptiveThreshold cfg data w h \/ data = [].
Proof.
  intros Ht Hc. destruct data as [|d0 l0] eqn:E; [now right|]. left.
  rewrite <- E in *. assert (data <> []) as Hne by (subst; discriminate).
  clear E d0 l0.
  destruct (Rle_dec c 5) as [Hdark | Hbright].
  - pose proof (threshold_at_least data w h). lra.
  - rewrite threshold_formula.
    rewrite aboveNoiseFloor_all
      by (eapply Forall_impl; [|exact Hc]; simpl; intros; lra).
    destruct data as [|d l] eqn:E; [congruence|]. rewrite <- E in *.
    rewrite (mean_constant data c Hne Hc).
    pose proof (sqrt_pos (Rsum (map (fun d => (d - c) * (d - c)) data)
                          / INR (length data))) as Hs.
    unfold stdDev. rewrite (mean_constant data c Hne Hc).
    apply Rle_trans with (c + 1.5 * sqrt (Rsum (map (fun d => (d - c) * (d - c)) data)
                                          / INR (length data))); [lra|].
    apply Rmax_r.
Qed.

Lemma no_detection_uniform_rise (c : R) :
  5 <= Config.brightnessThreshold cfg ->
  (forall x y, (0 <= x < width)%Z -> (0 <= y < height)%Z ->
     luminanceRise baseFrame activeFrame x y = c) ->
  detectScreenArea cfg baseFrame activeFrame = Returns None.
Proof.
  intros Ht Hrise. apply detectScreenArea_below_threshold; auto.
  destruct base_wf as (Hw & Hh & _).
  set (blurred := blurredDifference cfg baseFrame activeFrame).
  assert (Forall (fun d => d = Rmax 0 c) blurred) as Hconst.
  { assert (Forall (fun v => Rmax 0 c <= v <= Rmax 0 c) blurred) as Hb.
    { unfold blurred, blurredDifference. apply gaussianBlur_between; auto.
      - apply differenceMap_length.
      - apply differenceMap_cells.
        intros x y Hx Hy. rewrite Hrise by auto. lra. }
    eapply Forall_impl; [|exact Hb]. simpl. intros; lra. }
  intros i.
  destruct (threshold_constant blurred (ImageData.width baseFrame)
              (ImageData.height baseFrame) (Rmax 0 c) Ht Hconst) as [Hle | Hnil].
  - unfold getR. destruct (get blurred i) as [v|] eqn:E.
    + apply get_In in E. rewrite Forall_forall in Hconst.
      rewrite (Hconst v E). exact Hle.
    + pose proof (Rmax_l 0 c). lra.
  - unfold getR. rewrite Hnil.
    replace (get [] i) with (@None R)
      by (unfold get; destruct (i <? 0)%Z; [|destruct (Z.to_nat i)]; reflexivity).
    pose proof (threshold_at_least [] (ImageData.width baseFrame)
                  (ImageData.height baseFrame)). lra.
Qed.

End NoDetection.

Section NoDetectionLaws.
Local Open Scope R_scope.

Lemma pixelFrame_wf (r g b : Z) :
  (0 <= r <= 255)%Z -> (0 <= g <= 255)%Z -> (0 <= b <= 255)%Z ->
  wf_frame (pixelFrame r g b).
Proof.
  intros Hr Hg Hb. unfold wf_frame, pixelFrame.
  cbn [ImageData.width ImageData.height ImageData.data].
  split; [lia|]. split; [lia|]. split; [reflexivity|].
  repeat constructor; lia.
Qed.

Lemma pixelFrame_rise (r g b r' g' b' x y : Z) :
  (0 <= x < 1)%Z -> (0 <= y < 1)%Z ->
  luminanceRise (pixelFrame r g b) (pixelFrame r' g' b') x y
  = (IZR r' * 0.299 + IZR g' * 0.587 + IZR b' * 0.114)
    - (IZR r * 0.299 + IZR g * 0.587 + IZR b * 0.114).
Proof.
  intros Hx Hy. assert (x = 0%Z) as -> by lia. assert (y = 0%Z) as -> by lia.
  reflexivity.
Qed.

(** X8. A frame pair in which no pixel's luminance rises by more than the
    configured brightness threshold gives no detection: [detectScreenArea]
    returns [null].  This covers a screen that did not light up, and an
    active frame equal to the base frame. *)
Theorem no_detection_without_bright_pixel (cfg : Config.t)
    (baseFrame activeFrame : ImageData.t) :
  wf_frame baseFrame -> wf_frame activeFrame ->
  same_size baseFrame activeFrame ->
  (1 <= Config.gaussianBlurRadius cfg)%Z ->
  (0 <= Config.morphologyKernel cfg)%Z ->
  0 <= Config.brightnessThreshold cfg ->
  (forall x y,
     (0 <= x < ImageData.width baseFrame)%Z ->
     (0 <= y < ImageData.height baseFrame)%Z ->
     luminanceRise baseFrame activeFrame x y <= Config.brightnessThreshold cfg) ->
  detectScreenArea cfg baseFrame activeFrame = Returns None.
Proof.
  intros Hbase _ _ Hr Hk Ht Hrise.
  now apply no_detection_small_rise.
Qed.

Lemma no_detection_without_bright_pixel_witness :
  (wf_frame (pixelFrame 10 20 30) /\ wf_frame (pixelFrame 40 50 60) /\
   same_size (pixelFrame 10 20 30) (pixelFrame 40 50 60)) /\
  ((1 <= Config.gaussianBlurRadius CONFIG)%Z /\
   (0 <= Config.morphologyKernel CONFIG)%Z /\
   0 <= Config.brightnessThreshold CONFIG) /\
  (forall x y, (0 <= x < 1)%Z -> (0 <= y < 1)%Z ->
     luminanceRise (pixelFrame 10 20 30) (pixelFrame 40 50 60) x y
     <= Config.brightnessThreshold CONFIG) /\
  detectScreenArea CONFIG (pixelFrame 10 20 30) (pixelFrame 40 50 60)
  = Returns None.
Proof.
  assert (wf_frame (pixelFrame 10 20 30)) as Hbase
    by (apply pixelFrame_wf; lia).
  assert (wf_frame (pixelFrame 40 50 60)) as Hactive
    by (apply pixelFrame_wf; lia).
  assert (same_size (pixelFrame 10 20 30) (pixelFrame 40 50 60)) as Hsize
    by (split; reflexivity).
  assert (forall x y, (0 <= x < 1)%Z -> (0 <= y < 1)%Z ->
            luminanceRise (pixelFrame 10 20 30) (pixelFrame 40 50 60) x y
            <= Config.brightnessThreshold CONFIG) as Hrise.
  { intros x y Hx Hy. rewrite pixelFrame_rise by auto.
    change (Config.brightnessThreshold CONFIG) with 40. lra. }
  split; [auto|]. split.
  { split; [cbn; lia|]. split; [cbn; lia|].
    change (Config.brightnessThreshold CONFIG) with 40. lra. }
  split; [exact Hrise|].
  apply (no_detection_without_bright_pixel CONFIG
           (pixelFrame 10 20 30) (pixelFrame 40 50 60)); auto.
  - cbn; lia.
  - cbn; lia.
  - change (Config.brightnessThreshold CONFIG) with 40. lra.
Defined.

(** X9. A frame pair in which the luminance of every pixel rises by the
    same amount gives no detection, however large the rise: the adaptive
    threshold follows the mean, so a uniform change of the whole image (the
    room lights going on) is never taken for a screen.  The configured
    brightness threshold must be at least the noise floor 5. *)
Theorem no_detection_on_uniform_change (cfg : Config.t)
    (baseFrame activeFrame : ImageData.t) (c : R) :
  wf_frame baseFrame -> wf_frame activeFrame ->
  same_size baseFrame activeFrame ->
  (1 <= Config.gaussianBlurRadius cfg)%Z ->
  (0 <= Config.morphologyKernel cfg)%Z ->
  5 <= Config.brightnessThreshold cfg ->
  (forall x y,
     (0 <= x < ImageData.width baseFrame)%Z ->
     (0 <= y < ImageData.height baseFrame)%Z ->
     luminanceRise baseFrame activeFrame x y = c) ->
  detectScreenArea cfg baseFrame activeFrame = Returns None.
Proof.
  intros Hbase _ _ Hr Hk Ht Hrise.
  now apply (no_detection_uniform_rise cfg baseFrame activeFrame Hbase Hr Hk c).
Qed.

Lemma no_detection_on_uniform_change_witness :
  (wf_frame (pixelFrame 0 0 0) /\ wf_frame (pixelFrame 200 200 200) /\
   same_size (pixelFrame 0 0 0) (pixelFrame 200 200 200)) /\
  ((1 <= Config.gaussianBlurRadius CONFIG)%Z /\
   (0 <= Config.morphologyKernel CONFIG)%Z /\
   5 <= Config.brightnessThreshold CONFIG) /\
  (forall x y, (0 <= x < 1)%Z -> (0 <= y < 1)%Z ->
     luminanceRise (pixelFrame 0 0 0) (pixelFrame 200 200 200) x y = 200) /\
  detectScreenArea CONFIG (pixelFrame 0 0 0) (pixelFrame 200 200 200)
  = Returns None.
Proof.
  assert (wf_frame (pixelFrame 0 0 0)) as Hbase
    by (apply pixelFrame_wf; lia).
  assert (wf_frame (pixelFrame 200 200 200)) as Hactive
    by (apply pixelFrame_wf; lia).
  assert (same_size (pixelFrame 0 0 0) (pixelFrame 200 200 200)) as Hsize
    by (split; reflexivity).
  assert (forall x y, (0 <= x < 1)%Z -> (0 <= y < 1)%Z ->
            luminanceRise (pixelFrame 0 0 0) (pixelFrame 200 200 200) x y = 200)
    as Hrise.
  { intros x y Hx Hy. rewrite pixelFrame_rise by auto. lra. }
  split; [auto|]. split.
  { split; [cbn; lia|]. split; [cbn; lia|].
    change (Config.brightnessThreshold CONFIG) with 40. lra. }
  split; [exact Hrise|].
  apply (no_detection_on_uniform_change CONFIG
           (pixelFrame 0 0 0) (pixelFrame 200 200 200) 200); auto.
  - cbn; lia.
  - cbn; lia.
  - change (Config.brightnessThreshold CONFIG) with 40. lra.
Defined.

End NoDetectionLaws.

(** ** The threshold of a constant map, in exact and in double arithmetic *)

Section ThresholdRounding.
Local Open Scope R_scope.

Lemma mean_of_constant (l : list R) (c : R) :
  l <> [] -> Forall (fun d => d = c) l -> mean l = c.
Proof.
  intros Hl Hc. unfold mean.
  assert (0 < INR (length l)) as Hn.
  { apply lt_0_INR. destruct l; simpl; [congruence | lia]. }
  assert (Rsum l = INR (length l) * c) as ->.
  { clear Hl Hn. induction Hc as [|d l -> _ IH]; [cbn; ring|].
    change (length (c :: l)) with (S (length l)). rewrite S_INR.
    cbn [Rsum fold_right]. fold (Rsum l). rewrite IH. ring. }
  field. lra.
Qed.

Lemma stdDev_constant (l : list R) (c : R) :
  l <> [] -> Forall (fun d => d = c) l -> stdDev l = 0.
Proof.
  intros Hl Hc. unfold stdDev. rewrite (mean_of_constant l c Hl Hc).
  assert (Rsum (map (fun d => (d - c) * (d - c)) l) = 0) as ->.
  { clear Hl. induction Hc as [|d l -> _ IH]; [reflexivity|].
    cbn [map Rsum fold_right]. fold (Rsum (map (fun d => (d - c) * (d - c)) l)).
    rewrite IH. ring. }
  unfold Rdiv. rewrite Rmult_0_l. apply sqrt_0.
Qed.

Lemma constantMap_levels : Forall (fun d => d = constantLevel) constantMap.
Proof. unfold constantMap. apply Forall_repeat. reflexivity. Qed.

(** C4. On a constant 10 x 10 difference map of level 29.9 (as stored in a
    [Float32Array]) the specification asks for the configured minimum 40: every
    entry is above 5, the mean is the level, the standard deviation is 0,
    and the exact-arithmetic function returns 40.  In double arithmetic the
    variance of this map comes out negative, its square root is [NaN], and
    [calculateAdaptiveThreshold] returns [NaN]. *)
Theorem calculateAdaptiveThreshold_nan_on_constant_map :
  (PrimFloat.eqb Float64.level Float64.levelRatio = true /\
   PrimFloat.is_nan
     (Float64.calculateAdaptiveThreshold Float64.brightnessThreshold
        Float64.constantMap) = true) /\
  (aboveNoiseFloor constantMap = constantMap /\
   mean constantMap = constantLevel /\ stdDev constantMap = 0 /\
   calculateAdaptiveThreshold CONFIG constantMap 10 10 = 40).
Proof.
  assert (constantMap <> []) as Hne by discriminate.
  pose proof constantMap_levels as Hc.
  assert (aboveNoiseFloor constantMap = constantMap) as Hall.
  { apply aboveNoiseFloor_all.
    eapply Forall_impl; [|exact Hc]. intros d ->. unfold constantLevel. lra. }
  split; [split; vm_compute; reflexivity|].
  split; [exact Hall|].
  split; [apply mean_of_constant; assumption|].
  split; [apply (stdDev_constant _ constantLevel); assumption|].
  rewrite threshold_formula, Hall.
  rewrite (mean_of_constant _ constantLevel Hne Hc),
    (stdDev_constant _ constantLevel Hne Hc).
  unfold constantMap at 1. cbn [repeat Nat.pred].
  change (Config.brightnessThreshold CONFIG) with 40.
  unfold constantLevel. apply Rmax_left. lra.
Qed.

End ThresholdRounding.

(** ** The flood fill *)

Section FloodFillLaws.

(** The fill only ever appends to [pixels], and the pixel at the head of the
    queue is the next one appended. *)
Lemma floodFill_loop_prefix (fuel : nat) (mask : list Z) (width height : Z) :
  forall (visited : list Z) (queue pixels pixels' : list Pixel) (visited' : list Z),
  floodFill_loop fuel mask width height visited queue pixels
    = Returns (pixels', visited') ->
  exists rest, pixels' = pixels ++ rest /\
    match queue with [] => rest = [] | p :: _ => hd_error rest = Some p end.
Proof.
  induction fuel as [|fuel IH]; intros visited queue pixels pixels' visited' Hrun.
  - destruct queue as [|[x y] queue]; simpl in Hrun; [|discriminate].
    injection Hrun as <- <-. exists []. now rewrite app_nil_r.
  - destruct queue as [|[x y] queue]; simpl in Hrun.
    + injection Hrun as <- <-. exists []. now rewrite app_nil_r.
    + destruct (visit_neighbours mask width height x y (visited, queue))
        as [v q] eqn:E.
      apply IH in Hrun as (rest & -> & _).
      exists ((x, y) :: rest). rewrite <- app_assoc. split; reflexivity.
Qed.

(** X10. [floodFill], started on a lit pixel with a [visited] array of
    [width * height] cells in which no pixel connected to the start pixel is
    marked, returns exactly the pixels 4-connected to the start pixel
    through lit pixels, each once and the start pixel first, and it marks
    exactly those pixels in [visited], leaving the other marks as they
    were.  It always finishes within its [width * height] iterations. *)
Theorem floodFill_returns_component (mask visited0 : list Z)
    (width height : Z) (start : Pixel) :
  0 <= width -> 0 <= height ->
  lit mask width height start ->
  Z.of_nat (length visited0) = width * height ->
  (forall q, connected mask width height start q -> ~ marked visited0 width q) ->
  exists pixels visited,
    floodFill mask visited0 width height (fst start) (snd start)
      = Returns (pixels, visited) /\
    component mask width height start pixels /\
    hd_error pixels = Some start /\
    Z.of_nat (length visited) = width * height /\
    (forall r, inImage width height r ->
       (marked visited width r
        <-> marked visited0 width r \/ connected mask width height start r)).
Proof.
  intros Hw Hh Hlit Hlen Hfresh.
  destruct (floodFill_component mask width height Hw Hh start visited0
              Hlit Hlen Hfresh) as (pixels & visited & Hrun & Hcomp & Hl & Hm).
  exists pixels, visited. repeat (split; [assumption|]). split; [|auto].
  unfold floodFill in Hrun.
  apply floodFill_loop_prefix in Hrun as (rest & -> & Hhd).
  destruct start. exact Hhd.
Qed.

Lemma floodFill_returns_component_witness :
  (0 <= 3 /\ 0 <= 1) /\
  lit [255; 255; 0] 3 1 (0, 0) /\
  Z.of_nat (length [0; 0; 0]) = 3 * 1 /\
  (forall q, connected [255; 255; 0] 3 1 (0, 0) q -> ~ marked [0; 0; 0] 3 q) /\
  exists pixels visited,
    floodFill [255; 255; 0] [0; 0; 0] 3 1 (fst (0, 0)) (snd (0, 0))
      = Returns (pixels, visited) /\
    component [255; 255; 0] 3 1 (0, 0) pixels /\
    hd_error pixels = Some (0, 0) /\
    Z.of_nat (length visited) = 3 * 1 /\
    (forall r, inImage 3 1 r ->
       (marked visited 3 r
        <-> marked [0; 0; 0] 3 r \/ connected [255; 255; 0] 3 1 (0, 0) r)).
Proof.
  assert (lit [255; 255; 0] 3 1 (0, 0)) as Hlit
    by (split; [unfold inImage; simpl; lia | reflexivity]).
  assert (forall q, connected [255; 255; 0] 3 1 (0, 0) q ->
            ~ marked [0; 0; 0] 3 q) as Hfresh
    by (intros q _; apply (unmarked_repeat_0 3)).
  split; [lia|]. split; [exact Hlit|]. split; [reflexivity|].
  split; [exact Hfresh|].
  apply (floodFill_returns_component [255; 255; 0] [0; 0; 0] 3 1 (0, 0));
    [lia | lia | exact Hlit | reflexivity | exact Hfresh].
Defined.

End FloodFillLaws.

(** ** Dilation, erosion and closing of byte masks *)

Section ByteLoops.


Lemma max_loop (f : Z -> num) (lo hi : Z) (acc : num) :
  (forall k, lo <= k < hi -> is_byte (f k)) -> is_byte acc ->
  is_byte (forZ lo hi (fun k a => Math_max a (f k)) acc) /\
  num_value acc <= num_value (forZ lo hi (fun k a => Math_max a (f k)) acc) /\
  forall k, lo <= k < hi ->
    num_value (f k) <= num_value (forZ lo hi (fun k a => Math_max a (f k)) acc).
Proof.
  intros Hf Hacc. destruct (Z_le_gt_dec lo hi) as [Hle | Hgt].
  - apply (forZ_ind (fun i a => is_byte a /\ num_value acc <= num_value a /\
                       forall k, lo <= k < i -> num_value (f k) <= num_value a)); auto.
    + split; auto. split; [lia|]. intros k Hk. lia.
    + intros i a Hi ((m & -> & Hm) & Hge & Hseen).
      destruct (Hf i Hi) as (v & Hv & Hvb). rewrite Hv.
      unfold num_value in *. simpl in *.
      split; [exists (Z.max m v); split; [reflexivity | lia]|].
      split; [lia|]. intros k Hk.
      destruct (Z.eq_dec k i) as [-> | Hne].
      * rewrite Hv. simpl. lia.
      * specialize (Hseen k ltac:(lia)). lia.
  - rewrite forZ_nil by lia. split; auto. split; [lia|]. intros k Hk. lia.
Qed.

Lemma max_loop2 (g : Z -> Z -> num) (lo hi : Z) (acc : num) :
  (forall ky kx, lo <= ky < hi -> lo <= kx < hi -> is_byte (g ky kx)) ->
  is_byte acc ->
  is_byte (forZ lo hi (fun ky a =>
          forZ lo hi (fun kx a => Math_max a (g ky kx)) a) acc) /\
  forall ky kx, lo <= ky < hi -> lo <= kx < hi ->
    num_value (g ky kx)
    <= num_value (forZ lo hi (fun ky a =>
              forZ lo hi (fun kx a => Math_max a (g ky kx)) a) acc).
Proof.
  intros Hg Hacc. destruct (Z_le_gt_dec lo hi) as [Hle | Hgt].
  - apply (forZ_ind (fun i a => is_byte a /\
                       forall ky kx, lo <= ky < i -> lo <= kx < hi ->
                         num_value (g ky kx) <= num_value a)); auto.
    + split; auto. intros ky kx Hky. lia.
    + intros i a Hi (Ha & Hseen).
      destruct (max_loop (g i) lo hi a) as (Hb & Hge & Hrow); auto.
      split; auto. intros ky kx Hky Hkx.
      destruct (Z.eq_dec ky i) as [-> | Hne]; auto.
      specialize (Hseen ky kx ltac:(lia) Hkx). lia.
  - rewrite forZ_nil by lia. split; auto. intros ky kx Hky. lia.
Qed.

Lemma min_loop (f : Z -> num) (lo hi : Z) (acc : num) :
  (forall k, lo <= k < hi -> is_byte (f k)) -> is_byte acc ->
  is_byte (forZ lo hi (fun k a => Math_min a (f k)) acc) /\
  num_value (forZ lo hi (fun k a => Math_min a (f k)) acc) <= num_value acc /\
  (forall k, lo <= k < hi ->
     num_value (forZ lo hi (fun k a => Math_min a (f k)) acc) <= num_value (f k)) /\
  forall v, v <= num_value acc -> (forall k, lo <= k < hi -> v <= num_value (f k)) ->
    v <= num_value (forZ lo hi (fun k a => Math_min a (f k)) acc).
Proof.
  intros Hf Hacc. destruct (Z_le_gt_dec lo hi) as [Hle | Hgt].
  - apply (forZ_ind (fun i a => is_byte a /\ num_value a <= num_value acc /\
                       (forall k, lo <= k < i -> num_value a <= num_value (f k)) /\
                       forall v, v <= num_value acc ->
                         (forall k, lo <= k < hi -> v <= num_value (f k)) ->
                         v <= num_value a)); auto.
    + split; auto. split; [lia|]. split; [intros k Hk; lia | auto].
    + intros i a Hi ((m & -> & Hm) & Hle' & Hseen & Hlow).
      destruct (Hf i Hi) as (v & Hv & Hvb). rewrite Hv.
      unfold num_value in *. simpl in *.
      split; [exists (Z.min m v); split; [reflexivity | lia]|].
      split; [lia|]. split.
      * intros k Hk. destruct (Z.eq_dec k i) as [-> | Hne].
        -- rewrite Hv. simpl. lia.
        -- specialize (Hseen k ltac:(lia)). lia.
      * intros u Hu Hall. specialize (Hlow u Hu Hall).
        specialize (Hall i Hi). rewrite Hv in Hall. simpl in Hall. lia.
  - rewrite forZ_nil by lia. split; auto. split; [lia|].
    split; [intros k Hk; lia | auto].
Qed.

Lemma min_loop2 (g : Z -> Z -> num) (lo hi : Z) (acc : num) :
  (forall ky kx, lo <= ky < hi -> lo <= kx < hi -> is_byte (g ky kx)) ->
  is_byte acc ->
  is_byte (forZ lo hi (fun ky a =>
          forZ lo hi (fun kx a => Math_min a (g ky kx)) a) acc) /\
  (forall ky kx, lo <= ky < hi -> lo <= kx < hi ->
     num_value (forZ lo hi (fun ky a =>
            forZ lo hi (fun kx a => Math_min a (g ky kx)) a) acc)
     <= num_value (g ky kx)) /\
  forall v, v <= num_value acc ->
    (forall ky kx, lo <= ky < hi -> lo <= kx < hi -> v <= num_value (g ky kx)) ->
    v <= num_value (forZ lo hi (fun ky a =>
                forZ lo hi (fun kx a => Math_min a (g ky kx)) a) acc).
Proof.
  intros Hg Hacc. destruct (Z_le_gt_dec lo hi) as [Hle | Hgt].
  - apply (forZ_ind (fun i a => is_byte a /\
                       (forall ky kx, lo <= ky < i -> lo <= kx < hi ->
                          num_value a <= num_value (g ky kx)) /\
                       forall v, v <= num_value acc ->
                         (forall ky kx, lo <= ky < hi -> lo <= kx < hi ->
                            v <= num_value (g ky kx)) ->
                         v <= num_value a)); auto.
    + split; auto. split; [intros ky kx Hky; lia | auto].
    + intros i a Hi (Ha & Hseen & Hlow).
      destruct (min_loop (g i) lo hi a) as (Hb & Hle' & Hrow & Hrowlow); auto.
      split; auto. split.
      * intros ky kx Hky Hkx. destruct (Z.eq_dec ky i) as [-> | Hne]; auto.
        specialize (Hseen ky kx ltac:(lia) Hkx). lia.
      * intros v Hv Hall. apply Hrowlow; auto.
  - rewrite forZ_nil by lia. split; auto.
    split; [intros ky kx Hky; lia | auto].
Qed.

End ByteLoops.

Section ByteMorphology.
Variable mask : list Z.
Variables width height : Z.
Hypothesis mask_bytes : byteMask mask width height.

Lemma neighbour_byte (x y : Z) (k : Z * Z) :
  0 <= x < width -> 0 <= y < height ->
  is_byte (neighbour mask width height x y k).
Proof.
  intros Hx Hy. destruct mask_bytes as [Hlen Hb]. unfold neighbour. cbv zeta.
  set (ny := Z.min (Z.max (y + fst k) 0) (height - 1)).
  set (nx := Z.min (Z.max (x + snd k) 0) (width - 1)).
  destruct (get_in_range mask (ny * width + nx)) as [v Hv].
  { rewrite Hlen. apply pixel_index_range; unfold nx, ny; lia. }
  exists v. split; auto. apply get_In in Hv.
  rewrite Forall_forall in Hb. auto.
Qed.

Lemma neighbour_self (x y : Z) :
  0 <= x < width -> 0 <= y < height ->
  neighbour mask width height x y (0, 0) = get mask (y * width + x).
Proof.
  intros Hx Hy. unfold neighbour. cbn [fst snd].
  replace (Z.min (Z.max (y + 0) 0) (height - 1)) with y by lia.
  replace (Z.min (Z.max (x + 0) 0) (width - 1)) with x by lia.
  reflexivity.
Qed.

Variable kernelSize : Z.
Let half := kernelSize / 2.

(** The value [dilate] writes for a pixel of the image: a byte, at least
    every value of the pixel's neighbourhood. *)
Lemma dilate_value (x y : Z) :
  0 <= x < width -> 0 <= y < height ->
  exists d, get (dilate mask width height kernelSize) (y * width + x) = Some d /\
    0 <= d <= 255 /\
    forall ky kx, - half <= ky <= half -> - half <= kx <= half ->
      num_value (neighbour mask width height x y (ky, kx)) <= d.
Proof.
  intros Hx Hy. destruct mask_bytes as [Hlen Hb]. unfold dilate. cbv zeta.
  rewrite get_write_pixels_at by (rewrite ?repeat_length; lia).
  fold half.
  destruct (max_loop2 (fun ky kx => neighbour mask width height x y (ky, kx))
              (- half) (half + 1) (Some 0)) as ((d & Hd & Hdb) & Hge).
  { intros ky kx _ _. now apply neighbour_byte. }
  { exists 0. split; [reflexivity | lia]. }
  unfold neighbour in Hd, Hge. cbn [fst snd] in Hd, Hge.
  exists d. rewrite Hd. cbn [ToUint8]. rewrite Z.mod_small by lia.
  split; [reflexivity|]. split; [lia|].
  intros ky kx Hky Hkx. unfold neighbour. cbn [fst snd].
  specialize (Hge ky kx ltac:(lia) ltac:(lia)). rewrite Hd in Hge. exact Hge.
Qed.

(** The value [erode] writes for a pixel of the image: a byte, the largest
    one that is at most every value of the pixel's neighbourhood. *)
Lemma erode_value (x y : Z) :
  0 <= x < width -> 0 <= y < height ->
  exists e, get (erode mask width height kernelSize) (y * width + x) = Some e /\
    0 <= e <= 255 /\
    (forall ky kx, - half <= ky <= half -> - half <= kx <= half ->
       e <= num_value (neighbour mask width height x y (ky, kx))) /\
    forall v, v <= 255 ->
      (forall ky kx, - half <= ky <= half -> - half <= kx <= half ->
         v <= num_value (neighbour mask width height x y (ky, kx))) ->
      v <= e.
Proof.
  intros Hx Hy. destruct mask_bytes as [Hlen Hb]. unfold erode. cbv zeta.
  rewrite get_write_pixels_at by (rewrite ?repeat_length; lia).
  fold half.
  destruct (min_loop2 (fun ky kx => neighbour mask width height x y (ky, kx))
              (- half) (half + 1) (Some 255)) as ((e & He & Heb) & Hle & Hlow).
  { intros ky kx _ _. now apply neighbour_byte. }
  { exists 255. split; [reflexivity | lia]. }
  unfold neighbour in He, Hle, Hlow. cbn [fst snd] in He, Hle, Hlow.
  exists e. rewrite He. cbn [ToUint8]. rewrite Z.mod_small by lia.
  split; [reflexivity|]. split; [lia|]. split.
  - intros ky kx Hky Hkx. unfold neighbour. cbn [fst snd].
    specialize (Hle ky kx ltac:(lia) ltac:(lia)). rewrite He in Hle. exact Hle.
  - intros v Hv Hall. rewrite He in Hlow. apply Hlow; auto.
    intros ky kx Hky Hkx. specialize (Hall ky kx ltac:(lia) ltac:(lia)).
    unfold neighbour in Hall. cbn [fst snd] in Hall. exact Hall.
Qed.

Lemma dilate_byteMask : byteMask (dilate mask width height kernelSize) width height.
Proof.
  destruct mask_bytes as [Hlen Hb]. split.
  - unfold dilate. cbv zeta. now rewrite length_write_pixels, repeat_length.
  - unfold dilate. cbv zeta.
    apply Forall_write_pixels; [apply Forall_repeat; lia|].
    intros x y Hx Hy. fold half.
    destruct (max_loop2 (fun ky kx => neighbour mask width height x y (ky, kx))
                (- half) (half + 1) (Some 0)) as ((d & Hd & Hdb) & _).
    { intros ky kx _ _. now apply neighbour_byte. }
    { exists 0. split; [reflexivity | lia]. }
    unfold neighbour in Hd. cbn [fst snd] in Hd.
    rewrite Hd. cbn [ToUint8]. rewrite Z.mod_small by lia. lia.
Qed.

End ByteMorphology.

Section MorphologyLaws.

Lemma byteMask_example : byteMask [0; 255; 255; 0; 0; 0] 3 2.
Proof. split; [reflexivity | repeat constructor; lia]. Qed.

(** X11. On a mask of bytes and for a kernel size of 0 or more, erosion
    never raises and dilation never lowers a pixel: at every pixel of the
    image the eroded value is at most the mask value, which is at most the
    dilated value, and all three are bytes. *)
Theorem erode_below_dilate_above (mask : list Z) (width height kernelSize x y : Z) :
  byteMask mask width height -> 0 <= kernelSize ->
  0 <= x < width -> 0 <= y < height ->
  exists e m d,
    get (erode mask width height kernelSize) (y * width + x) = Some e /\
    get mask (y * width + x) = Some m /\
    get (dilate mask width height kernelSize) (y * width + x) = Some d /\
    0 <= e /\ e <= m /\ m <= d /\ d <= 255.
Proof.
  intros Hmask Hk Hx Hy.
  assert (0 <= kernelSize / 2) as Hhalf by (apply Z.div_pos; lia).
  destruct (erode_value mask width height Hmask kernelSize x y Hx Hy)
    as (e & He & Heb & Hle & _).
  destruct (dilate_value mask width height Hmask kernelSize x y Hx Hy)
    as (d & Hd & Hdb & Hge).
  destruct (neighbour_byte mask width height Hmask x y (0, 0) Hx Hy)
    as (m & Hm & Hmb).
  specialize (Hle 0 0 ltac:(lia) ltac:(lia)).
  specialize (Hge 0 0 ltac:(lia) ltac:(lia)).
  rewrite Hm in Hle, Hge. cbn [num_value] in Hle, Hge.
  rewrite neighbour_self in Hm by auto.
  exists e, m, d. repeat (split; [assumption || lia|]). lia.
Qed.

Lemma erode_below_dilate_above_witness :
  (byteMask [0; 255; 255; 0; 0; 0] 3 2 /\ 0 <= 3) /\
  (0 <= 0 < 3 /\ 0 <= 0 < 2) /\
  exists e m d,
    get (erode [0; 255; 255; 0; 0; 0] 3 2 3) (0 * 3 + 0) = Some e /\
    get [0; 255; 255; 0; 0; 0] (0 * 3 + 0) = Some m /\
    get (dilate [0; 255; 255; 0; 0; 0] 3 2 3) (0 * 3 + 0) = Some d /\
    0 <= e /\ e <= m /\ m <= d /\ d <= 255.
Proof.
  split; [split; [apply byteMask_example | lia]|]. split; [lia|].
  apply (erode_below_dilate_above [0; 255; 255; 0; 0; 0] 3 2 3 0 0);
    [apply byteMask_example | lia | lia | lia].
Defined.

(** X12. The closing that [detectScreenArea] applies (dilate, then erode,
    with the configured kernel) never lowers a pixel of a byte mask: every
    pixel that is lit in the thresholded mask is still lit in the processed
    mask. *)
Theorem closing_keeps_lit_pixels (cfg : Config.t) (mask : list Z)
    (width height x y : Z) :
  byteMask mask width height -> 0 <= Config.morphologyKernel cfg ->
  0 <= x < width -> 0 <= y < height ->
  exists m c,
    get mask (y * width + x) = Some m /\
    get (closing cfg mask width height) (y * width + x) = Some c /\
    m <= c /\ c <= 255.
Proof.
  intros Hmask Hk Hx Hy. unfold closing.
  set (k := Config.morphologyKernel cfg) in *.
  assert (0 <= k / 2) as Hhalf by (apply Z.div_pos; lia).
  pose proof (dilate_byteMask mask width height Hmask k) as Hdil.
  destruct (neighbour_byte mask width height Hmask x y (0, 0) Hx Hy)
    as (m & Hm & Hmb).
  rewrite neighbour_self in Hm by auto.
  destruct (erode_value (dilate mask width height k) width height Hdil k
              x y Hx Hy) as (c & Hc & Hcb & _ & Hlow).
  exists m, c. split; [exact Hm|]. split; [exact Hc|]. split; [|lia].
  apply Hlow; [lia|]. intros ky kx Hky Hkx.
  unfold neighbour at 1. cbn [fst snd].
  set (ny := Z.min (Z.max (y + ky) 0) (height - 1)).
  set (nx := Z.min (Z.max (x + kx) 0) (width - 1)).
  destruct (dilate_value mask width height Hmask k nx ny)
    as (d & Hd & _ & Hge); [unfold nx; lia | unfold ny; lia |].
  rewrite Hd. cbn [num_value].
  specialize (Hge (y - ny) (x - nx) ltac:(unfold ny; lia) ltac:(unfold nx; lia)).
  unfold neighbour in Hge. cbn [fst snd] in Hge.
  replace (Z.min (Z.max (ny + (y - ny)) 0) (height - 1)) with y in Hge by lia.
  replace (Z.min (Z.max (nx + (x - nx)) 0) (width - 1)) with x in Hge by lia.
  rewrite Hm in Hge. exact Hge.
Qed.

Lemma closing_keeps_lit_pixels_witness :
  (byteMask [0; 255; 255; 0; 0; 0] 3 2 /\ 0 <= Config.morphologyKernel CONFIG) /\
  (0 <= 1 < 3 /\ 0 <= 0 < 2) /\
  exists m c,
    get [0; 255; 255; 0; 0; 0] (0 * 3 + 1) = Some m /\
    get (closing CONFIG [0; 255; 255; 0; 0; 0] 3 2) (0 * 3 + 1) = Some c /\
    m <= c /\ c <= 255.
Proof.
  split; [split; [apply byteMask_example | cbn; lia]|]. split; [lia|].
  apply (closing_keeps_lit_pixels CONFIG [0; 255; 255; 0; 0; 0] 3 2 1 0);
    [apply byteMask_example | cbn; lia | lia | lia].
Defined.

End MorphologyLaws.

(** ** The weighted centroid *)

Section Centroid.
Local Open Scope R_scope.
Variable blurredDiff : list R.
Variables width height : Z.
Hypothesis weights_nonneg : forall i, 0 <= getR blurredDiff i.

(** The weighted coordinate sums lie between the extremes of the blob times
    the total weight. *)
Lemma blobExtent_moments (ps : list Pixel) :
  let e := blobExtent blurredDiff width height ps in
  0 <= totalWeight e /\
  IZR (minX e) * totalWeight e <= totalX e <= IZR (maxX e) * totalWeight e /\
  IZR (minY e) * totalWeight e <= totalY e <= IZR (maxY e) * totalWeight e.
Proof.
  induction ps as [|[x y] ps IH] using rev_ind.
  - cbn. lra.
  - cbv zeta in IH. destruct IH as (Hw & Htx & Hty).
    rewrite blobExtent_snoc. cbv zeta.
    cbn [minX maxX minY maxY totalX totalY totalWeight].
    pose proof (weights_nonneg (y * width + x)) as Hwt.
    set (wt := getR blurredDiff (y * width + x)) in *.
    set (e := blobExtent blurredDiff width height ps) in *.
    assert (IZR (Z.min (minX e) x) <= IZR (minX e)) by (apply IZR_le; lia).
    assert (IZR (Z.min (minX e) x) <= IZR x) by (apply IZR_le; lia).
    assert (IZR (maxX e) <= IZR (Z.max (maxX e) x)) by (apply IZR_le; lia).
    assert (IZR x <= IZR (Z.max (maxX e) x)) by (apply IZR_le; lia).
    assert (IZR (Z.min (minY e) y) <= IZR (minY e)) by (apply IZR_le; lia).
    assert (IZR (Z.min (minY e) y) <= IZR y) by (apply IZR_le; lia).
    assert (IZR (maxY e) <= IZR (Z.max (maxY e) y)) by (apply IZR_le; lia).
    assert (IZR y <= IZR (Z.max (maxY e) y)) by (apply IZR_le; lia).
    split; [lra|]. split; split; nra.
Qed.

(** The centre that [detectScreenArea] computes for a blob, before it is
    normalized: the weighted centroid, or the middle of the bounding box
    when the weights are all zero. *)
Lemma centroid_in_box (ps : list Pixel) :
  ps <> [] ->
  let e := blobExtent blurredDiff width height ps in
  IZR (minX e)
    <= (if Rgtb (totalWeight e) 0 then totalX e / totalWeight e
        else IZR (minX e + maxX e) / 2)
    <= IZR (maxX e) /\
  IZR (minY e)
    <= (if Rgtb (totalWeight e) 0 then totalY e / totalWeight e
        else IZR (minY e + maxY e) / 2)
    <= IZR (maxY e).
Proof.
  intros Hne. cbv zeta.
  destruct (blobExtent_moments ps) as (Hw & Htx & Hty).
  assert ((minX (blobExtent blurredDiff width height ps)
           <= maxX (blobExtent blurredDiff width height ps))%Z /\
          (minY (blobExtent blurredDiff width height ps)
           <= maxY (blobExtent blurredDiff width height ps))%Z) as [Hx Hy].
  { clear Hw Htx Hty. induction ps as [|[x y] ps IH] using rev_ind; [congruence|].
    rewrite blobExtent_snoc. cbv zeta. cbn [minX maxX minY maxY]. lia. }
  set (e := blobExtent blurredDiff width height ps) in *.
  apply IZR_le in Hx, Hy.
  destruct (Rgtb_spec (totalWeight e) 0) as [Hpos | Hzero].
  - split; split.
    + apply (Rmult_le_reg_r (totalWeight e)); [lra|]. unfold Rdiv.
      rewrite Rmult_assoc, Rinv_l by lra. lra.
    + apply (Rmult_le_reg_r (totalWeight e)); [lra|]. unfold Rdiv.
      rewrite Rmult_assoc, Rinv_l by lra. lra.
    + apply (Rmult_le_reg_r (totalWeight e)); [lra|]. unfold Rdiv.
      rewrite Rmult_assoc, Rinv_l by lra. lra.
    + apply (Rmult_le_reg_r (totalWeight e)); [lra|]. unfold Rdiv.
      rewrite Rmult_assoc, Rinv_l by lra. lra.
  - rewrite !plus_IZR. lra.
Qed.

(** The sums that the loop accumulates are the weighted sums over the
    pixels. *)
Lemma blobExtent_sums (ps : list Pixel) :
  let e := blobExtent blurredDiff width height ps in
  let weight p := getR blurredDiff (pixelIndex width p) in
  totalWeight e = Rsum (map weight ps) /\
  totalX e = Rsum (map (fun p => IZR (fst p) * weight p) ps) /\
  totalY e = Rsum (map (fun p => IZR (snd p) * weight p) ps).
Proof.
  induction ps as [|[x y] ps IH] using rev_ind.
  - cbn. auto.
  - cbv zeta in IH. destruct IH as (Hw & Hx & Hy).
    rewrite blobExtent_snoc. cbv zeta.
    cbn [totalX totalY totalWeight].
    rewrite !map_app. cbn [map]. rewrite !Rsum_snoc.
    unfold pixelIndex. cbn [fst snd]. rewrite Hw, Hx, Hy. auto.
Qed.

(** The extremes that the loop keeps are the bounding box of the pixels,
    when these lie in the image. *)
Lemma blobExtent_box (ps : list Pixel) :
  ps <> [] -> (forall p, In p ps -> inImage width height p) ->
  let e := blobExtent blurredDiff width height ps in
  boundingBox ps (minX e) (maxX e) (minY e) (maxY e).
Proof.
  intros Hne Hin. cbv zeta. split.
  - clear Hne Hin. induction ps as [|[x y] ps IH] using rev_ind;
      [intros p []|].
    intros p Hp. rewrite blobExtent_snoc. cbv zeta.
    cbn [minX maxX minY maxY].
    apply in_app_or in Hp as [Hp | [<- | []]].
    + specialize (IH p Hp). lia.
    + cbn [fst snd]. lia.
  - revert Hin Hne.
    assert (forall ps : list Pixel,
            (forall p, In p ps -> inImage width height p) -> ps <> [] ->
            let e := blobExtent blurredDiff width height ps in
            (exists p, In p ps /\ fst p = minX e) /\
            (exists p, In p ps /\ fst p = maxX e) /\
            (exists p, In p ps /\ snd p = minY e) /\
            (exists p, In p ps /\ snd p = maxY e)) as Hattained.
    { clear ps. intros ps.
      induction ps as [|[x y] ps IH] using rev_ind; [congruence|].
      intros Hin _.
      assert (forall p, In p ps -> inImage width height p) as Hin'
        by (intros p Hp; apply Hin, in_or_app; now left).
      assert (inImage width height (x, y)) as [Hx Hy]
        by (apply Hin, in_or_app; right; now left).
      cbn [fst snd] in Hx, Hy.
      rewrite blobExtent_snoc. cbv zeta. cbn [minX maxX minY maxY].
      assert (forall (P : Pixel -> Prop),
                (exists p, In p ps /\ P p) ->
                exists p, In p (ps ++ [(x, y)]) /\ P p) as Hold.
      { intros P (p & Hp & HP). exists p. split; [|exact HP].
        apply in_or_app. now left. }
      assert (In (x, y) (ps ++ [(x, y)])) as Hnew
        by (apply in_or_app; right; now left).
      destruct ps as [|q ps'] eqn:E.
      - cbn. repeat split; exists (x, y); (split; [now left|]); cbn; lia.
      - rewrite <- E in *.
        destruct (IH Hin' ltac:(rewrite E; discriminate))
          as (Hx0 & Hx1 & Hy0 & Hy1).
        set (e := blobExtent blurredDiff width height ps) in *.
        repeat split.
        + destruct (Z.min_spec (minX e) x) as [[_ ->] | [_ ->]];
            [apply Hold, Hx0 | exists (x, y); auto].
        + destruct (Z.max_spec (maxX e) x) as [[_ ->] | [_ ->]];
            [exists (x, y); auto | apply Hold, Hx1].
        + destruct (Z.min_spec (minY e) y) as [[_ ->] | [_ ->]];
            [apply Hold, Hy0 | exists (x, y); auto].
        + destruct (Z.max_spec (maxY e) y) as [[_ ->] | [_ ->]];
            [exists (x, y); auto | apply Hold, Hy1]. }
    intros Hin Hne. apply (Hattained ps Hin Hne).
Qed.

End Centroid.

Section CentroidLaws.
Local Open Scope R_scope.

(** X13. The centre that [detectScreenArea] reports is the normalized
    weighted centroid of the chosen blob: the pixels of a largest component
    of the processed mask, each weighted by its blurred difference, the
    weighted coordinate sums divided by the total weight (the middle of the
    blob's bounding box when the total weight is not positive).  That
    centroid lies inside the bounding box of the blob's pixels, and
    [pixelCount] is the number of those pixels. *)
Theorem detection_center_is_centroid (cfg : Config.t)
    (baseFrame activeFrame : ImageData.t) (d : Detection.t) :
  wf_frame baseFrame -> wf_frame activeFrame ->
  same_size baseFrame activeFrame ->
  detectScreenArea cfg baseFrame activeFrame = Returns (Some d) ->
  exists ps x0 x1 y0 y1,
    let W := ImageData.width baseFrame in
    let H := ImageData.height baseFrame in
    let c := weightedCentroid (blurredDifference cfg baseFrame activeFrame)
               W ps x0 x1 y0 y1 in
    largestComponent (processedMask cfg baseFrame activeFrame) W H ps /\
    Detection.pixelCount d = Z.of_nat (length ps) /\
    boundingBox ps x0 x1 y0 y1 /\
    Detection.center d = normalizePointToSquare (fst c) (snd c) (IZR W) (IZR H) /\
    (IZR x0 <= fst c <= IZR x1 /\ IZR y0 <= snd c <= IZR y1).
Proof.
  intros _ _ _ Hd.
  destruct (detectScreenArea_Some cfg baseFrame activeFrame d Hd)
    as (b & Hlargest & _ & ->).
  destruct (largestComponent_pixels _ _ _ _ Hlargest) as [Hne Hlit].
  set (W := ImageData.width baseFrame).
  set (H := ImageData.height baseFrame).
  set (blurred := blurredDifference cfg baseFrame activeFrame).
  set (e := blobExtent blurred W H (pixels b)).
  assert (forall i, 0 <= getR blurred i) as Hweights
    by (intros i; apply blurredDifference_nonneg).
  exists (pixels b), (minX e), (maxX e), (minY e), (maxY e).
  cbv zeta. fold W H blurred.
  destruct (blobExtent_sums blurred W H (pixels b)) as (Hw & Hx & Hy).
  fold e in Hw, Hx, Hy.
  assert (weightedCentroid blurred W (pixels b) (minX e) (maxX e) (minY e) (maxY e)
          = (if Rgtb (totalWeight e) 0 then totalX e / totalWeight e
             else IZR (minX e + maxX e) / 2,
             if Rgtb (totalWeight e) 0 then totalY e / totalWeight e
             else IZR (minY e + maxY e) / 2)) as ->.
  { unfold weightedCentroid. cbv zeta. rewrite <- Hw, <- Hx, <- Hy.
    now destruct (Rgtb (totalWeight e) 0). }
  cbn [fst snd].
  split; [exact Hlargest|]. split; [reflexivity|]. split; [|split].
  - apply (blobExtent_box blurred W H); [exact Hne|].
    intros p Hp. now destruct (Hlit p Hp).
  - unfold blobDetection. cbv zeta. cbn [Detection.center]. fold e.
    now destruct (normalizePointToSquare _ _ (IZR W) (IZR H)).
  - apply (centroid_in_box blurred W H Hweights); exact Hne.
Qed.

Lemma detection_center_is_centroid_witness :
  exists d,
    (wf_frame darkFrame /\ wf_frame bottomRowFrame /\
     same_size darkFrame bottomRowFrame) /\
    detectScreenArea CONFIG darkFrame bottomRowFrame = Returns (Some d) /\
    exists ps x0 x1 y0 y1,
      let W := ImageData.width darkFrame in
      let H := ImageData.height darkFrame in
      let c := weightedCentroid (blurredDifference CONFIG darkFrame bottomRowFrame)
                 W ps x0 x1 y0 y1 in
      largestComponent (processedMask CONFIG darkFrame bottomRowFrame) W H ps /\
      Detection.pixelCount d = Z.of_nat (length ps) /\
      boundingBox ps x0 x1 y0 y1 /\
      Detection.center d
      = normalizePointToSquare (fst c) (snd c) (IZR W) (IZR H) /\
      (IZR x0 <= fst c <= IZR x1 /\ IZR y0 <= snd c <= IZR y1).
Proof.
  destruct bottomRowFrame_detection as (d & Hd & _).
  exists d.
  split; [split; [apply darkFrame_wf | split;
            [apply bottomRowFrame_wf | apply frames_same_size]]|].
  split; [exact Hd|].
  apply (detection_center_is_centroid CONFIG darkFrame bottomRowFrame d).
  - apply darkFrame_wf.
  - apply bottomRowFrame_wf.
  - apply frames_same_size.
  - exact Hd.
Defined.

End CentroidLaws.
(** ** A complete scan *)

Section ScanFacts.

Lemma messages_app (t t' : list Effect) :
  messages (t ++ t') = messages t ++ messages t'.
Proof. unfold messages. apply flat_map_app. Qed.

Lemma captures_app (t t' : list Effect) :
  captures (t ++ t') = (captures t + captures t')%nat.
Proof. unfold captures. now rewrite filter_app, length_app. Qed.

Lemma awaits_app (t t' : list Effect) :
  Async.awaits (t ++ t') = (Async.awaits t + Async.awaits t')%nat.
Proof. unfold Async.awaits. now rewrite filter_app, length_app. Qed.

Lemma isScanning_updateControls (c : Controller) :
  isScanning (updateControls c) = isScanning c.
Proof. unfold updateControls. now destruct (audioBeatEnabled c). Qed.

Lemma screens_updateControls (c : Controller) :
  screens (updateControls c) = screens c.
Proof. unfold updateControls. now destruct (audioBeatEnabled c). Qed.

Lemma webcamStream_updateControls (c : Controller) :
  webcamStream (updateControls c) = webcamStream c.
Proof. unfold updateControls. now destruct (audioBeatEnabled c). Qed.

Lemma scanBtn_updateControls (c : Controller) :
  scanBtn_disabled (updateControls c)
  = negb (webcamStream c) || negb (0 <? Z.of_nat (length (screens c)))
    || isScanning c.
Proof. unfold updateControls. now destruct (audioBeatEnabled c). Qed.

Lemma last_cons {A : Type} (a d : A) (l : list A) : last (a :: l) d = last l a.
Proof.
  revert a d. induction l as [|b l IH]; intros a d; [reflexivity|].
  change (last (a :: b :: l) d) with (last (b :: l) d).
  now rewrite (IH b d), (IH b a).
Qed.

Lemma last_app {A : Type} (l1 l2 : list A) (d : A) :
  last (l1 ++ l2) d = last l2 (last l1 d).
Proof.
  revert d. induction l1 as [|a l1 IH]; intros d; [reflexivity|].
  cbn [app]. now rewrite !last_cons, IH.
Qed.

Lemma last_In_or {A : Type} (l : list A) (d : A) : last l d = d \/ In (last l d) l.
Proof.
  revert d. induction l as [|a l IH]; intros d; [now left|].
  right. rewrite last_cons. destruct (IH a) as [-> | Hin]; [now left | now right].
Qed.

(** Three frames of a steady camera average to a frame. *)
Lemma averageFrames_burst (camera : nat -> ImageData.t) (n : nat) :
  steadyCamera camera -> exists frame, burstFrame camera n = Some frame.
Proof.
  intros Hcamera. destruct (Hcamera n) as [(Hw & Hh & _) _].
  unfold burstFrame, averageFrames, new_ImageData.
  destruct (Z.ltb_spec 0 (ImageData.width (camera n))); [|lia].
  destruct (Z.ltb_spec 0 (ImageData.height (camera n))); [|lia].
  cbn [andb]. eexists. reflexivity.
Qed.

(** [detectScreenArea] returns, and what it detects is normalized. *)
Lemma detectScreenArea_returns (cfg : Config.t)
    (baseFrame activeFrame : ImageData.t) :
  exists result,
    detectScreenArea cfg baseFrame activeFrame = Returns result /\
    match result with
    | None => True
    | Some d =>
      Config.minNormalizedArea cfg <= Config.maxNormalizedArea cfg ->
      normalizedReport cfg (Point.x (Detection.center d))
        (Point.y (Detection.center d)) (Detection.area d)
    end%R.
Proof.
  destruct (findLargestBlob_returns (processedMask cfg baseFrame activeFrame)
              (ImageData.width baseFrame) (ImageData.height baseFrame))
    as (blob & Hblob & _).
  destruct (detectScreenArea_blob cfg baseFrame activeFrame blob Hblob)
    as (result & Hres & _).
  exists result. split; auto. destruct result as [d|]; auto.
  intros Hcfg.
  destruct (detectScreenArea_Some cfg baseFrame activeFrame d Hres)
    as (b & Hlargest & _ & ->).
  destruct (largestComponent_pixels _ _ _ _ Hlargest) as [Hne Hlit].
  destruct (blobDetection_normalized cfg
              (blurredDifference cfg baseFrame activeFrame)
              (ImageData.width baseFrame) (ImageData.height baseFrame) b Hcfg)
    as (Hc & Ha & Hs & _); auto.
  - apply blurredDifference_nonneg.
  - intros p Hp. now destruct (Hlit p Hp).
  - unfold normalizedReport. tauto.
Qed.

(** The reports of a scan are normalized and name the screens scanned. *)
Lemma scanReports_reports (cfg : Config.t) (camera : nat -> ImageData.t)
    (screenIds : list string) :
  (Config.minNormalizedArea cfg <= Config.maxNormalizedArea cfg)%R ->
  forall (k : nat) (screenId : string) (x y : R) (area : Rect.t),
    In (reportPosition screenId x y area) (scanReports cfg camera k screenIds) ->
    normalizedReport cfg x y area /\ In screenId screenIds.
Proof.
  intros Hcfg. induction screenIds as [|id ids IH]; intros k screenId x y area Hin;
    [contradiction|].
  cbn [scanReports] in Hin. apply in_app_iff in Hin as [Hin | Hin].
  - unfold scanMessages in Hin.
    destruct (burstFrame camera 0) as [baseFrame|]; [|contradiction].
    destruct (burstFrame camera (3 + 3 * k)) as [activeFrame|]; [|contradiction].
    destruct (detectScreenArea_returns cfg baseFrame activeFrame)
      as (result & Hrun & Hnorm).
    rewrite Hrun in Hin. destruct result as [d|].
    + destruct Hin as [E | [E | [E | []]]]; try discriminate.
      injection E as <- <- <- <-. split; [now apply Hnorm | now left].
    + destruct Hin as [E | [E | []]]; discriminate.
  - destruct (IH _ _ _ _ _ Hin) as [Hn Hid]. split; [exact Hn | now right].
Qed.

End ScanFacts.

(** ** The scan, step by step *)

Section ScanSteps.
Variable cfg : Config.t.
Variable camera : nat -> ImageData.t.
Variable inbox : nat -> list (list Screen.t).

(** The screen lists that arrive during [count] awaits, from the [from]th. *)
Let arrived (from count : nat) : list (list Screen.t) :=
  concat (map inbox (seq from count)).

(** What a part of the scan adds to a run: [dm] messages, [dc] captures and
    [da] awaits; the screen list becomes the last one that arrived. *)
Let step (dm : list Message) (dc da : nat) (r r' : Run) : Prop :=
  messages (trace r') = messages (trace r) ++ dm /\
  captures (trace r') = (captures (trace r) + dc)%nat /\
  Async.awaits (trace r') = (Async.awaits (trace r) + da)%nat /\
  shots r' = (shots r + dc)%nat /\
  webcamStream (ctl r') = webcamStream (ctl r) /\
  screens (ctl r')
  = last (arrived (Async.awaits (trace r)) da) (screens (ctl r)).

Lemma step_refl (r : Run) : step [] 0 0 r r.
Proof.
  unfold step, arrived. cbn. rewrite app_nil_r, !Nat.add_0_r. repeat split.
Qed.

Lemma step_trans (dm1 dm2 : list Message) (dc1 dc2 da1 da2 : nat)
    (r r1 r2 : Run) :
  step dm1 dc1 da1 r r1 -> step dm2 dc2 da2 r1 r2 ->
  step (dm1 ++ dm2) (dc1 + dc2) (da1 + da2) r r2.
Proof.
  intros (Hm1 & Hc1 & Ha1 & Hs1 & Hw1 & Hl1) (Hm2 & Hc2 & Ha2 & Hs2 & Hw2 & Hl2).
  unfold step. rewrite Hm2, Hm1, Hc2, Hc1, Ha2, Ha1, Hs2, Hs1, Hw2, Hw1, Hl2, Hl1.
  rewrite Ha1. unfold arrived.
  rewrite seq_app, map_app, concat_app, last_app, <- app_assoc.
  repeat split; lia.
Qed.

Lemma step_eq (dm dm' : list Message) (dc dc' da da' : nat) (r r' : Run) :
  step dm dc da r r' -> dm = dm' -> dc = dc' -> da = da' ->
  step dm' dc' da' r r'.
Proof. intros H <- <- <-. exact H. Qed.

Lemma step_emit (m : Message) (r : Run) : step [m] 0 0 r (effect (Emit m) r).
Proof.
  unfold step, arrived, effect. cbn [trace ctl shots].
  rewrite messages_app, captures_app, awaits_app. cbn.
  rewrite !Nat.add_0_r. repeat split.
Qed.

Lemma step_log (line : string) (r : Run) :
  step [] 0 0 r (effect (ConsoleLog line) r).
Proof.
  unfold step, arrived, effect. cbn [trace ctl shots].
  rewrite messages_app, captures_app, awaits_app. cbn.
  rewrite !Nat.add_0_r. repeat split.
Qed.

Lemma step_warn (line : string) (r : Run) :
  step [] 0 0 r (effect (ConsoleWarn line) r).
Proof.
  unfold step, arrived, effect. cbn [trace ctl shots].
  rewrite messages_app, captures_app, awaits_app. cbn.
  rewrite !Nat.add_0_r. repeat split.
Qed.

Lemma step_modify (f : Controller -> Controller) (r : Run) :
  (forall c, webcamStream (f c) = webcamStream c) ->
  (forall c, screens (f c) = screens c) ->
  step [] 0 0 r (modify f r).
Proof.
  intros Hw Hs. unfold step, arrived, modify. cbn [trace ctl shots].
  rewrite Hw, Hs. cbn. rewrite app_nil_r, !Nat.add_0_r. repeat split.
Qed.

Lemma step_capture (r : Run) : step [] 1 0 r (snd (captureFrame camera r)).
Proof.
  unfold step, arrived, captureFrame. cbn [snd trace ctl shots].
  rewrite messages_app, captures_app, awaits_app. cbn.
  rewrite app_nil_r, !Nat.add_0_r, !Nat.add_1_r. repeat split.
Qed.

(** The listener changes the screen list and the buttons only. *)
Lemma onScreenList_run (arrivals : list (list Screen.t)) :
  forall r : Run,
  let r' := fold_left Async.onScreenList arrivals r in
  messages (trace r') = messages (trace r) /\
  captures (trace r') = captures (trace r) /\
  Async.awaits (trace r') = Async.awaits (trace r) /\
  shots r' = shots r /\
  webcamStream (ctl r') = webcamStream (ctl r) /\
  screens (ctl r') = last arrivals (screens (ctl r)).
Proof.
  induction arrivals as [|data arrivals IH]; intros r; [cbn; repeat split|].
  cbn [fold_left]. cbv zeta in IH.
  destruct (IH (Async.onScreenList r data)) as (Hm & Hc & Ha & Hs & Hw & Hl).
  cbv zeta. rewrite Hm, Hc, Ha, Hs, Hw, Hl, last_cons.
  unfold Async.onScreenList, effect, modify. cbn [trace ctl shots].
  rewrite messages_app, captures_app, awaits_app,
    webcamStream_updateControls, screens_updateControls.
  cbn. rewrite app_nil_r, !Nat.add_0_r. repeat split.
Qed.

Lemma step_sleep (ms : Z) (r : Run) : step [] 0 1 r (Async.sleep inbox ms r).
Proof.
  unfold Async.sleep.
  destruct (onScreenList_run (inbox (Async.awaits (trace r)))
              (effect (Sleep ms) r)) as (Hm & Hc & Ha & Hs & Hw & Hl).
  unfold step. rewrite Hm, Hc, Ha, Hs, Hw, Hl.
  unfold arrived, effect. cbn [trace ctl shots seq map concat].
  rewrite messages_app, captures_app, awaits_app. cbn.
  rewrite !app_nil_r, !Nat.add_0_r, !Nat.add_1_r. repeat split.
Qed.

Lemma step_shots (dm : list Message) (dc da : nat) (r r' : Run) :
  step dm dc da r r' -> shots r' = (shots r + dc)%nat.
Proof. intros (_ & _ & _ & Hs & _). exact Hs. Qed.

(** A burst takes the next three frames of the camera. *)
Lemma captureBurst_run (gap : Z) (r : Run) :
  exists r',
    Async.captureBurst camera inbox gap r
    = ([camera (shots r); camera (S (shots r)); camera (S (S (shots r)))], r') /\
    step [] 3 3 r r'.
Proof.
  set (shoot := fun r => snd (captureFrame camera r)).
  set (r1 := Async.sleep inbox gap (shoot r)).
  set (r2 := Async.sleep inbox gap (shoot r1)).
  set (r3 := Async.sleep inbox gap (shoot r2)).
  assert (step [] 1 1 r r1) as H1
    by (apply (step_trans [] [] 1 0 0 1 r (shoot r));
        [apply step_capture | apply step_sleep]).
  assert (step [] 1 1 r1 r2) as H2
    by (apply (step_trans [] [] 1 0 0 1 r1 (shoot r1));
        [apply step_capture | apply step_sleep]).
  assert (step [] 1 1 r2 r3) as H3
    by (apply (step_trans [] [] 1 0 0 1 r2 (shoot r2));
        [apply step_capture | apply step_sleep]).
  exists r3. split.
  - assert (Async.captureBurst camera inbox gap r
            = ([camera (shots r); camera (shots r1); camera (shots r2)], r3))
      as -> by reflexivity.
    rewrite (step_shots _ _ _ _ _ H2), (step_shots _ _ _ _ _ H1).
    rewrite !Nat.add_1_r. reflexivity.
  - apply (step_trans [] [] 1 2 1 2 r r1 r3 H1).
    apply (step_trans [] [] 1 1 1 1 r1 r2 r3 H2 H3).
Qed.

Variable c : Controller.
Hypothesis camera_steady : steadyCamera camera.
Hypothesis inbox_same : sameScreens (screens c) inbox.

(** The screen list keeps the ids of the screens the scan started with. *)
Let listed (r : Run) : Prop :=
  map Screen.socketId (screens (ctl r)) = map Screen.socketId (screens c).

Lemma step_listed (dm : list Message) (dc da : nat) (r r' : Run) :
  step dm dc da r r' -> listed r -> listed r'.
Proof.
  intros (_ & _ & _ & _ & _ & Hl) Hr. unfold listed. rewrite Hl.
  destruct (last_In_or (arrived (Async.awaits (trace r)) da) (screens (ctl r)))
    as [-> | Hin]; [exact Hr|].
  unfold arrived in Hin. apply in_concat in Hin as (l & Hl' & Hin).
  apply in_map_iff in Hl' as (n & <- & _).
  apply (inbox_same n _ Hin).
Qed.

(** The screen that the loop reads at index [length done]. *)
Lemma listed_screen (r : Run) (done todo : list string) (screenId : string) :
  listed r ->
  map Screen.socketId (screens c) = done ++ screenId :: todo ->
  exists screen,
    get (screens (ctl r)) (Z.of_nat (length done)) = Some screen /\
    Screen.socketId screen = screenId /\
    (Z.of_nat (length done) <? Z.of_nat (length (screens (ctl r))))%Z = true.
Proof.
  intros Hr Hids. unfold listed in Hr. rewrite Hids in Hr.
  assert (nth_error (map Screen.socketId (screens (ctl r))) (length done)
          = Some screenId) as Hnth.
  { rewrite Hr, nth_error_app2, Nat.sub_diag by lia. reflexivity. }
  rewrite nth_error_map in Hnth.
  destruct (nth_error (screens (ctl r)) (length done)) as [screen|] eqn:E;
    [|discriminate].
  exists screen. unfold get.
  destruct (Z.ltb_spec (Z.of_nat (length done)) 0); [lia|].
  rewrite Nat2Z.id. split; [exact E|]. split; [now injection Hnth|].
  apply Z.ltb_lt.
  assert (length done < length (screens (ctl r)))%nat; [|lia].
  apply nth_error_Some. congruence.
Qed.

(** One turn of the loop. *)
Lemma scanScreens_turn (baseFrame : ImageData.t) (fuel : nat) (r : Run)
    (done todo : list string) (screenId : string) :
  burstFrame camera 0 = Some baseFrame ->
  listed r ->
  map Screen.socketId (screens c) = done ++ screenId :: todo ->
  shots r = (3 + 3 * length done)%nat ->
  exists r',
    Async.scanScreens cfg camera inbox (S fuel) baseFrame
      (Z.of_nat (length done)) r
    = Async.scanScreens cfg camera inbox fuel baseFrame
        (Z.of_nat (length done) + 1) r' /\
    step (scanMessages cfg camera (length done) screenId) 3 5 r r'.
Proof.
  intros base_burst Hr Hids Hshots.
  destruct (listed_screen r done todo screenId Hr Hids)
    as (screen & Hget & Hid & Hlt).
  cbn [Async.scanScreens]. cbv zeta. rewrite Hlt, Hget, Hid.
  match goal with
  | |- context [Async.sleep inbox (Config.scanFlashDuration cfg) ?r2] =>
    set (r0 := r2)
  end.
  assert (step [sendColor screenId white] 0 0 r r0) as H0.
  { unfold r0.
    match goal with
    | |- step _ _ _ r (effect _ (modify ?f r)) =>
      apply (step_trans [] [sendColor screenId white] 0 0 0 0 r (modify f r));
        [apply (step_modify f); reflexivity | apply step_emit]
    end. }
  set (r1 := Async.sleep inbox (Config.scanFlashDuration cfg) r0).
  assert (step [sendColor screenId white] 0 1 r r1) as H1.
  { apply (step_eq ([sendColor screenId white] ++ []) _ (0 + 0) _ (0 + 1) _ r r1);
      [|reflexivity..].
    apply (step_trans _ _ _ _ _ _ r r0 r1 H0). apply step_sleep. }
  destruct (captureBurst_run 30 r1) as (r2 & -> & H2).
  assert (shots r1 = (3 + 3 * length done)%nat) as Hshots1
    by (rewrite (step_shots _ _ _ _ _ H1); lia).
  rewrite Hshots1. fold (burstFrame camera (3 + 3 * length done)).
  destruct (averageFrames_burst camera (3 + 3 * length done) camera_steady)
    as [activeFrame Hactive].
  rewrite Hactive.
  destruct (detectScreenArea_returns cfg baseFrame activeFrame)
    as (detection & Hdetect & _).
  rewrite Hdetect. cbn [bind].
  assert (step [sendColor screenId white] 3 4 r r2) as H12.
  { apply (step_eq ([sendColor screenId white] ++ []) _ (0 + 3) _ (1 + 3) _ r r2);
      [|reflexivity..].
    apply (step_trans _ _ _ _ _ _ r r1 r2 H1 H2). }
  eexists. split; [reflexivity|].
  unfold scanMessages. rewrite base_burst, Hactive, Hdetect.
  destruct detection as [d|].
  - apply (step_eq
             ([sendColor screenId white]
              ++ (([] ++ [reportPosition screenId (Point.x (Detection.center d))
                            (Point.y (Detection.center d)) (Detection.area d)])
                  ++ [sendColor screenId black] ++ []))
             _ (3 + ((0 + 0) + (0 + 0))) _ (4 + ((0 + 0) + (0 + 1))) _);
      [|reflexivity..].
    apply (step_trans _ _ _ _ _ _ r r2 _ H12).
    eapply step_trans; [eapply step_trans; [apply step_log | apply step_emit]|].
    eapply step_trans; [apply step_emit | apply step_sleep].
  - apply (step_eq
             ([sendColor screenId white]
              ++ ([] ++ [sendColor screenId black] ++ []))
             _ (3 + (0 + (0 + 0))) _ (4 + (0 + (0 + 1))) _);
      [|reflexivity..].
    apply (step_trans _ _ _ _ _ _ r r2 _ H12).
    eapply step_trans; [apply step_warn|].
    eapply step_trans; [apply step_emit | apply step_sleep].
Qed.

(** The loop, from the screen after [done] on: with more fuel than screens
    left it returns. *)
Lemma scanScreens_run (baseFrame : ImageData.t) (todo : list string) :
  burstFrame camera 0 = Some baseFrame ->
  forall (done : list string) (fuel : nat) (r : Run),
  listed r ->
  map Screen.socketId (screens c) = done ++ todo ->
  shots r = (3 + 3 * length done)%nat ->
  (length todo < fuel)%nat ->
  exists r',
    Async.scanScreens cfg camera inbox fuel baseFrame (Z.of_nat (length done)) r
    = Returns (r', true) /\
    step (scanReports cfg camera (length done) todo)
      (3 * length todo) (5 * length todo) r r'.
Proof.
  intros base_burst.
  induction todo as [|screenId todo IH]; intros done fuel r Hr Hids Hshots Hfuel.
  - destruct fuel as [|fuel]; [cbn in Hfuel; lia|].
    exists r. split; [|apply step_refl].
    cbn [Async.scanScreens]. cbv zeta.
    assert (length (screens (ctl r)) = length done) as ->.
    { rewrite <- (length_map Screen.socketId), Hr, Hids, app_nil_r.
      reflexivity. }
    now rewrite Z.ltb_irrefl.
  - destruct fuel as [|fuel]; [cbn in Hfuel; lia|].
    destruct (scanScreens_turn baseFrame fuel r done todo screenId
                base_burst Hr Hids Hshots)
      as (r1 & -> & H1).
    destruct (IH (done ++ [screenId]) fuel r1) as (r' & Hrun & H2).
    + apply (step_listed _ _ _ _ _ H1 Hr).
    + now rewrite <- app_assoc.
    + rewrite (step_shots _ _ _ _ _ H1), Hshots, length_app. cbn. lia.
    + cbn in Hfuel. lia.
    + exists r'. split.
      * rewrite <- Hrun. f_equal. rewrite length_app. cbn. lia.
      * rewrite length_app, Nat.add_1_r in H2.
        apply (step_eq _ _ _ _ _ _ r r'
                 (step_trans _ _ _ _ _ _ r r1 r' H1 H2));
          [reflexivity | cbn [length]; lia | cbn [length]; lia].
Qed.

(** The whole scan. *)
Lemma startScan_run (fuel : nat) :
  webcamStream c = true -> screens c <> [] ->
  (length (screens c) < fuel)%nat ->
  exists result,
    Async.startScan cfg camera inbox fuel c = Returns result /\
    completed result = true /\
    messages (effects result)
      = clearPositions :: broadcastColor black
          :: scanReports cfg camera 0 (map Screen.socketId (screens c)) /\
    captures (effects result) = (3 + 3 * length (screens c))%nat /\
    isScanning (final result) = false /\
    scanBtn_disabled (final result) = false /\
    screens (final result)
      = lastScreenList inbox (4 + 5 * length (screens c)) (screens c).
Proof.
  intros Hcam Hscreens Hfuel. unfold Async.startScan. rewrite Hcam.
  destruct (Z.eqb_spec (Z.of_nat (length (screens c))) 0) as [Hz | _].
  { destruct (screens c); [congruence | simpl in Hz; lia]. }
  cbn [negb orb]. cbv zeta.
  set (start := {| ctl := c; trace := []; shots := O |}).
  match goal with
  | |- context [Async.sleep inbox 600 ?r0] => set (rA := r0)
  end.
  assert (step [clearPositions; broadcastColor black] 0 0 start rA) as HA.
  { unfold step, arrived, rA, start, effect, modify,
      set_isScanning, set_buttons, set_progress.
    cbn. repeat split. }
  set (r2 := Async.sleep inbox 600 rA).
  pose proof (step_sleep 600 rA) as H2. fold r2 in H2.
  match goal with
  | |- context [Async.captureBurst camera inbox 50 (modify ?f r2)] =>
    set (r3 := modify f r2);
    assert (step [] 0 0 r2 r3) as H3 by (apply (step_modify f); reflexivity)
  end.
  destruct (captureBurst_run 50 r3) as (rB & HrB & H4).
  assert (step [clearPositions; broadcastColor black] 0 1 start r3) as H03.
  { apply (step_eq _ _ _ _ _ _ start r3
             (step_trans _ _ _ _ _ _ start rA r3 HA
                (step_trans _ _ _ _ _ _ rA r2 r3 H2 H3)));
      reflexivity. }
  assert (shots r3 = O) as Hshots3
    by (rewrite (step_shots _ _ _ _ _ H03); reflexivity).
  rewrite HrB, Hshots3. fold (burstFrame camera 0).
  destruct (averageFrames_burst camera 0 camera_steady) as [baseFrame Hbase].
  rewrite Hbase.
  match goal with
  | |- context [Async.scanScreens cfg camera inbox fuel baseFrame 0 ?r] =>
    set (r5 := r)
  end.
  assert (step [clearPositions; broadcastColor black] 3 4 start r5) as H05.
  { apply (step_eq _ _ _ _ _ _ start r5
             (step_trans _ _ _ _ _ _ start r3 r5 H03
                (step_trans _ _ _ _ _ _ r3 rB r5 H4 (step_log _ rB))));
      reflexivity. }
  destruct (scanScreens_run baseFrame (map Screen.socketId (screens c)) Hbase
              [] fuel r5) as (r' & Hrun & H6).
  - apply (step_listed _ _ _ _ _ H05). reflexivity.
  - reflexivity.
  - rewrite (step_shots _ _ _ _ _ H05). reflexivity.
  - now rewrite length_map.
  - cbn [length Z.of_nat] in Hrun, H6. rewrite Hrun. cbn [bind].
    eexists. split; [reflexivity|].
    cbn [completed final effects ctl trace effect modify].
    pose proof (step_listed _ _ _ _ _
                  (step_trans _ _ _ _ _ _ start r5 r' H05 H6) eq_refl) as Hlisted.
    assert (step (clearPositions :: broadcastColor black
                    :: scanReports cfg camera 0
                         (map Screen.socketId (screens c)))
              (3 + 3 * length (screens c)) (4 + 5 * length (screens c))
              start r') as (Hm & Hc & Ha & _ & Hw & Hl).
    { apply (step_eq _ _ _ _ _ _ start r'
               (step_trans _ _ _ _ _ _ start r5 r' H05 H6));
        [reflexivity | rewrite length_map; lia | rewrite length_map; lia]. }
    split; [reflexivity|].
    rewrite messages_app, captures_app, Hm, Hc.
    split; [cbn; now rewrite app_nil_r|]. split; [cbn; lia|].
    split; [rewrite isScanning_updateControls; reflexivity|].
    split.
    + rewrite scanBtn_updateControls.
      cbn [webcamStream screens isScanning set_progress set_isScanning].
      rewrite Hw. cbn [start ctl]. rewrite Hcam.
      assert (length (screens (ctl r')) = length (screens c)) as ->.
      { rewrite <- (length_map Screen.socketId (screens (ctl r'))), Hlisted.
        apply length_map. }
      destruct (Z.ltb_spec 0 (Z.of_nat (length (screens c)))) as [_ | Hz];
        [reflexivity|].
      destruct (screens c); [congruence | simpl in Hz; lia].
    + rewrite screens_updateControls.
      cbn [screens set_progress set_isScanning]. rewrite Hl. reflexivity.
Qed.

End ScanSteps.

(** ** A scan that detects a screen *)

Section DetectingScan.

Lemma Math_round_Q_third (s v : Z) :
  s = 3 * v -> Math_round_Q (inject_Z s / inject_Z 3) = v.
Proof.
  intros ->. unfold Math_round_Q.
  assert (inject_Z (3 * v) / inject_Z 3 + (1 # 2) == (2 * v + 1) # 2)%Q as ->.
  { change (inject_Z 3) with (3 # 1)%Q.
    unfold Qeq, Qplus, Qdiv, Qmult, Qinv, inject_Z. cbn [Qnum Qden]. lia. }
  unfold Qfloor. change (Z.pos 2) with 2.
  symmetry; apply (Z.div_unique _ _ _ 1); lia.
Qed.

(** A burst of three equal frames averages to that frame. *)
Lemma averageFrames_steady (f : ImageData.t) :
  wf_frame f -> averageFrames [f; f; f] = Some f.
Proof.
  intros Hwf.
  assert (Forall wf_frame [f; f; f]) as Hwf3
    by (do 3 (constructor; [exact Hwf|]); constructor).
  assert (Forall (same_size f) [f; f; f]) as Hsame3
    by (do 3 (constructor; [split; reflexivity|]); constructor).
  pose proof Hwf as (Hw & Hh & Hlen & Hbytes).
  set (size := 4 * ImageData.width f * ImageData.height f) in *.
  assert (0 <= size) as Hsize by (unfold size; nia).
  unfold averageFrames, new_ImageData.
  rewrite (proj2 (Z.ltb_lt 0 _) Hw), (proj2 (Z.ltb_lt 0 _) Hh).
  cbn [andb ImageData.data]. fold size.
  rewrite repeat_length, Z2Nat.id by lia.
  f_equal. apply ImageData_eq; cbn [ImageData.width ImageData.height ImageData.data];
    [reflexivity | reflexivity |].
  set (cell := fun i : Z =>
    ToUint8Clamp (round_ratio
      (fold_left (fun sum frame => num_add sum (get (ImageData.data frame) i))
         [f; f; f] (Some 0)) (Z.of_nat (length [f; f; f])))).
  change (forZ 0 size (fun i data => put data i (cell i))
            (repeat 0 (Z.to_nat size)) = ImageData.data f).
  apply get_ext.
  - rewrite length_forZ_put, repeat_length. lia.
  - intros i. destruct (Z_lt_dec i 0) as [Hneg | Hpos].
    { unfold get. destruct (Z.ltb_spec i 0); [reflexivity | lia]. }
    destruct (Z_lt_dec i size) as [Hi | Hi].
    + rewrite get_forZ_put by (rewrite ?repeat_length; lia).
      destruct (frame_channel f [f; f] Hwf3 Hsame3 f i) as (v & Hv & Hb & Hz);
        [now left | fold size; lia |].
      rewrite Hv. f_equal. unfold cell.
      rewrite (channel_sum_loop f [f; f] Hwf3 Hsame3 i [f; f; f] 0)
        by (auto using incl_refl; fold size; lia).
      unfold round_ratio, channelSum. cbn [map fold_right length].
      rewrite Hz. change (Z.of_nat 3) with 3.
      rewrite (Math_round_Q_third _ v) by lia.
      unfold ToUint8Clamp. lia.
    + transitivity (@None Z).
      * destruct (get (forZ 0 size _ _) i) eqn:E; [|reflexivity].
        apply get_Some_range in E.
        rewrite length_forZ_put, repeat_length in E. lia.
      * destruct (get (ImageData.data f) i) eqn:E; [|reflexivity].
        apply get_Some_range in E. lia.
Qed.

Lemma flashCamera_steady : steadyCamera flashCamera.
Proof.
  intros n. change (flashCamera 0) with darkFrame. unfold flashCamera.
  destruct (n <? 3)%nat.
  - split; [apply darkFrame_wf | split; reflexivity].
  - split; [apply bottomRowFrame_wf | apply frames_same_size].
Qed.

Lemma serverReplies_same : sameScreens (screens readyController) serverReplies.
Proof.
  intros n data. unfold serverReplies.
  destruct (n =? 0)%nat; [intros [<- | []]; reflexivity|].
  destruct (n =? 8)%nat; [intros [<- | []]; reflexivity | intros []].
Qed.

Lemma flashCamera_reference : burstFrame flashCamera 0 = Some darkFrame.
Proof.
  unfold burstFrame.
  change (flashCamera 0) with darkFrame.
  change (flashCamera 1) with darkFrame.
  change (flashCamera 2) with darkFrame.
  apply averageFrames_steady, darkFrame_wf.
Qed.

Lemma flashCamera_flash (n : nat) :
  burstFrame flashCamera (3 + n) = Some bottomRowFrame.
Proof.
  unfold burstFrame.
  change (flashCamera (3 + n)) with bottomRowFrame.
  change (flashCamera (S (3 + n))) with bottomRowFrame.
  change (flashCamera (S (S (3 + n)))) with bottomRowFrame.
  apply averageFrames_steady, bottomRowFrame_wf.
Qed.

Lemma scanReports_cons (cfg : Config.t) (camera : nat -> ImageData.t)
    (k : nat) (screenId : string) (screenIds : list string) :
  scanReports cfg camera k (screenId :: screenIds)
  = scanMessages cfg camera k screenId
    ++ scanReports cfg camera (S k) screenIds.
Proof. reflexivity. Qed.

Lemma scanMessages_flash (d : Detection.t) (screenId : string) :
  detectScreenArea CONFIG darkFrame bottomRowFrame = Returns (Some d) ->
  scanMessages CONFIG flashCamera 0 screenId
  = [sendColor screenId white;
     reportPosition screenId (Point.x (Detection.center d))
       (Point.y (Detection.center d)) (Detection.area d);
     sendColor screenId black].
Proof.
  intros Hd. unfold scanMessages.
  rewrite flashCamera_reference, (flashCamera_flash (3 * 0)), Hd.
  reflexivity.
Qed.

(** The scan of [readyController] under [flashCamera] reports screen a. *)
Lemma detectingScan_reports (result : ScanResult) :
  messages (effects result)
  = clearPositions :: broadcastColor black
      :: scanReports CONFIG flashCamera 0
           (map Screen.socketId (screens readyController)) ->
  exists x y area,
    In (reportPosition "a" x y area) (messages (effects result)).
Proof.
  intros Hmsg. destruct bottomRowFrame_detection as (d & Hd & _).
  exists (Point.x (Detection.center d)), (Point.y (Detection.center d)),
    (Detection.area d).
  rewrite Hmsg.
  assert (map Screen.socketId (screens readyController) = ["a"; "b"]%string)
    as -> by reflexivity.
  rewrite scanReports_cons, (scanMessages_flash d "a" Hd).
  apply in_cons, in_cons, in_or_app. left. apply in_cons, in_eq.
Qed.

End DetectingScan.

Section ScanLaws.

(** X14. With a running webcam, at least one registered screen, a camera
    that delivers well-formed frames of one size, and screen lists arriving
    from the server that all list the screens the scan started with,
    [startScan] runs to completion.  It sends [clearPositions], then black
    to all screens, then for each screen in list order: white to that
    screen, the position that [detectScreenArea] finds between the
    reference burst and the burst taken during that flash (exactly when it
    finds one), and black to that screen.  It captures three frames for the
    reference and three per screen, and ends with [isScanning] false, the
    scan button enabled, and as screen list the last list received. *)
Theorem startScan_protocol (cfg : Config.t) (camera : nat -> ImageData.t)
    (inbox : nat -> list (list Screen.t)) (fuel : nat) (c : Controller) :
  steadyCamera camera ->
  webcamStream c = true -> screens c <> [] ->
  sameScreens (screens c) inbox -> (length (screens c) < fuel)%nat ->
  exists result,
    Async.startScan cfg camera inbox fuel c = Returns result /\
    completed result = true /\
    messages (effects result)
      = clearPositions :: broadcastColor black
          :: scanReports cfg camera 0 (map Screen.socketId (screens c)) /\
    captures (effects result) = (3 + 3 * length (screens c))%nat /\
    isScanning (final result) = false /\
    scanBtn_disabled (final result) = false /\
    screens (final result)
      = lastScreenList inbox (4 + 5 * length (screens c)) (screens c).
Proof.
  intros Hcamera Hcam Hscreens Hinbox Hfuel.
  exact (startScan_run cfg camera inbox c Hcamera Hinbox fuel Hcam Hscreens Hfuel).
Qed.

Lemma startScan_protocol_witness :
  (steadyCamera flashCamera /\
   webcamStream readyController = true /\ screens readyController <> [] /\
   sameScreens (screens readyController) serverReplies /\
   (length (screens readyController) < 3)%nat) /\
  exists result,
    (Async.startScan CONFIG flashCamera serverReplies 3 readyController
       = Returns result /\
     completed result = true /\
     messages (effects result)
       = clearPositions :: broadcastColor black
           :: scanReports CONFIG flashCamera 0
                (map Screen.socketId (screens readyController)) /\
     captures (effects result) = (3 + 3 * length (screens readyController))%nat /\
     isScanning (final result) = false /\
     scanBtn_disabled (final result) = false /\
     screens (final result)
       = lastScreenList serverReplies
           (4 + 5 * length (screens readyController))
           (screens readyController)) /\
    exists x y area,
      In (reportPosition "a" x y area) (messages (effects result)).
Proof.
  assert (length (screens readyController) < 3)%nat as Hfuel by (cbn; lia).
  split.
  { split; [apply flashCamera_steady|]. split; [reflexivity|].
    split; [discriminate|]. split; [apply serverReplies_same | exact Hfuel]. }
  destruct (startScan_protocol CONFIG flashCamera serverReplies 3 readyController
              flashCamera_steady eq_refl ltac:(discriminate)
              serverReplies_same Hfuel) as (result & Hresult).
  exists result. split; [exact Hresult|].
  destruct Hresult as (_ & _ & Hmsg & _).
  exact (detectingScan_reports result Hmsg).
Defined.

(** X15. Under the same conditions, every position report that a scan sends
    is for one of the screens it started with and lies in normalized space:
    the centre and the corner of the area are in the unit square, and the
    width and height of the area are between the configured minimum and
    maximum. *)
Theorem scan_reports_are_normalized (cfg : Config.t)
    (camera : nat -> ImageData.t) (inbox : nat -> list (list Screen.t))
    (fuel : nat) (c : Controller) :
  steadyCamera camera ->
  webcamStream c = true -> screens c <> [] ->
  sameScreens (screens c) inbox -> (length (screens c) < fuel)%nat ->
  (Config.minNormalizedArea cfg <= Config.maxNormalizedArea cfg)%R ->
  exists result,
    Async.startScan cfg camera inbox fuel c = Returns result /\
    forall screenId x y area,
      In (reportPosition screenId x y area) (messages (effects result)) ->
      normalizedReport cfg x y area /\
      exists screen, In screen (screens c) /\ Screen.socketId screen = screenId.
Proof.
  intros Hcamera Hcam Hscreens Hinbox Hfuel Hcfg.
  destruct (startScan_run cfg camera inbox c Hcamera Hinbox fuel Hcam Hscreens
              Hfuel) as (result & Hrun & _ & Hmsg & _).
  exists result. split; [exact Hrun|].
  intros screenId x y area Hin. rewrite Hmsg in Hin.
  destruct Hin as [E | [E | Hin]]; [discriminate | discriminate |].
  destruct (scanReports_reports cfg camera _ Hcfg _ _ _ _ _ Hin) as [Hn Hid].
  split; [exact Hn|].
  apply in_map_iff in Hid as (screen & Hid & Hscreen).
  exists screen. split; assumption.
Qed.

Lemma scan_reports_are_normalized_witness :
  (steadyCamera flashCamera /\
   webcamStream readyController = true /\ screens readyController <> [] /\
   sameScreens (screens readyController) serverReplies /\
   (length (screens readyController) < 3)%nat /\
   (Config.minNormalizedArea CONFIG <= Config.maxNormalizedArea CONFIG)%R) /\
  exists result,
    (Async.startScan CONFIG flashCamera serverReplies 3 readyController
       = Returns result /\
     forall screenId x y area,
       In (reportPosition screenId x y area) (messages (effects result)) ->
       normalizedReport CONFIG x y area /\
       exists screen, In screen (screens readyController) /\
         Screen.socketId screen = screenId) /\
    exists x y area,
      In (reportPosition "a" x y area) (messages (effects result)).
Proof.
  assert (length (screens readyController) < 3)%nat as Hfuel by (cbn; lia).
  split.
  { split; [apply flashCamera_steady|]. split; [reflexivity|].
    split; [discriminate|]. split; [apply serverReplies_same|].
    split; [exact Hfuel | apply CONFIG_area_range]. }
  destruct (scan_reports_are_normalized CONFIG flashCamera serverReplies 3
              readyController flashCamera_steady eq_refl ltac:(discriminate)
              serverReplies_same Hfuel CONFIG_area_range)
    as (result & Hrun & Hreports).
  exists result. split; [split; assumption|].
  destruct (startScan_run CONFIG flashCamera serverReplies readyController
              flashCamera_steady serverReplies_same 3 eq_refl
              ltac:(discriminate) Hfuel)
    as (result' & Hrun' & _ & Hmsg & _).
  assert (Returns result' = Returns result) as E
    by (rewrite <- Hrun, <- Hrun'; reflexivity).
  injection E as ->.
  exact (detectingScan_reports result Hmsg).
Defined.

End ScanLaws.

(** ** Colour differences and delta encoding *)

Section DeltaEncoding.

(** X16. [colorDiff] is a metric on colours: it is never negative, zero
    exactly for equal colours, symmetric, and satisfies the triangle
    inequality. *)
Theorem colorDiff_metric (c1 c2 c3 : Color.t) :
  (0 <= colorDiff c1 c2 /\ (colorDiff c1 c2 = 0 <-> c1 = c2)) /\
  colorDiff c1 c2 = colorDiff c2 c1 /\
  colorDiff c1 c3 <= colorDiff c1 c2 + colorDiff c2 c3.
Proof.
  unfold colorDiff. destruct c1 as [r1 g1 b1], c2 as [r2 g2 b2], c3 as [r3 g3 b3].
  cbn [Color.r Color.g Color.b].
  split; [split; [lia|]|split; lia].
  split.
  - intros H. f_equal; lia.
  - intros E. injection E as -> -> ->. lia.
Qed.

Lemma Map_get_set_eq (m : ColorMap) (key : string) (value : Color.t) :
  Map_get (Map_set m key value) key = Some value.
Proof.
  induction m as [|[k v] m IH]; simpl.
  - now rewrite String.eqb_refl.
  - destruct (String.eqb k key) eqn:E; simpl; rewrite E; auto.
Qed.

Lemma Map_get_set_neq (m : ColorMap) (key key' : string) (value : Color.t) :
  key <> key' -> Map_get (Map_set m key value) key' = Map_get m key'.
Proof.
  intros Hne. induction m as [|[k v] m IH]; simpl.
  - destruct (String.eqb_spec key key'); [contradiction | reflexivity].
  - destruct (String.eqb_spec k key) as [-> | Hk]; simpl.
    + destruct (String.eqb_spec key key'); [contradiction | reflexivity].
    + destruct (String.eqb_spec k key'); auto.
Qed.

Lemma sampleable_color (cfg : Config.t) (canvas : ImageData.t) (screen : Screen.t) :
  Screen.area screen <> None \/ Screen.position screen <> None ->
  exists color, sampleAreaColor cfg canvas screen = Some color.
Proof.
  intros H. unfold sampleAreaColor.
  destruct (Screen.area screen) as [area|]; [eexists; reflexivity|].
  destruct (Screen.position screen) as [p|]; [eexists; reflexivity|].
  destruct H; congruence.
Qed.

Variable cfg : Config.t.
Variable canvas : ImageData.t.
Variable brightness : R.

Lemma sampleScreens_run (detected : list Screen.t) :
  forall (colors : list (string * Color.t)) (lastColors : ColorMap),
  NoDup (map Screen.socketId detected) -> sampleable detected ->
  exists lastColors',
    sampleScreens cfg canvas brightness detected colors lastColors
    = (Some (colors ++
             map (fun s => (Screen.socketId s, screenColor cfg canvas brightness s))
                 (filter (colorChanged cfg canvas brightness lastColors) detected)),
       lastColors') /\
    (forall s, In s detected ->
       exists c, Map_get lastColors' (Screen.socketId s) = Some c /\
                 colorDiff c (screenColor cfg canvas brightness s) <= 3) /\
    (forall key, ~ In key (map Screen.socketId detected) ->
       Map_get lastColors' key = Map_get lastColors key).
Proof.
  induction detected as [|screen detected IH]; intros colors lastColors Hnd Hok.
  - exists lastColors. cbn. rewrite app_nil_r. repeat split; auto.
    intros s [].
  - inversion Hnd as [|id ids Hfresh Hnd']; subst.
    inversion Hok as [|s ss Hscreen Hok']; subst.
    destruct (sampleable_color cfg canvas screen Hscreen) as [color Hcolor].
    assert (screenColor cfg canvas brightness screen
            = applyBrightness brightness color) as Hfinal
      by (unfold screenColor; now rewrite Hcolor).
    set (final := applyBrightness brightness color) in *.
    assert (match Map_get lastColors (Screen.socketId screen) with
            | Some lastColor => colorDiff lastColor final >? 3
            | None => true
            end = colorChanged cfg canvas brightness lastColors screen) as Hch
      by (unfold colorChanged; now rewrite Hfinal).
    cbn [sampleScreens filter]. rewrite Hcolor. cbv zeta. fold final.
    rewrite Hch.
    destruct (colorChanged cfg canvas brightness lastColors screen) eqn:Echanged.
    + destruct (IH (colors ++ [(Screen.socketId screen, final)])
                  (Map_set lastColors (Screen.socketId screen) final) Hnd' Hok')
        as (last' & Hrun & Htrack & Hkeep).
      exists last'. split; [|split].
      * assert (filter (colorChanged cfg canvas brightness
                          (Map_set lastColors (Screen.socketId screen) final))
                       detected
                = filter (colorChanged cfg canvas brightness lastColors) detected)
          as Hfilter.
        { apply filter_ext_in. intros s Hs. unfold colorChanged.
          rewrite Map_get_set_neq; auto.
          intros E. apply Hfresh. rewrite E. now apply in_map. }
        rewrite Hrun, Hfilter, <- app_assoc. cbn [map app].
        now rewrite Hfinal.
      * intros s [<- | Hs]; [|now apply Htrack].
        exists final. rewrite Hkeep by exact Hfresh.
        rewrite Map_get_set_eq. split; auto. rewrite Hfinal.
        unfold colorDiff. lia.
      * intros key Hkey. cbn [map] in Hkey.
        rewrite Hkeep by (intros Hin; apply Hkey; now right).
        apply Map_get_set_neq. intros E. apply Hkey. now left.
    + destruct (IH colors lastColors Hnd' Hok') as (last' & Hrun & Htrack & Hkeep).
      exists last'. split; [exact Hrun | split].
      * intros s [<- | Hs]; [|now apply Htrack].
        rewrite Hkeep by exact Hfresh. rewrite <- Hch in Echanged.
        destruct (Map_get lastColors (Screen.socketId screen)) as [lastColor|];
          [|discriminate].
        exists lastColor. split; auto. rewrite Hfinal. lia.
      * intros key Hkey. cbn [map] in Hkey.
        apply Hkeep. intros Hin. apply Hkey. now right.
Qed.

End DeltaEncoding.

Section DeltaLaws.

Lemma detectedPair_ids : NoDup (map Screen.socketId detectedPair).
Proof.
  cbn. repeat constructor; cbn; intuition discriminate.
Qed.

Lemma detectedPair_sampleable : sampleable detectedPair.
Proof.
  unfold sampleable, detectedPair.
  constructor; [left; discriminate|].
  constructor; [right; discriminate | constructor].
Qed.

(** X17. [sampleAndSendFrame] sends exactly the changes: for detected
    screens with distinct socket ids, each with an area or a position, the
    colours it sends are those of the screens whose new colour differs by
    more than 3 (in [colorDiff]) from the colour last sent to them, or to
    which nothing was sent yet, in the order of the screens and all in one
    [sendColors] message; when no screen changed it sends nothing. *)
Theorem sampleAndSendFrame_sends_changes (cfg : Config.t) (canvas : ImageData.t)
    (brightness : R) (detected : list Screen.t) (lastColors : ColorMap) :
  NoDup (map Screen.socketId detected) -> sampleable detected ->
  let changes :=
    map (fun s => (Screen.socketId s, screenColor cfg canvas brightness s))
        (filter (colorChanged cfg canvas brightness lastColors) detected) in
  fst (sampleAndSendFrame cfg canvas brightness detected lastColors)
  = match changes with [] => [] | _ :: _ => [sendColors changes] end.
Proof.
  intros Hnd Hok. cbv zeta. unfold sampleAndSendFrame.
  destruct (sampleScreens_run cfg canvas brightness detected [] lastColors Hnd Hok)
    as (last' & -> & _).
  cbn [app].
  destruct (map _ (filter _ detected)) as [|entry entries]; reflexivity.
Qed.

Lemma sampleAndSendFrame_sends_changes_witness :
  (NoDup (map Screen.socketId detectedPair) /\ sampleable detectedPair) /\
  let changes :=
    map (fun s => (Screen.socketId s, screenColor CONFIG whiteCanvas 1 s))
        (filter (colorChanged CONFIG whiteCanvas 1 []) detectedPair) in
  fst (sampleAndSendFrame CONFIG whiteCanvas 1 detectedPair [])
  = match changes with [] => [] | _ :: _ => [sendColors changes] end.
Proof.
  split; [split; [apply detectedPair_ids | apply detectedPair_sampleable]|].
  apply (sampleAndSendFrame_sends_changes CONFIG whiteCanvas 1 detectedPair []).
  - apply detectedPair_ids.
  - apply detectedPair_sampleable.
Defined.

(** X18. After [sampleAndSendFrame], for detected screens with distinct
    socket ids, each with an area or a position, [lastColors] holds for
    every detected screen a colour within 3 (in [colorDiff]) of the colour
    just computed for it, so what a screen shows never drifts further than
    that from the animation; entries of other sockets are untouched. *)
Theorem sampleAndSendFrame_tracks_colors (cfg : Config.t) (canvas : ImageData.t)
    (brightness : R) (detected : list Screen.t) (lastColors : ColorMap) :
  NoDup (map Screen.socketId detected) -> sampleable detected ->
  let lastColors' :=
    snd (sampleAndSendFrame cfg canvas brightness detected lastColors) in
  (forall s, In s detected ->
     exists c, Map_get lastColors' (Screen.socketId s) = Some c /\
               colorDiff c (screenColor cfg canvas brightness s) <= 3) /\
  (forall key, ~ In key (map Screen.socketId detected) ->
     Map_get lastColors' key = Map_get lastColors key).
Proof.
  intros Hnd Hok. cbv zeta. unfold sampleAndSendFrame.
  destruct (sampleScreens_run cfg canvas brightness detected [] lastColors Hnd Hok)
    as (last' & -> & Htrack & Hkeep).
  destruct (0 <? Z.of_nat (length _)); cbn [snd]; auto.
Qed.

Lemma sampleAndSendFrame_tracks_colors_witness :
  (NoDup (map Screen.socketId detectedPair) /\ sampleable detectedPair) /\
  let lastColors' :=
    snd (sampleAndSendFrame CONFIG whiteCanvas 1 detectedPair []) in
  (forall s, In s detectedPair ->
     exists c, Map_get lastColors' (Screen.socketId s) = Some c /\
               colorDiff c (screenColor CONFIG whiteCanvas 1 s) <= 3) /\
  (forall key, ~ In key (map Screen.socketId detectedPair) ->
     Map_get lastColors' key = Map_get [] key).
Proof.
  split; [split; [apply detectedPair_ids | apply detectedPair_sampleable]|].
  apply (sampleAndSendFrame_tracks_colors CONFIG whiteCanvas 1 detectedPair []).
  - apply detectedPair_ids.
  - apply detectedPair_sampleable.
Defined.

End DeltaLaws.

(** ** Sampled colours *)

Section SampleLaws.
Local Open Scope R_scope.

Lemma forZ_last {S : Type} (lo hi : Z) (body : Z -> S -> S) (s : S) :
  (lo < hi)%Z -> forZ lo hi body s = body (hi - 1)%Z (forZ lo (hi - 1) body s).
Proof.
  intros H. rewrite <- forZ_snoc by lia. f_equal. lia.
Qed.

Lemma Math_round_byte (q : R) : 0 <= q <= 255 -> (0 <= Math_round q <= 255)%Z.
Proof.
  intros Hq. unfold Math_round. split.
  - apply Zfloor_lub. lra.
  - pose proof (Zfloor_bound (q + / 2)) as [Hlo _].
    assert (Zfloor (q + / 2) < 256)%Z; [|lia].
    apply lt_IZR. lra.
Qed.

Lemma getZ_byte (data : list Z) (i : Z) :
  Forall (fun v => (0 <= v <= 255)%Z) data -> (0 <= getZ data i <= 255)%Z.
Proof.
  intros Hd. unfold getZ. destruct (get data i) as [v|] eqn:E; [|lia].
  apply get_In in E. rewrite Forall_forall in Hd. auto.
Qed.

Lemma canvas_channel_byte (canvas : ImageData.t) (x y k : Z) :
  Forall (fun v => (0 <= v <= 255)%Z) (ImageData.data canvas) ->
  (0 <= canvas_channel canvas x y k <= 255)%Z.
Proof.
  intros Hd. unfold canvas_channel.
  destruct (_ && _); [now apply getZ_byte | lia].
Qed.

Lemma getImageData_byte (canvas : ImageData.t) (sx sy sw sh : Z) :
  Forall (fun v => (0 <= v <= 255)%Z) (ImageData.data canvas) ->
  Forall (fun v => (0 <= v <= 255)%Z) (getImageData canvas sx sy sw sh).
Proof.
  intros Hd. unfold getImageData. apply Forall_forall. intros v Hv.
  apply in_map_iff in Hv as [i [<- _]]. cbv zeta.
  now apply canvas_channel_byte.
Qed.

(** The weighted sums over bytes: each is between 0 and 255 times the total
    weight, and the total weight is positive. *)
Lemma sampleTotals_bytes (data : list Z) (areaW areaH : Z) :
  (1 <= areaW)%Z -> (1 <= areaH)%Z ->
  Forall (fun v => (0 <= v <= 255)%Z) data ->
  let t := sampleTotals data areaW areaH in
  0 < totalW t /\
  0 <= totalR t <= 255 * totalW t /\
  0 <= totalG t <= 255 * totalW t /\
  0 <= totalB t <= 255 * totalW t.
Proof.
  intros Hw Hh Hd. cbv zeta. rewrite sampleTotals_steps.
  pose (ok := fun t : Totals =>
    0 <= totalW t /\
    0 <= totalR t <= 255 * totalW t /\
    0 <= totalG t <= 255 * totalW t /\
    0 <= totalB t <= 255 * totalW t).
  assert (forall y x t, ok t ->
            ok (sampleStep data areaW areaH y x t) /\
            totalW t < totalW (sampleStep data areaW areaH y x t)) as Hstep.
  { intros y x t (Hw0 & Hr & Hg & Hb). unfold ok, sampleStep.
    cbn [totalR totalG totalB totalW].
    pose proof (sampleWeight_pos areaW areaH x y) as Hpos.
    pose proof (getZ_byte data ((y * areaW + x) * 4) Hd) as [H1 H2].
    pose proof (getZ_byte data ((y * areaW + x) * 4 + 1) Hd) as [H3 H4].
    pose proof (getZ_byte data ((y * areaW + x) * 4 + 2) Hd) as [H5 H6].
    apply IZR_le in H1, H2, H3, H4, H5, H6.
    repeat split; nra. }
  assert (forall y t, ok t ->
            ok (forZ 0 areaW (sampleStep data areaW areaH y) t) /\
            totalW t < totalW (forZ 0 areaW (sampleStep data areaW areaH y) t))
    as Hrow.
  { intros y t Ht.
    rewrite forZ_last by lia.
    assert (ok (forZ 0 (areaW - 1) (sampleStep data areaW areaH y) t) /\
            totalW t <= totalW (forZ 0 (areaW - 1) (sampleStep data areaW areaH y) t))
      as [Hok Hle].
    { apply (forZ_inv (fun t' => ok t' /\ totalW t <= totalW t')).
      - split; [exact Ht | lra].
      - intros x t' _ [Hok' Hle'].
        destruct (Hstep y x t' Hok') as [Hok'' Hlt]. split; [exact Hok'' | lra]. }
    destruct (Hstep y (areaW - 1)%Z _ Hok) as [Hok' Hlt].
    split; [exact Hok' | lra]. }
  assert (ok (forZ 0 areaH (fun y t =>
                forZ 0 areaW (sampleStep data areaW areaH y) t)
                {| totalR := 0; totalG := 0; totalB := 0; totalW := 0 |}) /\
          0 < totalW (forZ 0 areaH (fun y t =>
                forZ 0 areaW (sampleStep data areaW areaH y) t)
                {| totalR := 0; totalG := 0; totalB := 0; totalW := 0 |}))
    as [(_ & Hr & Hg & Hb) Hpos].
  { rewrite (forZ_last 0 areaH) by lia.
    assert (ok (forZ 0 (areaH - 1) (fun y t =>
                  forZ 0 areaW (sampleStep data areaW areaH y) t)
                  {| totalR := 0; totalG := 0; totalB := 0; totalW := 0 |}))
      as Hok.
    { apply forZ_inv.
      - unfold ok. cbn. lra.
      - intros y t _ Ht. now apply Hrow. }
    destruct (Hrow (areaH - 1)%Z _ Hok) as [Hok' Hlt].
    split; [exact Hok'|]. destruct Hok as [H0 _]. lra. }
  tauto.
Qed.

Lemma whiteCanvas_bytes :
  Forall (fun v => (0 <= v <= 255)%Z) (ImageData.data whiteCanvas).
Proof.
  unfold whiteCanvas. cbn [ImageData.data]. apply Forall_repeat. lia.
Qed.

(** X19. For a screen with an area and a canvas whose data are bytes,
    [sampleAreaColor] returns a colour whose channels are bytes, whatever
    the area: the sampled rectangle is never empty, the weights are
    positive, and the weighted mean of bytes, rounded, is a byte. *)
Theorem sampleAreaColor_byte_color (cfg : Config.t) (canvas : ImageData.t)
    (screen : Screen.t) (area : Rect.t) :
  Screen.area screen = Some area ->
  Forall (fun v => (0 <= v <= 255)%Z) (ImageData.data canvas) ->
  exists c, sampleAreaColor cfg canvas screen = Some c /\ byteColor c.
Proof.
  intros Harea Hcanvas.
  destruct (samplingRect cfg area) as [[[areaX areaY] areaW] areaH] eqn:Erect.
  rewrite (sampleAreaColor_area cfg canvas screen area areaX areaY areaW areaH
             Harea Erect).
  destruct (samplingRect_size cfg area areaX areaY areaW areaH Erect) as [Hw Hh].
  destruct (sampleTotals_bytes (getImageData canvas areaX areaY areaW areaH)
              areaW areaH Hw Hh (getImageData_byte canvas _ _ _ _ Hcanvas))
    as (Hpos & Hr & Hg & Hb).
  eexists. split; [reflexivity|]. cbv zeta. unfold byteColor.
  cbn [Color.r Color.g Color.b].
  set (t := sampleTotals (getImageData canvas areaX areaY areaW areaH)
              areaW areaH) in *.
  assert (forall v, 0 <= v <= 255 * totalW t -> 0 <= v / totalW t <= 255) as Hq.
  { intros v Hv. split.
    - apply Rdiv_nonneg; lra.
    - apply (Rmult_le_reg_r (totalW t)); [lra|]. unfold Rdiv.
      rewrite Rmult_assoc, Rinv_l by lra. lra. }
  repeat split; apply Math_round_byte; auto.
Qed.

Lemma sampleAreaColor_byte_color_witness :
  (Screen.area (screenWithArea (Rect.mk (127 / 128) 0 0.02 0.02))
     = Some (Rect.mk (127 / 128) 0 0.02 0.02) /\
   Forall (fun v => (0 <= v <= 255)%Z) (ImageData.data whiteCanvas)) /\
  exists c,
    sampleAreaColor CONFIG whiteCanvas
      (screenWithArea (Rect.mk (127 / 128) 0 0.02 0.02)) = Some c /\
    byteColor c.
Proof.
  split; [split; [reflexivity | apply whiteCanvas_bytes]|].
  apply (sampleAreaColor_byte_color CONFIG whiteCanvas
           (screenWithArea (Rect.mk (127 / 128) 0 0.02 0.02))
           (Rect.mk (127 / 128) 0 0.02 0.02)).
  - reflexivity.
  - apply whiteCanvas_bytes.
Defined.

(** X20. For a screen that has a centre but no area, [sampleAreaColor]
    reads the single canvas pixel under the centre, at
    [floor (x * canvasSize)], [floor (y * canvasSize)]: it returns that
    pixel's colour, and black when the pixel lies off the canvas, which is
    the case for a centre coordinate of exactly 1. *)
Theorem sampleAreaColor_point_sample (cfg : Config.t) (canvas : ImageData.t)
    (screen : Screen.t) (position : Point.t) :
  Screen.area screen = None -> Screen.position screen = Some position ->
  let pixelX := Math_floor (Point.x position * IZR (Config.canvasSize cfg)) in
  let pixelY := Math_floor (Point.y position * IZR (Config.canvasSize cfg)) in
  sampleAreaColor cfg canvas screen
  = Some (if onCanvas canvas pixelX pixelY
          then canvasColor canvas pixelX pixelY else black).
Proof.
  intros Harea Hposition. cbv zeta. unfold sampleAreaColor.
  rewrite Harea, Hposition. cbv zeta. f_equal.
  set (px := Math_floor (Point.x position * IZR (Config.canvasSize cfg))).
  set (py := Math_floor (Point.y position * IZR (Config.canvasSize cfg))).
  assert (forall k, (0 <= k < 4)%Z ->
            getZ (getImageData canvas px py 1 1) k
            = canvas_channel canvas px py k) as Hpixel.
  { intros k Hk.
    pose proof (getImageData_channel canvas px py 1 1 0 0 k
                  ltac:(lia) ltac:(lia) Hk) as H.
    replace ((0 * 1 + 0) * 4 + k)%Z with k in H by lia.
    now rewrite !Z.add_0_r in H. }
  rewrite !Hpixel by lia. unfold canvas_channel, onCanvas, canvasColor, black.
  destruct (_ && _); [|reflexivity].
  now rewrite Z.add_0_r.
Qed.

Lemma sampleAreaColor_point_sample_witness :
  (Screen.area (screenWithPosition (Point.mk 1 0.5)) = None /\
   Screen.position (screenWithPosition (Point.mk 1 0.5))
     = Some (Point.mk 1 0.5)) /\
  let pixelX := Math_floor (Point.x (Point.mk 1 0.5) * IZR (Config.canvasSize CONFIG)) in
  let pixelY := Math_floor (Point.y (Point.mk 1 0.5) * IZR (Config.canvasSize CONFIG)) in
  sampleAreaColor CONFIG whiteCanvas (screenWithPosition (Point.mk 1 0.5))
  = Some (if onCanvas whiteCanvas pixelX pixelY
          then canvasColor whiteCanvas pixelX pixelY else black).
Proof.
  split; [split; reflexivity|].
  apply (sampleAreaColor_point_sample CONFIG whiteCanvas
           (screenWithPosition (Point.mk 1 0.5)) (Point.mk 1 0.5));
    reflexivity.
Defined.

End SampleLaws.

(** ** The colours of the bang buttons *)

Section HslLaws.
Local Open Scope R_scope.

Lemma Rltb_true (x y : R) : x < y -> Rltb x y = true.
Proof. intros H; unfold Rltb; destruct (Rlt_dec x y); auto; contradiction. Qed.

Lemma Rltb_false (x y : R) : y <= x -> Rltb x y = false.
Proof. intros H; unfold Rltb; destruct (Rlt_dec x y); auto; lra. Qed.

Lemma Reqb_true (x y : R) : x = y -> Reqb x y = true.
Proof. intros H; unfold Reqb; destruct (Req_dec_T x y); auto; contradiction. Qed.

Lemma Reqb_false (x y : R) : x <> y -> Reqb x y = false.
Proof. intros H; unfold Reqb; destruct (Req_dec_T x y); auto; contradiction. Qed.

(** [hue2rgb] on a hue that needs no wrapping. *)
Lemma hue2rgb_unit (p q t : R) :
  0 <= t <= 1 ->
  hue2rgb p q t
  = if Rltb t (1 / 6) then p + (q - p) * 6 * t
    else if Rltb t (1 / 2) then q
    else if Rltb t (2 / 3) then p + (q - p) * (2 / 3 - t) * 6
    else p.
Proof.
  intros Ht. unfold hue2rgb.
  rewrite (Rltb_false t 0) by lra. rewrite (Rltb_false 1 t) by lra. reflexivity.
Qed.

Lemma hue2rgb_wrap_low (p q t : R) :
  -1 <= t < 0 -> hue2rgb p q t = hue2rgb p q (t + 1).
Proof.
  intros Ht. rewrite (hue2rgb_unit p q (t + 1)) by lra. unfold hue2rgb.
  rewrite (Rltb_true t 0) by lra. rewrite (Rltb_false 1 (t + 1)) by lra.
  reflexivity.
Qed.

Lemma hue2rgb_wrap_high (p q t : R) :
  1 < t <= 2 -> hue2rgb p q t = hue2rgb p q (t - 1).
Proof.
  intros Ht. rewrite (hue2rgb_unit p q (t - 1)) by lra. unfold hue2rgb.
  rewrite (Rltb_false t 0) by lra. rewrite (Rltb_true 1 t) by lra.
  reflexivity.
Qed.

Lemma hue2rgb_unit_between (p q t : R) :
  p <= q -> 0 <= t <= 1 -> p <= hue2rgb p q t <= q.
Proof.
  intros Hpq Ht. rewrite hue2rgb_unit by exact Ht.
  unfold Rltb.
  destruct (Rlt_dec t (1 / 6)); [nra|].
  destruct (Rlt_dec t (1 / 2)); [lra|].
  destruct (Rlt_dec t (2 / 3)); [nra|lra].
Qed.

Lemma hue2rgb_between (p q t : R) :
  p <= q -> -1 <= t <= 2 -> p <= hue2rgb p q t <= q.
Proof.
  intros Hpq Ht.
  destruct (Rlt_dec t 0).
  - rewrite hue2rgb_wrap_low by lra. apply hue2rgb_unit_between; lra.
  - destruct (Rlt_dec 1 t).
    + rewrite hue2rgb_wrap_high by lra. apply hue2rgb_unit_between; lra.
    + apply hue2rgb_unit_between; lra.
Qed.

(** The hues at which [hue2rgb] is at its top, [q]. *)
Lemma hue2rgb_top (p q t : R) :
  1 / 6 <= t <= 1 / 2 \/ 7 / 6 <= t <= 3 / 2 -> hue2rgb p q t = q.
Proof.
  assert (forall u, 1 / 6 <= u <= 1 / 2 -> hue2rgb p q u = q) as Hunit.
  { intros u Hu. rewrite hue2rgb_unit by lra.
    rewrite (Rltb_false u (1 / 6)) by lra. unfold Rltb.
    destruct (Rlt_dec u (1 / 2)); [reflexivity|].
    destruct (Rlt_dec u (2 / 3)); [|lra].
    replace u with (1 / 2) by lra. field. }
  intros [Ht | Ht].
  - apply Hunit, Ht.
  - rewrite hue2rgb_wrap_high by lra. apply Hunit. lra.
Qed.

(** The hues at which [hue2rgb] is at its bottom, [p]. *)
Lemma hue2rgb_bottom (p q t : R) :
  - (1 / 3) <= t <= 0 \/ 2 / 3 <= t <= 1 -> hue2rgb p q t = p.
Proof.
  assert (forall u, 2 / 3 <= u <= 1 -> hue2rgb p q u = p) as Hunit.
  { intros u Hu. rewrite hue2rgb_unit by lra.
    rewrite (Rltb_false u (1 / 6)), (Rltb_false u (1 / 2)),
      (Rltb_false u (2 / 3)) by lra.
    reflexivity. }
  intros [Ht | Ht].
  - destruct (Rlt_dec t 0).
    + rewrite hue2rgb_wrap_low by lra. apply Hunit. lra.
    + replace t with 0 by lra. rewrite hue2rgb_unit by lra.
      rewrite (Rltb_true 0 (1 / 6)) by lra. ring.
  - apply Hunit, Ht.
Qed.

(** The bounds [p] and [q] that [hslToRgb] hands to [hue2rgb]. *)
Lemma hsl_bounds (s l : R) :
  0 <= s <= 1 -> 0 <= l <= 1 ->
  let q := if Rltb l 0.5 then l * (1 + s) else l + s - l * s in
  let p := 2 * l - q in
  0 <= p /\ p <= q /\ q <= 1.
Proof.
  intros Hs Hl. cbv zeta. unfold Rltb.
  destruct (Rlt_dec l 0.5); repeat split; nra.
Qed.

Lemma hslToRgb_bytes (h s l : R) :
  0 <= h <= 1 -> 0 <= s <= 1 -> 0 <= l <= 1 -> byteColor (hslToRgb h s l).
Proof.
  intros Hh Hs Hl. unfold hslToRgb, byteColor.
  destruct (Reqb s 0).
  - cbn [Color.r Color.g Color.b]. repeat split; apply Math_round_byte; lra.
  - pose proof (hsl_bounds s l Hs Hl) as Hb. cbv zeta in Hb.
    set (q := if Rltb l 0.5 then l * (1 + s) else l + s - l * s) in *.
    destruct Hb as (Hp & Hpq & Hq).
    cbn [Color.r Color.g Color.b].
    pose proof (hue2rgb_between (2 * l - q) q (h + 1 / 3) Hpq ltac:(lra)).
    pose proof (hue2rgb_between (2 * l - q) q h Hpq ltac:(lra)).
    pose proof (hue2rgb_between (2 * l - q) q (h - 1 / 3) Hpq ltac:(lra)).
    repeat split; apply Math_round_byte; lra.
Qed.

(** [hslToRgb] at full saturation and half lightness. *)
Lemma hslToRgb_pure (h : R) :
  hslToRgb h 1 0.5
  = {| Color.r := Math_round (hue2rgb 0 1 (h + 1 / 3) * 255);
       Color.g := Math_round (hue2rgb 0 1 h * 255);
       Color.b := Math_round (hue2rgb 0 1 (h - 1 / 3) * 255) |}.
Proof.
  unfold hslToRgb. rewrite (Reqb_false 1 0) by lra.
  rewrite (Rltb_false 0.5 0.5) by lra.
  replace (0.5 + 1 - 0.5 * 1) with 1 by lra.
  replace (2 * 0.5 - 1) with 0 by lra. reflexivity.
Qed.

Lemma Math_round_255 : Math_round (1 * 255) = 255%Z.
Proof. replace (1 * 255) with (IZR 255) by lra. apply Math_round_IZR. Qed.

Lemma Math_round_0 : Math_round (0 * 255) = 0%Z.
Proof. replace (0 * 255) with (IZR 0) by lra. apply Math_round_IZR. Qed.

(** X21. For a hue, a saturation and a lightness between 0 and 1,
    [hslToRgb] returns a colour whose channels are bytes; the channels of a
    colour without saturation are all [round (l * 255)]. *)
Theorem hslToRgb_byte_color (h s l : R) :
  0 <= h <= 1 -> 0 <= s <= 1 -> 0 <= l <= 1 ->
  byteColor (hslToRgb h s l) /\
  hslToRgb h 0 l
  = {| Color.r := Math_round (l * 255); Color.g := Math_round (l * 255);
       Color.b := Math_round (l * 255) |}.
Proof.
  intros Hh Hs Hl. split.
  - apply hslToRgb_bytes; assumption.
  - unfold hslToRgb. rewrite (Reqb_true 0 0) by reflexivity. reflexivity.
Qed.

Lemma hslToRgb_byte_color_witness :
  (0 <= 0.25 <= 1 /\ 0 <= 1 <= 1 /\ 0 <= 0.5 <= 1) /\
  byteColor (hslToRgb 0.25 1 0.5) /\
  hslToRgb 0.25 0 0.5
  = {| Color.r := Math_round (0.5 * 255); Color.g := Math_round (0.5 * 255);
       Color.b := Math_round (0.5 * 255) |}.
Proof.
  split; [lra|]. apply (hslToRgb_byte_color 0.25 1 0.5); lra.
Defined.

(** X22. The colour of the random bang button, [hslToRgb] of a hue between
    0 and 1 at saturation 1 and lightness 0.5, is a pure hue at full
    brightness: its largest channel is 255 and its smallest channel is 0. *)
Theorem hslToRgb_pure_hue (h : R) :
  0 <= h <= 1 ->
  let c := hslToRgb h 1 0.5 in
  Z.max (Z.max (Color.r c) (Color.g c)) (Color.b c) = 255%Z /\
  Z.min (Z.min (Color.r c) (Color.g c)) (Color.b c) = 0%Z.
Proof.
  intros Hh. cbv zeta.
  pose proof (hslToRgb_bytes h 1 0.5 Hh ltac:(lra) ltac:(lra)) as Hbytes.
  unfold byteColor in Hbytes. rewrite hslToRgb_pure in *.
  cbn [Color.r Color.g Color.b] in *.
  assert (forall t, hue2rgb 0 1 t = 1 ->
            Math_round (hue2rgb 0 1 t * 255) = 255%Z) as Htop.
  { intros t ->. apply Math_round_255. }
  assert (forall t, hue2rgb 0 1 t = 0 ->
            Math_round (hue2rgb 0 1 t * 255) = 0%Z) as Hbottom.
  { intros t ->. apply Math_round_0. }
  destruct (Rle_dec h (1 / 6)).
  { rewrite (Htop (h + 1 / 3)) in * by (apply hue2rgb_top; lra).
    rewrite (Hbottom (h - 1 / 3)) in * by (apply hue2rgb_bottom; lra). lia. }
  destruct (Rle_dec h (1 / 3)).
  { rewrite (Htop h) in * by (apply hue2rgb_top; lra).
    rewrite (Hbottom (h - 1 / 3)) in * by (apply hue2rgb_bottom; lra). lia. }
  destruct (Rle_dec h (1 / 2)).
  { rewrite (Htop h) in * by (apply hue2rgb_top; lra).
    rewrite (Hbottom (h + 1 / 3)) in * by (apply hue2rgb_bottom; lra). lia. }
  destruct (Rle_dec h (2 / 3)).
  { rewrite (Htop (h - 1 / 3)) in * by (apply hue2rgb_top; lra).
    rewrite (Hbottom (h + 1 / 3)) in * by (apply hue2rgb_bottom; lra). lia. }
  destruct (Rle_dec h (5 / 6)).
  { rewrite (Htop (h - 1 / 3)) in * by (apply hue2rgb_top; lra).
    rewrite (Hbottom h) in * by (apply hue2rgb_bottom; lra). lia. }
  rewrite (Htop (h + 1 / 3)) in * by (apply hue2rgb_top; lra).
  rewrite (Hbottom h) in * by (apply hue2rgb_bottom; lra). lia.
Qed.

Lemma hslToRgb_pure_hue_witness :
  0 <= 0 <= 1 /\
  let c := hslToRgb 0 1 0.5 in
  Z.max (Z.max (Color.r c) (Color.g c)) (Color.b c) = 255%Z /\
  Z.min (Z.min (Color.r c) (Color.g c)) (Color.b c) = 0%Z.
Proof.
  split; [lra|]. apply (hslToRgb_pure_hue 0). lra.
Defined.

End HslLaws.

(** ** Bangs: a flash that fades to black *)

Section BangLaws.
Local Open Scope R_scope.

Lemma Math_round_le (x y : R) : x <= y -> (Math_round x <= Math_round y)%Z.
Proof. intros H. unfold Math_round. apply Zfloor_le. lra. Qed.

Lemma Math_round_step (x y : R) : x + 1 <= y -> (Math_round x < Math_round y)%Z.
Proof.
  intros H. unfold Math_round.
  pose proof (Zfloor_bound (x + / 2)) as [Hx _].
  pose proof (Zfloor_bound (y + / 2)) as [_ Hy].
  apply lt_IZR. lra.
Qed.

Lemma Rpower_1_l (a : R) : Rpower 1 a = 1.
Proof. unfold Rpower. rewrite ln_1, Rmult_0_r. apply exp_0. Qed.

Lemma Math_pow_range (x a : R) : 0 <= x <= 1 -> 0 < a -> 0 <= Math_pow x a <= 1.
Proof.
  intros Hx Ha. unfold Math_pow, Reqb.
  destruct (Req_dec_T x 0); [lra|]. split.
  - left. apply exp_pos.
  - rewrite <- (Rpower_1_l a). apply Rle_Rpower_l; lra.
Qed.

Lemma Math_pow_le (x y a : R) :
  0 <= x <= y -> 0 < a -> Math_pow x a <= Math_pow y a.
Proof.
  intros Hxy Ha. unfold Math_pow, Reqb.
  destruct (Req_dec_T x 0), (Req_dec_T y 0); try lra.
  - left. apply exp_pos.
  - apply Rle_Rpower_l; lra.
Qed.

(** The brightness factor of the [i]th broadcast of a bang. *)
Let factor (i : Z) : R :=
  if (i =? 0)%Z then 1 else Math_pow (1 - IZR i / 18) 1.6.

Lemma factor_range (i : Z) : (0 <= i <= 18)%Z -> 0 <= factor i <= 1.
Proof.
  intros Hi. unfold factor. destruct (Z.eqb_spec i 0); [lra|].
  apply Math_pow_range; [|lra].
  assert (0 <= IZR i <= 18) by (split; apply IZR_le; lia). lra.
Qed.

Lemma factor_mono (i j : Z) : (0 <= i < j)%Z -> (j <= 18)%Z -> factor j <= factor i.
Proof.
  intros Hij Hj. unfold factor.
  destruct (Z.eqb_spec j 0); [lia|].
  destruct (Z.eqb_spec i 0).
  - apply Math_pow_range; [|lra].
    assert (0 <= IZR j <= 18) by (split; apply IZR_le; lia). lra.
  - apply Math_pow_le; [|lra].
    assert (IZR i <= IZR j) by (apply IZR_le; lia).
    assert (IZR j <= 18) by (apply IZR_le; lia). lra.
Qed.

Lemma bangStep_eq (color : Color.t) (i : Z) :
  bangStep color i
  = ((120 + Math_round (780 * (IZR i / 18)))%Z,
     {| Color.r := Math_round (IZR (Color.r color) * factor i);
        Color.g := Math_round (IZR (Color.g color) * factor i);
        Color.b := Math_round (IZR (Color.b color) * factor i) |}).
Proof. reflexivity. Qed.

Lemma channel_fade (c i j : Z) :
  (0 <= c <= 255)%Z -> (0 <= i < j)%Z -> (j <= 18)%Z ->
  (0 <= Math_round (IZR c * factor j) <= Math_round (IZR c * factor i))%Z /\
  (Math_round (IZR c * factor i) <= 255)%Z.
Proof.
  intros Hc Hij Hj.
  assert (0 <= IZR c <= 255) as Hc' by (split; apply IZR_le; lia).
  pose proof (factor_range i ltac:(lia)) as Hi.
  pose proof (factor_range j ltac:(lia)) as Hj'.
  pose proof (factor_mono i j Hij Hj) as Hmono.
  split; [split|].
  - apply (Math_round_byte (IZR c * factor j)). nra.
  - apply Math_round_le. nra.
  - apply (Math_round_byte (IZR c * factor i)). nra.
Qed.

Lemma emit_nil (a : Animator) : emit [] a = a.
Proof. destruct a. unfold emit. cbn. now rewrite app_nil_r. Qed.

Lemma emit_emit (o1 o2 : list Output) (a : Animator) :
  emit o2 (emit o1 a) = emit (o1 ++ o2) a.
Proof. unfold emit. cbn. now rewrite app_assoc. Qed.

Lemma triggerBang_run (color : Color.t) (a : Animator) :
  triggerBang color a
  = emit (map (fun i => SetTimeout (fst (bangStep color i))
                          (broadcast (snd (bangStep color i))))
              (zrange 0 19))
         (stopAnimation a).
Proof.
  unfold triggerBang. cbv zeta. change (18 + 1)%Z with 19%Z.
  set (g := fun i => SetTimeout (fst (bangStep color i))
                       (broadcast (snd (bangStep color i)))).
  apply (forZ_ind (fun i s => s = emit (map g (zrange 0 i)) (stopAnimation a)));
    [lia | now rewrite zrange_nil, emit_nil by lia |].
  intros i t Hi ->. rewrite zrange_snoc, map_app by lia. cbn [map].
  rewrite <- emit_emit. unfold g at 2. now destruct (bangStep color i).
Qed.

(** X23. [triggerBang] stops the animation and schedules 19 broadcasts.
    For a colour whose channels are bytes, the first is the colour itself
    after 120 ms and the last is black after 900 ms; in between the delays
    grow strictly, so the broadcasts are sent in the order of the loop, and
    no channel ever gets brighter again: the flash fades to black. *)
Theorem triggerBang_fades_to_black (color : Color.t) (a : Animator) :
  byteColor color ->
  let a' := triggerBang color a in
  let step := bangStep color in
  (isAnimating (controls a') = false /\ lastColors a' = []) /\
  output a'
  = output a ++ Log "[ANIMATION] Stopped"
      :: map (fun i => SetTimeout (fst (step i)) (broadcast (snd (step i))))
             (zrange 0 19) /\
  step 0%Z = (120%Z, color) /\ step 18%Z = (900%Z, black) /\
  forall i j, (0 <= i < j)%Z -> (j <= 18)%Z ->
    (fst (step i) < fst (step j))%Z /\
    dimmer (snd (step j)) (snd (step i)) /\ byteColor (snd (step j)).
Proof.
  intros (Hr & Hg & Hb). cbv zeta. rewrite triggerBang_run.
  split; [split; reflexivity|].
  split; [unfold emit, stopAnimation; cbn [output]; now rewrite <- app_assoc|].
  split; [|split].
  - rewrite bangStep_eq. unfold factor. cbn [Z.eqb].
    replace (780 * (0 / 18)) with (IZR 0) by lra.
    rewrite !Rmult_1_r, !Math_round_IZR. now destruct color.
  - rewrite bangStep_eq. unfold factor, Math_pow. cbn [Z.eqb].
    rewrite (Reqb_true (1 - 18 / 18) 0) by lra.
    replace (780 * (18 / 18)) with (IZR 780) by lra.
    rewrite !Rmult_0_r. replace 0 with (IZR 0) by reflexivity.
    now rewrite !Math_round_IZR.
  - intros i j Hij Hj. rewrite !bangStep_eq. cbn [fst snd].
    split; [|split].
    + assert (Math_round (780 * (IZR i / 18)) < Math_round (780 * (IZR j / 18)))%Z;
        [|lia].
      apply Math_round_step.
      assert (IZR i + 1 <= IZR j) by (rewrite <- plus_IZR; apply IZR_le; lia).
      lra.
    + unfold dimmer. cbn [Color.r Color.g Color.b].
      repeat split; apply channel_fade; assumption.
    + unfold byteColor. cbn [Color.r Color.g Color.b].
      pose proof (channel_fade _ i j Hr Hij Hj).
      pose proof (channel_fade _ i j Hg Hij Hj).
      pose proof (channel_fade _ i j Hb Hij Hj). lia.
Qed.

Lemma triggerBang_fades_to_black_witness :
  byteColor white /\
  let a' := triggerBang white (initialAnimator readyController) in
  let step := bangStep white in
  (isAnimating (controls a') = false /\ lastColors a' = []) /\
  output a'
  = output (initialAnimator readyController) ++ Log "[ANIMATION] Stopped"
      :: map (fun i => SetTimeout (fst (step i)) (broadcast (snd (step i))))
             (zrange 0 19) /\
  step 0%Z = (120%Z, white) /\ step 18%Z = (900%Z, black) /\
  forall i j, (0 <= i < j)%Z -> (j <= 18)%Z ->
    (fst (step i) < fst (step j))%Z /\
    dimmer (snd (step j)) (snd (step i)) /\ byteColor (snd (step j)).
Proof.
  assert (byteColor white) as H by (unfold byteColor, white; cbn; lia).
  split; [exact H|].
  apply (triggerBang_fades_to_black white (initialAnimator readyController) H).
Defined.

End BangLaws.

(** ** Audio beats *)

Section AudioRun.
Local Open Scope R_scope.

Variable sampleRate : R.

Lemma bassEnergy_bytes (audioData : list Z) :
  Forall (fun v => (0 <= v <= 255)%Z) audioData ->
  0 <= bassEnergy sampleRate audioData <= 255.
Proof.
  intros Hdata. unfold bassEnergy. cbv zeta.
  set (minBin := Z.max 0 _). set (maxBin := Z.min _ _).
  set (body := fun (i : Z) '(sum, count) =>
                 ((sum + getZ audioData i)%Z, (count + 1)%Z)).
  assert (let '(sum, count) := forZ minBin (maxBin + 1) body (0%Z, 0%Z) in
          (0 <= count)%Z /\ (0 <= sum <= 255 * count)%Z) as Hloop.
  { apply (forZ_inv (fun '(sum, count) =>
                       (0 <= count)%Z /\ (0 <= sum <= 255 * count)%Z)); [lia|].
    intros i [sum count] _ [Hc Hs]. unfold body.
    pose proof (getZ_byte audioData i Hdata). lia. }
  destruct (forZ minBin (maxBin + 1) body (0%Z, 0%Z)) as [sum count].
  destruct Hloop as [Hc Hs].
  destruct (Z.eqb_spec count 0); [lra|].
  assert (0 < IZR count) by (apply IZR_lt; lia).
  assert (0 <= IZR sum) by (apply IZR_le; lia).
  assert (IZR sum <= 255 * IZR count)
    by (rewrite <- mult_IZR; apply IZR_le; lia).
  split.
  - apply Rdiv_nonneg; lra.
  - apply (Rmult_le_reg_r (IZR count)); [lra|]. unfold Rdiv.
    rewrite Rmult_assoc, Rinv_l by lra. lra.
Qed.

Lemma tick_baseline (audioData : list Z) (now : R) (s : Beat) :
  audioBaseline (fst (tick sampleRate audioData now s))
  = if Reqb (audioBaseline s) 0 then bassEnergy sampleRate audioData
    else audioBaseline s * 0.92 + bassEnergy sampleRate audioData * 0.08.
Proof. unfold tick. cbv zeta. now destruct (_ && _). Qed.

Lemma listen_cons (audioData : list Z) (now : R) (frames : list (list Z * R))
    (s : Beat) :
  listen sampleRate ((audioData, now) :: frames) s
  = (fst (listen sampleRate frames (fst (tick sampleRate audioData now s))),
     if snd (tick sampleRate audioData now s)
     then now :: snd (listen sampleRate frames
                        (fst (tick sampleRate audioData now s)))
     else snd (listen sampleRate frames (fst (tick sampleRate audioData now s)))).
Proof.
  cbn [listen]. destruct (tick sampleRate audioData now s) as [s' boom].
  cbn [fst snd]. now destruct (listen sampleRate frames s').
Qed.

Lemma tick_beat (audioData : list Z) (now : R) (s : Beat) :
  if snd (tick sampleRate audioData now s)
  then bassEnergy sampleRate audioData > 28 /\ now - lastBeatAt s > 280 /\
       lastBeatAt (fst (tick sampleRate audioData now s)) = now
  else lastBeatAt (fst (tick sampleRate audioData now s)) = lastBeatAt s.
Proof.
  unfold tick. cbv zeta.
  set (energy := bassEnergy sampleRate audioData).
  set (baseline := if Reqb (audioBaseline s) 0 then energy
                   else audioBaseline s * 0.92 + energy * 0.08).
  destruct (Rgtb_spec energy (Rmax 28 (baseline * 1.75))) as [Hboom | Hquiet];
    destruct (Rgtb_spec (now - lastBeatAt s) 280) as [Hlate | Hearly];
    cbn [andb fst snd lastBeatAt]; try reflexivity.
  pose proof (Rmax_l 28 (baseline * 1.75)).
  split; [lra | split; [exact Hlate | reflexivity]].
Qed.

End AudioRun.

Section AudioLaws.
Local Open Scope R_scope.

(** X24. The bass energy that [tick] computes from byte frequency data is
    between 0 and 255, also when no bin lies in the bass range; and over
    any run of ticks on such data the moving baseline, once between 0 and
    255, stays there. *)
Theorem audio_levels_bounded (sampleRate : R) (frames : list (list Z * R))
    (s : Beat) :
  0 < sampleRate ->
  Forall (fun f => Forall (fun v => (0 <= v <= 255)%Z) (fst f)) frames ->
  0 <= audioBaseline s <= 255 ->
  Forall (fun f => 0 <= bassEnergy sampleRate (fst f) <= 255) frames /\
  0 <= audioBaseline (fst (listen sampleRate frames s)) <= 255.
Proof.
  intros _ Hframes. revert s.
  induction Hframes as [|[audioData now] frames Hdata _ IH]; intros s Hs.
  - split; [constructor | exact Hs].
  - pose proof (bassEnergy_bytes sampleRate audioData Hdata) as He.
    rewrite listen_cons. cbn [fst].
    destruct (IH (fst (tick sampleRate audioData now s))) as [Hall Hbase].
    { rewrite tick_baseline. destruct (Reqb (audioBaseline s) 0); lra. }
    split; [constructor; assumption | exact Hbase].
Qed.

Lemma audio_levels_bounded_witness :
  (0 < 48000 /\
   Forall (fun f : list Z * R => Forall (fun v => (0 <= v <= 255)%Z) (fst f))
     [([200; 100; 0; 255]%Z, 16)] /\
   0 <= audioBaseline silentBeat <= 255) /\
  Forall (fun f => 0 <= bassEnergy 48000 (fst f) <= 255)
    [([200; 100; 0; 255]%Z, 16)] /\
  0 <= audioBaseline (fst (listen 48000 [([200; 100; 0; 255]%Z, 16)] silentBeat))
    <= 255.
Proof.
  assert (Forall (fun f : list Z * R =>
                    Forall (fun v => (0 <= v <= 255)%Z) (fst f))
            [([200; 100; 0; 255]%Z, 16)]) as Hframes
    by (repeat constructor; cbn; lia).
  assert (0 <= audioBaseline silentBeat <= 255) as Hs by (cbn; lra).
  split; [split; [lra | split; assumption]|].
  apply (audio_levels_bounded 48000 [([200; 100; 0; 255]%Z, 16)] silentBeat);
    [lra | exact Hframes | exact Hs].
Defined.

(** X25. Beats respect the cooldown and the noise floor: over any run of
    ticks, each call of [runOneShot] comes more than 280 ms after the one
    before it (the first more than 280 ms after [lastBeatAt]), and each is
    made by a tick whose bass energy is above 28. *)
Theorem beats_respect_cooldown (sampleRate : R) (frames : list (list Z * R))
    (s : Beat) :
  spaced 280 (lastBeatAt s) (snd (listen sampleRate frames s)) /\
  forall beat, In beat (snd (listen sampleRate frames s)) ->
    exists audioData,
      In (audioData, beat) frames /\ bassEnergy sampleRate audioData > 28.
Proof.
  revert s. induction frames as [|[audioData now] frames IH]; intros s.
  - split; [exact I | intros beat []].
  - rewrite listen_cons. cbn [snd].
    pose proof (tick_beat sampleRate audioData now s) as Htick.
    destruct (IH (fst (tick sampleRate audioData now s))) as [Hspaced Hloud].
    destruct (snd (tick sampleRate audioData now s)).
    + destruct Htick as (Henergy & Hlate & Hlast). rewrite Hlast in Hspaced.
      split; [split; assumption|].
      intros beat [<- | Hin].
      * exists audioData. split; [left; reflexivity | exact Henergy].
      * destruct (Hloud beat Hin) as (data & Hdata & He).
        exists data. split; [right; exact Hdata | exact He].
    + rewrite Htick in Hspaced. split; [exact Hspaced|].
      intros beat Hin. destruct (Hloud beat Hin) as (data & Hdata & He).
      exists data. split; [right; exact Hdata | exact He].
Qed.

(** X26. A steady sound never triggers a beat: when every tick finds the
    same byte frequency data, no one-shot is started, however loud the
    sound is and however long it lasts. *)
Theorem steady_sound_never_beats (sampleRate : R) (audioData : list Z)
    (frames : list (list Z * R)) :
  0 < sampleRate ->
  Forall (fun v => (0 <= v <= 255)%Z) audioData ->
  Forall (fun f => fst f = audioData) frames ->
  snd (listen sampleRate frames silentBeat) = [].
Proof.
  intros _ Hdata Hframes.
  pose proof (bassEnergy_bytes sampleRate audioData Hdata) as He.
  set (energy := bassEnergy sampleRate audioData) in *.
  assert (forall s, audioBaseline s = 0 \/ audioBaseline s = energy ->
            snd (listen sampleRate frames s) = []) as Hrun.
  { induction Hframes as [|[data now] frames Heq _ IH]; intros s Hs;
      [reflexivity|].
    cbn [fst] in Heq. subst data. rewrite listen_cons. cbn [snd].
    assert (audioBaseline (fst (tick sampleRate audioData now s)) = energy)
      as Hbase.
    { rewrite tick_baseline. fold energy. unfold Reqb.
      destruct (Req_dec_T (audioBaseline s) 0); [reflexivity|].
      destruct Hs as [Hs | Hs]; [contradiction|]. rewrite Hs. lra. }
    rewrite (IH _ (or_intror Hbase)).
    assert (snd (tick sampleRate audioData now s) = false) as ->;
      [|reflexivity].
    pose proof Hbase as Hb. rewrite tick_baseline in Hb.
    unfold tick. cbv zeta. fold energy. fold energy in Hb. rewrite Hb.
    rewrite (Rgtb_false energy).
    - reflexivity.
    - unfold Rmax. destruct (Rle_dec 28 (energy * 1.75)); lra. }
  apply Hrun. left. reflexivity.
Qed.

Lemma steady_sound_never_beats_witness :
  (0 < 48000 /\
   Forall (fun v => (0 <= v <= 255)%Z) [200; 200; 200; 200]%Z /\
   Forall (fun f => fst f = [200; 200; 200; 200]%Z)
     [([200; 200; 200; 200]%Z, 0); ([200; 200; 200; 200]%Z, 500)]) /\
  snd (listen 48000 [([200; 200; 200; 200]%Z, 0); ([200; 200; 200; 200]%Z, 500)]
         silentBeat) = [].
Proof.
  assert (Forall (fun v => (0 <= v <= 255)%Z) [200; 200; 200; 200]%Z) as Hdata
    by (repeat constructor; lia).
  assert (Forall (fun f : list Z * R => fst f = [200; 200; 200; 200]%Z)
            [([200; 200; 200; 200]%Z, 0); ([200; 200; 200; 200]%Z, 500)])
    as Hframes by (repeat constructor).
  split; [split; [lra | split; assumption]|].
  apply (steady_sound_never_beats 48000 [200; 200; 200; 200]%Z);
    [lra | exact Hdata | exact Hframes].
Defined.

End AudioLaws.

(** ** The animation loop *)

Section LoopRun.
Local Open Scope R_scope.

Variable cfg : Config.t.

Lemma run_app (events1 events2 : list Event) (a : Animator) :
  run cfg (events1 ++ events2) a = run cfg events2 (run cfg events1 a).
Proof. unfold run. apply fold_left_app. Qed.

Lemma run_cons (e : Event) (events : list Event) (a : Animator) :
  run cfg (e :: events) a = run cfg events (handle cfg e a).
Proof. reflexivity. Qed.

(** An invariant kept by those events that satisfy [allowed] is kept by a
    run of such events. *)
Lemma run_invariant (P : Animator -> Prop) (allowed : Event -> Prop) :
  (forall e a, allowed e -> P a -> P (handle cfg e a)) ->
  forall events a, Forall allowed events -> P a -> P (run cfg events a).
Proof.
  intros Hstep events. induction events as [|e events IH]; intros a Hall Ha.
  - exact Ha.
  - inversion Hall; subst. rewrite run_cons. apply IH; auto.
Qed.

Lemma isAnimating_updateControls (c : Controller) :
  isAnimating (updateControls c) = isAnimating c.
Proof. unfold updateControls. now destruct (audioBeatEnabled c). Qed.

Lemma shown_app (o1 o2 : list Output) : shown (o1 ++ o2) = shown o1 ++ shown o2.
Proof. unfold shown. apply filter_app. Qed.

Lemma renderTimes_app (o1 o2 : list Output) :
  renderTimes (o1 ++ o2) = renderTimes o1 ++ renderTimes o2.
Proof. unfold renderTimes. apply flat_map_app. Qed.

Lemma sentColors_app (o1 o2 : list Output) :
  sentColors (o1 ++ o2) = sentColors o1 ++ sentColors o2.
Proof. unfold sentColors. apply flat_map_app. Qed.

Lemma animate_idle (currentTime : R) (rendered : ImageData.t) (a : Animator) :
  pending a = None -> animate cfg currentTime rendered a = a.
Proof. intros H. unfold animate. now rewrite H. Qed.

Lemma startAnimation_running (now : R) (a : Animator) :
  isAnimating (controls a) = true -> startAnimation now a = a.
Proof. intros H. unfold startAnimation. now rewrite H. Qed.

(** While the animation is marked as running and no frame is pending, the
    events that do not stop it change nothing that is shown. *)
Lemma stalled_step (e : Event) (a : Animator) :
  keepsRunning e = true ->
  isAnimating (controls a) = true /\ pending a = None ->
  (isAnimating (controls (handle cfg e a)) = true /\
   pending (handle cfg e a) = None) /\
  shown (output (handle cfg e a)) = shown (output a).
Proof.
  intros He [Hrun Hpending].
  destruct e; try discriminate He; cbn [handle].
  - rewrite startAnimation_running by exact Hrun. auto.
  - cbn [controls pending output]. auto.
  - cbn [controls pending output]. auto.
  - cbn [controls pending output].
    rewrite isAnimating_updateControls. cbn [set_screens isAnimating].
    rewrite shown_app. cbn. rewrite app_nil_r. auto.
  - rewrite animate_idle by exact Hpending. auto.
Qed.

Lemma stalled_run (events : list Event) (a : Animator) :
  Forall (fun e => keepsRunning e = true) events ->
  isAnimating (controls a) = true -> pending a = None ->
  (isAnimating (controls (run cfg events a)) = true /\
   pending (run cfg events a) = None) /\
  shown (output (run cfg events a)) = shown (output a).
Proof.
  intros Hall. revert a.
  induction Hall as [|e events He _ IH]; intros a Hrun Hpending; [auto|].
  rewrite run_cons.
  destruct (stalled_step e a He (conj Hrun Hpending)) as [[Hrun' Hpending'] Hshown].
  destruct (IH _ Hrun' Hpending') as [Hstate Hshown'].
  split; [exact Hstate | congruence].
Qed.

End LoopRun.

Section LoopLaws.
Local Open Scope R_scope.

(** X27. When no screen has a position, [startAnimation] still marks the
    animation as running, disables the play button and enables the stop
    button, but starts no frame loop.  From then on nothing is rendered and
    nothing is sent, whatever frames, slider inputs and screen lists
    follow, even when screens get detected and play is clicked again,
    until the animation is stopped. *)
Theorem startAnimation_without_screens (cfg : Config.t) (now : R)
    (a : Animator) (events : list Event) :
  isAnimating (controls a) = false -> pending a = None ->
  getDetectedScreens (screens (controls a)) = [] ->
  Forall (fun e => keepsRunning e = true) events ->
  let started := startAnimation now a in
  let a' := run cfg events started in
  (isAnimating (controls started) = true /\
   playBtn_disabled (controls started) = true /\
   stopBtn_disabled (controls started) = false) /\
  (isAnimating (controls a') = true /\ pending a' = None) /\
  shown (output a') = shown (output a).
Proof.
  intros Hidle Hpending Hnone Hevents. cbv zeta.
  assert (startAnimation now a
          = {| controls :=
                 set_buttons (scanBtn_disabled (controls a)) true false
                   (set_isAnimating true (controls a));
               currentAnimation := currentAnimation a;
               animationSpeed := animationSpeed a;
               animationBrightness := animationBrightness a;
               lastColors := lastColors a;
               animationFrame := animationFrame a;
               pending := pending a;
               output := output a
                         ++ [Warn "[ANIMATION] No screens with positions"] |})
    as Hstart.
  { unfold startAnimation. rewrite Hidle. cbv zeta.
    cbn [set_buttons set_isAnimating screens scanBtn_disabled].
    now rewrite Hnone. }
  rewrite Hstart. split; [repeat split|].
  match goal with |- context [run cfg events ?s] => set (started := s) end.
  destruct (stalled_run cfg events started Hevents eq_refl Hpending)
    as [Hstate Hshown].
  split; [exact Hstate|]. rewrite Hshown. unfold started. cbn [output].
  rewrite shown_app. cbn. apply app_nil_r.
Qed.

Lemma startAnimation_without_screens_witness :
  (isAnimating (controls (initialAnimator readyController)) = false /\
   pending (initialAnimator readyController) = None /\
   getDetectedScreens (screens (controls (initialAnimator readyController))) = [] /\
   Forall (fun e => keepsRunning e = true)
     [ScreenList detectedPair; PlayClicked 100; FrameCallback 200 whiteCanvas]) /\
  let started := startAnimation 0 (initialAnimator readyController) in
  let a' := run CONFIG
              [ScreenList detectedPair; PlayClicked 100;
               FrameCallback 200 whiteCanvas] started in
  (isAnimating (controls started) = true /\
   playBtn_disabled (controls started) = true /\
   stopBtn_disabled (controls started) = false) /\
  (isAnimating (controls a') = true /\ pending a' = None) /\
  shown (output a') = shown (output (initialAnimator readyController)).
Proof.
  assert (Forall (fun e => keepsRunning e = true)
            [ScreenList detectedPair; PlayClicked 100;
             FrameCallback 200 whiteCanvas]) as Hevents
    by (repeat constructor).
  split; [repeat split; exact Hevents|].
  apply (startAnimation_without_screens CONFIG 0
           (initialAnimator readyController)
           [ScreenList detectedPair; PlayClicked 100;
            FrameCallback 200 whiteCanvas]);
    [reflexivity | reflexivity | reflexivity | exact Hevents].
Defined.

End LoopLaws.

(** ** Frames: pacing and delta encoding *)

Section FramePacing.
Local Open Scope R_scope.

Lemma apart_snoc (gap t : R) (times : list R) :
  apart gap times -> (times <> [] -> t - last times 0 >= gap) ->
  apart gap (times ++ [t]).
Proof.
  induction times as [|t1 rest IH]; intros Hapart Hlast.
  - cbn. auto.
  - destruct rest as [|t2 rest].
    + cbn. split; [|auto]. apply Hlast. discriminate.
    + destruct Hapart as [Hgap Hrest]. split; [exact Hgap|].
      apply IH; [exact Hrest|]. intros _. apply Hlast. discriminate.
Qed.

Variable cfg : Config.t.
Variable now speed : R.
Variable base : list Output.
Hypothesis speed_nonneg : 0 <= speed.

(** The invariant of a run of frames: the frames rendered so far are paced,
    and the loop remembers the time of the last one. *)
Let paced (s : Animator) : Prop :=
  animationSpeed s = speed /\
  exists new,
    output s = base ++ new /\
    apart (speed / IZR (Config.animationFPS cfg)) (renderTimes new) /\
    match pending s with
    | None => True
    | Some loop =>
      startTime loop = now /\
      (renderTimes new <> [] ->
       last (renderTimes new) 0 = (lastFrameTime loop - now) / 1000 * speed)
    end.

Lemma paced_frame (currentTime : R) (rendered : ImageData.t) (s : Animator) :
  paced s -> paced (animate cfg currentTime rendered s).
Proof.
  intros (Hspeed & new & Hout & Hapart & Hloop). unfold animate.
  destruct (pending s) as [loop|] eqn:Hpending;
    [|split; [exact Hspeed|]; exists new; now rewrite Hpending].
  destruct Hloop as [Hstart Hlast].
  destruct (negb (isAnimating (controls s))).
  { split; [exact Hspeed|]. exists new. cbn [output pending]. auto. }
  cbv zeta. unfold Rltb.
  destruct (Rlt_dec (currentTime - lastFrameTime loop)
              (1000 / IZR (Config.animationFPS cfg))) as [Hearly | Hdue].
  { split; [exact Hspeed|]. exists new. cbn [output pending]. auto. }
  set (elapsed := (currentTime - startTime loop) / 1000 * animationSpeed s).
  assert (apart (speed / IZR (Config.animationFPS cfg))
            (renderTimes new ++ [elapsed])) as Hapart'.
  { apply apart_snoc; [exact Hapart|]. intros Hsome.
    rewrite (Hlast Hsome). unfold elapsed. rewrite Hstart, Hspeed.
    assert (0 <= (currentTime - lastFrameTime loop
                  - 1000 / IZR (Config.animationFPS cfg)) * speed)
      by (apply Rmult_le_pos; lra).
    unfold Rdiv in *. nra. }
  destruct (sampleScreens cfg rendered (animationBrightness s)
              (detectedScreens loop) [] (lastColors s)) as [[colors|] last'].
  - split; [exact Hspeed|].
    exists (new ++ RenderAnimation (currentAnimation s) elapsed
                :: (if (0 <? Z.of_nat (length colors))%Z
                    then [SocketEmit (sendColors colors)] else [])).
    cbn [output pending]. split; [|split; [|split]].
    + rewrite Hout, <- !app_assoc. reflexivity.
    + rewrite renderTimes_app. cbn.
      destruct (0 <? Z.of_nat (length colors))%Z; cbn; exact Hapart'.
    + exact Hstart.
    + intros _. rewrite renderTimes_app.
      replace (renderTimes (RenderAnimation (currentAnimation s) elapsed
                 :: (if (0 <? Z.of_nat (length colors))%Z
                     then [SocketEmit (sendColors colors)] else [])))
        with [elapsed] by (destruct (0 <? Z.of_nat (length colors))%Z; reflexivity).
      rewrite last_last. cbn [lastFrameTime]. unfold elapsed.
      now rewrite Hstart, Hspeed.
  - split; [exact Hspeed|].
    exists (new ++ [RenderAnimation (currentAnimation s) elapsed]).
    cbn [output pending]. split; [|split; [|exact I]].
    + rewrite Hout, <- app_assoc. reflexivity.
    + rewrite renderTimes_app. exact Hapart'.
Qed.

Lemma paced_run (frames : list (R * ImageData.t)) (s : Animator) :
  paced s ->
  paced (run cfg (map (fun f => FrameCallback (fst f) (snd f)) frames) s).
Proof.
  revert s. induction frames as [|[t rendered] frames IH]; intros s Hs.
  - exact Hs.
  - cbn [map]. rewrite run_cons. apply IH. cbn [handle fst snd].
    apply paced_frame, Hs.
Qed.

Lemma paced_start (a : Animator) :
  animationSpeed a = speed -> output a = base ->
  isAnimating (controls a) = false -> pending a = None ->
  paced (startAnimation now a).
Proof.
  intros Hspeed Hout Hidle Hpending. unfold startAnimation. rewrite Hidle.
  cbv zeta. destruct (_ =? _)%Z.
  - split; [exact Hspeed|]. eexists. cbn [output pending].
    rewrite Hout, Hpending. split; [reflexivity|]. cbn. auto.
  - split; [exact Hspeed|]. eexists. cbn [output pending].
    rewrite Hout. split; [reflexivity|]. cbn. split; [exact I|].
    split; [reflexivity|]. intros H. now contradiction H.
Qed.

Lemma paced_output (s : Animator) :
  paced s ->
  exists new, output s = base ++ new /\
    apart (speed / IZR (Config.animationFPS cfg)) (renderTimes new).
Proof. intros (_ & new & Hout & Hapart & _). exists new. auto. Qed.

End FramePacing.

Section FrameLaws.
Local Open Scope R_scope.

(** X28. The animation is paced: with a speed that is not negative, over
    any run of frame callbacks after [startAnimation], the animation times
    of two frames rendered one after the other differ by at least
    [animationSpeed / animationFPS] (the callbacks that rendered them are
    at least [1000 / animationFPS] ms apart), however often the browser
    calls back. *)
Theorem animation_frames_paced (cfg : Config.t) (now : R) (a : Animator)
    (frames : list (R * ImageData.t)) :
  (0 < Config.animationFPS cfg)%Z -> 0 <= animationSpeed a ->
  isAnimating (controls a) = false -> pending a = None ->
  exists new,
    output (run cfg (map (fun f => FrameCallback (fst f) (snd f)) frames)
              (startAnimation now a))
    = output a ++ new /\
    apart (animationSpeed a / IZR (Config.animationFPS cfg)) (renderTimes new).
Proof.
  intros _ Hspeed Hidle Hpending.
  apply (paced_output cfg now (animationSpeed a) (output a)).
  apply paced_run; [exact Hspeed|].
  apply paced_start; auto.
Qed.

Lemma animation_frames_paced_witness :
  ((0 < Config.animationFPS CONFIG)%Z /\
   0 <= animationSpeed (initialAnimator (set_screens detectedPair readyController)) /\
   isAnimating (controls (initialAnimator (set_screens detectedPair readyController)))
     = false /\
   pending (initialAnimator (set_screens detectedPair readyController)) = None) /\
  exists new,
    output (run CONFIG
              (map (fun f => FrameCallback (fst f) (snd f))
                   [(40, whiteCanvas); (50, whiteCanvas); (80, whiteCanvas)])
              (startAnimation 0
                 (initialAnimator (set_screens detectedPair readyController))))
    = output (initialAnimator (set_screens detectedPair readyController)) ++ new /\
    apart (animationSpeed (initialAnimator (set_screens detectedPair readyController))
           / IZR (Config.animationFPS CONFIG)) (renderTimes new).
Proof.
  split; [repeat split; cbn; lra|].
  apply (animation_frames_paced CONFIG 0
           (initialAnimator (set_screens detectedPair readyController))
           [(40, whiteCanvas); (50, whiteCanvas); (80, whiteCanvas)]);
    [reflexivity | cbn; lra | reflexivity | reflexivity].
Defined.

End FrameLaws.

(** ** Delta encoding over a whole animation *)

Section DeltaRun.

Lemma replay_app (shownColors : ColorMap) (sends1 sends2 : list (string * Color.t)) :
  replay shownColors (sends1 ++ sends2)
  = replay (replay shownColors sends1) sends2.
Proof. unfold replay. apply fold_left_app. Qed.

Lemma deltaEncoded_app (shownColors : ColorMap)
    (sends1 sends2 : list (string * Color.t)) :
  deltaEncoded shownColors sends1 ->
  deltaEncoded (replay shownColors sends1) sends2 ->
  deltaEncoded shownColors (sends1 ++ sends2).
Proof.
  revert shownColors.
  induction sends1 as [|[screenId color] sends1 IH]; intros shownColors H1 H2.
  - exact H2.
  - destruct H1 as [Hfirst Hrest]. split; [exact Hfirst|].
    apply IH; [exact Hrest | exact H2].
Qed.

Variable cfg : Config.t.

(** One frame's [forEach]: the colours it adds are delta-encoded against
    [lastColors], and [lastColors] follows them. *)
Lemma sampleScreens_deltas (canvas : ImageData.t) (brightness : R)
    (detected : list Screen.t) :
  forall (colors : list (string * Color.t)) (lastColors : ColorMap)
         (colors' : list (string * Color.t)) (lastColors' : ColorMap),
    sampleScreens cfg canvas brightness detected colors lastColors
    = (Some colors', lastColors') ->
    exists new,
      colors' = colors ++ new /\ lastColors' = replay lastColors new /\
      deltaEncoded lastColors new.
Proof.
  induction detected as [|screen detected IH];
    intros colors lastColors colors' lastColors' Hrun.
  - cbn in Hrun. injection Hrun as <- <-. exists []. rewrite app_nil_r.
    repeat split.
  - cbn [sampleScreens] in Hrun.
    destruct (sampleAreaColor cfg canvas screen) as [color|]; [|discriminate].
    cbv zeta in Hrun.
    set (finalColor := applyBrightness brightness color) in *.
    destruct (Map_get lastColors (Screen.socketId screen)) as [before|] eqn:Hget.
    + destruct (colorDiff before finalColor >? 3)%Z eqn:Hdiff.
      * destruct (IH _ _ _ _ Hrun) as (new & -> & -> & Henc).
        exists ((Screen.socketId screen, finalColor) :: new).
        split; [now rewrite <- app_assoc | split; [reflexivity|]].
        cbn [deltaEncoded]. rewrite Hget. split; [lia | exact Henc].
      * apply (IH _ _ _ _ Hrun).
    + destruct (IH _ _ _ _ Hrun) as (new & -> & -> & Henc).
      exists ((Screen.socketId screen, finalColor) :: new).
      split; [now rewrite <- app_assoc | split; [reflexivity|]].
      cbn [deltaEncoded]. rewrite Hget. split; [exact I | exact Henc].
Qed.

Variable base : list Output.

(** The invariant of a running animation: what was sent is delta-encoded,
    and, while a frame is pending, [lastColors] holds what the screens
    show. *)
Let encoding (s : Animator) : Prop :=
  isAnimating (controls s) = true /\
  exists new,
    output s = base ++ new /\
    deltaEncoded [] (sentColors new) /\
    (pending s = None \/ lastColors s = replay [] (sentColors new)).

Lemma encoding_frame (currentTime : R) (rendered : ImageData.t) (s : Animator) :
  encoding s -> encoding (animate cfg currentTime rendered s).
Proof.
  intros (Hrun & new & Hout & Henc & Hlast). unfold animate.
  destruct (pending s) as [loop|] eqn:Hpending;
    [|split; [exact Hrun|]; exists new; rewrite Hpending; auto].
  destruct Hlast as [Hnone | Hlast]; [discriminate|].
  rewrite Hrun. cbn [negb]. cbv zeta.
  destruct (Rltb _ _).
  { split; [exact Hrun|]. exists new. cbn [output pending lastColors]. auto. }
  destruct (sampleScreens cfg rendered (animationBrightness s)
              (detectedScreens loop) [] (lastColors s))
    as [[colors|] last'] eqn:Hsample.
  - destruct (sampleScreens_deltas _ _ _ _ _ _ _ Hsample)
      as (sends & Hcolors & Hlast' & Hdeltas).
    cbn [app] in Hcolors. subst colors.
    split; [exact Hrun|].
    eexists. cbn [output pending lastColors controls].
    split; [rewrite Hout, <- app_assoc; reflexivity|].
    assert (sentColors
              (new ++ [RenderAnimation (currentAnimation s)
                         ((currentTime - startTime loop) / 1000
                          * animationSpeed s)%R]
                   ++ (if (0 <? Z.of_nat (length sends))%Z
                       then [SocketEmit (sendColors sends)] else []))
            = sentColors new ++ sends) as ->.
    { rewrite !sentColors_app. cbn [sentColors flat_map app].
      destruct sends; cbn; now rewrite ?app_nil_r. }
    split.
    + apply deltaEncoded_app; [exact Henc | now rewrite <- Hlast].
    + right. now rewrite replay_app, <- Hlast.
  - split; [exact Hrun|]. eexists. cbn [output pending lastColors controls].
    split; [rewrite Hout, <- app_assoc; reflexivity|].
    rewrite sentColors_app. cbn. rewrite app_nil_r. auto.
Qed.

Lemma encoding_step (e : Event) (s : Animator) :
  keepsRunning e = true -> encoding s -> encoding (handle cfg e s).
Proof.
  intros He Hs. destruct e; try discriminate He; cbn [handle].
  - rewrite startAnimation_running; [exact Hs | apply Hs].
  - destruct Hs as (Hrun & new & Hout & Henc & Hlast).
    split; [exact Hrun|]. exists new. auto.
  - destruct Hs as (Hrun & new & Hout & Henc & Hlast).
    split; [exact Hrun|]. exists new. auto.
  - destruct Hs as (Hrun & new & Hout & Henc & Hlast).
    split; [cbn [controls]; now rewrite isAnimating_updateControls|].
    exists (new ++ [Log "[CONTROLLER] Screen list updated:"]).
    cbn [output pending lastColors].
    split; [rewrite Hout, <- app_assoc; reflexivity|].
    rewrite sentColors_app. cbn. rewrite app_nil_r. auto.
  - apply encoding_frame, Hs.
Qed.

Lemma encoding_start (now : R) (a : Animator) :
  output a = base -> isAnimating (controls a) = false -> pending a = None ->
  encoding (startAnimation now a).
Proof.
  intros Hout Hidle Hpending. unfold startAnimation. rewrite Hidle. cbv zeta.
  destruct (_ =? _)%Z.
  - split; [reflexivity|]. eexists. cbn [output pending lastColors].
    rewrite Hout. split; [reflexivity|]. cbn. auto.
  - split; [reflexivity|]. eexists. cbn [output pending lastColors].
    rewrite Hout. split; [reflexivity|]. cbn. auto.
Qed.

Lemma encoding_output (s : Animator) :
  encoding s ->
  exists new, output s = base ++ new /\ deltaEncoded [] (sentColors new).
Proof. intros (_ & new & Hout & Henc & _). exists new. auto. Qed.

End DeltaRun.

Section DeltaRunLaws.

(** X29. Over a whole animation the screens are only sent changes: after
    [startAnimation], whatever frames, slider inputs and screen lists
    follow, every colour that a [sendColors] message carries for a screen
    differs by more than 3, in [colorDiff], from the colour sent to that
    screen before, if there was one. *)
Theorem animation_sends_deltas (cfg : Config.t) (now : R) (a : Animator)
    (events : list Event) :
  isAnimating (controls a) = false -> pending a = None ->
  Forall (fun e => keepsRunning e = true) events ->
  exists new,
    output (run cfg events (startAnimation now a)) = output a ++ new /\
    deltaEncoded [] (sentColors new).
Proof.
  intros Hidle Hpending Hevents.
  apply (encoding_output (output a)).
  pose proof (encoding_start (output a) now a eq_refl Hidle Hpending) as Hstart.
  revert Hstart. generalize (startAnimation now a).
  induction Hevents as [|e events He _ IH]; intros s Hs; [exact Hs|].
  rewrite run_cons. apply IH. apply encoding_step; assumption.
Qed.

Lemma animation_sends_deltas_witness :
  (isAnimating (controls (initialAnimator (set_screens detectedPair readyController)))
     = false /\
   pending (initialAnimator (set_screens detectedPair readyController)) = None /\
   Forall (fun e => keepsRunning e = true)
     [FrameCallback 40 whiteCanvas; BrightnessInput 0.5;
      FrameCallback 80 whiteCanvas]) /\
  exists new,
    output (run CONFIG
              [FrameCallback 40 whiteCanvas; BrightnessInput 0.5;
               FrameCallback 80 whiteCanvas]
              (startAnimation 0
                 (initialAnimator (set_screens detectedPair readyController))))
    = output (initialAnimator (set_screens detectedPair readyController)) ++ new /\
    deltaEncoded [] (sentColors new).
Proof.
  assert (Forall (fun e => keepsRunning e = true)
            [FrameCallback 40 whiteCanvas; BrightnessInput 0.5;
             FrameCallback 80 whiteCanvas]) as Hevents
    by (repeat constructor).
  split; [repeat split; exact Hevents|].
  apply (animation_sends_deltas CONFIG 0
           (initialAnimator (set_screens detectedPair readyController))
           [FrameCallback 40 whiteCanvas; BrightnessInput 0.5;
            FrameCallback 80 whiteCanvas]);
    [reflexivity | reflexivity | exact Hevents].
Defined.

End DeltaRunLaws.

(** ** Stopping the animation *)

Section StopRun.

Variable cfg : Config.t.

(** In every state that the events lead to, a pending frame callback is
    one that [animationFrame] holds the handle of. *)
Let tracked (s : Animator) : Prop :=
  animationFrame s = false -> pending s = None.

Lemma tracked_stop (s : Animator) : tracked s -> pending (stopAnimation s) = None.
Proof.
  intros Hs. unfold stopAnimation. cbn [pending].
  destruct (animationFrame s) eqn:E; [reflexivity | apply Hs, E].
Qed.

Lemma tracked_step (e : Event) (s : Animator) :
  tracked s -> tracked (handle cfg e s).
Proof.
  intros Hs. destruct e; cbn [handle].
  - unfold startAnimation. destruct (isAnimating (controls s)); [exact Hs|].
    cbv zeta. destruct (_ =? _)%Z; [exact Hs | intros H; discriminate H].
  - intros _. apply tracked_stop, Hs.
  - intros _. apply (tracked_stop s Hs).
  - intros _. rewrite triggerBang_run. apply (tracked_stop s Hs).
  - exact Hs.
  - exact Hs.
  - exact Hs.
  - unfold animate. destruct (pending s) as [loop|] eqn:Hpending;
      [|intros _; exact Hpending].
    destruct (negb (isAnimating (controls s))); [intros _; reflexivity|].
    cbv zeta. destruct (Rltb _ _); [intros H; discriminate H|].
    destruct (sampleScreens _ _ _ _ _ _) as [[colors|] last'];
      [intros H; discriminate H | intros _; reflexivity].
Qed.

Lemma tracked_run (events : list Event) (s : Animator) :
  tracked s -> tracked (run cfg events s).
Proof.
  revert s. induction events as [|e events IH]; intros s Hs; [exact Hs|].
  rewrite run_cons. apply IH, tracked_step, Hs.
Qed.

Lemma tracked_initial (c : Controller) : tracked (initialAnimator c).
Proof. intros _. reflexivity. Qed.

(** A stopped animation stays stopped under quiet events, and shows
    nothing. *)
Lemma stopped_step (e : Event) (s : Animator) :
  quiet e = true ->
  isAnimating (controls s) = false /\ pending s = None /\ lastColors s = [] ->
  (isAnimating (controls (handle cfg e s)) = false /\
   pending (handle cfg e s) = None /\ lastColors (handle cfg e s) = []) /\
  shown (output (handle cfg e s)) = shown (output s).
Proof.
  intros He (Hidle & Hpending & Hlast).
  destruct e; try discriminate He; cbn [handle].
  - unfold stopAnimation. cbn [controls pending lastColors output].
    rewrite Hpending, shown_app. cbn. rewrite app_nil_r.
    now destruct (animationFrame s).
  - cbn [controls pending lastColors output]. auto.
  - cbn [controls pending lastColors output]. auto.
  - cbn [controls pending lastColors output].
    rewrite isAnimating_updateControls, shown_app. cbn. rewrite app_nil_r.
    auto.
  - rewrite animate_idle by exact Hpending. auto.
Qed.

Lemma stopped_run (events : list Event) (s : Animator) :
  Forall (fun e => quiet e = true) events ->
  isAnimating (controls s) = false /\ pending s = None /\ lastColors s = [] ->
  (isAnimating (controls (run cfg events s)) = false /\
   pending (run cfg events s) = None /\ lastColors (run cfg events s) = []) /\
  shown (output (run cfg events s)) = shown (output s).
Proof.
  intros Hall. revert s.
  induction Hall as [|e events He _ IH]; intros s Hs; [auto|].
  rewrite run_cons.
  destruct (stopped_step e s He Hs) as [Hs' Hshown].
  destruct (IH _ Hs') as [Hstate Hshown'].
  split; [exact Hstate | congruence].
Qed.

End StopRun.

Section StopLaws.

(** X30. A blackout ends the animation loop for good.  After any sequence
    of play, stop, blackout and bang clicks, slider inputs, screen lists and
    [animate] callbacks from the initial state, a click on blackout
    broadcasts black and leaves no [animate] callback behind: whatever
    [animate] callbacks, slider inputs, screen lists and stop clicks follow,
    the loop renders nothing, sends nothing and hands nothing to a timer,
    and [lastColors] stays empty.  The audio beat mode is not part of these
    events: the frames of a one-shot that it started, like the timeouts of
    an earlier bang, are not cancelled by a blackout. *)
Theorem blackout_ends_animation (cfg : Config.t) (c : Controller)
    (before after : list Event) :
  Forall (fun e => quiet e = true) after ->
  let a := run cfg before (initialAnimator c) in
  let a' := run cfg (before ++ BlackoutClicked :: after) (initialAnimator c) in
  (isAnimating (controls a') = false /\ pending a' = None /\
   lastColors a' = []) /\
  shown (output a') = shown (output a) ++ [SocketEmit (broadcast black)].
Proof.
  intros Hafter. cbv zeta. rewrite run_app, run_cons.
  set (a := run cfg before (initialAnimator c)).
  assert (pending (stopAnimation a) = None) as Hpending.
  { apply tracked_stop. unfold a. apply tracked_run, tracked_initial. }
  cbn [handle].
  destruct (stopped_run cfg after (blackout a) Hafter) as [Hstate Hshown].
  { unfold blackout, emit. cbn [controls pending lastColors].
    repeat split. exact Hpending. }
  split; [exact Hstate|]. rewrite Hshown.
  unfold blackout, emit, stopAnimation. cbn [output].
  rewrite !shown_app. cbn. now rewrite app_nil_r.
Qed.

Lemma blackout_ends_animation_witness :
  Forall (fun e => quiet e = true) [FrameCallback 80 whiteCanvas; StopClicked] /\
  let a := run CONFIG [ScreenList detectedPair; PlayClicked 0;
                       FrameCallback 40 whiteCanvas]
             (initialAnimator readyController) in
  let a' := run CONFIG
              ([ScreenList detectedPair; PlayClicked 0;
                FrameCallback 40 whiteCanvas]
               ++ BlackoutClicked :: [FrameCallback 80 whiteCanvas; StopClicked])
              (initialAnimator readyController) in
  (isAnimating (controls a') = false /\ pending a' = None /\
   lastColors a' = []) /\
  shown (output a') = shown (output a) ++ [SocketEmit (broadcast black)].
Proof.
  assert (Forall (fun e => quiet e = true)
            [FrameCallback 80 whiteCanvas; StopClicked]) as Hafter
    by (repeat constructor).
  split; [exact Hafter|].
  apply (blackout_ends_animation CONFIG readyController
           [ScreenList detectedPair; PlayClicked 0; FrameCallback 40 whiteCanvas]
           [FrameCallback 80 whiteCanvas; StopClicked] Hafter).
Defined.

End StopLaws.
